(** * ttalk-lang: bytecode compiler and stack VM

    A shallow embedding of [src/compiler.ts] and [src/vm.ts] (with the node
    types of [src/ast.ts] and the token types of [src/lexer.ts]), followed by
    the properties of the compiler and of the virtual machine.  The front
    end ([src/lexer.ts], [src/parser.ts]), the JavaScript back end
    ([src/compiler-js.ts]) and the [dis] and [run] commands of
    [src/index.ts] are embedded after them, with their properties after
    those of the compiler and of the VM.  The evaluation of a program on its
    syntax tree ([meaning]) closes the definitions; the last part of the
    file proves that the VM computes it when it runs the compiled program.

    Conventions of the embedding.
    - JavaScript numbers that the program manipulates are integers (the lexer
      builds literals with [parseInt] and the only arithmetic is [+], [-] and
      negation); they are modelled as [Z], which is exact as long as the
      values stay within the safe-integer range of a double.  The properties
      that state the value or the rendering of a number are stated within
      that range ([safeInteger]).
    - A thrown string is modelled by a constructor of [Error] that keeps the
      interpolated fields of the message.
    - [Opcode] is a numeric TypeScript enum: an instruction stream is an array
      of numbers in which opcodes and operands are mixed, hence [list Z].
    - A source text is a [string] whose characters are the code units of the
      JavaScript string (code units below 256), so the character classes of
      the lexer are tests on [nat_of_ascii].
    - The recursive descent of the parser and the loops of the tokenizer run
      on fuel; running out of fuel is a third outcome, distinct from a
      result and from a thrown [SyntaxError], and the properties give the
      fuel that is enough. *)

From stdpp Require Import base numbers list strings pretty.
From Stdlib Require Import ZArith Lia Ascii.

Set Default Proof Using "Type".

(** ** Tokens and syntax trees ([lexer.ts], [ast.ts]) *)

Module TokenType.
Inductive t :=
| int | string | ident | const | def | print | plus | minus | star | slash
| eq | lparen | rparen | lbrace | rbrace | comma | eof.
End TokenType.

(** [AstNode] of ast.ts.  An [IdentNode] that is a field of a declaration
    ([ValDeclNode.ident], [FuncDeclNode.name], [FuncDeclNode.params]) is used
    by the compiler through its [name] only and is kept as that string. *)
#[local] Unset Elimination Schemes.
Inductive AstNode :=
| IntLit (value : Z)
| StringLit (value : string)
| Ident (name : string)
| Unary (op : TokenType.t) (expr : AstNode)
| Binary (op : TokenType.t) (left_ right_ : AstNode)
| Invoke (target : AstNode) (args : list AstNode)
| ValDecl (ident : string) (value : AstNode)
| FuncDecl (name : string) (params : list string) (body : list AstNode)
| Print (expr : AstNode).
#[local] Set Elimination Schemes.

Definition isExpr (node : AstNode) : bool :=
  match node with
  | IntLit _ | StringLit _ | Ident _ | Unary _ _ | Binary _ _ _ | Invoke _ _ => true
  | ValDecl _ _ | FuncDecl _ _ _ | Print _ => false
  end.

(** ** Opcodes and values ([compiler.ts]) *)

Module Opcode.
Inductive t :=
| const0 | const1 | const2 | constant | neg | add | sub | load | store
| print | invoke | pop | nil | return_.
End Opcode.

Global Instance Opcode_eq_dec : EqDecision Opcode.t.
Proof. solve_decision. Defined.

(** The number a member of the enum stands for. *)
Definition byte (op : Opcode.t) : Z :=
  match op with
  | Opcode.const0 => 0 | Opcode.const1 => 1 | Opcode.const2 => 2
  | Opcode.constant => 3 | Opcode.neg => 4 | Opcode.add => 5 | Opcode.sub => 6
  | Opcode.load => 7 | Opcode.store => 8 | Opcode.print => 9
  | Opcode.invoke => 10 | Opcode.pop => 11 | Opcode.nil => 12
  | Opcode.return_ => 13
  end%Z.

(** The [case] of a [switch (op)] over the enum that a number selects, if any. *)
Definition decode (b : Z) : option Opcode.t :=
  match b with
  | 0 => Some Opcode.const0 | 1 => Some Opcode.const1 | 2 => Some Opcode.const2
  | 3 => Some Opcode.constant | 4 => Some Opcode.neg | 5 => Some Opcode.add
  | 6 => Some Opcode.sub | 7 => Some Opcode.load | 8 => Some Opcode.store
  | 9 => Some Opcode.print | 10 => Some Opcode.invoke | 11 => Some Opcode.pop
  | 12 => Some Opcode.nil | 13 => Some Opcode.return_
  | _ => None
  end%Z.

(** [opcodeMeta[op].args] *)
Definition opcodeArgs (op : Opcode.t) : nat :=
  match op with
  | Opcode.constant | Opcode.load | Opcode.store | Opcode.invoke => 1
  | _ => 0
  end.

Inductive Value :=
| VNumber (value : Z)
| VString (value : string)
| VNil
| VFunction (name : string) (code : list Z).

(** [val.type] *)
Inductive VType := TNumber | TString | TNil | TFunction.

Definition typeOf (v : Value) : VType :=
  match v with
  | VNumber _ => TNumber
  | VString _ => TString
  | VNil => TNil
  | VFunction _ _ => TFunction
  end.

(** A value of the constant pool is a JavaScript object: besides its fields
    it has an identity, the address it was allocated at. *)
Record Obj := { addr : nat; val : Value }.

(** lodash's [eq(value, other)] is the SameValueZero comparison
    [value === other || (value !== value && other !== other)].  Its second
    disjunct only concerns [NaN]; on two objects [===] compares references. *)
Module Lodash.
Definition eq (value other : Obj) : bool := bool_decide (addr value = addr other).
End Lodash.

(** The result of arithmetic on something read from an instruction stream:
    an integer, or [NaN] when an operand was [undefined] (read past the end). *)
Inductive Key := KInt (z : Z) | KNaN.

Global Instance Key_eq_dec : EqDecision Key.
Proof. solve_decision. Defined.

Inductive Error :=
(* compiler *)
| UnknownIdentifier (name : string)             (* Unknown identifier ${name} *)
| DuplicateIdentifier (name : string)           (* Duplicate identifier ${name} *)
| UnknownOperator (op : TokenType.t)            (* Unknown operator ${node.op} *)
(* VM *)
| ConstantIndexOutOfRange (constIdx : option Z) (* Index ${constIdx} out of bounds for constant pool *)
| LoadIndexOutOfRange (slotIdx : option Z)      (* Index ${slotIdx} out of bounds for stack (load) *)
| StoreIndexOutOfRange (slotIdx : Key)          (* Index ${slotIdx} out of bounds for stack (store) *)
| NegTypeMismatch (t : VType)                   (* Unexpected type ${val.type} for operator - *)
| AddTypeMismatch (l r : VType)                 (* Unexpected types ... for operator + *)
| SubTypeMismatch (l r : VType)                 (* Unexpected types ... for operator - *)
| NotInvocable (t : VType)                      (* Cannot invoke type ${target.type} as function *)
| EmptyStack.                                   (* Empty stack *)

(** The two out-of-bounds messages for the value stack are one kind of the
    error taxonomy. *)
Definition isStackIndexError (e : Error) : bool :=
  match e with
  | LoadIndexOutOfRange _ | StoreIndexOutOfRange _ => true
  | _ => false
  end.

Record Module := mkModule { constants : list Value; code : list Z }.
(** The two fields under names that the records of the compiler and of the VM
    do not shadow. *)
Definition moduleConstants (m : Module) : list Value := constants m.
Definition moduleCode (m : Module) : list Z := code m.

(** Result of a compiler method: it returns, or a string is thrown. *)
Inductive Res (A : Type) :=
| Ok (a : A)
| Throw (e : Error).
Arguments Ok {A} a.
Arguments Throw {A} e.

Definition bind {A B} (r : Res A) (k : A → Res B) : Res B :=
  match r with
  | Ok a => k a
  | Throw e => Throw e
  end.

Notation "'do' x <- r ; k" := (bind r (λ x, k))
  (at level 10, x name, r at level 100, k at level 200, only parsing).

(** ** The compiler ([class Compiler] of compiler.ts) *)

Module Local.
Record t := mk { name : string; depth : nat }.
End Local.

Module Compiler.

Record State := mk {
  constants : list Obj;
  locals : list Local.t;
  code : list Z;
  depth : nat;
  (* address of the next object literal to be evaluated *)
  nextAddr : nat
}.

(** The fields of a fresh [Compiler]. *)
Definition init : State := mk [] [] [] 0 0.

Definition withCode (c : list Z) (st : State) : State :=
  mk (constants st) (locals st) c (depth st) (nextAddr st).
Definition withDepth (d : nat) (st : State) : State :=
  mk (constants st) (locals st) (code st) d (nextAddr st).
Definition withLocals (ls : list Local.t) (st : State) : State :=
  mk (constants st) ls (code st) (depth st) (nextAddr st).

(** [this.code.push(...bytes)] *)
Definition emit (bytes : list Z) (st : State) : State :=
  withCode (code st ++ bytes) st.

(** Evaluation of an object literal [{ type: ..., ... }]: a new object. *)
Definition alloc (v : Value) (st : State) : Obj * State :=
  ({| addr := nextAddr st; val := v |},
   mk (constants st) (locals st) (code st) (depth st) (S (nextAddr st))).

(** The [for] loop of [addConstant], from index [i] on. *)
Fixpoint scanConstants (value : Obj) (cs : list Obj) (i : nat) : option nat :=
  match cs with
  | [] => None
  | c :: rest =>
      if Lodash.eq value c then Some i else scanConstants value rest (S i)
  end.

Definition addConstant (value : Obj) (st : State) : nat * State :=
  match scanConstants value (constants st) 0 with
  | Some i => (i, st)
  | None =>
      let cs := constants st ++ [value] in
      (length cs - 1,
       mk cs (locals st) (code st) (depth st) (nextAddr st))
  end.

(** [this.locals.push({ name, depth: this.depth })] *)
Definition pushLocal (name : string) (st : State) : State :=
  withLocals (locals st ++ [Local.mk name (depth st)]) st.

(** [this.locals.filter(({ depth }) => depth === this.depth)] *)
Definition localsAtDepth (st : State) : list Local.t :=
  filter (λ l, Local.depth l = depth st) (locals st).

(** The loop of [visitIdent], [for (let i = ...; i >= 0; i--)], with [i]
    the number of indices still to examine: it looks at [i - 1] first. *)
Fixpoint scanLocals (name : string) (locals : list Local.t) (i : nat) : option nat :=
  match i with
  | 0 => None
  | S j =>
      match locals !! j with
      | Some local =>
          if bool_decide (Local.name local = name) then Some j
          else scanLocals name locals j
      | None => scanLocals name locals j
      end
  end.

Definition visitIdent (name : string) (st : State) : Res State :=
  let locals := localsAtDepth st in
  match scanLocals name locals (length locals) with
  | Some i => Ok (emit [byte Opcode.load; Z.of_nat i] st)
  | None => Throw (UnknownIdentifier name)
  end.

(** [this.locals.some(local => local.name === name && local.depth === this.depth)] *)
Definition alreadyExists (name : string) (st : State) : bool :=
  existsb (λ local, bool_decide (Local.name local = name)
                    && bool_decide (Local.depth local = depth st)) (locals st).

(** The loop of [visitFuncDecl] that drops the locals of the function:
    [n] times [this.locals.pop(); this.emit(Opcode.pop)]. *)
Fixpoint popLocals (n : nat) (st : State) : State :=
  match n with
  | 0 => st
  | S n' => popLocals n' (emit [byte Opcode.pop] (withLocals (removelast (locals st)) st))
  end.

Definition visitIntLit (value : Z) (st : State) : Res State :=
  if bool_decide (value = 0%Z) then Ok (emit [(byte Opcode.const0 + value)%Z] st)
  else
    let '(o, st) := alloc (VNumber value) st in
    let '(constIdx, st) := addConstant o st in
    Ok (emit [byte Opcode.constant; Z.of_nat constIdx] st).

Definition visitStringLit (value : string) (st : State) : Res State :=
  let '(o, st) := alloc (VString value) st in
  let '(constIdx, st) := addConstant o st in
  Ok (emit [byte Opcode.constant; Z.of_nat constIdx] st).

(** What [compileBlock] emits after [this.visit(node)]. *)
Definition afterNode (node : AstNode) (isLast : bool) (st : State) : State :=
  let isExpression := isExpr node in
  let st := if isExpression && negb isLast then emit [byte Opcode.pop] st else st in
  if negb isExpression && isLast then emit [byte Opcode.nil] st else st.

(** What [visitFuncDecl] does once the body is compiled. *)
Definition finishFunc (name : string) (origCode : list Z) (origDepth : nat)
    (st : State) : State :=
  let st := emit [byte Opcode.store; 0%Z] st in
  let numLocals := length (localsAtDepth st) in
  let st := popLocals (numLocals - 1) st in
  let st := withLocals (removelast (locals st)) st in
  let st := emit [byte Opcode.return_] st in
  let fnCode := code st in
  let st := withDepth origDepth (withCode origCode st) in
  let st := pushLocal name st in
  let '(o, st) := alloc (VFunction name fnCode) st in
  let '(constIdx, st) := addConstant o st in
  emit [byte Opcode.constant; Z.of_nat constIdx] st.

(** What [visitFuncDecl] does before the body is compiled. *)
Definition enterFunc (params : list string) (st : State) : State :=
  let st := withDepth (S (depth st)) (withCode [] st) in
  let st := pushLocal "#ret" st in
  fold_left (λ st param, pushLocal param st) params st.

(** [Visitor.visit] with the nine [visit...] methods; the two loops over
    child nodes ([for (const arg of node.args)] and [compileBlock]) are
    local fixpoints, given their own names below. *)
Fixpoint visit (node : AstNode) (st : State) {struct node} : Res State :=
  match node with
  | IntLit value => visitIntLit value st
  | StringLit value => visitStringLit value st
  | Ident name => visitIdent name st
  | Unary op expr =>
      do st <- visit expr st ;
      match op with
      | TokenType.minus => Ok (emit [byte Opcode.neg] st)
      | _ => Throw (UnknownOperator op)
      end
  | Binary op left_ right_ =>
      do st <- visit left_ st ;
      do st <- visit right_ st ;
      match op with
      | TokenType.plus => Ok (emit [byte Opcode.add] st)
      | TokenType.minus => Ok (emit [byte Opcode.sub] st)
      | _ => Throw (UnknownOperator op)
      end
  | Invoke target args =>
      let st := emit [byte Opcode.nil] st in
      do st <- (fix visitAll (nodes : list AstNode) (st : State) : Res State :=
               match nodes with
               | [] => Ok st
               | arg :: rest => do st <- visit arg st ; visitAll rest st
               end) args st ;
      do st <- visit target st ;
      Ok (emit [byte Opcode.invoke; Z.of_nat (length args)] st)
  | ValDecl name value =>
      if alreadyExists name st then Throw (DuplicateIdentifier name)
      else
        do st <- visit value st ;
        Ok (pushLocal name st)
  | FuncDecl name params body =>
      if alreadyExists name st then Throw (DuplicateIdentifier name)
      else
        let origCode := code st in
        let origDepth := depth st in
        do st <- (fix block (nodes : list AstNode) (st : State) : Res State :=
                 match nodes with
                 | [] => Ok st
                 | node :: rest =>
                     do st <- visit node st ;
                     block rest (afterNode node (bool_decide (rest = [])) st)
                 end) body (enterFunc params st) ;
        Ok (finishFunc name origCode origDepth st)
  | Print expr =>
      do st <- visit expr st ;
      Ok (emit [byte Opcode.print] st)
  end.

(** The argument loop of [visitInvoke]. *)
Fixpoint visitAll (nodes : list AstNode) (st : State) : Res State :=
  match nodes with
  | [] => Ok st
  | arg :: rest => do st <- visit arg st ; visitAll rest st
  end.

(** [compileBlock]: in the loop [isLast] is [i === nodes.length - 1], that
    is, no node follows. *)
Fixpoint compileBlock (nodes : list AstNode) (st : State) : Res State :=
  match nodes with
  | [] => Ok st
  | node :: rest =>
      do st <- visit node st ;
      compileBlock rest (afterNode node (bool_decide (rest = [])) st)
  end.

Definition visitUnary (op : TokenType.t) (expr : AstNode) (st : State) : Res State :=
  do st <- visit expr st ;
  match op with
  | TokenType.minus => Ok (emit [byte Opcode.neg] st)
  | _ => Throw (UnknownOperator op)
  end.

Definition visitBinary (op : TokenType.t) (left_ right_ : AstNode) (st : State) : Res State :=
  do st <- visit left_ st ;
  do st <- visit right_ st ;
  match op with
  | TokenType.plus => Ok (emit [byte Opcode.add] st)
  | TokenType.minus => Ok (emit [byte Opcode.sub] st)
  | _ => Throw (UnknownOperator op)
  end.

Definition visitInvoke (target : AstNode) (args : list AstNode) (st : State) : Res State :=
  let st := emit [byte Opcode.nil] st in
  do st <- visitAll args st ;
  do st <- visit target st ;
  Ok (emit [byte Opcode.invoke; Z.of_nat (length args)] st).

Definition visitValDecl (name : string) (value : AstNode) (st : State) : Res State :=
  if alreadyExists name st then Throw (DuplicateIdentifier name)
  else
    do st <- visit value st ;
    Ok (pushLocal name st).

Definition visitFuncDecl (name : string) (params : list string) (body : list AstNode)
    (st : State) : Res State :=
  if alreadyExists name st then Throw (DuplicateIdentifier name)
  else
    let origCode := code st in
    let origDepth := depth st in
    do st <- compileBlock body (enterFunc params st) ;
    Ok (finishFunc name origCode origDepth st).

Definition visitPrint (expr : AstNode) (st : State) : Res State :=
  do st <- visit expr st ;
  Ok (emit [byte Opcode.print] st).

(** [compile()] of a compiler whose parser produced [nodes].  The VM never
    compares references, so the module keeps the fields of each constant. *)
Definition compile (nodes : list AstNode) : Res Module :=
  do st <- compileBlock nodes init ;
  let st := emit [byte Opcode.return_] st in
  Ok (mkModule (map val (constants st)) (code st)).

End Compiler.

(** ** The virtual machine ([vm.ts]) *)

Definition valueToString (val : Value) : string :=
  match val with
  | VNumber value => pretty value
  | VString value => value
  | VNil => "nil"
  | VFunction name _ => "<#fn " +:+ name +:+ ">"
  end.

Module VM.

Record CallFrame := mkFrame { ip : nat; code : list Z; stackOffset : Key }.

(** The value stack is a JavaScript array.  [elems] are its elements, index
    0 first.  An assignment [stack[k] = v] whose key is not an array index
    (a negative number, [NaN]) creates an ordinary property and leaves the
    elements and [length] alone; [props] are these properties. *)
Record JsArray := mkArr { elems : list Value; props : list (Key * Value) }.

(** The fields of a [VM].  [callStack] holds a frame from the constructor
    on and [return] never removes the last one: the frame on top,
    [currentFrame], is kept apart from the frames below it, [callers]
    (innermost first), so [callStack.length] is [S (length callers)]. *)
Record State := mk {
  module : Module;
  currentFrame : CallFrame;
  callers : list CallFrame;
  stack : JsArray;
  halted : bool;
  (* the lines written by [console.log], oldest first *)
  output : list string
}.

(** [new VM(module)] *)
Definition new (m : Module) : State :=
  mk m (mkFrame 0 (moduleCode m) (KInt 0)) [] (mkArr [] []) false [].

Definition withFrame (f : CallFrame) (vm : State) : State :=
  mk (module vm) f (callers vm) (stack vm) (halted vm) (output vm).
Definition withStack (s : JsArray) (vm : State) : State :=
  mk (module vm) (currentFrame vm) (callers vm) s (halted vm) (output vm).

(** Outcome of [handleInstr]: it returns, or a string is thrown; the VM
    object keeps the state it had when the string was thrown. *)
Inductive Outcome :=
| Done (vm : State)
| Fail (e : Error) (vm : State).

(** [this.currentFrame.code[this.currentFrame.ip++]]; [None] is [undefined]. *)
Definition readByte (vm : State) : option Z * State :=
  let f := currentFrame vm in
  (code f !! ip f, withFrame (mkFrame (S (ip f)) (code f) (stackOffset f)) vm).

(** [slotIdx + stackOffset] *)
Definition keyAdd (a : option Z) (k : Key) : Key :=
  match a, k with
  | Some x, KInt y => KInt (x + y)
  | _, _ => KNaN
  end.

(** [length - 1 - arity] *)
Definition frameBase (length : nat) (arity : option Z) : Key :=
  match arity with
  | Some a => KInt (Z.of_nat length - 1 - a)
  | None => KNaN
  end.

(** [k >= length]; a comparison with [NaN] is false. *)
Definition keyGe (k : Key) (length : nat) : bool :=
  match k with
  | KInt z => bool_decide (Z.of_nat length ≤ z)%Z
  | KNaN => false
  end.

Fixpoint propGet (k : Key) (ps : list (Key * Value)) : option Value :=
  match ps with
  | [] => None
  | (k', v) :: rest => if decide (k' = k) then Some v else propGet k rest
  end.

Fixpoint propSet (k : Key) (v : Value) (ps : list (Key * Value)) : list (Key * Value) :=
  match ps with
  | [] => [(k, v)]
  | (k', v') :: rest =>
      if decide (k' = k) then (k, v) :: rest else (k', v') :: propSet k v rest
  end.

(** [a[k]]; [None] is [undefined]. *)
Definition arrGet (k : Key) (a : JsArray) : option Value :=
  match k with
  | KInt z => if bool_decide (0 ≤ z)%Z then elems a !! Z.to_nat z else propGet k (props a)
  | KNaN => propGet k (props a)
  end.

(** [a[k] = v] for a key that is at most [a.length], which is the case in
    [store] (a larger index would leave holes in the array): an index below
    the length overwrites, the length itself appends. *)
Definition arrSet (k : Key) (v : Value) (a : JsArray) : JsArray :=
  match k with
  | KInt z =>
      if bool_decide (0 ≤ z)%Z then
        if bool_decide (Z.to_nat z < length (elems a)) then
          mkArr (<[Z.to_nat z := v]> (elems a)) (props a)
        else mkArr (elems a ++ [v]) (props a)
      else mkArr (elems a) (propSet k v (props a))
  | KNaN => mkArr (elems a) (propSet k v (props a))
  end.

(** [a.pop()]: the last element, removed; [undefined] on an empty array. *)
Definition arrPop (a : JsArray) : option Value * JsArray :=
  match last (elems a) with
  | Some v => (Some v, mkArr (removelast (elems a)) (props a))
  | None => (None, a)
  end.

(** [push(val)] *)
Definition push (val : Value) (vm : State) : State :=
  withStack (mkArr (elems (stack vm) ++ [val]) (props (stack vm))) vm.

(** [pop()], followed by what is done with the value it returns. *)
Definition pop (vm : State) (k : Value → State → Outcome) : Outcome :=
  match arrPop (stack vm) with
  | (Some val, s) => k val (withStack s vm)
  | (None, _) => Fail EmptyStack vm
  end.

(** [this.module.constants[constIdx]] *)
Definition constantAt (m : Module) (constIdx : option Z) : option Value :=
  match constIdx with
  | Some i => if bool_decide (0 ≤ i)%Z then constants m !! Z.to_nat i else None
  | None => None
  end.

Definition isString (v : Value) : bool :=
  match v with VString _ => true | _ => false end.

Definition handleInstr (vm : State) : Outcome :=
  let '(op, vm) := readByte vm in
  match op with
  | None => Done vm (* [undefined] selects no case *)
  | Some b =>
      match decode b with
      | None => Done vm
      | Some (Opcode.const0 | Opcode.const1 | Opcode.const2) =>
          Done (push (VNumber (byte Opcode.const0 + b)) vm)
      | Some Opcode.constant =>
          let '(constIdx, vm) := readByte vm in
          match constantAt (module vm) constIdx with
          | Some c => Done (push c vm)
          | None => Fail (ConstantIndexOutOfRange constIdx) vm
          end
      | Some Opcode.neg =>
          pop vm (λ val vm,
            match val with
            | VNumber value => Done (push (VNumber (- value)) vm)
            | _ => Fail (NegTypeMismatch (typeOf val)) vm
            end)
      | Some Opcode.add =>
          pop vm (λ right_ vm,
          pop vm (λ left_ vm,
            if isString left_ || isString right_ then
              Done (push (VString (valueToString left_ +:+ valueToString right_)) vm)
            else
              match left_, right_ with
              | VNumber l, VNumber r => Done (push (VNumber (l + r)) vm)
              | _, _ => Fail (AddTypeMismatch (typeOf left_) (typeOf right_)) vm
              end))
      | Some Opcode.sub =>
          pop vm (λ right_ vm,
          pop vm (λ left_ vm,
            match left_, right_ with
            | VNumber l, VNumber r => Done (push (VNumber (l - r)) vm)
            | _, _ => Fail (SubTypeMismatch (typeOf left_) (typeOf right_)) vm
            end))
      | Some Opcode.load =>
          let '(slotIdx, vm) := readByte vm in
          match arrGet (keyAdd slotIdx (stackOffset (currentFrame vm))) (stack vm) with
          | Some slot => Done (push slot vm)
          | None => Fail (LoadIndexOutOfRange slotIdx) vm
          end
      | Some Opcode.store =>
          let '(slotIdxVirt, vm) := readByte vm in
          let slotIdx := keyAdd slotIdxVirt (stackOffset (currentFrame vm)) in
          if keyGe slotIdx (length (elems (stack vm))) then
            Fail (StoreIndexOutOfRange slotIdx) vm
          else
            pop vm (λ val vm, Done (withStack (arrSet slotIdx val (stack vm)) vm))
      | Some Opcode.print =>
          pop vm (λ val vm,
            Done (mk (module vm) (currentFrame vm) (callers vm) (stack vm) (halted vm)
                     (output vm ++ [valueToString val])))
      | Some Opcode.invoke =>
          let '(arity, vm) := readByte vm in
          pop vm (λ target vm,
            match target with
            | VFunction _ fcode =>
                Done (mk (module vm)
                         (mkFrame 0 fcode (frameBase (length (elems (stack vm))) arity))
                         (currentFrame vm :: callers vm)
                         (stack vm) (halted vm) (output vm))
            | _ => Fail (NotInvocable (typeOf target)) vm
            end)
      | Some Opcode.pop => pop vm (λ _ vm, Done vm)
      | Some Opcode.nil => Done (push VNil vm)
      | Some Opcode.return_ =>
          match callers vm with
          | caller :: rest =>
              Done (mk (module vm) caller rest (stack vm) (halted vm) (output vm))
          | [] =>
              Done (mk (module vm) (currentFrame vm) [] (stack vm) true (output vm))
          end
      end
  end.

(** The loop of [run]: [None] when [fuel] calls of [handleInstr] did not
    halt the machine. *)
Fixpoint loop (fuel : nat) (vm : State) : option Outcome :=
  if halted vm then Some (Done vm)
  else
    match fuel with
    | 0 => None
    | S fuel' =>
        match handleInstr vm with
        | Done vm' => loop fuel' vm'
        | Fail e vm' => Some (Fail e vm')
        end
    end.

(** What [run] returns after its loop: [result || nilValue]. *)
Definition result (vm : State) : Value :=
  match (arrPop (stack vm)).1 with
  | Some v => v
  | None => VNil
  end.

Definition run (fuel : nat) (vm : State) : option (Res Value) :=
  match loop fuel vm with
  | None => None
  | Some (Done vm') => Some (Ok (result vm'))
  | Some (Fail e _) => Some (Throw e)
  end.

(** [n] calls of [handleInstr] in a row. *)
Fixpoint steps (n : nat) (vm : State) : Outcome :=
  match n with
  | 0 => Done vm
  | S n' =>
      match handleInstr vm with
      | Done vm' => steps n' vm'
      | Fail e vm' => Fail e vm'
      end
  end.

End VM.

(** ** Induction over syntax trees *)

Section AstNode_induction.
Variable P : AstNode → Prop.
Hypothesis HIntLit : ∀ value, P (IntLit value).
Hypothesis HStringLit : ∀ value, P (StringLit value).
Hypothesis HIdent : ∀ name, P (Ident name).
Hypothesis HUnary : ∀ op expr, P expr → P (Unary op expr).
Hypothesis HBinary : ∀ op l r, P l → P r → P (Binary op l r).
Hypothesis HInvoke : ∀ target args, P target → Forall P args → P (Invoke target args).
Hypothesis HValDecl : ∀ name value, P value → P (ValDecl name value).
Hypothesis HFuncDecl : ∀ name params body, Forall P body → P (FuncDecl name params body).
Hypothesis HPrint : ∀ expr, P expr → P (Print expr).

Fixpoint AstNode_ind (node : AstNode) : P node :=
  let all := fix all (nodes : list AstNode) : Forall P nodes :=
    match nodes with
    | [] => @List.Forall_nil _ P
    | n :: rest => @List.Forall_cons _ P n rest (AstNode_ind n) (all rest)
    end in
  match node with
  | IntLit value => HIntLit value
  | StringLit value => HStringLit value
  | Ident name => HIdent name
  | Unary op expr => HUnary op expr (AstNode_ind expr)
  | Binary op l r => HBinary op l r (AstNode_ind l) (AstNode_ind r)
  | Invoke target args => HInvoke target args (AstNode_ind target) (all args)
  | ValDecl name value => HValDecl name value (AstNode_ind value)
  | FuncDecl name params body => HFuncDecl name params body (all body)
  | Print expr => HPrint expr (AstNode_ind expr)
  end.
End AstNode_induction.

(** ** Notions used to state the properties *)

(** The integers on which the model of numbers is exact.  A number of the
    program is a double; every integer of absolute value at most 2^53 is a
    double, the sum, the difference and the negation of two of them are
    those of [Z] whenever the result is one of them again, [parseInt] reads
    their numerals exactly, and a template literal prints all their digits. *)
Definition safeInteger (z : Z) : Prop := (Z.abs z ≤ 2 ^ 53)%Z.

Global Instance safeInteger_dec z : Decision (safeInteger z).
Proof. unfold safeInteger. apply _. Defined.

(** A value that is not a number, or a number that is a safe integer. *)
Definition exactValue (v : Value) : Prop :=
  match v with
  | VNumber value => safeInteger value
  | _ => True
  end.

(** Every object of the pool was allocated by an earlier literal. *)
Definition poolAllocated (st : Compiler.State) : Prop :=
  Forall (λ c, addr c < Compiler.nextAddr st) (Compiler.constants st).

(** [i] is the last position of [ls] that holds a local named [name]. *)
Definition lastMatch (name : string) (ls : list Local.t) (i : nat) : Prop :=
  (∃ l, ls !! i = Some l ∧ Local.name l = name)
  ∧ ∀ j l, i < j → ls !! j = Some l → Local.name l ≠ name.

(** The slot that the wording "position within the depth-filtered,
    reverse-ordered view" describes: the position of the first local named
    [name] in the locals of the current depth taken most recent first. *)
Fixpoint firstMatch (name : string) (ls : list Local.t) (i : nat) : option nat :=
  match ls with
  | [] => None
  | l :: rest =>
      if bool_decide (Local.name l = name) then Some i else firstMatch name rest (S i)
  end.

Definition reversedViewPosition (name : string) (st : Compiler.State) : option nat :=
  firstMatch name (reverse (Compiler.localsAtDepth st)) 0.

Definition visitIdentReversedView (name : string) (st : Compiler.State)
    : Res Compiler.State :=
  match reversedViewPosition name st with
  | Some p => Ok (Compiler.emit [byte Opcode.load; Z.of_nat p] st)
  | None => Throw (UnknownIdentifier name)
  end.

(** No local is deeper than the scope being compiled. *)
Definition localsOk (st : Compiler.State) : Prop :=
  Forall (λ l, Local.depth l ≤ Compiler.depth st) (Compiler.locals st).

(** What compiling a node may do to the scope: the depth is kept and locals
    of that depth are appended. *)
Definition scopeGrows (st st' : Compiler.State) : Prop :=
  Compiler.depth st' = Compiler.depth st
  ∧ ∃ added, Compiler.locals st' = Compiler.locals st ++ added
             ∧ Forall (λ l, Local.depth l = Compiler.depth st) added.

(** The node declares a local named [name] at the depth it is compiled at:
    it is, or it contains outside of function bodies, a declaration of that
    name. *)
Fixpoint declares (name : string) (node : AstNode) : bool :=
  match node with
  | IntLit _ | StringLit _ | Ident _ => false
  | Unary _ expr | Print expr => declares name expr
  | Binary _ l r => declares name l || declares name r
  | Invoke target args => existsb (declares name) args || declares name target
  | ValDecl ident value => bool_decide (ident = name) || declares name value
  | FuncDecl fname _ _ => bool_decide (fname = name)
  end.

(** In the order in which the compiler visits the node, an identifier
    [name] comes before any declaration of that name; the bodies of the
    functions the node declares are not looked into. *)
Fixpoint refersFirst (name : string) (node : AstNode) : bool :=
  match node with
  | IntLit _ | StringLit _ | FuncDecl _ _ _ => false
  | Ident n => bool_decide (n = name)
  | Unary _ expr | Print expr | ValDecl _ expr => refersFirst name expr
  | Binary _ l r =>
      refersFirst name l || (negb (declares name l) && refersFirst name r)
  | Invoke target args =>
      (fix go (nodes : list AstNode) : bool :=
         match nodes with
         | [] => refersFirst name target
         | arg :: rest => refersFirst name arg || (negb (declares name arg) && go rest)
         end) args
  end.

(** The same for the arguments of an invocation followed by its target. *)
Fixpoint refersFirstArgs (name : string) (args : list AstNode) (target : AstNode) : bool :=
  match args with
  | [] => refersFirst name target
  | arg :: rest =>
      refersFirst name arg || (negb (declares name arg) && refersFirstArgs name rest target)
  end.

(** The same for the statements of a block. *)
Fixpoint refersFirstIn (name : string) (nodes : list AstNode) : bool :=
  match nodes with
  | [] => false
  | node :: rest =>
      refersFirst name node || (negb (declares name node) && refersFirstIn name rest)
  end.

(** A local named [name] is bound at the depth being compiled. *)
Definition boundAtDepth (name : string) (st : Compiler.State) : Prop :=
  ∃ l, l ∈ Compiler.locals st ∧ Local.name l = name
       ∧ Local.depth l = Compiler.depth st.

(** The states that the compiler goes through after [st] while it compiles
    the scope of [st] further: it visits nodes, the operands of an operator
    or the arguments of a call one after the other, and emits bytes; the
    body of a function is another scope. *)
Inductive reaches (st : Compiler.State) : Compiler.State → Prop :=
| reaches_here : reaches st st
| reaches_visit (s s' : Compiler.State) (node : AstNode) :
    reaches st s → Compiler.visit node s = Ok s' → reaches st s'
| reaches_emit (s : Compiler.State) (bytes : list Z) :
    reaches st s → reaches st (Compiler.emit bytes s).

(** The byte at [i] positions after the instruction pointer of the current
    frame. *)
Definition byteAt (vm : VM.State) (i : nat) : option Z :=
  VM.code (VM.currentFrame vm) !! (VM.ip (VM.currentFrame vm) + i).

(** The state with the instruction pointer of the current frame moved [n]
    bytes forward. *)
Definition advance (n : nat) (vm : VM.State) : VM.State :=
  VM.withFrame
    (VM.mkFrame (n + VM.ip (VM.currentFrame vm)) (VM.code (VM.currentFrame vm))
       (VM.stackOffset (VM.currentFrame vm))) vm.

(** The state with the elements of the value stack replaced. *)
Definition setElems (l : list Value) (vm : VM.State) : VM.State :=
  VM.withStack (VM.mkArr l (VM.props (VM.stack vm))) vm.

(** A sequence of whole instructions, none of which is [return]: an opcode
    without operand, or an opcode with its operand. *)
Inductive Instrs : list Z → Prop :=
| Instrs_nil : Instrs []
| Instrs_op0 (op : Opcode.t) (rest : list Z) :
    opcodeArgs op = 0 → op ≠ Opcode.return_ → Instrs rest → Instrs (byte op :: rest)
| Instrs_op1 (op : Opcode.t) (operand : Z) (rest : list Z) :
    opcodeArgs op = 1 → Instrs rest → Instrs (byte op :: operand :: rest).

(** The number of instructions of a stream, counted as the disassembler
    walks it: [skip] operands are still to be passed over. *)
Fixpoint instrCount (c : list Z) (skip : nat) : nat :=
  match c with
  | [] => 0
  | b :: rest =>
      match skip with
      | S k => instrCount rest k
      | 0 => S (instrCount rest (match decode b with
                                 | Some op => opcodeArgs op
                                 | None => 0
                                 end))
      end
  end.

(** Expressions without invocation. *)
Fixpoint simpleExpr (node : AstNode) : bool :=
  match node with
  | IntLit _ | StringLit _ | Ident _ => true
  | Unary _ expr => simpleExpr expr
  | Binary _ l r => simpleExpr l && simpleExpr r
  | Invoke _ _ | ValDecl _ _ | FuncDecl _ _ _ | Print _ => false
  end.

(** Statements as [parseStatement] builds them, without invocation outside
    of the bodies of the functions they declare. *)
Definition simpleStmt (node : AstNode) : bool :=
  match node with
  | ValDecl _ value => simpleExpr value
  | FuncDecl _ _ _ => true
  | Print expr => simpleExpr expr
  | _ => simpleExpr node
  end.

Definition isDecl (node : AstNode) : bool :=
  match node with
  | ValDecl _ _ | FuncDecl _ _ _ => true
  | _ => false
  end.

(** The number of value and function declarations among the statements. *)
Definition declCount (nodes : list AstNode) : nat :=
  length (filter (λ node, isDecl node = true) nodes).

(** [vm'] is [vm] with the current frame [n] bytes further and, possibly,
    another value stack and output. *)
Definition sameControl (vm vm' : VM.State) (n : nat) : Prop :=
  VM.currentFrame vm' = VM.currentFrame (advance n vm)
  ∧ VM.callers vm' = VM.callers vm
  ∧ VM.module vm' = VM.module vm
  ∧ VM.halted vm' = VM.halted vm.

(** Running the instructions [c], wherever they sit in the code of the
    current frame, leaves the VM after them in the same frame with [k] more
    values on the stack, if no instruction fails. *)
Definition Exec (c : list Z) (k : Z) : Prop :=
  ∀ vm vm' pre post,
    VM.code (VM.currentFrame vm) = pre ++ c ++ post →
    VM.ip (VM.currentFrame vm) = length pre →
    VM.steps (instrCount c 0) vm = VM.Done vm' →
    sameControl vm vm' (length c)
    ∧ Z.of_nat (length (VM.elems (VM.stack vm')))
      = (Z.of_nat (length (VM.elems (VM.stack vm))) + k)%Z.

(** What a visit adds to the code of the scope being compiled. *)
Definition emits (st st' : Compiler.State) (c : list Z) : Prop :=
  Compiler.code st' = Compiler.code st ++ c.

(** The change of the depth of the stack by an instruction that stays in
    the frame and does not fail ([store], [invoke] and [return] apart). *)
Definition delta (op : Opcode.t) : Z :=
  match op with
  | Opcode.const0 | Opcode.const1 | Opcode.const2 | Opcode.constant
  | Opcode.load | Opcode.nil => 1
  | Opcode.neg => 0
  | _ => -1
  end.

(** The net effect of a non-empty block on the depth of the stack. *)
Definition blockNet (nodes : list AstNode) : Z :=
  match nodes with
  | [] => 0
  | _ => 1 + Z.of_nat (declCount nodes)
  end.

(** The values a statement leaves on the stack: one for an expression and
    for a declaration (the slot of its local), none for [print]. *)
Definition stmtNet (node : AstNode) : Z :=
  match node with
  | Print _ => 0
  | _ => 1
  end.

(** The outermost frame of the call stack. *)
Definition bottomFrame (vm : VM.State) : VM.CallFrame :=
  match last (VM.callers vm) with
  | Some f => f
  | None => VM.currentFrame vm
  end.

(** How one instruction that does not fail moves the control of the VM. *)
Definition stepControl (vm vm' : VM.State) : Prop :=
  VM.module vm' = VM.module vm
  ∧ match byteAt vm 0 ≫= decode with
    | Some Opcode.return_ =>
        VM.stack vm' = VM.stack vm
        ∧ match VM.callers vm with
          | [] =>
              VM.currentFrame vm' = VM.currentFrame (advance 1 vm)
              ∧ VM.callers vm' = [] ∧ VM.halted vm' = true
          | f :: r =>
              VM.currentFrame vm' = f ∧ VM.callers vm' = r
              ∧ VM.halted vm' = VM.halted vm
          end
    | Some Opcode.invoke =>
        (∃ fcode off, VM.currentFrame vm' = VM.mkFrame 0 fcode off)
        ∧ VM.callers vm' = VM.currentFrame (advance 2 vm) :: VM.callers vm
        ∧ VM.halted vm' = VM.halted vm
    | Some op => sameControl vm vm' (1 + opcodeArgs op)
    | None => sameControl vm vm' 1
    end.

(** [i] is the offset of an instruction of [c], or its end. *)
Definition atBoundary (c : list Z) (i : nat) : Prop :=
  ∃ c1 c2, c = c1 ++ c2 ∧ Instrs c1 ∧ Instrs c2 ∧ i = length c1.

(** The VM runs a module whose code is [c] followed by [return]: while it
    has not halted, the outermost frame is at an instruction of [c] or at
    the final [return]. *)
Definition onTrack (c : list Z) (vm : VM.State) : Prop :=
  VM.code (bottomFrame vm) = c ++ [byte Opcode.return_]
  ∧ atBoundary c (VM.ip (bottomFrame vm)).

(** While the outermost frame has not reached the end of [c0], the [nil]
    that follows [c0] has not been executed; once it has, no call is
    pending and [nil] is on top of the stack. *)
Definition nilOnTop (c0 : list Z) (vm : VM.State) : Prop :=
  VM.ip (bottomFrame vm) = S (length c0) →
  VM.callers vm = [] ∧ last (VM.elems (VM.stack vm)) = Some VNil.

(** The function [def f(g) { g(g) }] and the states of the VM while it
    calls itself: [l] is the stack below the frame of the current call. *)
Definition spinCode : list Z :=
  [byte Opcode.nil; byte Opcode.load; 1; byte Opcode.load; 1;
   byte Opcode.invoke; 1; byte Opcode.store; 0; byte Opcode.pop;
   byte Opcode.return_]%Z.

Definition spinFn : Value := VFunction "f" spinCode.

Definition spinning (vm : VM.State) : Prop :=
  VM.halted vm = false
  ∧ VM.code (VM.currentFrame vm) = spinCode
  ∧ ∃ l, VM.stackOffset (VM.currentFrame vm) = KInt (Z.of_nat (length l))
      ∧ ((VM.ip (VM.currentFrame vm) = 0
          ∧ VM.elems (VM.stack vm) = l ++ [VNil; spinFn])
         ∨ (VM.ip (VM.currentFrame vm) = 1
            ∧ VM.elems (VM.stack vm) = l ++ [VNil; spinFn; VNil])
         ∨ (VM.ip (VM.currentFrame vm) = 3
            ∧ VM.elems (VM.stack vm) = l ++ [VNil; spinFn; VNil; spinFn])
         ∨ (VM.ip (VM.currentFrame vm) = 5
            ∧ VM.elems (VM.stack vm) = l ++ [VNil; spinFn; VNil; spinFn; spinFn])).

(** The number of calls of [addConstant] that compiling the node makes: one
    per integer literal other than 0, per string literal and per function
    declaration. *)
Fixpoint poolRequests (node : AstNode) : nat :=
  match node with
  | IntLit value => if bool_decide (value = 0%Z) then 0 else 1
  | StringLit _ => 1
  | Ident _ => 0
  | Unary _ expr | Print expr | ValDecl _ expr => poolRequests expr
  | Binary _ l r => poolRequests l + poolRequests r
  | Invoke target args =>
      (fix sum (nodes : list AstNode) : nat :=
         match nodes with
         | [] => 0
         | n :: rest => poolRequests n + sum rest
         end) args + poolRequests target
  | FuncDecl _ _ body =>
      (fix sum (nodes : list AstNode) : nat :=
         match nodes with
         | [] => 0
         | n :: rest => poolRequests n + sum rest
         end) body + 1
  end.

Fixpoint poolRequestsIn (nodes : list AstNode) : nat :=
  match nodes with
  | [] => 0
  | n :: rest => poolRequests n + poolRequestsIn rest
  end.

(** The compiler went from [st] to [st'] with [n] calls of [addConstant],
    each of which added an entry to the pool. *)
Definition poolGrows (st st' : Compiler.State) (n : nat) : Prop :=
  poolAllocated st'
  ∧ length (Compiler.constants st') = length (Compiler.constants st) + n.

(** ** The tokenizer ([lexer.ts]) *)

(** A [Token].  The tokens without a payload ([constToken], ..., [eofToken])
    are objects with a [type] only.  [keywords[ident]] is a lookup in an
    object literal, which also finds the members that every object inherits
    from [Object.prototype]; such a member is returned by [next] as the
    token: it has no [type]. *)
Inductive Token :=
| IntToken (value : Z)
| StringToken (value : string)
| IdentToken (name : string)
| PlainToken (type : TokenType.t)
| InheritedToken (key : string).

Global Instance TokenType_eq_dec : EqDecision TokenType.t.
Proof. solve_decision. Defined.

Global Instance Token_eq_dec : EqDecision Token.
Proof. solve_decision. Defined.

Definition eofToken : Token := PlainToken TokenType.eof.

(** [token.type]; [None] is [undefined]. *)
Definition tokenType (token : Token) : option TokenType.t :=
  match token with
  | IntToken _ => Some TokenType.int
  | StringToken _ => Some TokenType.string
  | IdentToken _ => Some TokenType.ident
  | PlainToken type => Some type
  | InheritedToken _ => None
  end.

(** The property names of [Object.prototype]. *)
Definition objectPrototypeKeys : list string :=
  ["constructor"; "hasOwnProperty"; "isPrototypeOf"; "propertyIsEnumerable";
   "toLocaleString"; "toString"; "valueOf"; "__defineGetter__";
   "__defineSetter__"; "__lookupGetter__"; "__lookupSetter__"; "__proto__"].

(** [keywords[ident]]; [None] is [undefined]. *)
Definition keywords (ident : string) : option Token :=
  if bool_decide (ident = "const") then Some (PlainToken TokenType.const)
  else if bool_decide (ident = "def") then Some (PlainToken TokenType.def)
  else if bool_decide (ident = "print") then Some (PlainToken TokenType.print)
  else if bool_decide (ident ∈ objectPrototypeKeys) then Some (InheritedToken ident)
  else None.

(** What the front end throws. *)
Inductive SyntaxError :=
| UnknownToken (ch : ascii)                  (* Unknown token ${ch} *)
| ExpectedToken (expected : TokenType.t) (got : option TokenType.t)
                                             (* Expected token ${tokenType} got ${token.type} *)
| UnexpectedToken (got : option TokenType.t). (* Unexpected token ${this.token.type} *)

(** Result of a method of the front end: it returns, a string is thrown, or
    (for the methods that loop or recurse, which take a bound on the number
    of nested calls and iterations) the bound was reached. *)
Inductive Parse (A : Type) :=
| Got (a : A)
| Raise (e : SyntaxError)
| Unfinished.
Arguments Got {A} a.
Arguments Raise {A} e.
Arguments Unfinished {A}.

Definition andThen {A B} (r : Parse A) (k : A → Parse B) : Parse B :=
  match r with
  | Got a => k a
  | Raise e => Raise e
  | Unfinished => Unfinished
  end.

Notation "'let*' x := r 'in' k" := (andThen r (λ x, k))
  (at level 10, x pattern, r at level 100, k at level 200, only parsing).

(** The character tests: [/[a-zA-Z]/], [/\d/] and [/\s/] on one code unit.
    A string is a sequence of code units, here those below 256, among which
    [\s] matches tab, line feed, vertical tab, form feed, carriage return,
    space and the no-break space. *)
Definition isAlpha (ch : ascii) : bool :=
  let n := nat_of_ascii ch in
  (65 <=? n) && (n <=? 90) || (97 <=? n) && (n <=? 122).

Definition isDigit (ch : ascii) : bool :=
  let n := nat_of_ascii ch in (48 <=? n) && (n <=? 57).

Definition isWhitespace (ch : ascii) : bool :=
  let n := nat_of_ascii ch in
  (9 <=? n) && (n <=? 13) || (n =? 32) || (n =? 160).

(** The code units of a string. *)
Definition chars (s : string) : list ascii := String.list_ascii_of_string s.

(** [parseInt(digits, 10)] on a non-empty string of decimal digits. *)
Definition digitValue (ch : ascii) : Z := Z.of_nat (nat_of_ascii ch) - 48.

Definition parseInt (digits : string) : Z :=
  fold_left (λ acc ch, acc * 10 + digitValue ch)%Z (chars digits) 0%Z.

Module Tokenizer.

Record t := mk { input : string; idx : nat }.

(** [new Tokenizer(input)] *)
Definition new (input : string) : t := mk input 0.

(** [this.input[this.idx]]; [None] is [undefined]. *)
Definition current (tz : t) : option ascii :=
  chars (input tz) !! idx tz.

(** [this.idx++] *)
Definition skip (tz : t) : t := mk (input tz) (S (idx tz)).

(** The characters that the loop of [takeWhile] collects from [rest] on. *)
Fixpoint collect (pred : ascii → bool) (rest : list ascii) : list ascii :=
  match rest with
  | ch :: rest' => if pred ch then ch :: collect pred rest' else []
  | [] => []
  end.

Definition takeWhile (pred : ascii → bool) (tz : t) : string * t :=
  let chars := collect pred (drop (idx tz) (chars (input tz))) in
  (String.string_of_list_ascii chars, mk (input tz) (idx tz + length chars)).

Definition next (tz : t) : Parse (Token * t) :=
  match current tz with
  | None => Got (eofToken, tz)
  | Some _ =>
      let '(_, tz) := takeWhile isWhitespace tz in
      match current tz with
      | None => Got (eofToken, tz)
      | Some ch =>
          if isDigit ch then
            let '(digits, tz) := takeWhile isDigit tz in
            Got (IntToken (parseInt digits), tz)
          else if bool_decide (ch = "'"%char) then
            let tz := skip tz in
            let '(str, tz) := takeWhile (λ ch, negb (bool_decide (ch = "'"%char))) tz in
            let tz := skip tz in
            Got (StringToken str, tz)
          else if isAlpha ch then
            let '(ident, tz) := takeWhile isAlpha tz in
            match keywords ident with
            | Some keyword => Got (keyword, tz)
            | None => Got (IdentToken ident, tz)
            end
          else
            let tz := skip tz in
            if bool_decide (ch = "="%char) then Got (PlainToken TokenType.eq, tz)
            else if bool_decide (ch = "+"%char) then Got (PlainToken TokenType.plus, tz)
            else if bool_decide (ch = "-"%char) then Got (PlainToken TokenType.minus, tz)
            else if bool_decide (ch = "*"%char) then Got (PlainToken TokenType.star, tz)
            else if bool_decide (ch = "/"%char) then Got (PlainToken TokenType.slash, tz)
            else if bool_decide (ch = "("%char) then Got (PlainToken TokenType.lparen, tz)
            else if bool_decide (ch = ")"%char) then Got (PlainToken TokenType.rparen, tz)
            else if bool_decide (ch = "{"%char) then Got (PlainToken TokenType.lbrace, tz)
            else if bool_decide (ch = "}"%char) then Got (PlainToken TokenType.rbrace, tz)
            else if bool_decide (ch = ","%char) then Got (PlainToken TokenType.comma, tz)
            else Raise (UnknownToken ch)
      end
  end.

(** The loop of [tokenize], entered with the token just read; [fuel] bounds
    the number of further calls of [next]. *)
Fixpoint tokenizeLoop (fuel : nat) (token : Token) (tz : t) (tokens : list Token)
    : Parse (list Token) :=
  if bool_decide (tokenType token ≠ Some TokenType.eof) then
    match fuel with
    | 0 => Unfinished
    | S fuel' =>
        let tokens := tokens ++ [token] in
        let* (token, tz) := next tz in
        tokenizeLoop fuel' token tz tokens
    end
  else Got tokens.

Definition tokenize (fuel : nat) (tz : t) : Parse (list Token) :=
  let* (token, tz) := next tz in
  tokenizeLoop fuel token tz [].

End Tokenizer.

(** ** The parser ([parser.ts]) *)

(** [precedence(tokenType)], called with a [token.type]. *)
Definition precedence (tokenType : option TokenType.t) : nat :=
  match tokenType with
  | Some (TokenType.plus | TokenType.minus) => 1
  | Some (TokenType.star | TokenType.slash) => 2
  | Some TokenType.lparen => 3
  | _ => 0
  end.

(** The methods that [getPrefixFn] and [getInfixFn] return, by name. *)
Inductive PrefixFn := PrefixIntLit | PrefixStringLit | PrefixIdent | PrefixUnary.
Inductive InfixFn := InfixBinary | InfixInvoke.

Module Parser.

Record t := mk { tokenizer : Tokenizer.t; token : Token; peekToken : Token }.

(** [new Parser(tokenizer)] *)
Definition new (tokenizer : Tokenizer.t) : Parse t :=
  let* (token, tokenizer) := Tokenizer.next tokenizer in
  let* (peekToken, tokenizer) := Tokenizer.next tokenizer in
  Got (mk tokenizer token peekToken).

(** [this.token === eofToken] *)
Definition isAtEnd (p : t) : bool := bool_decide (token p = eofToken).

Definition curTokenIs (type : TokenType.t) (p : t) : bool :=
  bool_decide (tokenType (token p) = Some type).

Definition nextToken (p : t) : Parse (Token * t) :=
  let* (peekToken, tokenizer) := Tokenizer.next (tokenizer p) in
  Got (Parser.peekToken p, mk tokenizer (Parser.peekToken p) peekToken).

Definition expectToken (type : TokenType.t) (p : t) : Parse (Token * t) :=
  let token := token p in
  if bool_decide (tokenType token ≠ Some type) then
    Raise (ExpectedToken type (tokenType token))
  else
    let* (_, p) := nextToken p in
    Got (token, p).

(** [consumeToken(tokenType?)]: a token type is a non-empty string, hence
    truthy. *)
Definition consumeToken (type : option TokenType.t) (p : t) : Parse t :=
  match type with
  | Some type => let* (_, p) := expectToken type p in Got p
  | None => let* (_, p) := nextToken p in Got p
  end.

Definition getPrefixFn (type : option TokenType.t) : option PrefixFn :=
  match type with
  | Some TokenType.int => Some PrefixIntLit
  | Some TokenType.string => Some PrefixStringLit
  | Some TokenType.ident => Some PrefixIdent
  | Some TokenType.minus => Some PrefixUnary
  | _ => None
  end.

Definition getInfixFn (type : option TokenType.t) : option InfixFn :=
  match type with
  | Some (TokenType.plus | TokenType.minus) => Some InfixBinary
  | Some (TokenType.star | TokenType.slash) => Some InfixBinary
  | Some TokenType.lparen => Some InfixInvoke
  | _ => None
  end.

(** [expectToken<IntToken>] returns a token whose type is [int], which only
    an [IntToken] has; likewise for the two methods that follow. *)
Definition parseIntLit (p : t) : Parse (AstNode * t) :=
  let* (token, p) := expectToken TokenType.int p in
  match token with
  | IntToken value => Got (IntLit value, p)
  | _ => Raise (ExpectedToken TokenType.int (tokenType token))
  end.

Definition parseStringLit (p : t) : Parse (AstNode * t) :=
  let* (token, p) := expectToken TokenType.string p in
  match token with
  | StringToken value => Got (StringLit value, p)
  | _ => Raise (ExpectedToken TokenType.string (tokenType token))
  end.

(** [parseIdent] returns an [IdentNode]; the declarations keep the name of
    theirs (see [AstNode]), so the name is returned and the node is built
    where it is used as an expression. *)
Definition parseIdent (p : t) : Parse (string * t) :=
  let* (token, p) := expectToken TokenType.ident p in
  match token with
  | IdentToken name => Got (name, p)
  | _ => Raise (ExpectedToken TokenType.ident (tokenType token))
  end.

(** The [while] loop of [parseFuncDecl] that reads the parameters; [fuel]
    bounds its iterations. *)
Fixpoint paramsLoop (fuel : nat) (params : list string) (p : t)
    : Parse (list string * t) :=
  if negb (curTokenIs TokenType.rparen p) then
    match fuel with
    | 0 => Unfinished
    | S fuel' =>
        let* (param, p) := parseIdent p in
        let* p := (if curTokenIs TokenType.comma p
                   then consumeToken (Some TokenType.comma) p else Got p) in
        paramsLoop fuel' (params ++ [param]) p
    end
  else Got (params, p).

(** The methods that call [parsePrecedence], [parseStatement] or a loop
    around them, given what they call. *)
Section Methods.
Variable parsePrecedence : nat → t → Parse (AstNode * t).
Variable argsLoop : list AstNode → t → Parse (list AstNode * t).
Variable params : list string → t → Parse (list string * t).
Variable bodyLoop : list AstNode → t → Parse (list AstNode * t).

Definition parseExpression (p : t) : Parse (AstNode * t) :=
  parsePrecedence 0 p.

(** [op] is [this.token.type], the type of the token for which the method
    was selected. *)
Definition parseUnary (p : t) : Parse (AstNode * t) :=
  match tokenType (token p) with
  | Some op =>
      let* p := consumeToken None p in
      let* (expr, p) := parsePrecedence (precedence (Some op)) p in
      Got (Unary op expr, p)
  | None => Raise (UnexpectedToken None)
  end.

Definition parseBinary (left_ : AstNode) (p : t) : Parse (AstNode * t) :=
  match tokenType (token p) with
  | Some op =>
      let* p := consumeToken None p in
      let* (right_, p) := parsePrecedence (precedence (Some op)) p in
      Got (Binary op left_ right_, p)
  | None => Raise (UnexpectedToken None)
  end.

Definition parseInvoke (target : AstNode) (p : t) : Parse (AstNode * t) :=
  let* p := consumeToken (Some TokenType.lparen) p in
  let* (args, p) := argsLoop [] p in
  let* p := consumeToken (Some TokenType.rparen) p in
  Got (Invoke target args, p).

Definition parseVarDecl (p : t) : Parse (AstNode * t) :=
  let* p := consumeToken (Some TokenType.const) p in
  let* (ident, p) := parseIdent p in
  let* (_, p) := expectToken TokenType.eq p in
  let* (value, p) := parseExpression p in
  Got (ValDecl ident value, p).

Definition parseFuncDecl (p : t) : Parse (AstNode * t) :=
  let* p := consumeToken (Some TokenType.def) p in
  let* (name, p) := parseIdent p in
  let* (_, p) := expectToken TokenType.lparen p in
  let* (params, p) := params [] p in
  let* (_, p) := expectToken TokenType.rparen p in
  let* (_, p) := expectToken TokenType.lbrace p in
  let* (body, p) := bodyLoop [] p in
  let* (_, p) := expectToken TokenType.rbrace p in
  Got (FuncDecl name params body, p).

Definition parsePrint (p : t) : Parse (AstNode * t) :=
  let* p := consumeToken (Some TokenType.print) p in
  let* (expr, p) := parseExpression p in
  Got (Print expr, p).

End Methods.

(** [parsePrecedence] with its [while (true)] loop and the loop of
    [parseInvoke] over the arguments; [fuel] bounds the depth of the calls
    and the iterations. *)
Fixpoint parsePrecedence (fuel : nat) (prec : nat) (p : t) {struct fuel}
    : Parse (AstNode * t) :=
  match fuel with
  | 0 => Unfinished
  | S fuel' =>
      match getPrefixFn (tokenType (token p)) with
      | None => Raise (UnexpectedToken (tokenType (token p)))
      | Some prefixFn =>
          let* (leftExpr, p) :=
            match prefixFn with
            | PrefixIntLit => parseIntLit p
            | PrefixStringLit => parseStringLit p
            | PrefixIdent => let* (name, p) := parseIdent p in Got (Ident name, p)
            | PrefixUnary => parseUnary (parsePrecedence fuel') p
            end in
          infixLoop fuel' prec leftExpr p
      end
  end
with infixLoop (fuel : nat) (prec : nat) (leftExpr : AstNode) (p : t) {struct fuel}
    : Parse (AstNode * t) :=
  if isAtEnd p then Got (leftExpr, p)
  else if bool_decide (precedence (tokenType (token p)) ≤ prec) then Got (leftExpr, p)
  else
    match fuel with
    | 0 => Unfinished
    | S fuel' =>
        match getInfixFn (tokenType (token p)) with
        | Some InfixBinary =>
            let* (leftExpr, p) := parseBinary (parsePrecedence fuel') leftExpr p in
            infixLoop fuel' prec leftExpr p
        | Some InfixInvoke =>
            let* (leftExpr, p) := parseInvoke (argsLoop fuel') leftExpr p in
            infixLoop fuel' prec leftExpr p
        | None => infixLoop fuel' prec leftExpr p
        end
    end
with argsLoop (fuel : nat) (args : list AstNode) (p : t) {struct fuel}
    : Parse (list AstNode * t) :=
  if negb (curTokenIs TokenType.rparen p) then
    match fuel with
    | 0 => Unfinished
    | S fuel' =>
        let* (arg, p) := parseExpression (parsePrecedence fuel') p in
        let* p := (if curTokenIs TokenType.comma p
                   then consumeToken (Some TokenType.comma) p else Got p) in
        argsLoop fuel' (args ++ [arg]) p
    end
  else Got (args, p).

(** [parseStatement] and the loop of [parseFuncDecl] over the body. *)
Fixpoint parseStatement (fuel : nat) (p : t) {struct fuel} : Parse (AstNode * t) :=
  match fuel with
  | 0 => Unfinished
  | S fuel' =>
      match tokenType (token p) with
      | Some TokenType.const => parseVarDecl (parsePrecedence fuel') p
      | Some TokenType.def => parseFuncDecl (paramsLoop fuel') (bodyLoop fuel') p
      | Some TokenType.print => parsePrint (parsePrecedence fuel') p
      | _ => parseExpression (parsePrecedence fuel') p
      end
  end
with bodyLoop (fuel : nat) (body : list AstNode) (p : t) {struct fuel}
    : Parse (list AstNode * t) :=
  if negb (isAtEnd p) && negb (curTokenIs TokenType.rbrace p) then
    match fuel with
    | 0 => Unfinished
    | S fuel' =>
        let* (node, p) := parseStatement fuel' p in
        bodyLoop fuel' (body ++ [node]) p
    end
  else Got (body, p).

(** The loop of [parse]. *)
Fixpoint parseLoop (fuel : nat) (nodes : list AstNode) (p : t) : Parse (list AstNode) :=
  if negb (isAtEnd p) then
    match fuel with
    | 0 => Unfinished
    | S fuel' =>
        let* (node, p) := parseStatement fuel' p in
        parseLoop fuel' (nodes ++ [node]) p
    end
  else Got nodes.

Definition parse (fuel : nat) (p : t) : Parse (list AstNode) :=
  parseLoop fuel [] p.

End Parser.

(** [new Parser(new Tokenizer(input)).parse()], as the commands of index.ts
    and the constructors of the two compilers obtain the nodes of a program. *)
Definition parseProgram (fuel : nat) (input : string) : Parse (list AstNode) :=
  let* p := Parser.new (Tokenizer.new input) in
  Parser.parse fuel p.

(** ** Notions used to state the properties of the front end *)

(** The number of characters that the tokenizer has not read. *)
Definition remaining (tz : Tokenizer.t) : nat :=
  length (chars (Tokenizer.input tz)) - Tokenizer.idx tz.

(** The text that the tokenizer has not read. *)
Definition unread (tz : Tokenizer.t) : list ascii :=
  drop (Tokenizer.idx tz) (chars (Tokenizer.input tz)).

(** A bound on the number of tokens that the parser has not consumed: its
    two tokens of lookahead, the end of input apart, and the characters that
    the tokenizer has not read. *)
Definition pending (p : Parser.t) : nat :=
  (if Parser.isAtEnd p then 0 else 1)
  + (if bool_decide (Parser.peekToken p = eofToken) then 0 else 1)
  + remaining (Parser.tokenizer p).

(** [r'] is what [r] becomes with a larger bound: the same outcome, or an
    outcome where [r] had reached its bound. *)
Definition finishes {A} (r r' : Parse A) : Prop := r = Unfinished ∨ r = r'.

(** The names that the tokenizer returns as identifiers: non-empty, made of
    letters, not a keyword and not a member of [Object.prototype]. *)
Definition isName (name : string) : bool :=
  negb (bool_decide (name = "")) && forallb isAlpha (chars name)
  && bool_decide (keywords name = None).

(** The tokens that the tokenizer returns. *)
Definition tokenOk (token : Token) : Prop :=
  match token with
  | IntToken value => (0 ≤ value)%Z
  | StringToken value => "'"%char ∉ chars value
  | IdentToken name => isName name = true
  | PlainToken type => type ∉ [TokenType.int; TokenType.string; TokenType.ident]
  | InheritedToken key => key ∈ objectPrototypeKeys
  end.

(** The two tokens that a parser holds came from the tokenizer. *)
Definition lexed (p : Parser.t) : Prop :=
  tokenOk (Parser.token p) ∧ tokenOk (Parser.peekToken p).

(** How tightly the root of an expression holds what is on its right and
    on its left: the precedence of its operator if it is a binary node; a
    unary node is open on its right only; the other expressions are closed. *)
Definition rightLevel (node : AstNode) : nat :=
  match node with
  | Binary op _ _ => precedence (Some op)
  | _ => 4
  end.

Definition leftLevel (node : AstNode) : nat :=
  match node with
  | Binary op _ _ | Unary op _ => precedence (Some op)
  | _ => 4
  end.

(** The expressions that the parser builds.  The operator of a unary node
    is [minus], that of a binary node one of the four arithmetic operators.
    The right operand of a binary node is not a binary node of the same or
    a lower precedence (operators associate to the left), its left operand
    is neither a binary node of lower precedence nor, under [star] and
    [slash], a unary node; the operand of a unary node is not a sum or a
    difference; the target of an invocation is a literal, an identifier or
    an invocation. *)
Fixpoint parsedExpr (node : AstNode) : bool :=
  match node with
  | IntLit value => bool_decide (0 ≤ value)%Z
  | StringLit value => bool_decide ("'"%char ∉ chars value)
  | Ident name => isName name
  | Unary op expr =>
      bool_decide (op = TokenType.minus) && parsedExpr expr
      && (precedence (Some op) <? rightLevel expr)
  | Binary op l r =>
      bool_decide (op ∈ [TokenType.plus; TokenType.minus; TokenType.star; TokenType.slash])
      && parsedExpr l && parsedExpr r
      && (precedence (Some op) <=? leftLevel l)
      && (precedence (Some op) <? rightLevel r)
  | Invoke target args =>
      parsedExpr target && (3 <=? leftLevel target) && forallb parsedExpr args
  | ValDecl _ _ | FuncDecl _ _ _ | Print _ => false
  end.

(** The statements that the parser builds. *)
Fixpoint parsedStmt (node : AstNode) : bool :=
  match node with
  | ValDecl name value => isName name && parsedExpr value
  | FuncDecl name params body =>
      isName name && forallb isName params && forallb parsedStmt body
  | Print expr => parsedExpr expr
  | _ => parsedExpr node
  end.

(** The strings that the front end throws. *)
Definition errorOk (e : SyntaxError) : Prop :=
  match e with
  | UnknownToken ch =>
      isWhitespace ch = false ∧ isDigit ch = false ∧ isAlpha ch = false
      ∧ ch ∉ chars "'=+-*/(){},"
  | ExpectedToken expected got =>
      got ≠ Some expected
      ∧ expected ∈ [TokenType.ident; TokenType.eq; TokenType.lparen;
                    TokenType.lbrace; TokenType.rbrace]
  | UnexpectedToken got => Parser.getPrefixFn got = None
  end.

(** [r] did not return, or what it returned satisfies [Q]; if it threw, it
    threw one of the strings above. *)
Definition ensures {A} (Q : A → Prop) (r : Parse A) : Prop :=
  match r with
  | Got a => Q a
  | Raise e => errorOk e
  | Unfinished => True
  end.

(** The token types that [expectToken] is called with when the current
    token may be of another type. *)
Definition mayFail (type : TokenType.t) : Prop :=
  type ∈ [TokenType.ident; TokenType.eq; TokenType.lparen; TokenType.lbrace;
          TokenType.rbrace].

(** The postcondition of an expression read at precedence [prec]. *)
Definition exprPost (prec : nat) (r : AstNode * Parser.t) : Prop :=
  lexed r.2 ∧ parsedExpr r.1 = true ∧ prec < rightLevel r.1
  ∧ precedence (tokenType (Parser.token r.2)) ≤ leftLevel r.1
  ∧ precedence (tokenType (Parser.token r.2)) ≤ prec.

(** The precondition of the loop of [parsePrecedence]. *)
Definition loopPre (prec : nat) (leftExpr : AstNode) (p : Parser.t) : Prop :=
  lexed p ∧ parsedExpr leftExpr = true ∧ prec < rightLevel leftExpr
  ∧ precedence (tokenType (Parser.token p)) ≤ leftLevel leftExpr.

(** ** Notions used to state the safety of compiled code *)

(** A sequence of whole instructions, none of which is [return], whose
    [constant] instructions name an entry of a pool of [n] constants. *)
Inductive Linked (n : nat) : list Z → Prop :=
| Linked_nil : Linked n []
| Linked_op0 (op : Opcode.t) (rest : list Z) :
    opcodeArgs op = 0 → op ≠ Opcode.return_ → Linked n rest →
    Linked n (byte op :: rest)
| Linked_op1 (op : Opcode.t) (operand : Z) (rest : list Z) :
    opcodeArgs op = 1 →
    (op = Opcode.constant → (0 ≤ operand < Z.of_nat n)%Z) →
    Linked n rest →
    Linked n (byte op :: operand :: rest).

(** The code of a module or of a function: linked instructions followed by
    the only [return]. *)
Definition linkedCode (n : nat) (code : list Z) : Prop :=
  ∃ c, code = c ++ [byte Opcode.return_] ∧ Linked n c.

Definition linkedValue (n : nat) (v : Value) : Prop :=
  match v with
  | VFunction _ code => linkedCode n code
  | _ => True
  end.

(** The functions of the pool of a compiler are linked against the pool. *)
Definition poolLinked (st : Compiler.State) : Prop :=
  Forall (λ o, linkedValue (length (Compiler.constants st)) (val o))
    (Compiler.constants st).

Definition linkedModule (m : Module) : Prop :=
  linkedCode (length (moduleConstants m)) (moduleCode m)
  ∧ Forall (linkedValue (length (moduleConstants m))) (moduleConstants m).

(** A frame runs linked code and its instruction pointer is at an
    instruction of that code. *)
Definition linkedFrame (n : nat) (f : VM.CallFrame) : Prop :=
  ∃ c1 c2, VM.code f = c1 ++ c2 ++ [byte Opcode.return_]
           ∧ Linked n c1 ∧ Linked n c2 ∧ VM.ip f = length c1.

(** The states of a VM that runs a linked module: the functions on the
    stack are linked against the pool of the module, and so are the frames
    of the call stack. *)
Definition safe (vm : VM.State) : Prop :=
  let n := length (moduleConstants (VM.module vm)) in
  Forall (linkedValue n) (moduleConstants (VM.module vm))
  ∧ Forall (linkedValue n) (VM.elems (VM.stack vm))
  ∧ Forall (λ kv, linkedValue n kv.2) (VM.props (VM.stack vm))
  ∧ linkedFrame n (VM.currentFrame vm)
  ∧ Forall (linkedFrame n) (VM.callers vm).

(** What compiling a node does to the pool and to the code: the functions
    of the pool stay linked, the pool does not shrink, and the code that is
    appended is linked against the pool. *)
Definition links (st st' : Compiler.State) : Prop :=
  poolLinked st'
  ∧ length (Compiler.constants st) ≤ length (Compiler.constants st')
  ∧ ∃ c, emits st st' c ∧ Linked (length (Compiler.constants st')) c.

(** ** The value of an expression without names *)

(** What [neg], [add] and [sub] make of their operands. *)
Definition negValue (val : Value) : Res Value :=
  match val with
  | VNumber value => Ok (VNumber (- value))
  | _ => Throw (NegTypeMismatch (typeOf val))
  end.

Definition addValues (left_ right_ : Value) : Res Value :=
  if VM.isString left_ || VM.isString right_ then
    Ok (VString (valueToString left_ +:+ valueToString right_))
  else
    match left_, right_ with
    | VNumber l, VNumber r => Ok (VNumber (l + r))
    | _, _ => Throw (AddTypeMismatch (typeOf left_) (typeOf right_))
    end.

Definition subValues (left_ right_ : Value) : Res Value :=
  match left_, right_ with
  | VNumber l, VNumber r => Ok (VNumber (l - r))
  | _, _ => Throw (SubTypeMismatch (typeOf left_) (typeOf right_))
  end.

(** The value of an expression made of integer and string literals,
    negation, [+] and [-], operands evaluated from left to right; [None]
    for the other nodes. *)
Fixpoint evalExpr (node : AstNode) : option (Res Value) :=
  match node with
  | IntLit value => Some (Ok (VNumber value))
  | StringLit value => Some (Ok (VString value))
  | Unary TokenType.minus expr =>
      match evalExpr expr with
      | Some (Ok val) => Some (negValue val)
      | other => other
      end
  | Binary TokenType.plus l r =>
      match evalExpr l, evalExpr r with
      | Some (Ok left_), Some (Ok right_) => Some (addValues left_ right_)
      | Some (Ok _), other => other
      | Some (Throw e), Some _ => Some (Throw e)
      | _, _ => None
      end
  | Binary TokenType.minus l r =>
      match evalExpr l, evalExpr r with
      | Some (Ok left_), Some (Ok right_) => Some (subValues left_ right_)
      | Some (Ok _), other => other
      | Some (Throw e), Some _ => Some (Throw e)
      | _, _ => None
      end
  | _ => None
  end.

(** The literals of the expression and the numbers that its evaluation
    goes through are safe integers. *)
Fixpoint exactExpr (node : AstNode) : bool :=
  match node with
  | IntLit value => bool_decide (safeInteger value)
  | Unary _ expr => exactExpr expr
  | Binary _ l r =>
      exactExpr l && exactExpr r
      && match evalExpr node with
         | Some (Ok (VNumber value)) => bool_decide (safeInteger value)
         | _ => true
         end
  | _ => true
  end.

(** The loop of [run] takes the VM from [vm] to [vm'] by executing the
    instructions [c]. *)
Definition runsTo (c : list Z) (vm vm' : VM.State) : Prop :=
  (∀ fuel, VM.loop (instrCount c 0 + fuel) vm = VM.loop fuel vm')
  ∧ sameControl vm vm' (length c).

(** The loop of [run] fails with [e] while executing the instructions [c]. *)
Definition failsIn (c : list Z) (vm : VM.State) (e : Error) : Prop :=
  ∃ vf, ∀ fuel, VM.loop (instrCount c 0 + fuel) vm = Some (VM.Fail e vf).

(** Executing [c] from [vm] has the outcome [r]: it pushes the value, or
    it fails with the error. *)
Definition yields (c : list Z) (r : Res Value) (vm : VM.State) : Prop :=
  match r with
  | Ok v =>
      ∃ vm', runsTo c vm vm'
             ∧ VM.elems (VM.stack vm') = VM.elems (VM.stack vm) ++ [v]
  | Throw e => failsIn c vm e
  end.

(** The operators that the compilers know: [minus] as a unary operator,
    [plus] and [minus] as binary operators, in the node and below it. *)
Fixpoint operatorsOk (node : AstNode) : bool :=
  match node with
  | IntLit _ | StringLit _ | Ident _ => true
  | Unary op expr => bool_decide (op = TokenType.minus) && operatorsOk expr
  | Binary op l r =>
      bool_decide (op ∈ [TokenType.plus; TokenType.minus])
      && operatorsOk l && operatorsOk r
  | Invoke target args => forallb operatorsOk args && operatorsOk target
  | ValDecl _ value => operatorsOk value
  | FuncDecl _ _ body => forallb operatorsOk body
  | Print expr => operatorsOk expr
  end.

(** The strings that the compiler throws for a program that the parser
    returned. *)
Definition compileErrorOk (e : Error) : Prop :=
  match e with
  | UnknownIdentifier name | DuplicateIdentifier name => isName name = true
  | UnknownOperator op => op ∈ [TokenType.star; TokenType.slash]
  | _ => False
  end.

(** The node refers to the identifier [name], the bodies of the functions
    it declares included. *)
Fixpoint refersTo (name : string) (node : AstNode) : bool :=
  match node with
  | IntLit _ | StringLit _ => false
  | Ident n => bool_decide (n = name)
  | Unary _ expr | Print expr | ValDecl _ expr => refersTo name expr
  | Binary _ l r => refersTo name l || refersTo name r
  | Invoke target args => existsb (refersTo name) args || refersTo name target
  | FuncDecl _ _ body => existsb (refersTo name) body
  end.

(** The node holds the declaration of a value or of a function named
    [name], the bodies of the functions it declares included. *)
Fixpoint declaresIn (name : string) (node : AstNode) : bool :=
  match node with
  | IntLit _ | StringLit _ | Ident _ => false
  | Unary _ expr | Print expr => declaresIn name expr
  | Binary _ l r => declaresIn name l || declaresIn name r
  | Invoke target args => existsb (declaresIn name) args || declaresIn name target
  | ValDecl n value => bool_decide (n = name) || declaresIn name value
  | FuncDecl n _ body => bool_decide (n = name) || existsb (declaresIn name) body
  end.

(** The node applies the operator [op]. *)
Fixpoint appliesOp (op : TokenType.t) (node : AstNode) : bool :=
  match node with
  | IntLit _ | StringLit _ | Ident _ => false
  | Unary o expr => bool_decide (o = op) || appliesOp op expr
  | Binary o l r => bool_decide (o = op) || appliesOp op l || appliesOp op r
  | Invoke target args => existsb (appliesOp op) args || appliesOp op target
  | ValDecl _ expr | Print expr => appliesOp op expr
  | FuncDecl _ _ body => existsb (appliesOp op) body
  end.

(** What the string that the compiler throws names is in the node: the
    identifier that is unknown, the name that is declared again, the
    operator that is not supported. *)
Definition thrownFor (e : Error) (node : AstNode) : bool :=
  match e with
  | UnknownIdentifier name => refersTo name node
  | DuplicateIdentifier name => declaresIn name node
  | UnknownOperator op => appliesOp op node
  | _ => false
  end.

(** ** The JavaScript back end ([compiler-js.ts]) *)

(** What the back end throws. *)
Inductive JsError :=
| UnknownUnaryOperator (op : TokenType.t)    (* Unknown unary operator ${node.op} *)
| UnknownBinaryOperator (op : TokenType.t).  (* Unknown binary operator ${node.op} *)

Inductive JsRes (A : Type) :=
| JsOk (a : A)
| JsThrow (e : JsError).
Arguments JsOk {A} a.
Arguments JsThrow {A} e.

Definition jsBind {A B} (r : JsRes A) (k : A → JsRes B) : JsRes B :=
  match r with
  | JsOk a => k a
  | JsThrow e => JsThrow e
  end.

Notation "'js' x <- r ; k" := (jsBind r (λ x, k))
  (at level 10, x name, r at level 100, k at level 200, only parsing).

(** An element of [output]: a string or a number. *)
Inductive Piece :=
| Text (s : string)
| Num (n : Z).

(** The element as [join] renders it. *)
Definition pieceToString (p : Piece) : string :=
  match p with
  | Text s => s
  | Num n => pretty n
  end.

(** [pieces.join(sep)] for an array of strings. *)
Fixpoint join (sep : string) (pieces : list string) : string :=
  match pieces with
  | [] => ""
  | [s] => s
  | s :: rest => s +:+ sep +:+ join sep rest
  end.

Module CompilerJs.

Record State := mk { output : list Piece; indentLevel : nat }.

(** The fields of a fresh compiler. *)
Definition init : State := mk [] 0.

Definition emit (p : Piece) (st : State) : State :=
  mk (output st ++ [p]) (indentLevel st).

Definition withIndent (n : nat) (st : State) : State := mk (output st) n.

(** [indent()]: [n] times [emit('  ')]. *)
Fixpoint indentLoop (n : nat) (st : State) : State :=
  match n with
  | 0 => st
  | S n' => indentLoop n' (emit (Text "  ") st)
  end.

Definition indent (st : State) : State := indentLoop (indentLevel st) st.

(** The loop of [visitFuncDecl] over the parameters: [this.visit(param)]
    is [visitIdent], which emits the name. *)
Fixpoint visitParams (params : list string) (st : State) : State :=
  match params with
  | [] => st
  | param :: rest =>
      let st := emit (Text param) st in
      let st := if bool_decide (rest ≠ []) then emit (Text ", ") st else st in
      visitParams rest st
  end.

(** [Visitor.visit] with the nine methods of the back end; the loops over
    the arguments of an invocation and over the body of a function are
    local fixpoints, given their own names below. *)
Fixpoint visit (node : AstNode) (st : State) {struct node} : JsRes State :=
  match node with
  | IntLit value => JsOk (emit (Num value) st)
  | StringLit value => JsOk (emit (Text ("'" +:+ value +:+ "'")) st)
  | Ident name => JsOk (emit (Text name) st)
  | Unary op expr =>
      match op with
      | TokenType.minus => visit expr (emit (Text "-") st)
      | _ => JsThrow (UnknownUnaryOperator op)
      end
  | Binary op left_ right_ =>
      js st <- visit left_ st ;
      let st := emit (Text " ") st in
      match op with
      | TokenType.plus => visit right_ (emit (Text " ") (emit (Text "+") st))
      | TokenType.minus => visit right_ (emit (Text " ") (emit (Text "-") st))
      | _ => JsThrow (UnknownBinaryOperator op)
      end
  | Invoke target args =>
      js st <- visit target st ;
      let st := emit (Text "(") st in
      js st <- (fix visitArgs (args : list AstNode) (st : State) : JsRes State :=
                match args with
                | [] => JsOk st
                | arg :: rest =>
                    js st <- visit arg st ;
                    visitArgs rest
                      (if bool_decide (rest ≠ []) then emit (Text ", ") st else st)
                end) args st ;
      JsOk (emit (Text ")") st)
  | ValDecl name value =>
      js st <- visit value (emit (Text ("const " +:+ name +:+ " = ")) st) ;
      JsOk (emit (Text ";") st)
  | FuncDecl name params body =>
      let st := emit (Text ("function " +:+ name +:+ "(")) st in
      let st := visitParams params st in
      let st := emit (Text (") {" +:+ String "010"%char "")) st in
      let st := withIndent (S (indentLevel st)) st in
      js st <- (fix visitBody (body : list AstNode) (st : State) : JsRes State :=
                match body with
                | [] => JsOk st
                | bodyNode :: rest =>
                    let st := indent st in
                    js st <- (if isExpr bodyNode && bool_decide (rest = []) then
                                js st <- visit bodyNode (emit (Text "return ") st) ;
                                JsOk (emit (Text ";") st)
                              else visit bodyNode st) ;
                    visitBody rest (emit (Text (String "010"%char "")) st)
                end) body st ;
      let st := withIndent (indentLevel st - 1) st in
      JsOk (emit (Text "}") st)
  | Print expr =>
      js st <- visit expr (emit (Text "console.log(") st) ;
      JsOk (emit (Text ");") st)
  end.

(** The loop of [visitInvoke] over the arguments. *)
Fixpoint visitArgs (args : list AstNode) (st : State) : JsRes State :=
  match args with
  | [] => JsOk st
  | arg :: rest =>
      js st <- visit arg st ;
      visitArgs rest (if bool_decide (rest ≠ []) then emit (Text ", ") st else st)
  end.

(** The loop of [visitFuncDecl] over the body. *)
Fixpoint visitBody (body : list AstNode) (st : State) : JsRes State :=
  match body with
  | [] => JsOk st
  | bodyNode :: rest =>
      let st := indent st in
      js st <- (if isExpr bodyNode && bool_decide (rest = []) then
                  js st <- visit bodyNode (emit (Text "return ") st) ;
                  JsOk (emit (Text ";") st)
                else visit bodyNode st) ;
      visitBody rest (emit (Text (String "010"%char "")) st)
  end.

(** The loop of [compile]. *)
Fixpoint compileLoop (nodes : list AstNode) (st : State) : JsRes State :=
  match nodes with
  | [] => JsOk st
  | node :: rest =>
      js st <- visit node st ;
      let st := if isExpr node then emit (Text ";") st else st in
      compileLoop rest (emit (Text (String "010"%char "")) st)
  end.

(** [compile()] of a compiler whose parser produced [nodes]. *)
Definition compile (nodes : list AstNode) : JsRes string :=
  js st <- compileLoop nodes init ;
  JsOk (join "" (map pieceToString (output st))).

End CompilerJs.

(** ** The commands ([index.ts]) *)

(** [opcodeMeta[op].name] *)
Definition opcodeName (op : Opcode.t) : string :=
  match op with
  | Opcode.const0 => "const0" | Opcode.const1 => "const1" | Opcode.const2 => "const2"
  | Opcode.constant => "constant" | Opcode.neg => "neg" | Opcode.add => "add"
  | Opcode.sub => "sub" | Opcode.load => "load" | Opcode.store => "store"
  | Opcode.print => "print" | Opcode.invoke => "invoke" | Opcode.pop => "pop"
  | Opcode.nil => "nil" | Opcode.return_ => "return"
  end.

(** The loop of [formatBytecode] over the code that is left: one line per
    instruction.  [opcodeMeta[byte]] is [undefined] for a number that is no
    opcode, and taking its fields throws a [TypeError]: [None].  No opcode
    has more than one operand; an operand that is missing at the end of the
    code is rendered as [undefined]. *)
Fixpoint formatLines (indent : bool) (code : list Z) : option (list string) :=
  match code with
  | [] => Some []
  | b :: rest =>
      match decode b with
      | None => None
      | Some op =>
          let margin := if indent then "  " else "" in
          match opcodeArgs op, rest with
          | 0, _ =>
              match formatLines indent rest with
              | Some lines => Some ((margin +:+ opcodeName op) :: lines)
              | None => None
              end
          | _, operand :: rest' =>
              match formatLines indent rest' with
              | Some lines =>
                  Some ((margin +:+ opcodeName op +:+ " " +:+ pretty operand) :: lines)
              | None => None
              end
          | _, [] => Some [margin +:+ opcodeName op +:+ " undefined"]
          end
      end
  end.

Definition formatBytecode (name : string) (code : list Z) (indent : bool)
    : option string :=
  match formatLines indent code with
  | Some lines =>
      Some (join (String "010"%char "") ((if indent then [name +:+ ":"] else []) ++ lines))
  | None => None
  end.

Definition formatValue (v : Value) : string :=
  match v with
  | VString value => String "034"%char (value +:+ String "034"%char (String "010"%char ""))
  | VNumber value => pretty value +:+ String "010"%char ""
  | VNil => "nil" +:+ String "010"%char ""
  | VFunction name _ => name +:+ "  #<fn>" +:+ String "010"%char ""
  end.

(** The first loop of the [dis] command: the listings of the functions of
    the pool, appended to [res]. *)
Fixpoint disFunctions (constants : list Value) (res : string) : option string :=
  match constants with
  | [] => Some res
  | VFunction name code :: rest =>
      match formatBytecode name code true with
      | Some text =>
          disFunctions rest (res +:+ text +:+ String "010"%char (String "010"%char ""))
      | None => None
      end
  | _ :: rest => disFunctions rest res
  end.

(** The loop over the constant table, from index [i] on. *)
Fixpoint disConstants (i : nat) (constants : list Value) (res : string) : string :=
  match constants with
  | [] => res
  | c :: rest => disConstants (S i) rest (res +:+ pretty i +:+ ":  " +:+ formatValue c)
  end.

(** What the [dis] command prints for a module; [None] when a [TypeError]
    is thrown. *)
Definition dis (showConstants : bool) (m : Module) : option string :=
  match disFunctions (moduleConstants m) "" with
  | Some res =>
      match formatBytecode "$main" (moduleCode m) (negb (bool_decide (res = ""))) with
      | Some text =>
          let res := res +:+ text in
          Some (if showConstants then
                  disConstants 0 (moduleConstants m)
                    (res +:+ String "010"%char (String "010"%char "")
                     +:+ "--- Constant table ---"
                     +:+ String "010"%char (String "010"%char ""))
                else res)
      | None => None
      end
  | None => None
  end.

(** The outcome of the [run] command: the lines written to the console, or
    the string that was thrown, after the lines written before it. *)
Inductive RunOutcome :=
| Printed (lines : list string)
| SyntaxFailure (e : SyntaxError)
| Failure (lines : list string) (e : Error)
| StillRunning.

(** The [run] command on the text of a program; [fuel] bounds the parser
    and the number of instructions. *)
Definition runCommand (fuel : nat) (input : string) : RunOutcome :=
  match parseProgram fuel input with
  | Unfinished => StillRunning
  | Raise e => SyntaxFailure e
  | Got nodes =>
      match Compiler.compile nodes with
      | Throw e => Failure [] e
      | Ok m =>
          match VM.loop fuel (VM.new m) with
          | None => StillRunning
          | Some (VM.Fail e vm) => Failure (VM.output vm) e
          | Some (VM.Done vm) =>
              let result := VM.result vm in
              Printed (VM.output vm
                       ++ match result with
                          | VNil => []
                          | _ => [valueToString result]
                          end)
          end
      end
  end.

(** ** The meaning of a program *)

(** The evaluation of a program as the specification of the language
    describes it, on the syntax tree: operands and arguments from left to
    right, a call binding the parameters of the function to its arguments,
    a block having the value of its last statement.  It is what the code of
    the compiler, run by the VM, is compared with. *)

(** The values of the language.  A function is its declaration: its body
    refers to nothing but its parameters and what it declares itself. *)
Inductive SValue :=
| SNumber (value : Z)
| SString (value : string)
| SNil
| SFunction (name : string) (params : list string) (body : list AstNode).

Definition typeOfS (v : SValue) : VType :=
  match v with
  | SNumber _ => TNumber
  | SString _ => TString
  | SNil => TNil
  | SFunction _ _ _ => TFunction
  end.

(** The rendering of a value, as [print] and [+] use it. *)
Definition showS (v : SValue) : string :=
  match v with
  | SNumber value => pretty value
  | SString value => value
  | SNil => "nil"
  | SFunction name _ _ => "<#fn " +:+ name +:+ ">"
  end.

Definition isStringS (v : SValue) : bool :=
  match v with SString _ => true | _ => false end.

(** The value of a name in a scope, the list of its names with their values
    in the order of their declarations: the value of the last declaration
    of the name. *)
Fixpoint lookupLast (name : string) (env : list (string * SValue)) : option SValue :=
  match env with
  | [] => None
  | (n, v) :: rest =>
      match lookupLast name rest with
      | Some w => Some w
      | None => if bool_decide (n = name) then Some v else None
      end
  end.

(** What an evaluation gives: the lines it prints, and the value it ends
    with or the failure that ends it.  [None]: the evaluation is not
    defined, or it makes more nested calls than the bound allows. *)
Definition Meaning (A : Type) : Type := option (list string * Res A).

Definition yield {A} (a : A) : Meaning A := Some ([], Ok a).
Definition raise {A} (e : Error) : Meaning A := Some ([], Throw e).
Definition say (line : string) : Meaning unit := Some ([line], Ok tt).

Definition after {A B} (r : Meaning A) (k : A → Meaning B) : Meaning B :=
  match r with
  | None => None
  | Some (out, Throw e) => Some (out, Throw e)
  | Some (out, Ok a) =>
      match k a with
      | None => None
      | Some (out', r') => Some (out ++ out', r')
      end
  end.

Section Meaning.
(** The numbers that the evaluation may go through. *)
Variable admissible : Z → bool.
(** The call of a function: parameters, body, arguments. *)
Variable call : list string → list AstNode → list SValue → Meaning SValue.

Definition number (value : Z) : Meaning SValue :=
  if admissible value then yield (SNumber value) else None.

Definition negS (v : SValue) : Meaning SValue :=
  match v with
  | SNumber value => number (- value)
  | _ => raise (NegTypeMismatch (typeOfS v))
  end.

Definition addS (l r : SValue) : Meaning SValue :=
  if isStringS l || isStringS r then yield (SString (showS l +:+ showS r))
  else
    match l, r with
    | SNumber a, SNumber b => number (a + b)
    | _, _ => raise (AddTypeMismatch (typeOfS l) (typeOfS r))
    end.

Definition subS (l r : SValue) : Meaning SValue :=
  match l, r with
  | SNumber a, SNumber b => number (a - b)
  | _, _ => raise (SubTypeMismatch (typeOfS l) (typeOfS r))
  end.

(** The call of the value [f] with [argc] arguments [vs]: the value must be
    a function; the call is defined when the function has as many
    parameters as it is given arguments. *)
Definition callValue (f : SValue) (argc : nat) (vs : list SValue) : Meaning SValue :=
  match f with
  | SFunction _ params body =>
      if bool_decide (length params = argc) then call params body vs else None
  | _ => raise (NotInvocable (typeOfS f))
  end.

(** The value of an expression: operands from left to right, the
    arguments of a call from left to right, then the function that is
    called. *)
Fixpoint evaluate (env : list (string * SValue)) (node : AstNode) {struct node}
    : Meaning SValue :=
  match node with
  | IntLit value => number value
  | StringLit value => yield (SString value)
  | Ident name =>
      match lookupLast name env with
      | Some v => yield v
      | None => None
      end
  | Unary TokenType.minus expr => after (evaluate env expr) negS
  | Binary TokenType.plus l r =>
      after (evaluate env l) (λ a, after (evaluate env r) (λ b, addS a b))
  | Binary TokenType.minus l r =>
      after (evaluate env l) (λ a, after (evaluate env r) (λ b, subS a b))
  | Invoke target args =>
      after ((fix evaluateAll (nodes : list AstNode) : Meaning (list SValue) :=
                match nodes with
                | [] => yield []
                | arg :: rest =>
                    after (evaluate env arg) (λ v,
                    after (evaluateAll rest) (λ vs, yield (v :: vs)))
                end) args) (λ vs,
      after (evaluate env target) (λ f, callValue f (length args) vs))
  | _ => None
  end.

Fixpoint evaluateAll (env : list (string * SValue)) (nodes : list AstNode)
    : Meaning (list SValue) :=
  match nodes with
  | [] => yield []
  | arg :: rest =>
      after (evaluate env arg) (λ v,
      after (evaluateAll env rest) (λ vs, yield (v :: vs)))
  end.

(** A statement: a declaration binds its name, [print] prints the rendering
    of a value; both have the value nil.  An expression has its value. *)
Definition perform (env : list (string * SValue)) (node : AstNode)
    : Meaning (SValue * list (string * SValue)) :=
  match node with
  | ValDecl name value =>
      after (evaluate env value) (λ v, yield (SNil, env ++ [(name, v)]))
  | FuncDecl name params body =>
      yield (SNil, env ++ [(name, SFunction name params body)])
  | Print expr =>
      after (evaluate env expr) (λ v,
      after (say (showS v)) (λ _, yield (SNil, env)))
  | _ => after (evaluate env node) (λ v, yield (v, env))
  end.

(** The statements of a block, one after the other, each in the scope that
    the statements before it left.  The block has the value of its last
    statement: the value of the expression when that is an expression, nil
    when it is a declaration or a [print]. *)
Fixpoint execute (env : list (string * SValue)) (nodes : list AstNode)
    : Meaning (SValue * list (string * SValue)) :=
  match nodes with
  | [] => None
  | node :: rest =>
      after (perform env node) (λ r,
        if bool_decide (rest = []) then yield r else execute r.2 rest)
  end.

(** The scope that the statements of a block leave, each performed in the
    scope that the statements before it left. *)
Fixpoint declare (env : list (string * SValue)) (nodes : list AstNode)
    : Meaning (list (string * SValue)) :=
  match nodes with
  | [] => yield env
  | node :: rest => after (perform env node) (λ r, declare r.2 rest)
  end.

(** The body of a function in the scope of a call: the slot of the result,
    then the parameters with the arguments.  A function without body and
    without parameters yields nil. *)
Definition enter (params : list string) (args : list SValue) : list (string * SValue) :=
  ("#ret", SNil) :: zip params args.

Definition callBody (params : list string) (body : list AstNode) (args : list SValue)
    : Meaning SValue :=
  match body, params with
  | [], [] => yield SNil
  | [], _ => None
  | _, _ => after (execute (enter params args) body) (λ r, yield r.1)
  end.

End Meaning.

(** A call, with at most [fuel] calls nested in one another. *)
Fixpoint invokeFunction (admissible : Z → bool) (fuel : nat)
    (params : list string) (body : list AstNode) (args : list SValue) : Meaning SValue :=
  match fuel with
  | 0 => None
  | S fuel' => callBody admissible (invokeFunction admissible fuel') params body args
  end.

(** The meaning of a program: what it prints and the value of its block,
    nil for the empty program. *)
Definition meaning (admissible : Z → bool) (fuel : nat) (nodes : list AstNode)
    : Meaning SValue :=
  match nodes with
  | [] => yield SNil
  | _ =>
      after (execute admissible (invokeFunction admissible fuel) [] nodes)
        (λ r, yield r.1)
  end.

(** The numbers on which the model of the doubles of the code is exact. *)
Definition safe53 (z : Z) : bool := bool_decide (safeInteger z).

(** ** Compiled values *)

(** The code of a function whose body was compiled up to the state [st]:
    the code of the body, the store of its value in the slot of the result,
    a [pop] for each parameter and for each local of the body, [return]. *)
Definition functionCode (st : Compiler.State) : list Z :=
  Compiler.code st
  ++ [byte Opcode.store; 0%Z]
  ++ replicate (length (Compiler.localsAtDepth st) - 1) (byte Opcode.pop)
  ++ [byte Opcode.return_].

(** [fcode] is the code that the compiler made of the function, in a
    module whose pool holds the constants of the function. *)
Definition compiledFunction (m : Module) (params : list string) (body : list AstNode)
    (fcode : list Z) : Prop :=
  ∃ st st' more,
    poolAllocated st ∧ localsOk st
    ∧ Compiler.compileBlock body (Compiler.enterFunc params st) = Ok st'
    ∧ fcode = functionCode st'
    ∧ moduleConstants m = map val (Compiler.constants st') ++ more.

(** The value of the VM that stands for a value of the language. *)
Definition represents (m : Module) (sv : SValue) (v : Value) : Prop :=
  match sv, v with
  | SNumber a, VNumber b => a = b
  | SString a, VString b => a = b
  | SNil, VNil => True
  | SFunction name params body, VFunction name' fcode =>
      name' = name ∧ compiledFunction m params body fcode
  | _, _ => False
  end.

(** The frame of the VM holds the scope [env]: above [base], the slots of
    the names of [env] in order, then the values [temps] of the expression
    that is being evaluated. *)
Definition holds (m : Module) (env : list (string * SValue)) (base temps : list Value)
    (vm : VM.State) : Prop :=
  VM.module vm = m
  ∧ VM.stackOffset (VM.currentFrame vm) = KInt (Z.of_nat (length base))
  ∧ ∃ slots, VM.elems (VM.stack vm) = base ++ slots ++ temps
             ∧ Forall2 (represents m) (map snd env) slots.

(** The current frame stands before the code [c], which [pre] precedes and
    [post] follows. *)
Definition stands (vm : VM.State) (pre c post : list Z) : Prop :=
  VM.code (VM.currentFrame vm) = pre ++ c ++ post
  ∧ VM.ip (VM.currentFrame vm) = length pre.

(** The VM fails as the evaluation does. *)
Definition failsAs (out : list string) (e : Error) (vm : VM.State) : Prop :=
  ∃ n vf, VM.steps n vm = VM.Fail e vf
          ∧ VM.halted vf = VM.halted vm ∧ VM.output vf = VM.output vm ++ out.

(** Running the code [c] of an expression does what its evaluation [r]
    does: it prints the same lines and pushes the value, or fails. *)
Definition computes (m : Module) (c : list Z) (r : list string * Res SValue)
    (vm : VM.State) : Prop :=
  match r with
  | (out, Ok sv) =>
      ∃ n vm' v,
        VM.steps n vm = VM.Done vm' ∧ sameControl vm vm' (length c)
        ∧ VM.elems (VM.stack vm') = VM.elems (VM.stack vm) ++ [v]
        ∧ represents m sv v
        ∧ VM.output vm' = VM.output vm ++ out
  | (out, Throw e) => failsAs out e vm
  end.

(** The same for the code of several expressions. *)
Definition computesAll (m : Module) (c : list Z) (r : list string * Res (list SValue))
    (vm : VM.State) : Prop :=
  match r with
  | (out, Ok svs) =>
      ∃ n vm' vs,
        VM.steps n vm = VM.Done vm' ∧ sameControl vm vm' (length c)
        ∧ VM.elems (VM.stack vm') = VM.elems (VM.stack vm) ++ vs
        ∧ Forall2 (represents m) svs vs
        ∧ VM.output vm' = VM.output vm ++ out
  | (out, Throw e) => failsAs out e vm
  end.

(** Running the code [c] of a block in the frame of the scope [env] does
    what the block does: the slots of the names that the block declares
    are appended to those of [env], the value of the block is on top. *)
Definition performs (m : Module) (c : list Z) (env : list (string * SValue))
    (base : list Value) (r : list string * Res (SValue * list (string * SValue)))
    (vm : VM.State) : Prop :=
  match r with
  | (out, Ok (sv, env')) =>
      ∃ n vm' v,
        VM.steps n vm = VM.Done vm' ∧ sameControl vm vm' (length c)
        ∧ holds m env' base [v] vm'
        ∧ represents m sv v
        ∧ length env ≤ length env'
        ∧ VM.output vm' = VM.output vm ++ out
  | (out, Throw e) => failsAs out e vm
  end.

(** The VM has just entered the function [fcode]: the frame of the call is
    on top of the call stack, above the frame [caller] that will resume;
    the slot of the result and the arguments are on top of [base]. *)
Definition entered (m : Module) (fcode : list Z) (base argvals : list Value)
    (caller : VM.CallFrame) (cs : list VM.CallFrame) (vm : VM.State) : Prop :=
  VM.module vm = m
  ∧ VM.currentFrame vm = VM.mkFrame 0 fcode (KInt (Z.of_nat (length base)))
  ∧ VM.callers vm = caller :: cs
  ∧ VM.elems (VM.stack vm) = base ++ VNil :: argvals.

(** The call returns to the caller with the result in place of the slot
    and of the arguments, or fails. *)
Definition returns (m : Module) (base : list Value) (caller : VM.CallFrame)
    (cs : list VM.CallFrame) (r : list string * Res SValue) (vm : VM.State) : Prop :=
  match r with
  | (out, Ok sv) =>
      ∃ n vm' v,
        VM.steps n vm = VM.Done vm'
        ∧ VM.module vm' = m ∧ VM.currentFrame vm' = caller ∧ VM.callers vm' = cs
        ∧ VM.halted vm' = VM.halted vm
        ∧ VM.elems (VM.stack vm') = base ++ [v]
        ∧ represents m sv v
        ∧ VM.output vm' = VM.output vm ++ out
  | (out, Throw e) => failsAs out e vm
  end.

(** What the simulation assumes of the calls of the evaluation: the VM
    does what they do. *)
Definition callSpec (call : list string → list AstNode → list SValue → Meaning SValue)
    : Prop :=
  ∀ params body args r, call params body args = Some r →
  ∀ m fcode base argvals caller cs vm,
    compiledFunction m params body fcode →
    length params = length args →
    Forall2 (represents m) args argvals →
    entered m fcode base argvals caller cs vm →
    returns m base caller cs r vm.

(** The code that the compiler makes of the expression [node] computes the
    value of the expression, in every frame that holds the scope in which
    the expression is evaluated; when there is a value, compiling the
    expression left the scope of the compiler as it was. *)
Definition simulates (admissible : Z → bool)
    (call : list string → list AstNode → list SValue → Meaning SValue)
    (node : AstNode) : Prop :=
  ∀ env r, evaluate admissible call env node = Some r →
  ∀ st st', poolAllocated st → Compiler.visit node st = Ok st' →
    map Local.name (Compiler.localsAtDepth st) = map fst env →
    (∀ sv, r.2 = Ok sv →
       Compiler.locals st' = Compiler.locals st ∧ Compiler.depth st' = Compiler.depth st)
    ∧ ∀ c m vm pre post more base temps,
        emits st st' c →
        stands vm pre c post →
        moduleConstants m = map val (Compiler.constants st') ++ more →
        holds m env base temps vm →
        computes m c r vm.

(** Running the code [c] of the statement [node] does what the statement
    does: in the frame, the slot of the name that a declaration binds is
    appended; the value of an expression is on top of the stack. *)
Definition performed (m : Module) (c : list Z) (node : AstNode) (base : list Value)
    (r : list string * Res (SValue * list (string * SValue))) (vm : VM.State) : Prop :=
  match r with
  | (out, Ok (sv, env')) =>
      ∃ n vm',
        VM.steps n vm = VM.Done vm' ∧ sameControl vm vm' (length c)
        ∧ VM.output vm' = VM.output vm ++ out
        ∧ if isExpr node then ∃ v, holds m env' base [v] vm' ∧ represents m sv v
          else holds m env' base [] vm' ∧ sv = SNil
  | (out, Throw e) => failsAs out e vm
  end.

(** * Properties *)

(** ** Unfolding equations of the compiler *)

Section CompilerFacts.
Import Compiler.

Lemma visit_Unary op expr st : visit (Unary op expr) st = visitUnary op expr st.
Proof. reflexivity. Qed.

Lemma visit_Binary op l r st : visit (Binary op l r) st = visitBinary op l r st.
Proof. reflexivity. Qed.

Lemma visit_Invoke target args st :
  visit (Invoke target args) st = visitInvoke target args st.
Proof.
  unfold visitInvoke. cbn [visit].
  assert (H : ∀ nodes s,
    (fix visitAll (nodes : list AstNode) (st : State) : Res State :=
       match nodes with
       | [] => Ok st
       | arg :: rest => do st <- visit arg st ; visitAll rest st
       end) nodes s = visitAll nodes s).
  { induction nodes as [|n rest IH]; intros s; [reflexivity|].
    cbn [visitAll]. destruct (visit n s); cbn [bind]; [apply IH | reflexivity]. }
  rewrite H. reflexivity.
Qed.

Lemma visit_ValDecl name value st :
  visit (ValDecl name value) st = visitValDecl name value st.
Proof. reflexivity. Qed.

Lemma visit_FuncDecl name params body st :
  visit (FuncDecl name params body) st = visitFuncDecl name params body st.
Proof.
  unfold visitFuncDecl. cbn [visit].
  assert (H : ∀ nodes s,
    (fix block (nodes : list AstNode) (st : State) : Res State :=
       match nodes with
       | [] => Ok st
       | node :: rest =>
           do st <- visit node st ;
           block rest (afterNode node (bool_decide (rest = [])) st)
       end) nodes s = compileBlock nodes s).
  { induction nodes as [|n rest IH]; intros s; [reflexivity|].
    cbn [compileBlock]. destruct (visit n s); cbn [bind]; [apply IH | reflexivity]. }
  rewrite H. reflexivity.
Qed.

Lemma visit_Print expr st : visit (Print expr) st = visitPrint expr st.
Proof. reflexivity. Qed.

Lemma bind_Ok {A B} (r : Res A) (k : A → Res B) b :
  bind r k = Ok b → ∃ a, r = Ok a ∧ k a = Ok b.
Proof. destruct r; cbn; [eauto | discriminate]. Qed.

End CompilerFacts.

(** ** The constant pool *)

Section ConstantPool.
Import Compiler.

Lemma scanConstants_fresh value cs i :
  Forall (λ c, addr c ≠ addr value) cs → scanConstants value cs i = None.
Proof.
  intros H. revert i. induction H as [|c cs Hc _ IH]; intros i; [reflexivity|].
  cbn [scanConstants]. unfold Lodash.eq.
  rewrite bool_decide_eq_false_2 by congruence. apply IH.
Qed.

(** The scan does find an entry when it is handed the very object that
    is in the pool. *)
Lemma scanConstants_same_object value pre post :
  Forall (λ c, addr c ≠ addr value) pre →
  scanConstants value (pre ++ value :: post) 0 = Some (length pre).
Proof.
  assert (G : ∀ i, Forall (λ c, addr c ≠ addr value) pre →
    scanConstants value (pre ++ value :: post) i = Some (i + length pre)).
  { intros i H. revert i. induction H as [|c cs Hc _ IH]; intros i; cbn.
    - unfold Lodash.eq. rewrite bool_decide_eq_true_2 by reflexivity.
      f_equal. lia.
    - unfold Lodash.eq. rewrite bool_decide_eq_false_2 by congruence.
      rewrite IH. f_equal. lia. }
  intros H. apply (G 0 H).
Qed.

(** An object literal evaluated for the call is never found by the scan:
    [addConstant] appends it, whatever the pool already holds. *)
Lemma addConstant_fresh v st :
  poolAllocated st →
  addConstant (alloc v st).1 (alloc v st).2 =
    (length (constants st),
     mk (constants st ++ [{| addr := nextAddr st; val := v |}])
        (locals st) (code st) (depth st) (S (nextAddr st))).
Proof.
  intros H. unfold addConstant, alloc. cbn.
  rewrite scanConstants_fresh.
  - rewrite length_app. cbn. f_equal. lia.
  - eapply Forall_impl; [exact H|]. cbn. intros c Hc. lia.
Qed.

Lemma visitIntLit_appends value st :
  poolAllocated st → value ≠ 0%Z →
  ∃ st', visit (IntLit value) st = Ok st'
    ∧ map val (constants st') = map val (constants st) ++ [VNumber value]
    ∧ code st' = code st ++ [byte Opcode.constant; Z.of_nat (length (constants st))].
Proof.
  intros H Hv. cbn [visit]. unfold visitIntLit.
  rewrite bool_decide_eq_false_2 by exact Hv.
  pose proof (addConstant_fresh (VNumber value) st H) as E.
  destruct (alloc (VNumber value) st) as [o st1]. cbn [fst snd] in E.
  rewrite E. eexists. split; [reflexivity|]. cbn. split; [|reflexivity].
  rewrite map_app. reflexivity.
Qed.

(** Two equal string literals take two entries of the pool. *)
Lemma addConstant_equal_strings_two_slots :
  Compiler.compile [StringLit "a"; StringLit "a"]
  = Ok (mkModule [VString "a"; VString "a"]
          [byte Opcode.constant; 0; byte Opcode.pop;
           byte Opcode.constant; 1; byte Opcode.return_]%Z).
Proof. reflexivity. Qed.

End ConstantPool.

(** ** Integer literals *)

Section IntLiterals.
Import Compiler.

Lemma visitIntLit_zero st :
  visit (IntLit 0) st = Ok (emit [byte Opcode.const0] st).
Proof. reflexivity. Qed.

Lemma addConstant_code o st : code (addConstant o st).2 = code st.
Proof. unfold addConstant. by destruct (scanConstants _ _ _). Qed.

(** Every literal but [0] goes through the pool, [1] and [2] included. *)
Lemma visitIntLit_nonzero value st :
  value ≠ 0%Z →
  ∃ constIdx st',
    addConstant (alloc (VNumber value) st).1 (alloc (VNumber value) st).2 = (constIdx, st')
    ∧ visit (IntLit value) st = Ok (emit [byte Opcode.constant; Z.of_nat constIdx] st').
Proof.
  intros Hv. cbn [visit]. unfold visitIntLit.
  rewrite bool_decide_eq_false_2 by exact Hv.
  destruct (alloc (VNumber value) st) as [o st1]. cbn [fst snd].
  destruct (addConstant o st1) as [i st2]. eauto.
Qed.

(** C2, on the code: the literals [1] and [2] are compiled to a load from
    the pool, not to [const1] and [const2]; so is every literal other
    than [0]. *)
Theorem visitIntLit_one_two_use_pool :
  Compiler.compile [IntLit 1]
  = Ok (mkModule [VNumber 1] [byte Opcode.constant; 0; byte Opcode.return_]%Z)
  ∧ Compiler.compile [IntLit 2]
    = Ok (mkModule [VNumber 2] [byte Opcode.constant; 0; byte Opcode.return_]%Z)
  ∧ ∀ value st st', value ≠ 0%Z → visit (IntLit value) st = Ok st' →
      ∃ constIdx, code st' = code st ++ [byte Opcode.constant; Z.of_nat constIdx].
Proof.
  split; [reflexivity|]. split; [reflexivity|].
  intros value st st' Hv H. destruct (visitIntLit_nonzero value st Hv) as (i & s & E & Hs).
  rewrite Hs in H. injection H as <-. exists i.
  pose proof (addConstant_code (alloc (VNumber value) st).1 (alloc (VNumber value) st).2) as Hc.
  rewrite E in Hc. cbn in *. by rewrite Hc.
Qed.

Lemma visitIntLit_one_two_use_pool_witness :
  ∃ constIdx,
    code (mk [{| addr := 0; val := VNumber 2 |}] [] [byte Opcode.constant; 0%Z] 0 1)
    = code init ++ [byte Opcode.constant; Z.of_nat constIdx].
Proof.
  apply (proj2 (proj2 visitIntLit_one_two_use_pool) 2%Z init); [discriminate|reflexivity].
Defined.

(** The part of C2 that the VM fulfils: each of the three opcodes pushes
    the number that is its offset from [const0]. *)
Lemma handleInstr_const012 vm b :
  VM.code (VM.currentFrame vm) !! VM.ip (VM.currentFrame vm) = Some b →
  (0 ≤ b ≤ 2)%Z →
  VM.handleInstr vm = VM.Done (VM.push (VNumber (b - byte Opcode.const0)) (VM.readByte vm).2).
Proof.
  intros Hb Hr. unfold VM.handleInstr, VM.readByte. rewrite Hb.
  assert (b = 0 ∨ b = 1 ∨ b = 2)%Z as [->|[->| ->]] by lia; reflexivity.
Qed.

End IntLiterals.

(** ** Identifier resolution *)

Section IdentResolution.
Import Compiler.

Lemma scanLocals_Some name ls n i :
  scanLocals name ls n = Some i →
  i < n ∧ (∃ l, ls !! i = Some l ∧ Local.name l = name)
  ∧ ∀ j l, i < j < n → ls !! j = Some l → Local.name l ≠ name.
Proof.
  induction n as [|n IH]; cbn [scanLocals]; [discriminate|].
  destruct (ls !! n) as [l|] eqn:El.
  - case_bool_decide as Hn.
    + intros [= <-]. split; [lia|]. split; [eauto|]. intros j l' Hj. lia.
    + intros H. destruct (IH H) as (Hi & Hm & Hl).
      split; [lia|]. split; [exact Hm|]. intros j l' Hj Hl'.
      destruct (decide (j = n)) as [->|]; [congruence|]. apply (Hl j); [lia|done].
  - intros H. destruct (IH H) as (Hi & Hm & Hl).
    split; [lia|]. split; [exact Hm|]. intros j l' Hj Hl'.
    destruct (decide (j = n)) as [->|]; [congruence|]. apply (Hl j); [lia|done].
Qed.

Lemma scanLocals_None name ls n :
  scanLocals name ls n = None →
  ∀ j l, j < n → ls !! j = Some l → Local.name l ≠ name.
Proof.
  induction n as [|n IH]; cbn [scanLocals]; [intros _ j l Hj; lia|].
  destruct (ls !! n) as [l|] eqn:El.
  - case_bool_decide as Hn; [discriminate|].
    intros H j l' Hj Hl'. destruct (decide (j = n)) as [->|].
    + congruence.
    + apply (IH H j); [lia|done].
  - intros H j l' Hj Hl'. destruct (decide (j = n)) as [->|].
    + congruence.
    + apply (IH H j); [lia|done].
Qed.

Lemma lastMatch_unique name ls i j : lastMatch name ls i → lastMatch name ls j → i = j.
Proof.
  intros [(l & Hl & Hn) Hi] [(l' & Hl' & Hn') Hj].
  destruct (Nat.lt_trichotomy i j) as [H|[H|H]]; [|done|].
  - exfalso. exact (Hi j l' H Hl' Hn').
  - exfalso. exact (Hj i l H Hl Hn).
Qed.

Lemma scanLocals_lastMatch name ls i :
  lastMatch name ls i → scanLocals name ls (length ls) = Some i.
Proof.
  intros Hi. destruct (scanLocals name ls (length ls)) as [k|] eqn:E.
  - f_equal. apply (lastMatch_unique name ls); [|exact Hi].
    destruct (scanLocals_Some _ _ _ _ E) as (Hk & Hm & Hl). split; [exact Hm|].
    intros j l Hj Hjl. apply (Hl j); [|done].
    split; [lia|]. apply lookup_lt_Some in Hjl. lia.
  - exfalso. destruct Hi as [(l & Hl & Hn) _].
    apply (scanLocals_None _ _ _ E i l); [|done|done].
    apply lookup_lt_Some in Hl. lia.
Qed.

Lemma scanLocals_no_match name ls :
  (∀ l, l ∈ ls → Local.name l ≠ name) → scanLocals name ls (length ls) = None.
Proof.
  intros H. destruct (scanLocals name ls (length ls)) as [k|] eqn:E; [|done].
  exfalso. destruct (scanLocals_Some _ _ _ _ E) as (_ & (l & Hl & Hn) & _).
  apply (H l); [|done]. apply list_elem_of_lookup. eauto.
Qed.

End IdentResolution.

Section IdentTheorems.
Import Compiler.

Lemma firstMatch_skip name pre l post i :
  (∀ x, x ∈ pre → Local.name x ≠ name) → Local.name l = name →
  firstMatch name (pre ++ l :: post) i = Some (i + length pre).
Proof.
  intros Hpre Hl. revert i. induction pre as [|x pre IH]; intros i; cbn.
  - rewrite bool_decide_eq_true_2 by exact Hl. f_equal. lia.
  - rewrite bool_decide_eq_false_2 by (apply Hpre; left).
    rewrite IH; [f_equal; lia|]. intros y Hy. apply Hpre. by right.
Qed.

(** The slot that is emitted and the position in the reversed view mirror
    each other. *)
Lemma lastMatch_reversed_position name ls i :
  lastMatch name ls i →
  firstMatch name (reverse ls) 0 = Some (length ls - 1 - i).
Proof.
  intros [(l & Hl & Hn) Hlast].
  pose proof (lookup_lt_Some _ _ _ Hl) as Hi.
  rewrite <- (take_drop_middle ls i l Hl) at 1.
  rewrite reverse_app, reverse_cons, <- app_assoc. cbn [app].
  rewrite firstMatch_skip; [| |exact Hn].
  - rewrite length_reverse, length_drop. f_equal. lia.
  - intros x Hx. rewrite elem_of_reverse in Hx.
    apply list_elem_of_lookup in Hx as [k Hk]. rewrite lookup_drop in Hk. apply (Hlast (S i + k)); [lia|exact Hk].
Qed.

(** C6, as amended: the slot operand is the index, in declaration order, of
    the last local of the current depth that bears the name; without such a
    local the compiler throws. *)
Theorem visitIdent_resolves_last_at_depth (name : string) (st : State) :
  (∀ st', visitIdent name st = Ok st' ↔
     ∃ i, lastMatch name (filter (λ l, Local.depth l = depth st) (locals st)) i
          ∧ st' = emit [byte Opcode.load; Z.of_nat i] st)
  ∧ (∀ e, visitIdent name st = Throw e ↔
     e = UnknownIdentifier name
     ∧ ∀ l, l ∈ locals st → Local.depth l = depth st → Local.name l ≠ name).
Proof.
  unfold visitIdent. fold (localsAtDepth st).
  destruct (scanLocals name (localsAtDepth st) (length (localsAtDepth st))) as [i|] eqn:E.
  - assert (Hi : lastMatch name (localsAtDepth st) i).
    { destruct (scanLocals_Some _ _ _ _ E) as (Hk & Hm & Hl). split; [exact Hm|].
      intros j l Hj Hjl. apply (Hl j); [|done].
      split; [lia|]. apply lookup_lt_Some in Hjl. lia. }
    split.
    + intros st'. split.
      * intros [= <-]. eauto.
      * intros (j & Hj & ->). by rewrite (lastMatch_unique _ _ _ _ Hj Hi).
    + intros e. split; [discriminate|]. intros [_ Hno]. exfalso.
      destruct Hi as [(l & Hl & Hn) _].
      assert (Hin : l ∈ localsAtDepth st) by (apply list_elem_of_lookup; eauto).
      apply list_elem_of_filter in Hin as [Hd Hin]. exact (Hno l Hin Hd Hn).
  - pose proof (scanLocals_None _ _ _ E) as Hno. split.
    + intros st'. split; [discriminate|]. intros (j & [(l & Hl & Hn) _] & _). exfalso.
      apply (Hno j l); [|done|done]. by apply lookup_lt_Some in Hl.
    + intros e. split.
      * intros [= <-]. split; [done|]. intros l Hin Hd Hn.
        assert (Hin' : l ∈ localsAtDepth st) by (apply list_elem_of_filter; done).
        apply list_elem_of_lookup in Hin' as [j Hj].
        apply (Hno j l); [|done|done]. by apply lookup_lt_Some in Hj.
      * by intros [-> _].
Qed.

Lemma visitIdent_resolves_last_at_depth_witness :
  let st := mk [] [Local.mk "x" 0; Local.mk "y" 0] [] 0 0 in
  visitIdent "y" st = Ok (emit [byte Opcode.load; 1%Z] st).
Proof.
  intros st. apply (proj1 (visitIdent_resolves_last_at_depth "y" st)).
  exists 1. split; [|reflexivity]. split.
  - exists (Local.mk "y" 0). split; reflexivity.
  - intros j l Hj Hl. apply lookup_lt_Some in Hl. change (j < 2) in Hl. lia.
Defined.

(** C6 as worded fails: with [x] then [y] declared at the top level, a
    reference to [y] is compiled to [load 1], and the position of [y] in the
    reverse-ordered view of the locals is 0. *)
Lemma visitIdent_slot_is_not_reversed_position :
  ∃ st1 st2,
    visit (ValDecl "x" (IntLit 1)) init = Ok st1
    ∧ visit (ValDecl "y" (IntLit 2)) st1 = Ok st2
    ∧ visitIdent "y" st2 = Ok (emit [byte Opcode.load; 1%Z] st2)
    ∧ visitIdentReversedView "y" st2 = Ok (emit [byte Opcode.load; 0%Z] st2)
    ∧ visitIdent "y" st2 ≠ visitIdentReversedView "y" st2.
Proof.
  eexists _, _. split; [reflexivity|]. split; [reflexivity|].
  split; [reflexivity|]. split; [reflexivity|]. vm_compute. discriminate.
Qed.

End IdentTheorems.

(** ** The locals table while compiling *)

Section Scope.
Import Compiler.

Lemma addConstant_scope o st :
  locals (addConstant o st).2 = locals st
  ∧ depth (addConstant o st).2 = depth st
  ∧ code (addConstant o st).2 = code st.
Proof. unfold addConstant. destruct (scanConstants _ _ _); cbn; auto. Qed.

Lemma scopeGrows_refl st : scopeGrows st st.
Proof. split; [done|]. exists []. by rewrite app_nil_r. Qed.

Lemma scopeGrows_same st st' :
  locals st' = locals st → depth st' = depth st → scopeGrows st st'.
Proof. intros Hl Hd. split; [done|]. exists []. by rewrite app_nil_r. Qed.

Lemma scopeGrows_trans st1 st2 st3 :
  scopeGrows st1 st2 → scopeGrows st2 st3 → scopeGrows st1 st3.
Proof.
  intros [Hd1 (a1 & Hl1 & Ha1)] [Hd2 (a2 & Hl2 & Ha2)]. split; [congruence|].
  exists (a1 ++ a2). split.
  - rewrite Hl2, Hl1. by rewrite app_assoc.
  - apply Forall_app. split; [done|]. by rewrite <- Hd1.
Qed.

Lemma scopeGrows_localsOk st st' : localsOk st → scopeGrows st st' → localsOk st'.
Proof.
  unfold localsOk. intros Hok [Hd (a & Hl & Ha)]. rewrite Hl, Hd.
  apply Forall_app. split; [done|]. eapply Forall_impl; [exact Ha|]. cbn. lia.
Qed.

Lemma scopeGrows_emit bytes st : scopeGrows st (emit bytes st).
Proof. by apply scopeGrows_same. Qed.

Lemma scopeGrows_pushLocal name st : scopeGrows st (pushLocal name st).
Proof. split; [done|]. exists [Local.mk name (depth st)]. split; [done|]. by repeat constructor. Qed.

Lemma visitIntLit_scope value st st' :
  visitIntLit value st = Ok st' → locals st' = locals st ∧ depth st' = depth st.
Proof.
  unfold visitIntLit. case_bool_decide; [by intros [= <-]|].
  destruct (alloc (VNumber value) st) as [o s] eqn:Ea.
  pose proof (addConstant_scope o s) as (Hl & Hd & _).
  destruct (addConstant o s) as [i s']. intros [= <-]. cbn in *.
  injection Ea as _ <-. by rewrite Hl, Hd.
Qed.

Lemma visitStringLit_scope value st st' :
  visitStringLit value st = Ok st' → locals st' = locals st ∧ depth st' = depth st.
Proof.
  unfold visitStringLit.
  destruct (alloc (VString value) st) as [o s] eqn:Ea.
  pose proof (addConstant_scope o s) as (Hl & Hd & _).
  destruct (addConstant o s) as [i s']. intros [= <-]. cbn in *.
  injection Ea as _ <-. by rewrite Hl, Hd.
Qed.

Lemma visitIdent_scope name st st' :
  visitIdent name st = Ok st' → locals st' = locals st ∧ depth st' = depth st.
Proof.
  unfold visitIdent. destruct (scanLocals _ _ _); [|discriminate]. by intros [= <-].
Qed.

Lemma enterFunc_scope params st :
  locals (enterFunc params st)
  = locals st ++ Local.mk "#ret" (S (depth st))
                :: map (λ p, Local.mk p (S (depth st))) params
  ∧ depth (enterFunc params st) = S (depth st)
  ∧ code (enterFunc params st) = []
  ∧ constants (enterFunc params st) = constants st
  ∧ nextAddr (enterFunc params st) = nextAddr st.
Proof.
  unfold enterFunc.
  set (s0 := pushLocal "#ret" (withDepth (S (depth st)) (withCode [] st))).
  assert (G : ∀ ps s, 
    locals (fold_left (λ st param, pushLocal param st) ps s)
    = locals s ++ map (λ p, Local.mk p (depth s)) ps
    ∧ depth (fold_left (λ st param, pushLocal param st) ps s) = depth s
    ∧ code (fold_left (λ st param, pushLocal param st) ps s) = code s
    ∧ constants (fold_left (λ st param, pushLocal param st) ps s) = constants s
    ∧ nextAddr (fold_left (λ st param, pushLocal param st) ps s) = nextAddr s).
  { induction ps as [|p ps IH]; intros s; cbn [fold_left map].
    - by rewrite app_nil_r.
    - destruct (IH (pushLocal p s)) as (Hl & Hd & Hc & Hk & Hn).
      rewrite Hl, Hd, Hc, Hk, Hn. cbn. by rewrite <- app_assoc. }
  destruct (G params s0) as (Hl & Hd & Hc & Hk & Hn).
  rewrite Hl, Hd, Hc, Hk, Hn. subst s0. cbn. by rewrite <- app_assoc.
Qed.

Lemma popLocals_spec n st pre suf :
  locals st = pre ++ suf → length suf = n →
  locals (popLocals n st) = pre
  ∧ depth (popLocals n st) = depth st
  ∧ code (popLocals n st) = code st ++ replicate n (byte Opcode.pop)
  ∧ constants (popLocals n st) = constants st
  ∧ nextAddr (popLocals n st) = nextAddr st.
Proof.
  revert n st. induction suf as [|x suf IH] using rev_ind; intros n st Hl Hn.
  - cbn in Hn. subst n. cbn. rewrite !app_nil_r in *. done.
  - rewrite length_app in Hn. cbn in Hn. destruct n as [|n]; [lia|].
    cbn [popLocals].
    destruct (IH n (emit [byte Opcode.pop] (withLocals (removelast (locals st)) st)))
      as (H1 & H2 & H3 & H4 & H5).
    + cbn. rewrite Hl, app_assoc. apply removelast_last.
    + lia.
    + rewrite H1, H2, H3, H4, H5. cbn. rewrite <- app_assoc. done.
Qed.

Lemma filter_depth_all d (ls : list Local.t) :
  Forall (λ l, Local.depth l = d) ls → filter (λ l, Local.depth l = d) ls = ls.
Proof.
  induction 1 as [|l ls Hl _ IH]; [done|].
  rewrite filter_cons_True by done. by rewrite IH.
Qed.

Lemma filter_depth_none d (ls : list Local.t) :
  Forall (λ l, Local.depth l ≠ d) ls → filter (λ l, Local.depth l = d) ls = [].
Proof.
  induction 1 as [|l ls Hl _ IH]; [done|].
  by rewrite filter_cons_False.
Qed.

(** The locals of the current depth, when the table is [outer ++ inner] with
    [inner] the locals of that depth. *)
Lemma localsAtDepth_split st outer inner :
  locals st = outer ++ inner →
  Forall (λ l, Local.depth l < depth st) outer →
  Forall (λ l, Local.depth l = depth st) inner →
  localsAtDepth st = inner.
Proof.
  intros Hl Ho Hi. unfold localsAtDepth. rewrite Hl, filter_app.
  rewrite filter_depth_none, filter_depth_all; [done|done|].
  eapply Forall_impl; [exact Ho|]. cbn. lia.
Qed.

End Scope.

Section ScopeOfVisit.
Import Compiler.

Lemma scopeGrows_afterNode node isLast st : scopeGrows st (afterNode node isLast st).
Proof.
  unfold afterNode. apply scopeGrows_same.
  - destruct (isExpr node), isLast; reflexivity.
  - destruct (isExpr node), isLast; reflexivity.
Qed.

Lemma finishFunc_scope name origCode origDepth st outer x0 tl :
  locals st = outer ++ x0 :: tl →
  Forall (λ l, Local.depth l < depth st) outer →
  Forall (λ l, Local.depth l = depth st) (x0 :: tl) →
  locals (finishFunc name origCode origDepth st) = outer ++ [Local.mk name origDepth]
  ∧ depth (finishFunc name origCode origDepth st) = origDepth
  ∧ ∃ constIdx,
      code (finishFunc name origCode origDepth st)
      = origCode ++ [byte Opcode.constant; Z.of_nat constIdx].
Proof.
  intros Hl Ho Hi. unfold finishFunc.
  set (s1 := emit [byte Opcode.store; 0%Z] st).
  assert (Hn : length (localsAtDepth s1) = S (length tl)).
  { rewrite (localsAtDepth_split s1 outer (x0 :: tl)); done. }
  rewrite Hn. replace (S (length tl) - 1) with (length tl) by lia.
  destruct (popLocals_spec (length tl) s1 (outer ++ [x0]) tl) as (P1 & P2 & P3 & P4 & P5).
  { cbn. rewrite Hl, <- app_assoc. done. }
  { done. }
  set (s2 := popLocals (length tl) s1) in *.
  match goal with |- context [alloc ?v ?s] => destruct (alloc v s) as [o s3] eqn:Ea end.
  pose proof (addConstant_scope o s3) as (Hl3 & Hd3 & Hc3).
  destruct (addConstant o s3) as [i s4]. cbn [fst snd] in *.
  injection Ea as _ <-. cbn in *.
  rewrite Hl3, Hd3, Hc3, P1. rewrite removelast_last.
  split; [done|]. split; [done|]. by exists i.
Qed.

Lemma compileBlock_scope_of body :
  Forall (λ node, ∀ st st', localsOk st → visit node st = Ok st' → scopeGrows st st') body →
  ∀ st st', localsOk st → compileBlock body st = Ok st' → scopeGrows st st'.
Proof.
  induction 1 as [|node rest Hnode _ IH]; intros st st' Hok; cbn [compileBlock].
  - intros [= <-]. apply scopeGrows_refl.
  - intros H. apply bind_Ok in H as (s1 & Hv & Hb).
    pose proof (Hnode st s1 Hok Hv) as G1.
    pose proof (scopeGrows_afterNode node (bool_decide (rest = [])) s1) as G2.
    pose proof (scopeGrows_trans _ _ _ G1 G2) as G3.
    eapply scopeGrows_trans; [exact G3|]. eapply IH; [|exact Hb].
    eapply scopeGrows_localsOk; [exact Hok|exact G3].
Qed.

Lemma visitAll_scope_of args :
  Forall (λ node, ∀ st st', localsOk st → visit node st = Ok st' → scopeGrows st st') args →
  ∀ st st', localsOk st → visitAll args st = Ok st' → scopeGrows st st'.
Proof.
  induction 1 as [|node rest Hnode _ IH]; intros st st' Hok; cbn [visitAll].
  - intros [= <-]. apply scopeGrows_refl.
  - intros H. apply bind_Ok in H as (s1 & Hv & Hb).
    pose proof (Hnode st s1 Hok Hv) as G1.
    eapply scopeGrows_trans; [exact G1|]. eapply IH; [|exact Hb].
    eapply scopeGrows_localsOk; [exact Hok|exact G1].
Qed.

Lemma localsOk_enterFunc params st : localsOk st → localsOk (enterFunc params st).
Proof.
  intros Hok. unfold localsOk.
  destruct (enterFunc_scope params st) as (Hl & Hd & _). rewrite Hl, Hd.
  apply Forall_app. split.
  - eapply Forall_impl; [exact Hok|]. cbn. lia.
  - constructor; [done|]. apply Forall_forall. intros l Hin.
    apply list_elem_of_fmap in Hin as (p & -> & _). done.
Qed.

(** Compiling a node keeps the depth and only appends locals of the
    current depth: what a function body declared is gone when the
    declaration of the function has been compiled. *)
Lemma visit_scope node :
  ∀ st st', localsOk st → visit node st = Ok st' → scopeGrows st st'.
Proof.
  induction node as
    [value|value|name|op expr IH|op l r IHl IHr|target args IHt IHa
    |name value IH|name params body IH|expr IH] using AstNode_ind;
    intros st st' Hok.
  - cbn [visit]. intros H. apply visitIntLit_scope in H as [? ?]. by apply scopeGrows_same.
  - cbn [visit]. intros H. apply visitStringLit_scope in H as [? ?]. by apply scopeGrows_same.
  - cbn [visit]. intros H. apply visitIdent_scope in H as [? ?]. by apply scopeGrows_same.
  - rewrite visit_Unary. unfold visitUnary. intros H.
    apply bind_Ok in H as (s1 & Hv & Hb).
    eapply scopeGrows_trans; [exact (IH _ _ Hok Hv)|].
    destruct op; try discriminate. injection Hb as <-. apply scopeGrows_emit.
  - rewrite visit_Binary. unfold visitBinary. intros H.
    apply bind_Ok in H as (s1 & Hv1 & H). apply bind_Ok in H as (s2 & Hv2 & Hb).
    pose proof (IHl _ _ Hok Hv1) as G1.
    pose proof (IHr _ _ (scopeGrows_localsOk _ _ Hok G1) Hv2) as G2.
    eapply scopeGrows_trans; [exact G1|]. eapply scopeGrows_trans; [exact G2|].
    destruct op; try discriminate; injection Hb as <-; apply scopeGrows_emit.
  - rewrite visit_Invoke. unfold visitInvoke. intros H.
    apply bind_Ok in H as (s1 & Hv1 & H). apply bind_Ok in H as (s2 & Hv2 & Hb).
    pose proof (scopeGrows_emit [byte Opcode.nil] st) as G0.
    pose proof (visitAll_scope_of args IHa _ _ (scopeGrows_localsOk _ _ Hok G0) Hv1) as G1.
    pose proof (scopeGrows_trans _ _ _ G0 G1) as G01.
    pose proof (IHt _ _ (scopeGrows_localsOk _ _ Hok G01) Hv2) as G2.
    eapply scopeGrows_trans; [exact G01|]. eapply scopeGrows_trans; [exact G2|].
    injection Hb as <-. apply scopeGrows_emit.
  - rewrite visit_ValDecl. unfold visitValDecl.
    destruct (alreadyExists name st); [discriminate|]. intros H.
    apply bind_Ok in H as (s1 & Hv & Hb). injection Hb as <-.
    eapply scopeGrows_trans; [exact (IH _ _ Hok Hv)|]. apply scopeGrows_pushLocal.
  - rewrite visit_FuncDecl. unfold visitFuncDecl.
    destruct (alreadyExists name st); [discriminate|]. intros H.
    apply bind_Ok in H as (s1 & Hv & Hb). injection Hb as <-.
    pose proof (compileBlock_scope_of body IH _ _ (localsOk_enterFunc params st Hok) Hv)
      as [Hd (added & Hl & Ha)].
    destruct (enterFunc_scope params st) as (El & Ed & _).
    rewrite Ed in Hd, Ha. rewrite El, <- app_assoc in Hl. cbn [app] in Hl.
    destruct (finishFunc_scope name (code st) (depth st) s1 (locals st)
                (Local.mk "#ret" (S (depth st)))
                (map (λ p, Local.mk p (S (depth st))) params ++ added))
      as (F1 & F2 & _).
    + exact Hl.
    + rewrite Hd. eapply Forall_impl; [exact Hok|]. cbn. lia.
    + rewrite Hd. constructor; [done|]. apply Forall_app. split; [|done].
      apply Forall_forall. intros l Hin.
      apply list_elem_of_fmap in Hin as (p & -> & _). done.
    + split; [done|]. exists [Local.mk name (depth st)]. split; [done|].
      by repeat constructor.
  - rewrite visit_Print. unfold visitPrint. intros H.
    apply bind_Ok in H as (s1 & Hv & Hb). injection Hb as <-.
    eapply scopeGrows_trans; [exact (IH _ _ Hok Hv)|]. apply scopeGrows_emit.
Qed.

Lemma compileBlock_scope body st st' :
  localsOk st → compileBlock body st = Ok st' → scopeGrows st st'.
Proof.
  apply compileBlock_scope_of. apply Forall_forall. intros node _. apply visit_scope.
Qed.

Lemma visitAll_scope args st st' :
  localsOk st → visitAll args st = Ok st' → scopeGrows st st'.
Proof.
  apply visitAll_scope_of. apply Forall_forall. intros node _. apply visit_scope.
Qed.

End ScopeOfVisit.

(** ** Declarations and shadowing *)

Section Declarations.
Import Compiler.

Lemma alreadyExists_true name st : alreadyExists name st = true ↔ boundAtDepth name st.
Proof.
  unfold alreadyExists, boundAtDepth. rewrite existsb_exists. split.
  - intros (l & Hin & H). apply andb_true_iff in H as [H1 H2].
    apply bool_decide_eq_true in H1, H2. exists l.
    split; [by apply list_elem_of_In|done].
  - intros (l & Hin & H1 & H2). exists l. split; [by apply list_elem_of_In|].
    by rewrite !bool_decide_eq_true_2.
Qed.

Lemma alreadyExists_false name st : alreadyExists name st = false ↔ ¬ boundAtDepth name st.
Proof.
  rewrite <- alreadyExists_true. destruct (alreadyExists name st); split; done.
Qed.

Lemma visitIdent_lastMatch name st i :
  lastMatch name (localsAtDepth st) i →
  visitIdent name st = Ok (emit [byte Opcode.load; Z.of_nat i] st).
Proof. intros H. unfold visitIdent. by rewrite (scanLocals_lastMatch _ _ _ H). Qed.

Lemma visitIdent_unbound name st :
  ¬ boundAtDepth name st → visitIdent name st = Throw (UnknownIdentifier name).
Proof.
  intros H. unfold visitIdent. rewrite scanLocals_no_match; [done|].
  intros l Hin Hn. apply list_elem_of_filter in Hin as [Hd Hin]. apply H. by exists l.
Qed.

(** Inside the scope of a function of [st], only [#ret] and the parameters
    are bound. *)
Lemma boundAtDepth_enterFunc name params st :
  localsOk st →
  boundAtDepth name (enterFunc params st) ↔ name ∈ "#ret" :: params.
Proof.
  intros Hok. unfold boundAtDepth.
  destruct (enterFunc_scope params st) as (Hl & Hd & _). rewrite Hl, Hd. split.
  - intros (l & Hin & Hn & Hdl). apply elem_of_app in Hin as [Hin|Hin].
    + exfalso. unfold localsOk in Hok. rewrite Forall_forall in Hok.
      specialize (Hok l Hin). lia.
    + apply elem_of_cons in Hin as [->|Hin]; [cbn in Hn; subst; left|].
      apply list_elem_of_fmap in Hin as (p & -> & Hp). cbn in Hn. subst. by right.
  - intros Hin. apply elem_of_cons in Hin as [->|Hin].
    + exists (Local.mk "#ret" (S (depth st))). split; [|done].
      apply elem_of_app. right. left.
    + exists (Local.mk name (S (depth st))). split; [|done].
      apply elem_of_app. right. right. apply list_elem_of_fmap. by exists name.
Qed.

(** A reference to the local declared last resolves to it. *)
Lemma visitIdent_most_recent name st l :
  last (locals st) = Some l → Local.name l = name → Local.depth l = depth st →
  visitIdent name st
  = Ok (emit [byte Opcode.load; Z.of_nat (length (localsAtDepth st) - 1)] st).
Proof.
  intros Hlast Hn Hd. apply visitIdent_lastMatch.
  apply last_Some in Hlast as [pre Hpre]. unfold localsAtDepth.
  rewrite Hpre, filter_app, filter_cons_True, filter_nil by done.
  rewrite length_app. cbn [length].
  replace (length (filter (λ l0, Local.depth l0 = depth st) pre) + 1 - 1)
    with (length (filter (λ l0, Local.depth l0 = depth st) pre) + 0) by lia.
  split.
  - exists l. split; [|done]. by rewrite lookup_app_r, Nat.add_0_r, Nat.sub_diag by lia.
  - intros j l' Hj Hl'. apply lookup_lt_Some in Hl'.
    rewrite length_app in Hl'. cbn in Hl'. lia.
Qed.

(** The scenario of C9 from source to result: [const x = 1], then a function
    that declares its own [x] and yields it, then a call.  The body loads
    slot 1 of the frame of the call, the inner [x], and the program yields 2. *)
Example shadowing_in_function_scope :
  ∃ m,
    Compiler.compile
      [ValDecl "x" (IntLit 1);
       FuncDecl "f" [] [ValDecl "x" (IntLit 2); Ident "x"];
       Invoke (Ident "f") []] = Ok m
    ∧ moduleConstants m !! 2
      = Some (VFunction "f" [byte Opcode.constant; 1; byte Opcode.load; 1;
                             byte Opcode.store; 0; byte Opcode.pop;
                             byte Opcode.return_]%Z)
    ∧ VM.run 20 (VM.new m) = Some (Ok (VNumber 2)).
Proof. eexists. split; [reflexivity|]. split; reflexivity. Qed.

End Declarations.

(** ** References to names that are not bound at the current depth *)

Section Unbound.
Import Compiler.

Lemma boundAtDepth_same_scope name st st' :
  locals st' = locals st → depth st' = depth st →
  boundAtDepth name st' ↔ boundAtDepth name st.
Proof. intros Hl Hd. unfold boundAtDepth. by rewrite Hl, Hd. Qed.

Lemma boundAtDepth_dec name st : boundAtDepth name st ∨ ¬ boundAtDepth name st.
Proof.
  destruct (alreadyExists name st) eqn:E.
  - left. by apply alreadyExists_true.
  - right. by apply alreadyExists_false.
Qed.

Lemma boundAtDepth_snoc name st st' x :
  locals st' = locals st ++ [Local.mk x (depth st)] → depth st' = depth st →
  boundAtDepth name st' → boundAtDepth name st ∨ x = name.
Proof.
  intros Hl Hd (l & Hin & Hn & Hdl). rewrite Hl in Hin. rewrite Hd in Hdl.
  apply elem_of_app in Hin as [Hin|Hin].
  - left. by exists l.
  - apply list_elem_of_singleton in Hin as ->. by right.
Qed.

(** The declaration of a function adds one local, the function. *)
Lemma visitFuncDecl_scope name params body st st' :
  localsOk st → visit (FuncDecl name params body) st = Ok st' →
  locals st' = locals st ++ [Local.mk name (depth st)] ∧ depth st' = depth st.
Proof.
  intros Hok. rewrite visit_FuncDecl. unfold visitFuncDecl.
  destruct (alreadyExists name st); [discriminate|]. intros H.
  apply bind_Ok in H as (s1 & Hv & Hb). injection Hb as <-.
  pose proof (compileBlock_scope body _ _ (localsOk_enterFunc params st Hok) Hv)
    as [Hd (added & Hl & Ha)].
  destruct (enterFunc_scope params st) as (El & Ed & _).
  rewrite Ed in Hd, Ha. rewrite El, <- app_assoc in Hl. cbn [app] in Hl.
  destruct (finishFunc_scope name (code st) (depth st) s1 (locals st)
              (Local.mk "#ret" (S (depth st)))
              (map (λ p, Local.mk p (S (depth st))) params ++ added))
    as (F1 & F2 & _); [exact Hl| | |done].
  - rewrite Hd. eapply Forall_impl; [exact Hok|]. cbn. lia.
  - rewrite Hd. constructor; [done|]. apply Forall_app. split; [|done].
    apply Forall_forall. intros l Hin.
    apply list_elem_of_fmap in Hin as (p & -> & _). done.
Qed.

(** A node that does not declare [name] does not bind it. *)
Lemma declares_none name node :
  ∀ st st', localsOk st → visit node st = Ok st' → declares name node = false →
  boundAtDepth name st' → boundAtDepth name st.
Proof.
  induction node as
    [value|value|n|op expr IH|op l r IHl IHr|target args IHt IHa
    |n value IH|n params body IH|expr IH] using AstNode_ind;
    cbn [declares]; intros st st' Hok Hv Hd.
  - cbn [visit] in Hv. apply visitIntLit_scope in Hv as [? ?].
    by rewrite boundAtDepth_same_scope.
  - cbn [visit] in Hv. apply visitStringLit_scope in Hv as [? ?].
    by rewrite boundAtDepth_same_scope.
  - cbn [visit] in Hv. apply visitIdent_scope in Hv as [? ?].
    by rewrite boundAtDepth_same_scope.
  - rewrite visit_Unary in Hv. unfold visitUnary in Hv.
    apply bind_Ok in Hv as (s1 & Hv & Hb). destruct op; try discriminate.
    injection Hb as <-. intros B. apply (IH _ _ Hok Hv Hd). exact B.
  - apply orb_false_iff in Hd as [Hdl Hdr].
    rewrite visit_Binary in Hv. unfold visitBinary in Hv.
    apply bind_Ok in Hv as (s1 & Hv1 & Hv). apply bind_Ok in Hv as (s2 & Hv2 & Hb).
    pose proof (scopeGrows_localsOk _ _ Hok (visit_scope l _ _ Hok Hv1)) as Hok1.
    intros B. apply (IHl _ _ Hok Hv1 Hdl). apply (IHr _ _ Hok1 Hv2 Hdr).
    destruct op; try discriminate; injection Hb as <-; exact B.
  - apply orb_false_iff in Hd as [Hda Hdt].
    rewrite visit_Invoke in Hv. unfold visitInvoke in Hv.
    apply bind_Ok in Hv as (s1 & Hv1 & Hv). apply bind_Ok in Hv as (s2 & Hv2 & Hb).
    injection Hb as <-.
    assert (Hok0 : localsOk (emit [byte Opcode.nil] st)) by exact Hok.
    pose proof (scopeGrows_localsOk _ _ Hok0 (visitAll_scope args _ _ Hok0 Hv1)) as Hok1.
    intros B. apply (IHt _ _ Hok1 Hv2 Hdt) in B.
    change (boundAtDepth name (emit [byte Opcode.nil] st)).
    clear Hv2 Hok1 Hok. revert Hok0 Hv1 B. generalize (emit [byte Opcode.nil] st).
    induction IHa as [|a rest Ha _ IHrest]; intros s Hok Hv1 B; cbn [visitAll] in Hv1.
    + by injection Hv1 as ->.
    + cbn [existsb] in Hda. apply orb_false_iff in Hda as [Hda1 Hda2].
      apply bind_Ok in Hv1 as (s0 & Hv & Hb).
      pose proof (scopeGrows_localsOk _ _ Hok (visit_scope a _ _ Hok Hv)) as Hok'.
      apply (Ha _ _ Hok Hv Hda1). by apply (IHrest Hda2 s0).
  - apply orb_false_iff in Hd as [Hdn Hdv]. apply bool_decide_eq_false in Hdn.
    rewrite visit_ValDecl in Hv. unfold visitValDecl in Hv.
    destruct (alreadyExists n st); [discriminate|].
    apply bind_Ok in Hv as (s1 & Hv & Hb). injection Hb as <-.
    intros B. apply (IH _ _ Hok Hv Hdv).
    by destruct (boundAtDepth_snoc name s1 (pushLocal n s1) n eq_refl eq_refl B).
  - apply bool_decide_eq_false in Hd.
    destruct (visitFuncDecl_scope n params body st st' Hok Hv) as [Hl Hdp].
    intros B. by destruct (boundAtDepth_snoc name st st' n Hl Hdp B).
  - rewrite visit_Print in Hv. unfold visitPrint in Hv.
    apply bind_Ok in Hv as (s1 & Hv & Hb). injection Hb as <-.
    intros B. apply (IH _ _ Hok Hv Hd). exact B.
Qed.

Lemma refersFirst_Invoke name target args :
  refersFirst name (Invoke target args) = refersFirstArgs name args target.
Proof. cbn [refersFirst]. induction args as [|a rest IH]; cbn; [done|by rewrite IH]. Qed.

(** A node that compiles and refers to [name] before declaring it: the name
    is bound at the current depth. *)
Lemma refersFirst_bound name node :
  ∀ st st', localsOk st → visit node st = Ok st' → refersFirst name node = true →
  boundAtDepth name st.
Proof.
  induction node as
    [value|value|n|op expr IH|op l r IHl IHr|target args IHt IHa
    |n value IH|n params body IH|expr IH] using AstNode_ind;
    intros st st' Hok Hv Hr; try discriminate.
  - cbn [refersFirst] in Hr. apply bool_decide_eq_true in Hr as ->. cbn [visit] in Hv.
    destruct (boundAtDepth_dec name st) as [B|B]; [done|].
    by rewrite (visitIdent_unbound name st B) in Hv.
  - cbn [refersFirst] in Hr. rewrite visit_Unary in Hv. unfold visitUnary in Hv.
    apply bind_Ok in Hv as (s1 & Hv & _). by apply (IH _ _ Hok Hv).
  - cbn [refersFirst] in Hr. rewrite visit_Binary in Hv. unfold visitBinary in Hv.
    apply bind_Ok in Hv as (s1 & Hv1 & Hv). apply bind_Ok in Hv as (s2 & Hv2 & _).
    apply orb_true_iff in Hr as [Hr|Hr]; [by apply (IHl _ _ Hok Hv1)|].
    apply andb_true_iff in Hr as [Hd Hr]. apply negb_true_iff in Hd.
    pose proof (scopeGrows_localsOk _ _ Hok (visit_scope l _ _ Hok Hv1)) as Hok1.
    apply (declares_none name l _ _ Hok Hv1 Hd). by apply (IHr _ _ Hok1 Hv2).
  - rewrite refersFirst_Invoke in Hr. rewrite visit_Invoke in Hv.
    unfold visitInvoke in Hv.
    apply bind_Ok in Hv as (s1 & Hv1 & Hv). apply bind_Ok in Hv as (s2 & Hv2 & _).
    assert (Hok0 : localsOk (emit [byte Opcode.nil] st)) by exact Hok.
    change (boundAtDepth name (emit [byte Opcode.nil] st)).
    clear Hok. revert Hok0 Hv1 Hr. generalize (emit [byte Opcode.nil] st).
    induction IHa as [|a rest Ha _ IHrest]; intros s Hok Hv1 Hr;
      cbn [visitAll refersFirstArgs] in Hv1, Hr.
    + injection Hv1 as ->. by apply (IHt _ _ Hok Hv2).
    + apply bind_Ok in Hv1 as (s0 & Hv & Hb).
      apply orb_true_iff in Hr as [Hr|Hr]; [by apply (Ha _ _ Hok Hv)|].
      apply andb_true_iff in Hr as [Hd Hr]. apply negb_true_iff in Hd.
      pose proof (scopeGrows_localsOk _ _ Hok (visit_scope a _ _ Hok Hv)) as Hok'.
      apply (declares_none name a _ _ Hok Hv Hd). by apply (IHrest s0).
  - cbn [refersFirst] in Hr. rewrite visit_ValDecl in Hv. unfold visitValDecl in Hv.
    destruct (alreadyExists n st); [discriminate|].
    apply bind_Ok in Hv as (s1 & Hv & _). by apply (IH _ _ Hok Hv).
  - cbn [refersFirst] in Hr. rewrite visit_Print in Hv. unfold visitPrint in Hv.
    apply bind_Ok in Hv as (s1 & Hv & _). by apply (IH _ _ Hok Hv).
Qed.

Lemma refersFirstIn_bound name nodes :
  ∀ st st', localsOk st → compileBlock nodes st = Ok st' →
  refersFirstIn name nodes = true → boundAtDepth name st.
Proof.
  induction nodes as [|node rest IH]; intros st st' Hok; cbn [compileBlock refersFirstIn];
    [discriminate|].
  intros Hv Hr. apply bind_Ok in Hv as (s1 & Hv & Hb).
  apply orb_true_iff in Hr as [Hr|Hr]; [by apply (refersFirst_bound name node _ _ Hok Hv)|].
  apply andb_true_iff in Hr as [Hd Hr]. apply negb_true_iff in Hd.
  pose proof (scopeGrows_localsOk _ _ Hok (visit_scope node _ _ Hok Hv)) as Hok1.
  pose proof (scopeGrows_afterNode node (bool_decide (rest = [])) s1) as G.
  apply (declares_none name node _ _ Hok Hv Hd).
  assert (B : boundAtDepth name (afterNode node (bool_decide (rest = [])) s1)).
  { apply (IH _ _ (scopeGrows_localsOk _ _ Hok1 G) Hb Hr). }
  unfold afterNode in B. by destruct (isExpr node), (bool_decide (rest = [])).
Qed.

(** The declaration of a function whose body refers to the name of the
    function before declaring a local of that name, the name not being one
    of the parameters. *)
Lemma self_reference_fails st name params body :
  localsOk st → name ∉ "#ret" :: params → refersFirstIn name body = true →
  ∃ e, visit (FuncDecl name params body) st = Throw e.
Proof.
  intros Hok Hps Hr. rewrite visit_FuncDecl. unfold visitFuncDecl.
  destruct (alreadyExists name st); [eauto|].
  destruct (compileBlock body (enterFunc params st)) as [s1|e] eqn:Hv; [|cbn; eauto].
  exfalso. apply Hps. apply (boundAtDepth_enterFunc name params st Hok).
  by apply (refersFirstIn_bound name body _ _ (localsOk_enterFunc params st Hok) Hv).
Qed.

End Unbound.

(** ** Shadowing *)

Section Shadowing.
Import Compiler.

Lemma localsAtDepth_same st st' :
  locals st' = locals st → depth st' = depth st → localsAtDepth st' = localsAtDepth st.
Proof. unfold localsAtDepth. by intros -> ->. Qed.

Lemma localsAtDepth_pushLocal name st :
  localsAtDepth (pushLocal name st) = localsAtDepth st ++ [Local.mk name (depth st)].
Proof.
  unfold localsAtDepth, pushLocal. cbn.
  by rewrite filter_app, filter_cons_True, filter_nil.
Qed.

Lemma lastMatch_app name ls added k :
  lastMatch name ls k → Forall (λ l, Local.name l ≠ name) added →
  lastMatch name (ls ++ added) k.
Proof.
  intros [(l & Hl & Hn) Hlast] Ha. split.
  - exists l. split; [|done]. by apply lookup_app_l_Some.
  - intros j l' Hj Hl'. destruct (decide (j < length ls)) as [Hlt|Hge].
    + rewrite lookup_app_l in Hl' by done. by apply (Hlast j).
    + rewrite lookup_app_r in Hl' by lia. rewrite Forall_forall in Ha. apply Ha.
      apply list_elem_of_lookup. eauto.
Qed.

Lemma lastMatch_last name d ls : lastMatch name (ls ++ [Local.mk name d]) (length ls).
Proof.
  split.
  - exists (Local.mk name d). split; [|done].
    by rewrite lookup_app_r, Nat.sub_diag by lia.
  - intros j l Hj Hl. apply lookup_lt_Some in Hl. rewrite length_app in Hl. cbn in Hl. lia.
Qed.

Lemma lastMatch_bound name st k :
  lastMatch name (localsAtDepth st) k → boundAtDepth name st.
Proof.
  intros [(l & Hl & Hn) _]. exists l.
  apply list_elem_of_lookup_2 in Hl. apply list_elem_of_filter in Hl as [Hd Hin]. done.
Qed.

(** Compiling a node of the scope does not change the slot that a name of
    the scope resolves to: the name cannot be declared again. *)
Lemma visit_keeps_binding name k node :
  ∀ st st', localsOk st → lastMatch name (localsAtDepth st) k →
  visit node st = Ok st' → lastMatch name (localsAtDepth st') k.
Proof.
  induction node as
    [value|value|n|op expr IH|op l r IHl IHr|target args IHt IHa
    |n value IH|n params body IH|expr IH] using AstNode_ind;
    intros st st' Hok Hm.
  - cbn [visit]. intros H. apply visitIntLit_scope in H as [? ?].
    by rewrite (localsAtDepth_same st st').
  - cbn [visit]. intros H. apply visitStringLit_scope in H as [? ?].
    by rewrite (localsAtDepth_same st st').
  - cbn [visit]. intros H. apply visitIdent_scope in H as [? ?].
    by rewrite (localsAtDepth_same st st').
  - rewrite visit_Unary. unfold visitUnary. intros H.
    apply bind_Ok in H as (s1 & Hv & Hb). destruct op; try discriminate.
    injection Hb as <-. by apply (IH st s1).
  - rewrite visit_Binary. unfold visitBinary. intros H.
    apply bind_Ok in H as (s1 & Hv1 & H). apply bind_Ok in H as (s2 & Hv2 & Hb).
    pose proof (scopeGrows_localsOk _ _ Hok (visit_scope l _ _ Hok Hv1)) as Hok1.
    pose proof (IHr _ _ Hok1 (IHl _ _ Hok Hm Hv1) Hv2) as Hm2.
    destruct op; try discriminate; by injection Hb as <-.
  - rewrite visit_Invoke. unfold visitInvoke. intros H.
    apply bind_Ok in H as (s1 & Hv1 & H). apply bind_Ok in H as (s2 & Hv2 & Hb).
    injection Hb as <-.
    assert (G : ∀ s s', localsOk s → lastMatch name (localsAtDepth s) k →
      visitAll args s = Ok s' → localsOk s' ∧ lastMatch name (localsAtDepth s') k).
    { clear Hv1 Hv2. induction IHa as [|a rest Ha _ IHrest]; intros s s' Hoks Hms;
        cbn [visitAll].
      - by intros [= <-].
      - intros H. apply bind_Ok in H as (s0 & Hv & Hb).
        apply (IHrest s0); [|by apply (Ha s)|done].
        apply (scopeGrows_localsOk s); [done|by apply (visit_scope a)]. }
    destruct (G (emit [byte Opcode.nil] st) s1 Hok Hm Hv1) as [Hok1 Hm1].
    by apply (IHt s1 s2).
  - rewrite visit_ValDecl. unfold visitValDecl.
    destruct (alreadyExists n st) eqn:Hex; [discriminate|]. intros H.
    apply bind_Ok in H as (s1 & Hv & Hb). injection Hb as <-.
    rewrite localsAtDepth_pushLocal. apply lastMatch_app; [by apply (IH st)|].
    constructor; [|constructor]. cbn. intros ->.
    apply alreadyExists_false in Hex. apply Hex. by apply (lastMatch_bound _ _ k).
  - destruct (alreadyExists n st) eqn:Hex.
    { rewrite visit_FuncDecl. unfold visitFuncDecl. by rewrite Hex. }
    intros H. apply visitFuncDecl_scope in H as [Hl Hd]; [|done].
    unfold localsAtDepth. rewrite Hl, Hd, filter_app, filter_cons_True, filter_nil by done.
    apply lastMatch_app; [done|].
    constructor; [|constructor]. cbn. intros ->.
    apply alreadyExists_false in Hex. apply Hex. by apply (lastMatch_bound _ _ k).
  - rewrite visit_Print. unfold visitPrint. intros H.
    apply bind_Ok in H as (s1 & Hv & Hb). injection Hb as <-. by apply (IH st s1).
Qed.

(** While the compiler goes on with a scope, a name that is bound in it
    keeps its slot. *)
Lemma reaches_keeps_binding name k st st' :
  localsOk st → lastMatch name (localsAtDepth st) k → reaches st st' →
  localsOk st' ∧ lastMatch name (localsAtDepth st') k.
Proof.
  intros Hok Hm. induction 1 as [|s s' node _ [IH1 IH2] Hv|s bytes _ IH]; [done| |done].
  split; [|by apply (visit_keeps_binding name k node s)].
  apply (scopeGrows_localsOk s); [done|by apply (visit_scope node)].
Qed.

(** C9: a value or function declaration of a name bound at the current depth
    throws "Duplicate identifier".  One depth deeper, in the scope of a
    function whose parameters do not bear the name, a declaration of a
    value with that name is compiled whenever its value is, and a
    declaration of a function whenever the body is: it is not rejected as
    a duplicate.  The declaration adds a local of the inner depth, and from
    then on, while the compiler goes on with that scope, a reference to
    the name is compiled to a load of the slot of that local. *)
Theorem duplicate_identifier_same_depth_only
    (st : State) (name : string) (value : AstNode) (params ps : list string)
    (body : list AstNode) :
  boundAtDepth name st →
  localsOk st →
  name ∉ "#ret" :: ps →
  visit (ValDecl name value) st = Throw (DuplicateIdentifier name)
  ∧ visit (FuncDecl name params body) st = Throw (DuplicateIdentifier name)
  ∧ (let inner := enterFunc ps st in
     depth inner = S (depth st)
     ∧ (∀ st1, visit value inner = Ok st1 →
          let slot := length (localsAtDepth st1) in
          ∃ st2, visit (ValDecl name value) inner = Ok st2
            ∧ localsAtDepth st2 !! slot = Some (Local.mk name (S (depth st)))
            ∧ ∀ st3, reaches st2 st3 →
                visitIdent name st3 = Ok (emit [byte Opcode.load; Z.of_nat slot] st3))
     ∧ (∀ st1, compileBlock body (enterFunc params inner) = Ok st1 →
          let slot := S (length ps) in
          ∃ st2, visit (FuncDecl name params body) inner = Ok st2
            ∧ localsAtDepth st2 !! slot = Some (Local.mk name (S (depth st)))
            ∧ ∀ st3, reaches st2 st3 →
                visitIdent name st3 = Ok (emit [byte Opcode.load; Z.of_nat slot] st3))).
Proof.
  intros Hb Hok Hps. apply alreadyExists_true in Hb.
  split; [|split].
  - rewrite visit_ValDecl. unfold visitValDecl. by rewrite Hb.
  - rewrite visit_FuncDecl. unfold visitFuncDecl. by rewrite Hb.
  - intros inner.
    assert (Hf : alreadyExists name inner = false).
    { apply alreadyExists_false. subst inner. by rewrite boundAtDepth_enterFunc. }
    pose proof (localsOk_enterFunc ps st Hok) as Hoki. fold inner in Hoki.
    destruct (enterFunc_scope ps st) as (Hli & Hdi & _). fold inner in Hli, Hdi.
    split; [exact Hdi|]. split.
    + intros st1 Hv slot.
      pose proof (visit_scope value _ _ Hoki Hv) as Hg.
      pose proof (scopeGrows_localsOk _ _ Hoki Hg) as Hok1.
      destruct Hg as [Hd1 _].
      exists (pushLocal name st1).
      split; [rewrite visit_ValDecl; unfold visitValDecl; by rewrite Hf, Hv|].
      assert (Hm : lastMatch name (localsAtDepth (pushLocal name st1)) slot).
      { rewrite localsAtDepth_pushLocal. apply lastMatch_last. }
      split.
      * rewrite localsAtDepth_pushLocal, lookup_app_r, Nat.sub_diag by done.
        cbn. by rewrite Hd1, Hdi.
      * intros st3 Hr. apply visitIdent_lastMatch.
        apply (reaches_keeps_binding name slot (pushLocal name st1)); [|done|done].
        apply (scopeGrows_localsOk st1); [done|apply scopeGrows_pushLocal].
    + intros st1 Hv slot.
      assert (Hvis : visit (FuncDecl name params body) inner
                     = Ok (finishFunc name (code inner) (depth inner) st1)).
      { rewrite visit_FuncDecl. unfold visitFuncDecl. by rewrite Hf, Hv. }
      exists (finishFunc name (code inner) (depth inner) st1).
      split; [exact Hvis|].
      pose proof (visitFuncDecl_scope _ _ _ _ _ Hoki Hvis) as [Hl2 Hd2].
      assert (Hin : localsAtDepth inner
                    = Local.mk "#ret" (S (depth st))
                      :: map (λ p, Local.mk p (S (depth st))) ps).
      { apply (localsAtDepth_split inner (locals st)); [done| |].
        - rewrite Hdi. eapply Forall_impl; [exact Hok|]. cbn. lia.
        - rewrite Hdi. constructor; [done|]. apply Forall_forall. intros l Hl.
          apply list_elem_of_fmap in Hl as (p & -> & _). done. }
      assert (Hat : localsAtDepth (finishFunc name (code inner) (depth inner) st1)
                    = localsAtDepth inner ++ [Local.mk name (depth inner)]).
      { unfold localsAtDepth at 1. rewrite Hl2, Hd2, filter_app.
        by rewrite filter_cons_True, filter_nil. }
      assert (Hlen : length (localsAtDepth inner) = slot).
      { rewrite Hin. cbn. by rewrite length_map. }
      assert (Hm : lastMatch name
                     (localsAtDepth (finishFunc name (code inner) (depth inner) st1)) slot).
      { rewrite Hat, <- Hlen. apply lastMatch_last. }
      split.
      * rewrite Hat, <- Hlen, lookup_app_r, Nat.sub_diag by done. cbn. by rewrite Hdi.
      * intros st3 Hr. apply visitIdent_lastMatch.
        apply (reaches_keeps_binding name slot
                 (finishFunc name (code inner) (depth inner) st1)); [|done|done].
        apply (scopeGrows_localsOk inner); [done|by apply (visit_scope _ _ _ Hoki Hvis)].
Qed.

Lemma duplicate_identifier_same_depth_only_witness :
  let st := mk [{| addr := 0; val := VNumber 1 |}] [Local.mk "x" 0]
               [byte Opcode.constant; 0%Z] 0 1 in
  visit (ValDecl "x" (IntLit 2)) st = Throw (DuplicateIdentifier "x")
  ∧ visit (FuncDecl "x" [] []) st = Throw (DuplicateIdentifier "x")
  ∧ ∃ st2, visit (ValDecl "x" (IntLit 2)) (enterFunc ["a"] st) = Ok st2
      ∧ visitIdent "x" st2 = Ok (emit [byte Opcode.load; 2%Z] st2).
Proof.
  intros st.
  destruct (duplicate_identifier_same_depth_only st "x" (IntLit 2) [] ["a"] [])
    as (H1 & H2 & _ & H3 & _).
  - exists (Local.mk "x" 0). split; [left|]. split; reflexivity.
  - repeat constructor.
  - intros H. apply list_elem_of_In in H. cbn in H. destruct H as [H|[H|[]]]; discriminate.
  - split; [exact H1|]. split; [exact H2|].
    destruct (H3 _ eq_refl) as (st2 & Hv & _ & Hr).
    exists st2. split; [exact Hv|]. apply (Hr st2). constructor.
Defined.

End Shadowing.

(** ** Single instructions of the VM *)

Section Instructions.
Import VM.

Lemma readByte_byteAt vm : readByte vm = (byteAt vm 0, advance 1 vm).
Proof. unfold readByte, byteAt, advance. by rewrite Nat.add_0_r. Qed.

Lemma readByte_operand vm : readByte (advance 1 vm) = (byteAt vm 1, advance 2 vm).
Proof. rewrite readByte_byteAt. unfold byteAt, advance, withFrame. cbn. by rewrite Nat.add_0_r, Nat.add_1_r. Qed.

Lemma stack_advance n vm : stack (advance n vm) = stack vm.
Proof. reflexivity. Qed.

Lemma arrPop_snoc a l v :
  elems a = l ++ [v] → arrPop a = (Some v, mkArr l (props a)).
Proof. intros H. unfold arrPop. by rewrite H, last_snoc, removelast_last. Qed.

Lemma arrPop_empty a : elems a = [] → arrPop a = (None, a).
Proof. intros H. unfold arrPop. by rewrite H. Qed.

Lemma pop_snoc vm k l v :
  elems (stack vm) = l ++ [v] → pop vm k = k v (setElems l vm).
Proof. intros H. unfold pop. by rewrite (arrPop_snoc _ l v H). Qed.

Lemma pop_empty vm k : elems (stack vm) = [] → pop vm k = Fail EmptyStack vm.
Proof. intros H. unfold pop. by rewrite (arrPop_empty _ H). Qed.

(** C7: [add] pops the right operand, then the left one.  If one of them is
    a string the concatenation of their renderings is pushed, if both are
    numbers their sum; any other pair of operands is a type mismatch.  The
    numbers of the code are doubles: the rendering is stated for operands
    that are safe integers when they are numbers, the sum for two safe
    integers whose sum is one, where the doubles and their numerals are
    those of the integers. *)
Theorem handleInstr_add (vm : State) (rest : list Value) (left_ right_ : Value) :
  byteAt vm 0 = Some (byte Opcode.add) →
  elems (stack vm) = rest ++ [left_; right_] →
  (arrPop (stack vm)).1 = Some right_
  ∧ (arrPop (arrPop (stack vm)).2).1 = Some left_
  ∧ (isString left_ || isString right_ = true →
     exactValue left_ → exactValue right_ →
     handleInstr vm
     = Done (setElems (rest ++ [VString (valueToString left_ +:+ valueToString right_)])
               (advance 1 vm)))
  ∧ (∀ l r, left_ = VNumber l → right_ = VNumber r →
     safeInteger l → safeInteger r → safeInteger (l + r) →
     handleInstr vm = Done (setElems (rest ++ [VNumber (l + r)]) (advance 1 vm)))
  ∧ (isString left_ || isString right_ = false →
     typeOf left_ ≠ TNumber ∨ typeOf right_ ≠ TNumber →
     handleInstr vm
     = Fail (AddTypeMismatch (typeOf left_) (typeOf right_)) (setElems rest (advance 1 vm)))
  ∧ handleInstr (setElems [VNumber 1; VString "a"] vm)
    = Done (setElems [VString "1a"] (advance 1 vm))
  ∧ handleInstr (setElems [VString "a"; VNumber 1] vm)
    = Done (setElems [VString "a1"] (advance 1 vm))
  ∧ handleInstr (setElems [VNumber 1; VNumber 2] vm)
    = Done (setElems [VNumber 3] (advance 1 vm)).
Proof.
  intros Hop Hst.
  assert (Hst' : elems (stack vm) = (rest ++ [left_]) ++ [right_])
    by (by rewrite <- app_assoc).
  assert (G : ∀ vm0 rest0 l0 r0, byteAt vm0 0 = Some (byte Opcode.add) →
    elems (stack vm0) = (rest0 ++ [l0]) ++ [r0] →
    handleInstr vm0
    = if isString l0 || isString r0 then
        Done (setElems (rest0 ++ [VString (valueToString l0 +:+ valueToString r0)])
                (advance 1 vm0))
      else match l0, r0 with
           | VNumber l, VNumber r =>
               Done (setElems (rest0 ++ [VNumber (l + r)]) (advance 1 vm0))
           | _, _ => Fail (AddTypeMismatch (typeOf l0) (typeOf r0))
                       (setElems rest0 (advance 1 vm0))
           end).
  { intros vm0 rest0 l0 r0 Hop0 Hst0. unfold handleInstr.
    rewrite readByte_byteAt, Hop0. cbn [decode byte].
    rewrite (pop_snoc _ _ (rest0 ++ [l0]) r0) by exact Hst0.
    rewrite (pop_snoc _ _ rest0 l0) by reflexivity.
    destruct l0, r0; reflexivity. }
  split; [by rewrite (arrPop_snoc _ _ _ Hst')|].
  split; [by rewrite (arrPop_snoc _ _ _ Hst'), (arrPop_snoc _ rest left_)|].
  split; [intros Hs _ _; by rewrite (G vm rest left_ right_ Hop Hst'), Hs|].
  split; [intros l r -> -> _ _ _; by rewrite (G vm rest _ _ Hop Hst')|].
  split.
  { intros Hs Hn. rewrite (G vm rest left_ right_ Hop Hst'), Hs.
    destruct left_, right_; try reflexivity; cbn in Hn; destruct Hn; done. }
  split; [|split].
  - by rewrite (G (setElems [VNumber 1; VString "a"] vm) [] (VNumber 1) (VString "a")).
  - by rewrite (G (setElems [VString "a"; VNumber 1] vm) [] (VString "a") (VNumber 1)).
  - by rewrite (G (setElems [VNumber 1; VNumber 2] vm) [] (VNumber 1) (VNumber 2)).
Qed.

End Instructions.

Section MoreInstructions.
Import VM.

Lemma handleInstr_add_witness :
  let vm := mk (mkModule [] [byte Opcode.add]) (mkFrame 0 [byte Opcode.add] (KInt 0)) []
               (mkArr [VNumber 1; VString "a"] []) false [] in
  handleInstr vm = Done (setElems [VString "1a"] (advance 1 vm)).
Proof.
  intros vm.
  destruct (handleInstr_add vm [] (VNumber 1) (VString "a")) as (_ & _ & H & _);
    [reflexivity|reflexivity|].
  apply H; [reflexivity | by apply (bool_decide_unpack _) | exact I].
Defined.

(** The three sums of C7, from the syntax tree to the result of [run]. *)
Example add_end_to_end :
  (∃ m, Compiler.compile [Binary TokenType.plus (IntLit 1) (StringLit "a")] = Ok m
        ∧ run 10 (new m) = Some (Ok (VString "1a")))
  ∧ (∃ m, Compiler.compile [Binary TokenType.plus (StringLit "a") (IntLit 1)] = Ok m
          ∧ run 10 (new m) = Some (Ok (VString "a1")))
  ∧ (∃ m, Compiler.compile [Binary TokenType.plus (IntLit 1) (IntLit 2)] = Ok m
          ∧ run 10 (new m) = Some (Ok (VNumber 3))).
Proof. repeat split; eexists; (split; [reflexivity|reflexivity]). Qed.

Lemma handleInstr_invoke_eq vm argc rest callee :
  byteAt vm 0 = Some (byte Opcode.invoke) →
  byteAt vm 1 = Some argc →
  elems (stack vm) = rest ++ [callee] →
  handleInstr vm =
    match callee with
    | VFunction _ fcode =>
        Done (mk (module vm)
                (mkFrame 0 fcode (KInt (Z.of_nat (length rest) - 1 - argc)))
                (currentFrame (advance 2 vm) :: callers vm)
                (mkArr rest (props (stack vm))) (halted vm) (output vm))
    | _ => Fail (NotInvocable (typeOf callee)) (setElems rest (advance 2 vm))
    end.
Proof.
  intros Hop Harg Hst.
  unfold handleInstr. rewrite readByte_byteAt, Hop. cbn [decode byte].
  rewrite readByte_operand, Harg.
  rewrite (pop_snoc _ _ rest callee) by exact Hst.
  destruct callee; reflexivity.
Qed.

(** C8: [invoke] pops the callee.  A callee that is not a function makes the
    VM throw "Cannot invoke", the stack being what it was without the
    callee.  For a function a frame is pushed with instruction pointer 0, the
    code of the function and, as stack-offset, the length the stack has once
    the callee is popped, minus 1, minus the operand; when the stack holds
    the [nil] placeholder and [argc] arguments under the callee, that is the
    index of the placeholder. *)
Theorem handleInstr_invoke (vm : State) (argc : Z) (rest : list Value) (callee : Value) :
  byteAt vm 0 = Some (byte Opcode.invoke) →
  byteAt vm 1 = Some argc →
  elems (stack vm) = rest ++ [callee] →
  (typeOf callee ≠ TFunction →
   handleInstr vm = Fail (NotInvocable (typeOf callee)) (setElems rest (advance 2 vm)))
  ∧ (∀ name fcode, callee = VFunction name fcode →
     handleInstr vm
     = Done (mk (module vm)
               (mkFrame 0 fcode (KInt (Z.of_nat (length rest) - 1 - argc)))
               (currentFrame (advance 2 vm) :: callers vm)
               (mkArr rest (props (stack vm))) (halted vm) (output vm)))
  ∧ (∀ below args, rest = below ++ VNil :: args → Z.of_nat (length args) = argc →
     (Z.of_nat (length rest) - 1 - argc)%Z = Z.of_nat (length below)
     ∧ rest !! length below = Some VNil).
Proof.
  intros Hop Harg Hst.
  pose proof (handleInstr_invoke_eq vm argc rest callee Hop Harg Hst) as G.
  split; [|split].
  - intros Hn. rewrite G. destruct callee; try reflexivity. by destruct Hn.
  - intros name fcode ->. exact G.
  - intros below args -> <-. split.
    + rewrite length_app. cbn [length]. lia.
    + by rewrite list_lookup_middle.
Qed.

Lemma handleInstr_invoke_witness :
  let vm := mk (mkModule [] [byte Opcode.invoke; 1%Z])
               (mkFrame 0 [byte Opcode.invoke; 1%Z] (KInt 0)) []
               (mkArr [VNil; VNumber 7; VString "s"] []) false [] in
  handleInstr vm = Fail (NotInvocable TString) (setElems [VNil; VNumber 7] (advance 2 vm)).
Proof.
  intros vm.
  destruct (handleInstr_invoke vm 1 [VNil; VNumber 7] (VString "s")) as (H & _);
    [reflexivity|reflexivity|reflexivity|].
  apply H. discriminate.
Defined.

(** A call of a function with one argument, compiled and run up to the
    [invoke]: the frame that is pushed has the index of the placeholder as
    its stack-offset. *)
Example invoke_frame_offset :
  ∃ m vm,
    Compiler.compile
      [FuncDecl "id" ["a"] [Ident "a"]; Invoke (Ident "id") [IntLit 7]] = Ok m
    ∧ steps 5 (new m) = Done vm
    ∧ ip (currentFrame vm) = 0
    ∧ stackOffset (currentFrame vm) = KInt 1
    ∧ elems (stack vm) !! 1 = Some VNil
    ∧ run 20 (new m) = Some (Ok (VNumber 7)).
Proof.
  eexists _, _. split; [vm_compute; reflexivity|].
  split; [vm_compute; reflexivity|]. repeat split; vm_compute; reflexivity.
Qed.

(** What [load] does in a frame whose stack-offset is a number. *)
Lemma handleInstr_load vm slot off :
  byteAt vm 0 = Some (byte Opcode.load) →
  byteAt vm 1 = Some slot →
  stackOffset (currentFrame vm) = KInt off →
  (0 ≤ slot + off)%Z →
  handleInstr vm
  = match elems (stack vm) !! Z.to_nat (slot + off) with
    | Some v => Done (setElems (elems (stack vm) ++ [v]) (advance 2 vm))
    | None => Fail (LoadIndexOutOfRange (Some slot)) (advance 2 vm)
    end.
Proof.
  intros Hop Hs Ho Hr. unfold handleInstr.
  rewrite readByte_byteAt, Hop. cbn [decode byte].
  rewrite readByte_operand, Hs.
  cbn [currentFrame advance withFrame stackOffset]. rewrite Ho.
  cbn [keyAdd arrGet]. rewrite bool_decide_eq_true_2 by exact Hr.
  cbn [stack advance withFrame]. destruct (elems (stack vm) !! _); reflexivity.
Qed.

(** The guard of [store]: a target that is at least the length of the stack
    is refused before anything is popped. *)
Lemma handleInstr_store_beyond vm slot off :
  byteAt vm 0 = Some (byte Opcode.store) →
  byteAt vm 1 = Some slot →
  stackOffset (currentFrame vm) = KInt off →
  (Z.of_nat (length (elems (stack vm))) ≤ slot + off)%Z →
  handleInstr vm = Fail (StoreIndexOutOfRange (KInt (slot + off))) (advance 2 vm).
Proof.
  intros Hop Hs Ho Hr. unfold handleInstr.
  rewrite readByte_byteAt, Hop. cbn [decode byte].
  rewrite readByte_operand, Hs.
  cbn [currentFrame advance withFrame stackOffset]. rewrite Ho.
  cbn [keyAdd keyGe stack]. by rewrite bool_decide_eq_true_2.
Qed.

(** [store] with a target inside the stack: the value on top is removed and
    written to the target (which may be the slot the value came from). *)
Lemma handleInstr_store_within vm slot off l v :
  byteAt vm 0 = Some (byte Opcode.store) →
  byteAt vm 1 = Some slot →
  stackOffset (currentFrame vm) = KInt off →
  elems (stack vm) = l ++ [v] →
  (0 ≤ slot + off < Z.of_nat (length l) + 1)%Z →
  handleInstr vm
  = Done (setElems (if bool_decide (Z.to_nat (slot + off) < length l)
                    then <[Z.to_nat (slot + off) := v]> l else l ++ [v])
            (advance 2 vm)).
Proof.
  intros Hop Hs Ho Hst Hr. unfold handleInstr.
  rewrite readByte_byteAt, Hop. cbn [decode byte].
  rewrite readByte_operand, Hs.
  cbn [currentFrame advance withFrame stackOffset]. rewrite Ho.
  cbn [keyAdd keyGe]. rewrite stack_advance, Hst, length_app. cbn [length].
  rewrite bool_decide_eq_false_2 by lia.
  rewrite (pop_snoc _ _ l v) by exact Hst.
  unfold arrSet. cbn [stack setElems withStack elems].
  rewrite bool_decide_eq_true_2 by lia.
  case_bool_decide; reflexivity.
Qed.

(** A negative target passes the guard of [store]: the value is popped and
    becomes a property of the array. *)
Lemma handleInstr_store_negative vm slot off l v :
  byteAt vm 0 = Some (byte Opcode.store) →
  byteAt vm 1 = Some slot →
  stackOffset (currentFrame vm) = KInt off →
  elems (stack vm) = l ++ [v] →
  (slot + off < 0)%Z →
  handleInstr vm
  = Done (withStack (mkArr l (propSet (KInt (slot + off)) v (props (stack vm))))
            (advance 2 vm)).
Proof.
  intros Hop Hs Ho Hst Hr. unfold handleInstr.
  rewrite readByte_byteAt, Hop. cbn [decode byte].
  rewrite readByte_operand, Hs.
  cbn [currentFrame advance withFrame stackOffset]. rewrite Ho.
  cbn [keyAdd keyGe].
  rewrite bool_decide_eq_false_2 by lia.
  rewrite (pop_snoc _ _ l v) by exact Hst.
  unfold arrSet. cbn [stack setElems withStack elems].
  by rewrite bool_decide_eq_false_2 by lia.
Qed.

(** C10, on the code: the program [def f(a, b) { 1 }  f(f())].  The inner
    call removes one value more than it was given, so the outer call gets the
    stack-offset -1.  After 13 instructions the VM is at [store 0] of that
    frame with target index -1, which is not within the bounds of the
    stack; no error is raised, the value 1 is popped and kept as property
    "-1" of the array.  So it is for every negative target. *)
Theorem store_negative_target_not_refused :
  (∃ m vm vm',
    Compiler.compile
      [FuncDecl "f" ["a"; "b"] [IntLit 1];
       Invoke (Ident "f") [Invoke (Ident "f") []]] = Ok m
    ∧ steps 13 (new m) = Done vm
    ∧ byteAt vm 0 = Some (byte Opcode.store)
    ∧ byteAt vm 1 = Some 0%Z
    ∧ stackOffset (currentFrame vm) = KInt (-1)
    ∧ elems (stack vm)
      = [VFunction "f" [byte Opcode.constant; 0; byte Opcode.store; 0;
                        byte Opcode.pop; byte Opcode.pop; byte Opcode.return_]%Z;
         VNumber 1]
    ∧ handleInstr vm = Done vm'
    ∧ elems (stack vm')
      = [VFunction "f" [byte Opcode.constant; 0; byte Opcode.store; 0;
                        byte Opcode.pop; byte Opcode.pop; byte Opcode.return_]%Z]
    ∧ props (stack vm') = [(KInt (-1), VNumber 1)])
  ∧ ∀ vm slot off l v,
      byteAt vm 0 = Some (byte Opcode.store) →
      byteAt vm 1 = Some slot →
      stackOffset (currentFrame vm) = KInt off →
      elems (stack vm) = l ++ [v] →
      (slot + off < 0)%Z →
      ∃ vm', handleInstr vm = Done vm' ∧ elems (stack vm') = l.
Proof.
  split.
  - eexists _, _, _. split; [vm_compute; reflexivity|].
    split; [vm_compute; reflexivity|].
    do 4 (split; [vm_compute; reflexivity|]).
    split; [vm_compute; reflexivity|]. split; vm_compute; reflexivity.
  - intros vm slot off l v Hop Hs Ho Hst Hneg. eexists. split.
    + by apply (handleInstr_store_negative vm slot off l v).
    + reflexivity.
Qed.

Lemma store_negative_target_not_refused_witness :
  let vm := mk (mkModule [] [byte Opcode.store; 0%Z])
               (mkFrame 0 [byte Opcode.store; 0%Z] (KInt (-1))) []
               (mkArr [VNil; VNumber 1] []) false [] in
  ∃ vm', handleInstr vm = Done vm' ∧ elems (stack vm') = [VNil].
Proof.
  intros vm.
  apply (proj2 store_negative_target_not_refused vm 0%Z (-1)%Z [VNil] (VNumber 1));
    reflexivity.
Defined.

End MoreInstructions.

(** ** The shape of the emitted code *)

Section EmittedCode.
Import Compiler.

Lemma decode_byte op : decode (byte op) = Some op.
Proof. by destruct op. Qed.

Lemma Instrs_app c1 c2 : Instrs c1 → Instrs c2 → Instrs (c1 ++ c2).
Proof.
  induction 1 as [|op rest H0 Hr _ IH|op operand rest H1 _ IH]; intros H2; cbn.
  - done.
  - by apply Instrs_op0; [..|apply IH].
  - by apply Instrs_op1; [|apply IH].
Qed.

Lemma Instrs_one op : opcodeArgs op = 0 → op ≠ Opcode.return_ → Instrs [byte op].
Proof. intros. by apply Instrs_op0; [..|constructor]. Qed.

Lemma Instrs_two op operand : opcodeArgs op = 1 → Instrs [byte op; operand].
Proof. intros. by apply Instrs_op1; [|constructor]. Qed.

Lemma instrCount_app c c' :
  Instrs c → instrCount (c ++ c') 0 = instrCount c 0 + instrCount c' 0.
Proof.
  induction 1 as [|op rest H0 Hr _ IH|op operand rest H1 _ IH]; cbn [app instrCount].
  - done.
  - rewrite decode_byte, H0, IH. lia.
  - rewrite decode_byte, H1, IH. lia.
Qed.

Lemma emits_emit bytes st : emits st (emit bytes st) bytes.
Proof. done. Qed.

Lemma emits_trans st1 st2 st3 c1 c2 :
  emits st1 st2 c1 → emits st2 st3 c2 → emits st1 st3 (c1 ++ c2).
Proof. unfold emits. intros H1 H2. by rewrite H2, H1, app_assoc. Qed.

Lemma visitIntLit_emits value st st' :
  visitIntLit value st = Ok st' →
  (value = 0%Z ∧ emits st st' [byte Opcode.const0])
  ∨ (∃ constIdx, emits st st' [byte Opcode.constant; Z.of_nat constIdx]).
Proof.
  unfold visitIntLit. case_bool_decide as Hv.
  - intros [= <-]. left. by subst.
  - destruct (alloc (VNumber value) st) as [o s] eqn:Ea.
    pose proof (addConstant_scope o s) as (_ & _ & Hc).
    destruct (addConstant o s) as [i s']. intros [= <-]. right. exists i.
    unfold emits. cbn in *. rewrite Hc. by injection Ea as _ <-.
Qed.

Lemma visitStringLit_emits value st st' :
  visitStringLit value st = Ok st' →
  ∃ constIdx, emits st st' [byte Opcode.constant; Z.of_nat constIdx].
Proof.
  unfold visitStringLit.
  destruct (alloc (VString value) st) as [o s] eqn:Ea.
  pose proof (addConstant_scope o s) as (_ & _ & Hc).
  destruct (addConstant o s) as [i s']. intros [= <-]. exists i.
  unfold emits. cbn in *. rewrite Hc. by injection Ea as _ <-.
Qed.

Lemma visitIdent_emits name st st' :
  visitIdent name st = Ok st' → ∃ i, emits st st' [byte Opcode.load; Z.of_nat i].
Proof.
  unfold visitIdent. destruct (scanLocals _ _ _) as [i|]; [|discriminate].
  intros [= <-]. by exists i.
Qed.

Lemma finishFunc_emits name origCode origDepth st :
  ∃ constIdx,
    code (finishFunc name origCode origDepth st)
    = origCode ++ [byte Opcode.constant; Z.of_nat constIdx].
Proof.
  unfold finishFunc.
  match goal with |- context [alloc ?v ?s] => destruct (alloc v s) as [o s3] eqn:Ea end.
  pose proof (addConstant_scope o s3) as (_ & _ & Hc).
  destruct (addConstant o s3) as [i s4]. exists i. cbn in *. rewrite Hc.
  by injection Ea as _ <-.
Qed.

Lemma visitFuncDecl_emits name params body st st' :
  visit (FuncDecl name params body) st = Ok st' →
  ∃ constIdx, emits st st' [byte Opcode.constant; Z.of_nat constIdx].
Proof.
  rewrite visit_FuncDecl. unfold visitFuncDecl.
  destruct (alreadyExists name st); [discriminate|]. intros H.
  apply bind_Ok in H as (s1 & _ & Hb). injection Hb as <-.
  apply finishFunc_emits.
Qed.

Lemma afterNode_emits node isLast st :
  emits st (afterNode node isLast st)
    ((if isExpr node && negb isLast then [byte Opcode.pop] else [])
     ++ (if negb (isExpr node) && isLast then [byte Opcode.nil] else [])).
Proof.
  unfold afterNode, emits. destruct (isExpr node), isLast; cbn; by rewrite ?app_nil_r.
Qed.

(** The code a visit appends is a sequence of whole instructions without
    [return]. *)
Lemma visit_Instrs node :
  ∀ st st', visit node st = Ok st' → ∃ c, emits st st' c ∧ Instrs c.
Proof.
  induction node as
    [value|value|name|op expr IH|op l r IHl IHr|target args IHt IHa
    |name value IH|name params body IH|expr IH] using AstNode_ind;
    intros st st'.
  - cbn [visit]. intros H. apply visitIntLit_emits in H as [[_ H]|[i H]].
    + eexists. split; [exact H|]. by apply Instrs_one.
    + eexists. split; [exact H|]. by apply Instrs_two.
  - cbn [visit]. intros H. apply visitStringLit_emits in H as [i H].
    eexists. split; [exact H|]. by apply Instrs_two.
  - cbn [visit]. intros H. apply visitIdent_emits in H as [i H].
    eexists. split; [exact H|]. by apply Instrs_two.
  - rewrite visit_Unary. unfold visitUnary. intros H.
    apply bind_Ok in H as (s1 & Hv & Hb). destruct (IH _ _ Hv) as (c & Hc & Hi).
    destruct op; try discriminate. injection Hb as <-.
    exists (c ++ [byte Opcode.neg]). split.
    + eapply emits_trans; [exact Hc|apply emits_emit].
    + apply Instrs_app; [done|by apply Instrs_one].
  - rewrite visit_Binary. unfold visitBinary. intros H.
    apply bind_Ok in H as (s1 & Hv1 & H). apply bind_Ok in H as (s2 & Hv2 & Hb).
    destruct (IHl _ _ Hv1) as (c1 & Hc1 & Hi1). destruct (IHr _ _ Hv2) as (c2 & Hc2 & Hi2).
    destruct op; try discriminate; injection Hb as <-.
    + exists ((c1 ++ c2) ++ [byte Opcode.add]). split.
      * eapply emits_trans; [eapply emits_trans; eassumption|apply emits_emit].
      * apply Instrs_app; [by apply Instrs_app|by apply Instrs_one].
    + exists ((c1 ++ c2) ++ [byte Opcode.sub]). split.
      * eapply emits_trans; [eapply emits_trans; eassumption|apply emits_emit].
      * apply Instrs_app; [by apply Instrs_app|by apply Instrs_one].
  - rewrite visit_Invoke. unfold visitInvoke. intros H.
    apply bind_Ok in H as (s1 & Hv1 & H). apply bind_Ok in H as (s2 & Hv2 & Hb).
    assert (G : ∀ s s', visitAll args s = Ok s' → ∃ c, emits s s' c ∧ Instrs c).
    { clear Hv1 Hv2 Hb. induction IHa as [|a rest Ha _ IHrest]; intros s s'; cbn [visitAll].
      - intros [= <-]. exists []. split; [unfold emits; by rewrite app_nil_r|constructor].
      - intros H. apply bind_Ok in H as (s0 & Hv & Hb).
        destruct (Ha _ _ Hv) as (c1 & Hc1 & Hi1).
        destruct (IHrest _ _ Hb) as (c2 & Hc2 & Hi2).
        exists (c1 ++ c2). split; [by eapply emits_trans|by apply Instrs_app]. }
    destruct (G _ _ Hv1) as (c1 & Hc1 & Hi1). destruct (IHt _ _ Hv2) as (c2 & Hc2 & Hi2).
    injection Hb as <-.
    exists ((([byte Opcode.nil] ++ c1) ++ c2) ++ [byte Opcode.invoke; Z.of_nat (length args)]).
    split.
    + eapply emits_trans; [|apply emits_emit].
      eapply emits_trans; [|exact Hc2].
      eapply emits_trans; [apply emits_emit|exact Hc1].
    + apply Instrs_app; [|by apply Instrs_two].
      apply Instrs_app; [|done]. apply Instrs_app; [by apply Instrs_one|done].
  - rewrite visit_ValDecl. unfold visitValDecl.
    destruct (alreadyExists name st); [discriminate|]. intros H.
    apply bind_Ok in H as (s1 & Hv & Hb). injection Hb as <-.
    destruct (IH _ _ Hv) as (c & Hc & Hi). exists c. split; [exact Hc|done].
  - intros H. apply visitFuncDecl_emits in H as [i H].
    eexists. split; [exact H|]. by apply Instrs_two.
  - rewrite visit_Print. unfold visitPrint. intros H.
    apply bind_Ok in H as (s1 & Hv & Hb). injection Hb as <-.
    destruct (IH _ _ Hv) as (c & Hc & Hi).
    exists (c ++ [byte Opcode.print]). split.
    + eapply emits_trans; [exact Hc|apply emits_emit].
    + apply Instrs_app; [done|by apply Instrs_one].
Qed.

End EmittedCode.

(** ** Running emitted code *)

Section Running.
Import VM.

Lemma steps_add n m vm :
  steps (n + m) vm
  = match steps n vm with
    | Done vm1 => steps m vm1
    | Fail e vm1 => Fail e vm1
    end.
Proof.
  revert vm. induction n as [|n IH]; intros vm; cbn [steps Nat.add]; [done|].
  destruct (handleInstr vm); [apply IH|done].
Qed.

Lemma steps_one vm : steps 1 vm = handleInstr vm.
Proof. cbn [steps]. by destruct (handleInstr vm). Qed.

Lemma snoc_cases {A} (l : list A) : l = [] ∨ ∃ l' x, l = l' ++ [x].
Proof. induction l using rev_ind; [by left|right; eauto]. Qed.

Lemma pop_Done_inv vm k vm' :
  pop vm k = Done vm' →
  ∃ l v, elems (stack vm) = l ++ [v] ∧ k v (setElems l vm) = Done vm'.
Proof.
  destruct (snoc_cases (elems (stack vm))) as [E|(l & v & E)].
  - by rewrite (pop_empty _ _ E).
  - rewrite (pop_snoc _ _ l v E). eauto.
Qed.

Lemma sameControl_refl vm : sameControl vm vm 0.
Proof. unfold sameControl, advance. by destruct vm as [? [] ? ? ? ?]. Qed.

Lemma sameControl_trans vm1 vm2 vm3 n m :
  sameControl vm1 vm2 n → sameControl vm2 vm3 m → sameControl vm1 vm3 (n + m).
Proof.
  unfold sameControl, advance. cbn.
  intros (F1 & C1 & M1 & H1) (F2 & C2 & M2 & H2).
  rewrite F2, F1, C2, C1, M2, M1, H2, H1. cbn. split; [|done]. f_equal. lia.
Qed.

(** One instruction other than [store], [invoke] and [return]. *)
Lemma handleInstr_simple vm vm' op :
  byteAt vm 0 = Some (byte op) →
  op ≠ Opcode.store → op ≠ Opcode.invoke → op ≠ Opcode.return_ →
  handleInstr vm = Done vm' →
  sameControl vm vm' (1 + opcodeArgs op)
  ∧ Z.of_nat (length (elems (stack vm')))
    = (Z.of_nat (length (elems (stack vm))) + delta op)%Z.
Proof.
  intros Hop Hs Hi Hr. unfold handleInstr. rewrite readByte_byteAt, Hop, decode_byte.
  destruct op; try done; cbn [byte opcodeArgs delta Nat.add].
  - intros [= <-]. split; [done|]. cbn. rewrite length_app. cbn. lia.
  - intros [= <-]. split; [done|]. cbn. rewrite length_app. cbn. lia.
  - intros [= <-]. split; [done|]. cbn. rewrite length_app. cbn. lia.
  - rewrite readByte_operand. destruct (constantAt _ _); [|discriminate].
    intros [= <-]. split; [done|]. cbn. rewrite length_app. cbn. lia.
  - intros H. apply pop_Done_inv in H as (l & v & E & H). rewrite stack_advance in E.
    destruct v; try discriminate. injection H as <-. split; [done|].
    cbn. rewrite E, !length_app. cbn. lia.
  - intros H. apply pop_Done_inv in H as (l & r & E & H). rewrite stack_advance in E.
    apply pop_Done_inv in H as (l' & v & E' & H). cbn in E'. subst l.
    rewrite E, !length_app. cbn [length].
    destruct (isString v || isString r).
    + injection H as <-. split; [done|]. cbn. rewrite length_app. cbn. lia.
    + destruct v, r; try discriminate; injection H as <-.
      split; [done|]. cbn. rewrite length_app. cbn. lia.
  - intros H. apply pop_Done_inv in H as (l & r & E & H). rewrite stack_advance in E.
    apply pop_Done_inv in H as (l' & v & E' & H). cbn in E'. subst l.
    rewrite E, !length_app. cbn [length].
    destruct v, r; try discriminate; injection H as <-.
    split; [done|]. cbn. rewrite length_app. cbn. lia.
  - rewrite readByte_operand. destruct (arrGet _ _); [|discriminate].
    intros [= <-]. split; [done|]. cbn. rewrite length_app. cbn. lia.
  - intros H. apply pop_Done_inv in H as (l & v & E & H). rewrite stack_advance in E. injection H as <-.
    split; [done|]. cbn. rewrite E, !length_app. cbn. lia.
  - intros H. apply pop_Done_inv in H as (l & v & E & H). rewrite stack_advance in E. injection H as <-.
    split; [done|]. cbn. rewrite E, !length_app. cbn. lia.
  - intros [= <-]. split; [done|]. cbn. rewrite length_app. cbn. lia.
Qed.

Lemma byteAt_middle vm pre b post :
  code (currentFrame vm) = pre ++ b :: post → ip (currentFrame vm) = length pre →
  byteAt vm 0 = Some b.
Proof.
  intros Hc Hi. unfold byteAt. rewrite Hc, Hi, Nat.add_0_r. apply list_lookup_middle. done.
Qed.

Lemma Exec_nil : Exec [] 0.
Proof.
  intros vm vm' pre post _ _. cbn. intros [= <-]. split; [apply sameControl_refl|lia].
Qed.

Lemma Exec_op0 op :
  opcodeArgs op = 0 → op ≠ Opcode.return_ → Exec [byte op] (delta op).
Proof.
  intros Ha Hr vm vm' pre post Hc Hi. cbn [instrCount]. rewrite steps_one. intros H.
  replace (length [byte op]) with (1 + opcodeArgs op) by (rewrite Ha; done).
  apply handleInstr_simple; try done.
  - by apply (byteAt_middle vm pre (byte op) post).
  - by intros ->.
  - by intros ->.
Qed.

Lemma Exec_op1 op operand :
  opcodeArgs op = 1 → op ≠ Opcode.store → op ≠ Opcode.invoke →
  Exec [byte op; operand] (delta op).
Proof.
  intros Ha Hs Hv vm vm' pre post Hc Hi. cbn [instrCount].
  rewrite decode_byte, Ha. cbn [instrCount]. rewrite steps_one. intros H.
  replace (length [byte op; operand]) with (1 + opcodeArgs op) by (rewrite Ha; done).
  apply handleInstr_simple; try done.
  - by apply (byteAt_middle vm pre (byte op) (operand :: post)).
  - by intros ->.
Qed.

Lemma Exec_app c1 c2 k1 k2 :
  Instrs c1 → Exec c1 k1 → Exec c2 k2 → Exec (c1 ++ c2) (k1 + k2).
Proof.
  intros Hi1 E1 E2 vm vm' pre post Hc Hip.
  rewrite instrCount_app by done. rewrite steps_add.
  destruct (steps (instrCount c1 0) vm) as [vm1|] eqn:S1; [|discriminate]. intros S2.
  destruct (E1 vm vm1 pre (c2 ++ post)) as [C1 L1]; [by rewrite Hc, <- app_assoc|done|done|].
  destruct (E2 vm1 vm' (pre ++ c1) post) as [C2 L2]; [..|done|].
  - destruct C1 as (F1 & _). rewrite F1. cbn. by rewrite Hc, <- !app_assoc.
  - destruct C1 as (F1 & _). rewrite F1. cbn. rewrite Hip, length_app. lia.
  - split.
    + rewrite length_app. by eapply sameControl_trans.
    + lia.
Qed.

End Running.

(** ** The depth of the stack after a block *)

Section BlockDepth.
Import Compiler.

Lemma emits_nil st : emits st st [].
Proof. unfold emits. by rewrite app_nil_r. Qed.

Lemma Exec_eq c k k' : k = k' → Exec c k → Exec c k'.
Proof. by intros ->. Qed.

Lemma simpleExpr_Exec node :
  simpleExpr node = true →
  ∀ st st', visit node st = Ok st' → ∃ c, emits st st' c ∧ Instrs c ∧ Exec c 1.
Proof.
  induction node as
    [value|value|name|op expr IH|op l r IHl IHr|target args IHt IHa
    |name value IH|name params body IH|expr IH] using AstNode_ind;
    cbn [simpleExpr]; intros Hs st st'; try discriminate.
  - cbn [visit]. intros H. apply visitIntLit_emits in H as [[_ H]|[i H]].
    + eexists. split; [exact H|]. split; [by apply Instrs_one|].
      by apply (Exec_op0 Opcode.const0).
    + eexists. split; [exact H|]. split; [by apply Instrs_two|].
      by apply (Exec_op1 Opcode.constant).
  - cbn [visit]. intros H. apply visitStringLit_emits in H as [i H].
    eexists. split; [exact H|]. split; [by apply Instrs_two|].
    by apply (Exec_op1 Opcode.constant).
  - cbn [visit]. intros H. apply visitIdent_emits in H as [i H].
    eexists. split; [exact H|]. split; [by apply Instrs_two|].
    by apply (Exec_op1 Opcode.load).
  - rewrite visit_Unary. unfold visitUnary. intros H.
    apply bind_Ok in H as (s1 & Hv & Hb). destruct (IH Hs _ _ Hv) as (c & Hc & Hi & He).
    destruct op; try discriminate. injection Hb as <-.
    exists (c ++ [byte Opcode.neg]). split; [|split].
    + eapply emits_trans; [exact Hc|apply emits_emit].
    + apply Instrs_app; [done|by apply Instrs_one].
    + apply (Exec_eq _ (1 + delta Opcode.neg)); [done|].
      apply Exec_app; [done|done|by apply Exec_op0].
  - apply andb_true_iff in Hs as [Hsl Hsr].
    rewrite visit_Binary. unfold visitBinary. intros H.
    apply bind_Ok in H as (s1 & Hv1 & H). apply bind_Ok in H as (s2 & Hv2 & Hb).
    destruct (IHl Hsl _ _ Hv1) as (c1 & Hc1 & Hi1 & He1).
    destruct (IHr Hsr _ _ Hv2) as (c2 & Hc2 & Hi2 & He2).
    assert (G : ∀ o, opcodeArgs o = 0 → o ≠ Opcode.return_ → delta o = (-1)%Z →
      ∃ c, emits st (emit [byte o] s2) c ∧ Instrs c ∧ Exec c 1).
    { intros o Ho Hr Hd. exists ((c1 ++ c2) ++ [byte o]). split; [|split].
      - eapply emits_trans; [eapply emits_trans; eassumption|apply emits_emit].
      - apply Instrs_app; [by apply Instrs_app|by apply Instrs_one].
      - apply (Exec_eq _ ((1 + 1) + delta o)); [rewrite Hd; done|].
        apply Exec_app; [by apply Instrs_app|by apply Exec_app|by apply Exec_op0]. }
    destruct op; try discriminate; injection Hb as <-.
    + by apply (G Opcode.add).
    + by apply (G Opcode.sub).
Qed.

Lemma simpleStmt_Exec node st st' :
  simpleStmt node = true → visit node st = Ok st' →
  ∃ c, emits st st' c ∧ Instrs c ∧ Exec c (stmtNet node).
Proof.
  destruct node as [value|value|name|op expr|op l r|target args|name value
                   |name params body|expr]; cbn [simpleStmt stmtNet]; intros Hs;
    try (by apply simpleExpr_Exec).
  - rewrite visit_ValDecl. unfold visitValDecl.
    destruct (alreadyExists name st); [discriminate|]. intros H.
    apply bind_Ok in H as (s1 & Hv & Hb). injection Hb as <-.
    destruct (simpleExpr_Exec value Hs _ _ Hv) as (c & Hc & Hi & He).
    exists c. split; [exact Hc|done].
  - intros H. apply visitFuncDecl_emits in H as [i H].
    eexists. split; [exact H|]. split; [by apply Instrs_two|].
    by apply (Exec_op1 Opcode.constant).
  - rewrite visit_Print. unfold visitPrint. intros H.
    apply bind_Ok in H as (s1 & Hv & Hb). injection Hb as <-.
    destruct (simpleExpr_Exec expr Hs _ _ Hv) as (c & Hc & Hi & He).
    exists (c ++ [byte Opcode.print]). split; [|split].
    + eapply emits_trans; [exact Hc|apply emits_emit].
    + apply Instrs_app; [done|by apply Instrs_one].
    + apply (Exec_eq _ (1 + delta Opcode.print)); [done|].
      apply Exec_app; [done|done|by apply Exec_op0].
Qed.

Lemma declCount_cons node rest :
  declCount (node :: rest) = (if isDecl node then 1 else 0) + declCount rest.
Proof.
  unfold declCount. destruct (isDecl node) eqn:E.
  - by rewrite filter_cons_True.
  - rewrite filter_cons_False; [done|]. by rewrite E.
Qed.

Lemma afterNode_Exec node isLast st :
  ∃ c, emits st (afterNode node isLast st) c ∧ Instrs c
       ∧ Exec c ((if isExpr node && negb isLast then -1 else 0)
                 + (if negb (isExpr node) && isLast then 1 else 0)).
Proof.
  eexists. split; [apply afterNode_emits|].
  destruct (isExpr node), isLast; cbn.
  - split; [constructor|apply Exec_nil].
  - split; [by apply (Instrs_one Opcode.pop)|]. by apply (Exec_op0 Opcode.pop).
  - split; [by apply (Instrs_one Opcode.nil)|]. by apply (Exec_op0 Opcode.nil).
  - split; [constructor|apply Exec_nil].
Qed.

Lemma compileBlock_Exec nodes :
  forallb simpleStmt nodes = true →
  ∀ st st', compileBlock nodes st = Ok st' →
  ∃ c, emits st st' c ∧ Instrs c ∧ Exec c (blockNet nodes).
Proof.
  induction nodes as [|node rest IH]; intros Hs st st'; cbn [compileBlock].
  - intros [= <-]. exists []. split; [apply emits_nil|]. split; [constructor|apply Exec_nil].
  - cbn [forallb] in Hs. apply andb_true_iff in Hs as [Hs1 Hs2].
    intros H. apply bind_Ok in H as (s1 & Hv & Hb).
    destruct (simpleStmt_Exec node _ _ Hs1 Hv) as (c1 & Hc1 & Hi1 & He1).
    destruct (afterNode_Exec node (bool_decide (rest = [])) s1) as (c2 & Hc2 & Hi2 & He2).
    destruct (IH Hs2 _ _ Hb) as (c3 & Hc3 & Hi3 & He3).
    exists ((c1 ++ c2) ++ c3). split; [|split].
    + eapply emits_trans; [eapply emits_trans; eassumption|exact Hc3].
    + apply Instrs_app; [by apply Instrs_app|done].
    + eapply Exec_eq; [|apply Exec_app; [by apply Instrs_app|by apply Exec_app|exact He3]].
      unfold blockNet at 2. rewrite declCount_cons.
      destruct rest as [|n' rest'].
      * rewrite bool_decide_eq_true_2 by done. unfold blockNet, declCount. cbn [filter length].
        destruct node; cbn; try done; cbn in Hs1; discriminate.
      * rewrite bool_decide_eq_false_2 by done. unfold blockNet.
        destruct node; cbn [stmtNet isExpr isDecl negb andb]; try lia;
          cbn in Hs1; discriminate.
Qed.

End BlockDepth.

Section BlockDepthTheorem.
Import VM.

(** C4 as worded fails: the block made of [const x = 1] alone is compiled
    to [constant 0; nil]; from the empty stack these two instructions leave
    two values, the slot of [x] and the [nil] of the block. *)
Lemma compileBlock_declaration_leaves_two :
  ∃ st' vm',
    Compiler.compileBlock [ValDecl "x" (IntLit 1)] Compiler.init = Ok st'
    ∧ Compiler.code st' = [byte Opcode.constant; 0%Z; byte Opcode.nil]
    ∧ steps (instrCount (Compiler.code st') 0)
        (new (mkModule (map val (Compiler.constants st'))
                (Compiler.code st' ++ [byte Opcode.return_]))) = Done vm'
    ∧ ip (currentFrame vm') = length (Compiler.code st')
    ∧ elems (stack vm') = [VNumber 1; VNil]
    ∧ length (elems (stack vm')) ≠ 0 + 1.
Proof.
  eexists _, _. split; [vm_compute; reflexivity|]. split; [vm_compute; reflexivity|].
  split; [vm_compute; reflexivity|]. split; [vm_compute; reflexivity|].
  split; [vm_compute; reflexivity|]. vm_compute. discriminate.
Qed.

(** A call changes the depth by one plus the number of arguments minus the
    number of parameters of the function that is called.  Here [f] has no
    parameter and gets two arguments, which stay on the stack. *)
Example invoke_arity_mismatch_depth :
  ∃ m vm',
    Compiler.compile [FuncDecl "f" [] [IntLit 1]; Invoke (Ident "f") [IntLit 5; IntLit 6]]
    = Ok m
    ∧ loop 20 (new m) = Some (Done vm')
    ∧ elems (stack vm')
      = [VFunction "f" [byte Opcode.constant; 0; byte Opcode.store; 0;
                        byte Opcode.return_]%Z;
         VNumber 1; VNumber 5; VNumber 6].
Proof.
  eexists _, _. split; [vm_compute; reflexivity|]. split; vm_compute; reflexivity.
Qed.

End BlockDepthTheorem.

(** ** Control flow of the VM *)

Section Control.
Import VM.

Lemma decode_Some b op : decode b = Some op → b = byte op.
Proof.
  unfold decode. intros H.
  repeat (match type of H with
          | match ?x with _ => _ end = _ => destruct x; try discriminate
          end); by injection H as <-.
Qed.

Lemma byte_inj op op' : byte op = byte op' → op = op'.
Proof. intros H. apply (f_equal decode) in H. rewrite !decode_byte in H. by injection H. Qed.

Lemma handleInstr_control vm vm' : handleInstr vm = Done vm' → stepControl vm vm'.
Proof.
  unfold stepControl. destruct (byteAt vm 0) as [b|] eqn:Hb; cbn [mbind option_bind].
  - destruct (decode b) as [op|] eqn:Hd.
    + apply decode_Some in Hd as ->. intros H.
      destruct (decide (op = Opcode.store)) as [->|Hs];
        [|destruct (decide (op = Opcode.invoke)) as [->|Hi];
          [|destruct (decide (op = Opcode.return_)) as [->|Hr]]].
      * revert H. unfold handleInstr. rewrite readByte_byteAt, Hb. cbn [decode byte].
        rewrite readByte_operand. destruct (keyGe _ _); [discriminate|].
        intros H. apply pop_Done_inv in H as (l & v & E & H). by injection H as <-.
      * revert H. unfold handleInstr. rewrite readByte_byteAt, Hb. cbn [decode byte].
        rewrite readByte_operand.
        intros H. apply pop_Done_inv in H as (l & v & E & H).
        destruct v; try discriminate. injection H as <-. cbn. eauto 10.
      * revert H. unfold handleInstr. rewrite readByte_byteAt, Hb. cbn [decode byte].
        destruct (callers vm) as [|f r] eqn:Ec; cbn [callers advance withFrame];
          rewrite Ec; by intros [= <-].
      * destruct (handleInstr_simple vm vm' op Hb Hs Hi Hr H) as [C _].
        split; [by destruct C as (_ & _ & ? & _)|]. by destruct op.
    + unfold handleInstr. rewrite readByte_byteAt, Hb, Hd. by intros [= <-].
  - unfold handleInstr. rewrite readByte_byteAt, Hb. by intros [= <-].
Qed.

(** The VM halts exactly when [return] is executed in the only frame. *)
Lemma halts_at_outermost_return vm vm' :
  handleInstr vm = Done vm' → halted vm = false →
  (halted vm' = true ↔ callers vm = [] ∧ byteAt vm 0 = Some (byte Opcode.return_)).
Proof.
  intros H Hh. apply handleInstr_control in H as [_ H].
  destruct (byteAt vm 0) as [b|] eqn:Hb; cbn [mbind option_bind] in H.
  - destruct (decode b) as [op|] eqn:Hd.
    + apply decode_Some in Hd as ->.
      destruct op;
        try (destruct H as (_ & _ & _ & E); rewrite E, Hh; split; [done|];
             by intros [_ [=]]).
      * destruct H as (_ & _ & E). rewrite E, Hh. split; [done|]. by intros [_ [=]].
      * destruct H as [_ H]. destruct (callers vm) as [|f r].
        -- destruct H as (_ & _ & E). by rewrite E.
        -- destruct H as (_ & _ & E). rewrite E, Hh. split; [done|]. by intros [[=] _].
    + destruct H as (_ & _ & _ & E). rewrite E, Hh. split; [done|].
      intros [_ [= E']]. by rewrite E' in Hd.
  - destruct H as (_ & _ & _ & E). rewrite E, Hh. split; [done|]. by intros [_ [=]].
Qed.

Lemma halted_stays vm vm' : handleInstr vm = Done vm' → halted vm = true → halted vm' = true.
Proof.
  intros H Hh. apply handleInstr_control in H as [_ H].
  destruct (byteAt vm 0 ≫= decode) as [op|].
  - destruct op; try (destruct H as (_ & _ & _ & E); by rewrite E).
    + destruct H as (_ & _ & E). by rewrite E.
    + destruct H as [_ H]. destruct (callers vm); destruct H as (_ & _ & E); [done|].
      by rewrite E.
  - destruct H as (_ & _ & _ & E). by rewrite E.
Qed.

Lemma steps_halted_stays n vm vm' :
  steps n vm = Done vm' → halted vm = true → halted vm' = true.
Proof.
  revert vm. induction n as [|n IH]; intros vm; cbn [steps].
  - by intros [= <-].
  - destruct (handleInstr vm) as [vm1|] eqn:E; [|discriminate].
    intros H Hh. apply (IH vm1 H). by apply (halted_stays vm).
Qed.

(** [loop] against [steps]. *)
Lemma loop_steps n vm vm' fuel :
  steps n vm = Done vm' → halted vm' = false → loop (n + fuel) vm = loop fuel vm'.
Proof.
  revert vm. induction n as [|n IH]; intros vm; cbn [steps Nat.add].
  - by intros [= <-].
  - intros H Hh. assert (Hv : halted vm = false).
    { destruct (halted vm) eqn:E; [|done]. by rewrite (steps_halted_stays (S n) _ _ H E) in Hh. }
    cbn [loop]. rewrite Hv. destruct (handleInstr vm) as [vm1|]; [|discriminate].
    by apply IH.
Qed.

Lemma loop_Done_inv fuel vm vm' :
  halted vm = false → loop fuel vm = Some (Done vm') →
  ∃ n vm1, steps n vm = Done vm1 ∧ halted vm1 = false
           ∧ handleInstr vm1 = Done vm' ∧ halted vm' = true.
Proof.
  revert vm. induction fuel as [|fuel IH]; intros vm Hh; cbn [loop]; rewrite Hh.
  - discriminate.
  - destruct (handleInstr vm) as [vm1|] eqn:E.
    + destruct (halted vm1) eqn:Hh1.
      * destruct fuel; cbn [loop]; rewrite Hh1; intros [= <-];
          exists 0, vm; cbn [steps]; done.
      * intros H. destruct (IH vm1 Hh1 H) as (n & vm2 & S2 & H2 & H3 & H4).
        exists (S n), vm2. cbn [steps]. by rewrite E.
    + destruct fuel; cbn; discriminate.
Qed.

End Control.

(** ** The outermost frame of a compiled program *)

Section OutermostFrame.
Import VM.

Lemma bottomFrame_nil vm : callers vm = [] → bottomFrame vm = currentFrame vm.
Proof. unfold bottomFrame. by intros ->. Qed.

Lemma bottomFrame_cons vm f r :
  callers vm = f :: r → bottomFrame vm = default f (last r).
Proof. unfold bottomFrame. intros ->. rewrite last_cons. by destruct (last r). Qed.

Lemma frame_kept vm vm' :
  handleInstr vm = Done vm' → callers vm ≠ [] →
  bottomFrame vm' = bottomFrame vm ∧ halted vm' = halted vm.
Proof.
  intros H Hc. apply handleInstr_control in H as [_ H].
  destruct (callers vm) as [|f r] eqn:Ec; [done|].
  rewrite (bottomFrame_cons vm f r Ec).
  destruct (byteAt vm 0 ≫= decode) as [op|].
  - destruct op;
      try (destruct H as (_ & Cs & _ & ->); rewrite Ec in Cs;
           by rewrite (bottomFrame_cons vm' f r Cs)).
    + destruct H as (_ & Cs & ->).
      rewrite (bottomFrame_cons vm' _ _ Cs). split; [|done].
      rewrite last_cons. by destruct (last r).
    + destruct H as (_ & F & Cs & ->). split; [|done]. unfold bottomFrame.
      rewrite Cs, F. by destruct (last r).
  - destruct H as (_ & Cs & _ & ->). rewrite Ec in Cs.
    by rewrite (bottomFrame_cons vm' f r Cs).
Qed.

(** One instruction of the outermost frame, the machine not halting. *)
Lemma bottom_step vm vm' c1 c2 :
  callers vm = [] →
  code (currentFrame vm) = c1 ++ c2 ++ [byte Opcode.return_] →
  ip (currentFrame vm) = length c1 →
  Instrs c2 →
  handleInstr vm = Done vm' → halted vm' = false →
  ∃ instr c2',
    c2 = instr ++ c2' ∧ Instrs c2'
    ∧ code (bottomFrame vm') = code (currentFrame vm)
    ∧ ip (bottomFrame vm') = length c1 + length instr
    ∧ ((∃ op, instr = [byte op] ∧ opcodeArgs op = 0 ∧ op ≠ Opcode.return_
              ∧ callers vm' = [])
       ∨ (∃ op x, instr = [byte op; x] ∧ opcodeArgs op = 1)).
Proof.
  intros Hc Hcode Hip Hi H Hh.
  pose proof (handleInstr_control vm vm' H) as [_ C].
  destruct Hi as [|op rest H0 Hr Hrest|op operand rest H1 Hrest].
  - exfalso. assert (Hb : byteAt vm 0 = Some (byte Opcode.return_)).
    { apply (byteAt_middle vm c1 _ []); [|done]. by rewrite Hcode. }
    rewrite Hb in C. cbn in C. rewrite Hc in C. destruct C as (_ & _ & _ & E). congruence.
  - assert (Hb : byteAt vm 0 = Some (byte op)).
    { apply (byteAt_middle vm c1 _ (rest ++ [byte Opcode.return_])); [|done].
      by rewrite Hcode. }
    rewrite Hb in C. cbn [mbind option_bind] in C. rewrite decode_byte in C.
    exists [byte op], rest. split; [done|]. split; [done|].
    assert (S : sameControl vm vm' 1) by (destruct op; try done; discriminate).
    destruct S as (F & Cs & _). rewrite Hc in Cs.
    rewrite (bottomFrame_nil vm' Cs), F. cbn. rewrite Hip.
    repeat split; [lia|]. left. eauto.
  - assert (Hb : byteAt vm 0 = Some (byte op)).
    { apply (byteAt_middle vm c1 _ (operand :: rest ++ [byte Opcode.return_])); [|done].
      by rewrite Hcode. }
    rewrite Hb in C. cbn [mbind option_bind] in C. rewrite decode_byte in C.
    exists [byte op; operand], rest. split; [done|]. split; [done|].
    assert (G : code (bottomFrame vm') = code (currentFrame vm)
              ∧ ip (bottomFrame vm') = length c1 + 2).
    { destruct op; try discriminate.
      - destruct C as (F & Cs & _). rewrite Hc in Cs.
        rewrite (bottomFrame_nil vm' Cs), F. cbn. rewrite Hip. split; [done|lia].
      - destruct C as (F & Cs & _). rewrite Hc in Cs.
        rewrite (bottomFrame_nil vm' Cs), F. cbn. rewrite Hip. split; [done|lia].
      - destruct C as (F & Cs & _). rewrite Hc in Cs.
        rewrite (bottomFrame_nil vm' Cs), F. cbn. rewrite Hip. split; [done|lia].
      - destruct C as (_ & Cs & _). unfold bottomFrame. rewrite Cs, Hc. cbn.
        rewrite Hip. split; [done|lia]. }
    destruct G as [G1 G2]. repeat split; [done|done|]. right. eauto.
Qed.

Lemma onTrack_step c vm vm' :
  onTrack c vm → handleInstr vm = Done vm' → halted vm' = false → onTrack c vm'.
Proof.
  intros [Hcode (c1 & c2 & -> & I1 & I2 & Hip)] H Hh.
  destruct (callers vm) as [|f r] eqn:Ec.
  - rewrite (bottomFrame_nil vm Ec) in Hcode, Hip. rewrite <- app_assoc in Hcode.
    destruct (bottom_step vm vm' c1 c2 Ec Hcode Hip I2 H Hh)
      as (instr & c2' & -> & I2' & Hc' & Hip' & Hinstr).
    split; [by rewrite Hc', Hcode, <- !app_assoc|].
    exists (c1 ++ instr), c2'. split; [by rewrite <- app_assoc|].
    split; [|split; [done|by rewrite length_app]].
    apply Instrs_app; [done|].
    destruct Hinstr as [(op & -> & H0 & Hr & _)|(op & x & -> & H1)];
      [by apply Instrs_one|by apply Instrs_two].
  - destruct (frame_kept vm vm' H) as [Hb _]; [by rewrite Ec|].
    split; rewrite Hb; [done|]. by exists c1, c2.
Qed.

Lemma onTrack_steps c n vm vm' :
  onTrack c vm → steps n vm = Done vm' → halted vm' = false → onTrack c vm'.
Proof.
  revert vm. induction n as [|n IH]; intros vm Ht; cbn [steps].
  - by intros [= <-].
  - destruct (handleInstr vm) as [vm1|] eqn:E; [|discriminate]. intros H Hh.
    apply (IH vm1); [|done|done]. apply (onTrack_step c vm); [done|done|].
    destruct (halted vm1) eqn:E1; [|done]. by rewrite (steps_halted_stays _ _ _ H E1) in Hh.
Qed.

Lemma Instrs_app_inv c1 c2 : Instrs c1 → Instrs (c1 ++ c2) → Instrs c2.
Proof.
  induction 1 as [|op rest H0 Hr _ IH|op operand rest H1 _ IH]; cbn [app]; [done|..];
    intros H; apply IH; inversion H as [|op' rest' H0' Hr' Hrest' E|op' x' rest' H1' Hrest' E].
  - by destruct (byte_inj _ _ E).
  - apply byte_inj in E as ->. congruence.
  - apply byte_inj in E as ->. congruence.
  - by destruct (byte_inj _ _ E).
Qed.

Lemma handleInstr_nil vm :
  byteAt vm 0 = Some (byte Opcode.nil) → handleInstr vm = Done (push VNil (advance 1 vm)).
Proof. intros Hb. unfold handleInstr. by rewrite readByte_byteAt, Hb. Qed.

Lemma nilOnTop_step c0 vm vm' :
  Instrs c0 → onTrack (c0 ++ [byte Opcode.nil]) vm → nilOnTop c0 vm →
  handleInstr vm = Done vm' → halted vm' = false → nilOnTop c0 vm'.
Proof.
  intros I0 [Hcode (c1 & c2 & Hsplit & I1 & I2 & Hip)] Hn H Hh Hend.
  destruct (callers vm) as [|f r] eqn:Ec.
  - rewrite (bottomFrame_nil vm Ec) in Hcode, Hip.
    rewrite Hsplit, <- app_assoc in Hcode.
    destruct (bottom_step vm vm' c1 c2 Ec Hcode Hip I2 H Hh)
      as (instr & c2' & -> & I2' & Hc' & Hip' & Hinstr).
    rewrite Hend in Hip'.
    assert (Hlen : length (c0 ++ [byte Opcode.nil]) = length (c1 ++ instr ++ c2'))
      by (by rewrite Hsplit).
    rewrite !length_app in Hlen. cbn [length] in Hlen.
    assert (c2' = []) as -> by (apply length_zero_iff_nil; lia).
    rewrite app_nil_r in Hsplit.
    destruct Hinstr as [(op & -> & H0 & Hr & Hcs)|(op & x & -> & H1)].
    + apply app_inj_tail in Hsplit as [-> Hop].
      assert (Hb : byteAt vm 0 = Some (byte Opcode.nil)).
      { apply (byteAt_middle vm c1 _ [byte Opcode.return_]); [|done].
        rewrite Hcode, <- Hop. by rewrite app_nil_r. }
      rewrite (handleInstr_nil vm Hb) in H. injection H as <-.
      split; [done|]. cbn. by rewrite last_snoc.
    + exfalso. change [byte op; x] with ([byte op] ++ [x]) in Hsplit.
      rewrite app_assoc in Hsplit. apply app_inj_tail in Hsplit as [-> _].
      pose proof (Instrs_app_inv _ _ I1 I0) as Bad.
      inversion Bad as [|op' rest' H0' Hr' Hrest' E|op' x' rest' H1' Hrest' E].
      apply byte_inj in E as ->. congruence.
  - destruct (frame_kept vm vm' H) as [Hb _]; [by rewrite Ec|].
    rewrite Hb in Hend. destruct (Hn Hend) as [Bad _]. by rewrite Ec in Bad.
Qed.

Lemma nilOnTop_steps c0 n vm vm' :
  Instrs c0 → onTrack (c0 ++ [byte Opcode.nil]) vm → nilOnTop c0 vm →
  steps n vm = Done vm' → halted vm' = false → nilOnTop c0 vm'.
Proof.
  intros I0. revert vm. induction n as [|n IH]; intros vm Ht Hn; cbn [steps].
  - by intros [= <-].
  - destruct (handleInstr vm) as [vm1|] eqn:E; [|discriminate]. intros H Hh.
    assert (Hh1 : halted vm1 = false).
    { destruct (halted vm1) eqn:E1; [|done].
      by rewrite (steps_halted_stays _ _ _ H E1) in Hh. }
    apply (IH vm1); [| |done|done].
    + by apply (onTrack_step _ vm).
    + by apply (nilOnTop_step c0 vm).
Qed.

End OutermostFrame.

(** ** The code of a compiled program *)

Section ProgramCode.
Import Compiler.

Lemma afterNode_Instrs node isLast st :
  ∃ c, emits st (afterNode node isLast st) c ∧ Instrs c
       ∧ (isExpr node = false → isLast = true → c = [byte Opcode.nil]).
Proof.
  eexists. split; [apply afterNode_emits|].
  destruct (isExpr node), isLast; cbn [andb negb app]; split; try done.
  - constructor.
  - by apply (Instrs_one Opcode.pop).
  - by apply (Instrs_one Opcode.nil).
  - constructor.
Qed.

Lemma compileBlock_Instrs nodes :
  ∀ st st', compileBlock nodes st = Ok st' → ∃ c, emits st st' c ∧ Instrs c.
Proof.
  induction nodes as [|node rest IH]; intros st st'; cbn [compileBlock].
  - intros [= <-]. exists []. split; [apply emits_nil|constructor].
  - intros H. apply bind_Ok in H as (s1 & Hv & Hb).
    destruct (visit_Instrs node _ _ Hv) as (c1 & Hc1 & Hi1).
    destruct (afterNode_Instrs node (bool_decide (rest = [])) s1) as (c2 & Hc2 & Hi2 & _).
    destruct (IH _ _ Hb) as (c3 & Hc3 & Hi3).
    exists ((c1 ++ c2) ++ c3). split.
    + eapply emits_trans; [eapply emits_trans; eassumption|exact Hc3].
    + apply Instrs_app; [by apply Instrs_app|done].
Qed.

(** A block that ends with a declaration or a [print] ends with [nil]. *)
Lemma compileBlock_ends_with_nil nodes :
  ∀ st st' node, compileBlock nodes st = Ok st' →
  last nodes = Some node → isExpr node = false →
  ∃ c0, emits st st' (c0 ++ [byte Opcode.nil]) ∧ Instrs c0.
Proof.
  induction nodes as [|n rest IH]; intros st st' node; cbn [compileBlock]; [done|].
  intros H Hlast Hexpr. apply bind_Ok in H as (s1 & Hv & Hb).
  destruct (visit_Instrs n _ _ Hv) as (c1 & Hc1 & Hi1).
  destruct (afterNode_Instrs n (bool_decide (rest = [])) s1) as (c2 & Hc2 & Hi2 & Hnil).
  destruct rest as [|n' rest'].
  - cbn in Hlast. injection Hlast as ->. cbn [compileBlock] in Hb. injection Hb as <-.
    rewrite (Hnil Hexpr) in Hc2 by (by rewrite bool_decide_eq_true_2).
    exists c1. split; [by eapply emits_trans|done].
  - rewrite last_cons_cons in Hlast.
    destruct (IH _ _ node Hb Hlast Hexpr) as (c3 & Hc3 & Hi3).
    exists ((c1 ++ c2) ++ c3). split.
    + unfold emits in *. rewrite Hc3, Hc2, Hc1. by rewrite <- !app_assoc.
    + apply Instrs_app; [by apply Instrs_app|done].
Qed.

Lemma compile_code nodes m :
  compile nodes = Ok m →
  ∃ st c, compileBlock nodes init = Ok st
    ∧ m = mkModule (map val (constants st)) (c ++ [byte Opcode.return_])
    ∧ code st = c ∧ Instrs c.
Proof.
  unfold compile. intros H. apply bind_Ok in H as (st & Hb & H). injection H as <-.
  destruct (compileBlock_Instrs nodes _ _ Hb) as (c & Hc & Hi).
  unfold emits in Hc. cbn in Hc. exists st, c. by rewrite Hc.
Qed.

End ProgramCode.

(** ** The result of a run *)

Section RunResult.
Import VM.

Lemma onTrack_new c consts :
  Instrs c → onTrack c (new (mkModule consts (c ++ [byte Opcode.return_]))).
Proof.
  intros Hi. split; [done|]. exists [], c. repeat split; [constructor|done].
Qed.

Lemma nilOnTop_new c0 m : nilOnTop c0 (new m).
Proof. intros H. cbn in H. discriminate. Qed.

(** The state in which the VM halts: the outermost frame executes the last
    byte of the code of the module, its [return]. *)
Lemma run_Ok_inv c consts fuel v :
  Instrs c →
  run fuel (new (mkModule consts (c ++ [byte Opcode.return_]))) = Some (Ok v) →
  ∃ n vm1,
    steps n (new (mkModule consts (c ++ [byte Opcode.return_]))) = Done vm1
    ∧ halted vm1 = false ∧ callers vm1 = []
    ∧ code (currentFrame vm1) = c ++ [byte Opcode.return_]
    ∧ ip (currentFrame vm1) = length c
    ∧ v = result vm1.
Proof.
  intros Hi. unfold run.
  destruct (loop fuel _) as [[vm'|e vm']|] eqn:El; try discriminate. intros [= <-].
  apply loop_Done_inv in El as (n & vm1 & Hs & Hh1 & Hstep & Hh'); [|done].
  destruct (proj1 (halts_at_outermost_return vm1 vm' Hstep Hh1) Hh') as [Hc Hb].
  pose proof (onTrack_steps c n _ vm1 (onTrack_new c consts Hi) Hs Hh1)
    as [Hcode (c1 & c2 & -> & I1 & I2 & Hip)].
  rewrite (bottomFrame_nil vm1 Hc) in Hcode, Hip.
  assert (c2 = []) as ->.
  { destruct I2 as [|op rest H0 Hr _|op operand rest H1 _]; [done|exfalso..].
    - assert (Hb' : byteAt vm1 0 = Some (byte op)).
      { apply (byteAt_middle vm1 c1 _ (rest ++ [byte Opcode.return_])); [|done].
        by rewrite Hcode, <- app_assoc. }
      assert (E : byte Opcode.return_ = byte op) by congruence.
      apply byte_inj in E. by subst.
    - assert (Hb' : byteAt vm1 0 = Some (byte op)).
      { apply (byteAt_middle vm1 c1 _ (operand :: rest ++ [byte Opcode.return_])); [|done].
        by rewrite Hcode, <- app_assoc. }
      assert (E : byte Opcode.return_ = byte op) by congruence.
      apply byte_inj in E. by subst. }
  rewrite app_nil_r in *. exists n, vm1. repeat split; try done.
  apply handleInstr_control in Hstep as [_ C]. rewrite Hb in C. cbn in C.
  destruct C as [Hst _]. unfold result. by rewrite Hst.
Qed.

End RunResult.

(** ** A program that never halts *)

Section Divergence.
Import VM.

Lemma spinning_byteAt vm i :
  code (currentFrame vm) = spinCode → byteAt vm i = spinCode !! (ip (currentFrame vm) + i).
Proof. unfold byteAt. by intros ->. Qed.

Lemma lookup_above {A} (l suffix : list A) i :
  (l ++ suffix) !! Z.to_nat (Z.of_nat i + Z.of_nat (length l)) = suffix !! i.
Proof.
  replace (Z.to_nat (Z.of_nat i + Z.of_nat (length l))) with (length l + i) by lia.
  by rewrite lookup_app_r, Nat.add_comm, Nat.add_sub by lia.
Qed.

Lemma spinning_step vm : spinning vm → ∃ vm', handleInstr vm = Done vm' ∧ spinning vm'.
Proof.
  intros (Hh & Hcode & l & Hoff & [[Hip Hst]|[[Hip Hst]|[[Hip Hst]|[Hip Hst]]]]).
  - eexists. split.
    + apply handleInstr_nil. by rewrite spinning_byteAt, Hip.
    + split; [done|]. split; [done|]. exists l. split; [done|]. right. left.
      cbn. rewrite Hip, Hst, <- app_assoc. done.
  - eexists. split.
    + rewrite (handleInstr_load vm 1 (Z.of_nat (length l)));
        [|by rewrite spinning_byteAt, Hip..|done|lia].
      rewrite Hst. rewrite (lookup_above l _ 1). cbn [lookup list_lookup]. reflexivity.
    + split; [done|]. split; [done|]. exists l. split; [done|]. right. right. left.
      cbn. rewrite Hip, <- app_assoc. done.
  - eexists. split.
    + rewrite (handleInstr_load vm 1 (Z.of_nat (length l)));
        [|by rewrite spinning_byteAt, Hip..|done|lia].
      rewrite Hst. rewrite (lookup_above l _ 1). cbn [lookup list_lookup]. reflexivity.
    + split; [done|]. split; [done|]. exists l. split; [done|]. right. right. right.
      cbn. rewrite Hip, <- app_assoc. done.
  - eexists. split.
    + rewrite (handleInstr_invoke_eq vm 1 (l ++ [VNil; spinFn; VNil; spinFn]) spinFn);
        [|by rewrite spinning_byteAt, Hip..|by rewrite Hst, <- app_assoc].
      reflexivity.
    + split; [done|]. split; [done|]. exists (l ++ [VNil; spinFn]). split.
      * cbn. f_equal. rewrite !length_app. cbn. lia.
      * left. cbn. by rewrite <- app_assoc.
Qed.

Lemma spinning_forever fuel vm : spinning vm → loop fuel vm = None.
Proof.
  revert vm. induction fuel as [|fuel IH]; intros vm Hs;
    pose proof Hs as (Hh & _); cbn [loop]; rewrite Hh; [done|].
  destruct (spinning_step vm Hs) as (vm' & -> & Hs'). by apply IH.
Qed.

(** C5 as worded fails: the program [def f(g) { g(g) }  f(f)] compiles,
    and no number of instructions brings the VM to a halt: [run] does not
    return. *)
Lemma run_does_not_return :
  ∃ m,
    Compiler.compile
      [FuncDecl "f" ["g"] [Invoke (Ident "g") [Ident "g"]];
       Invoke (Ident "f") [Ident "f"]] = Ok m
    ∧ ∀ fuel, run fuel (new m) = None.
Proof.
  eexists. split; [vm_compute; reflexivity|]. intros fuel. unfold run.
  assert (H : ∀ fuel, loop fuel (new (mkModule [spinFn]
    [3; 0; 12; 7; 0; 7; 0; 10; 1; 13]%Z)) = None).
  { clear fuel. intros fuel.
    do 5 (destruct fuel as [|fuel]; [vm_compute; reflexivity|]).
    change (S (S (S (S (S fuel))))) with (5 + fuel).
    erewrite loop_steps; [|vm_compute; reflexivity|reflexivity].
    apply spinning_forever. split; [done|]. split; [done|]. exists [spinFn].
    split; [done|]. by left. }
  by rewrite H.
Qed.

(** A run can also end with a failure: the program [-'a']. *)
Example run_type_mismatch :
  ∃ m, Compiler.compile [Unary TokenType.minus (StringLit "a")] = Ok m
       ∧ ∀ fuel, run (2 + fuel) (new m) = Some (Throw (NegTypeMismatch TString)).
Proof. eexists. split; [vm_compute; reflexivity|]. intros fuel. reflexivity. Qed.

End Divergence.

Lemma moduleCode_mk consts c : moduleCode (mkModule consts c) = c.
Proof. reflexivity. Qed.

Section RunTheorem.
Import VM.

Lemma loop_halted fuel vm : halted vm = true → loop fuel vm = Some (Done vm).
Proof. intros H. destruct fuel; cbn [loop]; by rewrite H. Qed.

Lemma handleInstr_return_outermost vm :
  byteAt vm 0 = Some (byte Opcode.return_) → callers vm = [] →
  handleInstr vm
  = Done (mk (module vm) (currentFrame (advance 1 vm)) [] (stack vm) true (output vm)).
Proof.
  intros Hb Hc. unfold handleInstr. rewrite readByte_byteAt, Hb. cbn [decode byte].
  cbn [callers advance withFrame]. by rewrite Hc.
Qed.

Lemma result_last vm :
  result vm = match last (elems (stack vm)) with Some x => x | None => VNil end.
Proof. unfold result, arrPop. by destruct (last (elems (stack vm))). Qed.

(** A program without invocation: its instructions run one after the
    other, and the [return] that follows them halts the VM. *)
Lemma run_straight_line nodes m :
  Compiler.compile nodes = Ok m → forallb simpleStmt nodes = true →
  (∃ e vf, steps (instrCount (moduleCode m) 0) (new m) = Fail e vf)
  ∨ (∃ v, ∀ k, run (instrCount (moduleCode m) 0 + k) (new m) = Some (Ok v)).
Proof.
  intros Hc Hs. apply compile_code in Hc as (st & c & Hb & -> & Hcode & Hi).
  destruct (compileBlock_Exec nodes Hs _ _ Hb) as (c' & Hem & _ & He).
  unfold emits in Hem. cbn in Hem. rewrite Hcode in Hem. subst c'.
  rewrite moduleCode_mk.
  rewrite instrCount_app by done.
  change (instrCount [byte Opcode.return_] 0) with 1.
  set (vm0 := new _).
  destruct (steps (instrCount c 0) vm0) as [vm1|e vf] eqn:S1.
  - right. destruct (He vm0 vm1 [] [byte Opcode.return_]) as [(F & Cs & _ & Hh) _];
      [done|done|done|].
    assert (Hb1 : byteAt vm1 0 = Some (byte Opcode.return_)).
    { unfold byteAt. rewrite F. cbn. by rewrite !Nat.add_0_r, list_lookup_middle. }
    pose proof (handleInstr_return_outermost vm1 Hb1 Cs) as Hr.
    eexists. intros k. unfold run.
    rewrite <- Nat.add_assoc, (loop_steps _ vm0 vm1 (1 + k) S1 Hh).
    cbn [Nat.add loop]. rewrite Hh, Hr. by rewrite loop_halted.
  - left. exists e, vf. by rewrite steps_add, S1.
Qed.

End RunTheorem.

Section RunCompiled.
Import VM.

(** The two end-to-end scenarios: [const x = 2  print x + 3] and
    [def add(a, b) { a + b }  print add(2, 3)] print 5 and yield nil. *)
Example run_end_to_end :
  (∃ m vm',
     Compiler.compile
       [ValDecl "x" (IntLit 2); Print (Binary TokenType.plus (Ident "x") (IntLit 3))]
     = Ok m
     ∧ loop 10 (new m) = Some (Done vm') ∧ output vm' = ["5"] ∧ result vm' = VNil)
  ∧ (∃ m vm',
       Compiler.compile
         [FuncDecl "add" ["a"; "b"] [Binary TokenType.plus (Ident "a") (Ident "b")];
          Print (Invoke (Ident "add") [IntLit 2; IntLit 3])]
       = Ok m
       ∧ loop 20 (new m) = Some (Done vm') ∧ output vm' = ["5"] ∧ result vm' = VNil).
Proof.
  split; eexists _, _; (split; [vm_compute; reflexivity|]);
    (split; [vm_compute; reflexivity|]); split; vm_compute; reflexivity.
Qed.

(** A run that ends with an empty stack yields nil: in
    [def f(a, b) { 1 }  f()] the call is given no argument, and the
    function removes the two values it takes for its parameters. *)
Example run_empty_stack_is_nil :
  ∃ m vm',
    Compiler.compile [FuncDecl "f" ["a"; "b"] [IntLit 1]; Invoke (Ident "f") []] = Ok m
    ∧ loop 20 (new m) = Some (Done vm')
    ∧ elems (stack vm') = []
    ∧ run 20 (new m) = Some (Ok VNil).
Proof.
  eexists _, _. split; [vm_compute; reflexivity|].
  split; [vm_compute; reflexivity|]. split; vm_compute; reflexivity.
Qed.

End RunCompiled.

(** ** Functions that refer to themselves, and the frame of a call *)

Section Recursion.
Import VM.

Lemma load_reads_above vm vm' slot off :
  byteAt vm 0 = Some (byte Opcode.load) → byteAt vm 1 = Some slot →
  stackOffset (currentFrame vm) = KInt off → (0 ≤ off)%Z → (0 ≤ slot)%Z →
  handleInstr vm = Done vm' →
  ∃ v, elems (stack vm) !! Z.to_nat (off + slot) = Some v
       ∧ elems (stack vm') = elems (stack vm) ++ [v].
Proof.
  intros Hop Hs Ho Hoff Hslot.
  rewrite (handleInstr_load vm slot off Hop Hs Ho) by lia.
  rewrite (Z.add_comm slot off).
  destruct (elems (stack vm) !! Z.to_nat (off + slot)) as [v|]; [|discriminate].
  intros [= <-]. by exists v.
Qed.

Lemma store_keeps_below vm vm' slot off :
  byteAt vm 0 = Some (byte Opcode.store) → byteAt vm 1 = Some slot →
  stackOffset (currentFrame vm) = KInt off → (0 ≤ off)%Z → (0 ≤ slot)%Z →
  handleInstr vm = Done vm' →
  ∀ i, (Z.of_nat i < off)%Z → elems (stack vm') !! i = elems (stack vm) !! i.
Proof.
  intros Hop Hs Ho Hoff Hslot H i Hi.
  destruct (decide (Z.of_nat (length (elems (stack vm))) ≤ slot + off)%Z) as [Hge|Hlt].
  - by rewrite (handleInstr_store_beyond vm slot off Hop Hs Ho Hge) in H.
  - destruct (snoc_cases (elems (stack vm))) as [E|(l & v & E)].
    + rewrite E in Hlt. cbn in Hlt. lia.
    + rewrite E, length_app in Hlt. cbn [length] in Hlt.
      rewrite (handleInstr_store_within vm slot off l v Hop Hs Ho E) in H by lia.
      injection H as <-. cbn [stack setElems withStack elems]. rewrite E.
      case_bool_decide as Hn; [|done].
      rewrite list_lookup_insert_ne by lia. by rewrite lookup_app_l by lia.
Qed.

(** C3, as amended: the declaration of a function whose body refers to the
    name of the function (invokes it, for one) before declaring a local of
    that name, the name not being a parameter, does not compile: the name is
    bound at the enclosing depth, after the body is compiled, and a
    reference is looked up among the locals of the current depth only.  In
    a frame whose stack-offset is [off], [load] reads the stack at
    [off + slot] and [store] leaves the elements of the stack below [off] as
    they are. *)
Theorem self_reference_does_not_compile :
  (∀ st name params body,
     localsOk st → name ∉ "#ret" :: params → refersFirstIn name body = true →
     ∃ e, Compiler.visit (FuncDecl name params body) st = Throw e)
  ∧ (∀ vm vm' slot off,
       stackOffset (currentFrame vm) = KInt off → (0 ≤ off)%Z → (0 ≤ slot)%Z →
       byteAt vm 1 = Some slot → handleInstr vm = Done vm' →
       (byteAt vm 0 = Some (byte Opcode.load) →
        ∃ v, elems (stack vm) !! Z.to_nat (off + slot) = Some v
             ∧ elems (stack vm') = elems (stack vm) ++ [v])
       ∧ (byteAt vm 0 = Some (byte Opcode.store) →
          ∀ i, (Z.of_nat i < off)%Z → elems (stack vm') !! i = elems (stack vm) !! i)).
Proof.
  split.
  - intros st name params body. apply self_reference_fails.
  - intros vm vm' slot off Ho Hoff Hslot Hs H. split; intros Hop.
    + by apply (load_reads_above vm vm' slot off).
    + by apply (store_keeps_below vm vm' slot off).
Qed.

Lemma self_reference_does_not_compile_witness :
  ∃ e, Compiler.visit
         (FuncDecl "f" ["n"]
            [Print (Ident "n");
             Invoke (Ident "f") [Binary TokenType.minus (Ident "n") (IntLit 1)]])
         Compiler.init = Throw e.
Proof.
  apply (proj1 self_reference_does_not_compile).
  - constructor.
  - intros H. apply list_elem_of_In in H. cbn in H.
    destruct H as [H|[H|[]]]; discriminate.
  - reflexivity.
Defined.

(** C3 as worded fails: [def f(n) { f(n - 1) }  f(3)] does not compile,
    the reference to [f] in the body of [f] is unknown. *)
Lemma recursive_function_is_rejected :
  Compiler.compile
    [FuncDecl "f" ["n"]
       [Invoke (Ident "f") [Binary TokenType.minus (Ident "n") (IntLit 1)]];
     Invoke (Ident "f") [IntLit 3]]
  = Throw (UnknownIdentifier "f").
Proof. reflexivity. Qed.

End Recursion.

(** ** The pool never shares an entry *)

Section PoolGrowth.
Import Compiler.

Lemma poolAllocated_init : poolAllocated init.
Proof. constructor. Qed.

Lemma localsOk_init : localsOk init.
Proof. constructor. Qed.

Lemma poolGrows_refl st : poolAllocated st → poolGrows st st 0.
Proof. intros H. split; [done|lia]. Qed.

Lemma poolGrows_trans st1 st2 st3 n m :
  poolGrows st1 st2 n → poolGrows st2 st3 m → poolGrows st1 st3 (n + m).
Proof. intros [_ H1] [H2 H3]. split; [done|lia]. Qed.

Lemma poolGrows_same st st' :
  poolAllocated st → constants st' = constants st → nextAddr st' = nextAddr st →
  poolGrows st st' 0.
Proof. intros H Hc Hn. split; [unfold poolAllocated; by rewrite Hc, Hn|rewrite Hc; lia]. Qed.

Lemma poolGrows_addConstant v st :
  poolAllocated st →
  poolGrows st (addConstant (alloc v st).1 (alloc v st).2).2 1
  ∧ locals (addConstant (alloc v st).1 (alloc v st).2).2 = locals st
  ∧ depth (addConstant (alloc v st).1 (alloc v st).2).2 = depth st
  ∧ code (addConstant (alloc v st).1 (alloc v st).2).2 = code st.
Proof.
  intros H. rewrite (addConstant_fresh v st H). cbn. split; [|done]. split.
  - unfold poolAllocated. cbn. apply Forall_app. split.
    + eapply Forall_impl; [exact H|]. cbn. lia.
    + constructor; [cbn; lia|constructor].
  - cbn [constants]. rewrite length_app. cbn. lia.
Qed.

Lemma poolGrows_after node isLast st st' st'' n m :
  poolGrows st st' n →
  (poolAllocated (afterNode node isLast st') → poolGrows (afterNode node isLast st') st'' m) →
  poolGrows st st'' (n + m).
Proof.
  intros [A1 L1] G.
  assert (E : constants (afterNode node isLast st') = constants st'
            ∧ nextAddr (afterNode node isLast st') = nextAddr st').
  { unfold afterNode. by destruct (isExpr node), isLast. }
  destruct E as [Ec En]. destruct G as [A2 L2].
  { unfold poolAllocated. by rewrite Ec, En. }
  split; [done|]. rewrite L2, Ec, L1. lia.
Qed.

Lemma poolAllocated_enterFunc params st : poolAllocated st → poolAllocated (enterFunc params st).
Proof.
  unfold poolAllocated. destruct (enterFunc_scope params st) as (_ & _ & _ & -> & ->). done.
Qed.

Lemma poolGrows_finishFunc name origCode origDepth st :
  poolAllocated st → poolGrows st (finishFunc name origCode origDepth st) 1.
Proof.
  intros H. unfold finishFunc.
  remember (emit [byte Opcode.store; 0%Z] st) as s1 eqn:E1.
  remember (length (localsAtDepth s1) - 1) as n eqn:En.
  destruct (popLocals_spec n s1 (take (length (locals s1) - n) (locals s1))
              (drop (length (locals s1) - n) (locals s1))) as (_ & _ & _ & P4 & P5).
  { by rewrite take_drop. }
  { rewrite length_drop. subst n. unfold localsAtDepth.
    pose proof (length_filter (λ l, Local.depth l = depth s1) (locals s1)). lia. }
  remember (popLocals n s1) as s2 eqn:E2.
  assert (C2 : constants s2 = constants st) by (by rewrite P4, E1).
  assert (N2 : nextAddr s2 = nextAddr st) by (by rewrite P5, E1).
  clear E1 E2 En P4 P5.
  remember (pushLocal name (withDepth origDepth (withCode origCode
              (emit [byte Opcode.return_] (withLocals (removelast (locals s2)) s2)))))
    as s3 eqn:E3.
  assert (C3 : constants s3 = constants st) by (by rewrite E3).
  assert (N3 : nextAddr s3 = nextAddr st) by (by rewrite E3).
  assert (H3 : poolAllocated s3) by (unfold poolAllocated; by rewrite C3, N3).
  destruct (poolGrows_addConstant
              (VFunction name (code (emit [byte Opcode.return_]
                 (withLocals (removelast (locals s2)) s2)))) s3 H3) as ([G1 G2] & _).
  revert G1 G2.
  destruct (alloc _ s3) as [o s4]. cbn [fst snd].
  destruct (addConstant o s4) as [i s5]. cbn [snd]. intros G1 G2.
  split; [exact G1|]. cbn. by rewrite G2, C3.
Qed.

(** Every call of [addConstant] made while a node is compiled adds an
    entry to the pool: the length of the pool grows by the number of
    literals and function declarations compiled, equal or not. *)
Lemma visit_poolGrows node :
  ∀ st st', poolAllocated st → visit node st = Ok st' → poolGrows st st' (poolRequests node).
Proof.
  induction node as
    [value|value|name|op expr IH|op l r IHl IHr|target args IHt IHa
    |name value IH|name params body IH|expr IH] using AstNode_ind;
    intros st st' Hp; cbn [poolRequests].
  - cbn [visit]. unfold visitIntLit. case_bool_decide.
    + intros [= <-]. by apply poolGrows_same.
    + destruct (poolGrows_addConstant (VNumber value) st Hp) as (G & _).
      destruct (alloc _ st) as [o s]. cbn [fst snd] in G.
      destruct (addConstant o s) as [i s']. intros [= <-]. exact G.
  - cbn [visit]. unfold visitStringLit.
    destruct (poolGrows_addConstant (VString value) st Hp) as (G & _).
    destruct (alloc _ st) as [o s]. cbn [fst snd] in G.
    destruct (addConstant o s) as [i s']. intros [= <-]. exact G.
  - cbn [visit]. unfold visitIdent. destruct (scanLocals _ _ _); [|discriminate].
    intros [= <-]. by apply poolGrows_same.
  - rewrite visit_Unary. unfold visitUnary. intros H.
    apply bind_Ok in H as (s1 & Hv & Hb). destruct op; try discriminate.
    injection Hb as <-. exact (IH _ _ Hp Hv).
  - rewrite visit_Binary. unfold visitBinary. intros H.
    apply bind_Ok in H as (s1 & Hv1 & H). apply bind_Ok in H as (s2 & Hv2 & Hb).
    pose proof (IHl _ _ Hp Hv1) as G1. pose proof (IHr _ _ (proj1 G1) Hv2) as G2.
    pose proof (poolGrows_trans _ _ _ _ _ G1 G2) as G.
    destruct op; try discriminate; injection Hb as <-; exact G.
  - rewrite visit_Invoke. unfold visitInvoke. intros H.
    apply bind_Ok in H as (s1 & Hv1 & H). apply bind_Ok in H as (s2 & Hv2 & Hb).
    injection Hb as <-.
    assert (G : ∀ s s', poolAllocated s → visitAll args s = Ok s' →
      poolGrows s s' ((fix sum (nodes : list AstNode) : nat :=
                         match nodes with
                         | [] => 0
                         | n :: rest => poolRequests n + sum rest
                         end) args)).
    { clear Hv1 Hv2. induction IHa as [|a rest Ha _ IHrest]; intros s s' Hs; cbn [visitAll].
      - intros [= <-]. by apply poolGrows_refl.
      - intros H. apply bind_Ok in H as (s0 & Hv & Hb).
        pose proof (Ha _ _ Hs Hv) as G1.
        exact (poolGrows_trans _ _ _ _ _ G1 (IHrest _ _ (proj1 G1) Hb)). }
    pose proof (G (emit [byte Opcode.nil] st) s1 Hp Hv1) as G1.
    pose proof (IHt _ _ (proj1 G1) Hv2) as G2.
    destruct (poolGrows_trans _ _ _ _ _ G1 G2) as [A B]. split; [exact A|exact B].
  - rewrite visit_ValDecl. unfold visitValDecl.
    destruct (alreadyExists name st); [discriminate|]. intros H.
    apply bind_Ok in H as (s1 & Hv & Hb). injection Hb as <-. exact (IH _ _ Hp Hv).
  - rewrite visit_FuncDecl. unfold visitFuncDecl.
    destruct (alreadyExists name st); [discriminate|]. intros H.
    apply bind_Ok in H as (s1 & Hv & Hb). injection Hb as <-.
    assert (G : ∀ s s', poolAllocated s → compileBlock body s = Ok s' →
      poolGrows s s' ((fix sum (nodes : list AstNode) : nat :=
                         match nodes with
                         | [] => 0
                         | n :: rest => poolRequests n + sum rest
                         end) body)).
    { clear Hv. induction IH as [|a rest Ha _ IHrest]; intros s s' Hs; cbn [compileBlock].
      - intros [= <-]. by apply poolGrows_refl.
      - intros H. apply bind_Ok in H as (s0 & Hv & Hb).
        pose proof (Ha _ _ Hs Hv) as G1.
        apply (poolGrows_after a (bool_decide (rest = [])) _ _ _ _ _ G1).
        intros Hs'. exact (IHrest _ _ Hs' Hb). }
    pose proof (G _ _ (poolAllocated_enterFunc params st Hp) Hv) as [G1 G2].
    destruct (poolGrows_finishFunc name (code st) (depth st) s1 G1) as [F1 F2].
    split; [exact F1|]. rewrite F2, G2.
    destruct (enterFunc_scope params st) as (_ & _ & _ & -> & _). lia.
  - rewrite visit_Print. unfold visitPrint. intros H.
    apply bind_Ok in H as (s1 & Hv & Hb). injection Hb as <-. exact (IH _ _ Hp Hv).
Qed.

(** The pool of a compiled program has as many entries as its nodes made
    calls of [addConstant]. *)
Lemma compile_pool_length nodes m :
  compile nodes = Ok m → length (moduleConstants m) = poolRequestsIn nodes.
Proof.
  unfold compile. intros H. apply bind_Ok in H as (st & Hb & H). injection H as <-.
  unfold moduleConstants. cbn. rewrite length_map.
  assert (G : ∀ nodes s s', poolAllocated s → compileBlock nodes s = Ok s' →
    poolGrows s s' (poolRequestsIn nodes)).
  { clear. induction nodes as [|a rest IH]; intros s s' Hs; cbn [compileBlock poolRequestsIn].
    - intros [= <-]. by apply poolGrows_refl.
    - intros H. apply bind_Ok in H as (s0 & Hv & Hb).
      pose proof (visit_poolGrows a _ _ Hs Hv) as G1.
      apply (poolGrows_after a (bool_decide (rest = [])) _ _ _ _ _ G1).
      intros Hs'. exact (IH _ _ Hs' Hb). }
  by destruct (G nodes init st poolAllocated_init Hb) as [_ ->].
Qed.

(** C1, on the code: the program made of the literal [5] twice.  The scan
    of [addConstant] compares references, each literal evaluates a new
    object, and the pool ends with two structurally equal entries, the first
    loaded by [constant 0] and the second by [constant 1].  In general the
    pool of a compiled program has one entry per call of [addConstant]: no
    entry is ever shared. *)
Theorem addConstant_equal_literals_two_slots :
  Compiler.compile [IntLit 5; IntLit 5]
  = Ok (mkModule [VNumber 5; VNumber 5]
          [byte Opcode.constant; 0; byte Opcode.pop;
           byte Opcode.constant; 1; byte Opcode.return_]%Z)
  ∧ ∀ nodes m, Compiler.compile nodes = Ok m →
      length (moduleConstants m) = poolRequestsIn nodes.
Proof. split; [reflexivity|]. apply compile_pool_length. Qed.

Lemma addConstant_equal_literals_two_slots_witness :
  length (moduleConstants (mkModule [VString "a"; VString "a"]
            [byte Opcode.constant; 0; byte Opcode.pop;
             byte Opcode.constant; 1; byte Opcode.return_]%Z)) = 2.
Proof.
  apply (proj2 addConstant_equal_literals_two_slots [StringLit "a"; StringLit "a"]).
  reflexivity.
Defined.

End PoolGrowth.

(** ** The tokenizer *)

Section TokenizerFacts.
Import Tokenizer.

Lemma chars_length s : length (chars s) = String.length s.
Proof. induction s as [|c s IH]; cbn; [reflexivity | by rewrite <- IH]. Qed.

Lemma collect_split pred l :
  ∃ rest, l = collect pred l ++ rest
          ∧ Forall (λ ch, pred ch = true) (collect pred l)
          ∧ ∀ ch, rest !! 0 = Some ch → pred ch = false.
Proof.
  induction l as [|c l (rest & Hl & Hall & Hrest)]; cbn.
  - exists []. split; [reflexivity|]. split; [constructor|]. intros ch [=].
  - destruct (pred c) eqn:Hc.
    + exists rest. split; [cbn; congruence|]. split; [by constructor | exact Hrest].
    + exists (c :: l). split; [reflexivity|]. split; [constructor|].
      intros ch [= <-]. exact Hc.
Qed.

Lemma collect_length pred l : length (collect pred l) ≤ length l.
Proof.
  destruct (collect_split pred l) as (rest & Hl & _).
  rewrite Hl at 2. rewrite length_app. lia.
Qed.

Lemma collect_nonempty pred ch l :
  l !! 0 = Some ch → pred ch = true → 0 < length (collect pred l).
Proof. destruct l as [|c l]; intros [=] Hp; subst. cbn. rewrite Hp. cbn. lia. Qed.

Lemma current_unread tz : current tz = unread tz !! 0.
Proof. unfold current, unread. rewrite lookup_drop. f_equal. lia. Qed.

Lemma unread_length tz : length (unread tz) = remaining tz.
Proof. unfold unread, remaining. by rewrite length_drop. Qed.

Lemma current_None tz : current tz = None ↔ remaining tz = 0.
Proof.
  rewrite current_unread, <- unread_length.
  destruct (unread tz); cbn; split; (done || lia).
Qed.

Lemma unread_skip tz : unread (skip tz) = drop 1 (unread tz).
Proof. unfold unread, skip. cbn [input idx]. rewrite drop_drop. f_equal. lia. Qed.

Lemma remaining_skip tz : remaining (skip tz) = remaining tz - 1.
Proof. unfold remaining, skip. cbn [input idx]. lia. Qed.

(** What [takeWhile] returns and where it stops. *)
Lemma takeWhile_spec pred tz :
  ∃ rest,
    unread tz = collect pred (unread tz) ++ rest
    ∧ takeWhile pred tz
      = (String.string_of_list_ascii (collect pred (unread tz)),
         mk (input tz) (idx tz + length (collect pred (unread tz))))
    ∧ unread (takeWhile pred tz).2 = rest
    ∧ ∀ ch, rest !! 0 = Some ch → pred ch = false.
Proof.
  destruct (collect_split pred (unread tz)) as (rest & Hl & _ & Hrest).
  exists rest. split; [exact Hl|]. split; [reflexivity|]. split; [|exact Hrest].
  unfold takeWhile. cbn [snd]. unfold unread in *. cbn [input idx].
  rewrite <- drop_drop.
  set (l := drop (idx tz) (chars (input tz))) in *.
  transitivity (drop (length (collect pred l)) (collect pred l ++ rest));
    [by rewrite <- Hl | apply drop_app_length].
Qed.

Lemma takeWhile_input pred tz : input (takeWhile pred tz).2 = input tz.
Proof. reflexivity. Qed.

Lemma takeWhile_remaining pred tz :
  remaining (takeWhile pred tz).2
  = remaining tz - length (collect pred (unread tz)).
Proof. unfold remaining, takeWhile, unread. cbn [snd input idx]. lia. Qed.

Lemma takeWhile_advances pred tz ch :
  current tz = Some ch → pred ch = true →
  remaining (takeWhile pred tz).2 < remaining tz.
Proof.
  intros Hc Hp. rewrite takeWhile_remaining.
  rewrite current_unread in Hc.
  pose proof (collect_nonempty pred ch _ Hc Hp).
  pose proof (collect_length pred (unread tz)). rewrite unread_length in *. lia.
Qed.

Lemma current_Some_remaining tz ch : current tz = Some ch → 0 < remaining tz.
Proof.
  intros H. destruct (decide (remaining tz = 0)) as [E|]; [|lia].
  apply current_None in E. congruence.
Qed.

Lemma keywords_not_eof ident : keywords ident ≠ Some eofToken.
Proof. unfold keywords. repeat case_bool_decide; discriminate. Qed.

Lemma takeWhile_eq pred tz s tz' :
  takeWhile pred tz = (s, tz') →
  input tz' = input tz
  ∧ remaining tz' = remaining tz - length (collect pred (unread tz)).
Proof.
  intros H. pose proof (takeWhile_remaining pred tz) as Hr.
  rewrite H in Hr. split; [|exact Hr]. by injection H as _ <-.
Qed.

Lemma takeWhile_eq_advances pred tz s tz' ch :
  takeWhile pred tz = (s, tz') → current tz = Some ch → pred ch = true →
  remaining tz' < remaining tz.
Proof.
  intros H Hc Hp. pose proof (takeWhile_advances pred tz ch Hc Hp) as Hr.
  by rewrite H in Hr.
Qed.

(** [next] keeps the input and never moves backwards; a token other than
    the end of input was read from at least one character, and the end of
    input is only returned when nothing is left to read. *)
Lemma next_progress tz token tz' :
  next tz = Got (token, tz') →
  input tz' = input tz
  ∧ (token ≠ eofToken → remaining tz' < remaining tz)
  ∧ (token = eofToken → remaining tz' = 0).
Proof.
  unfold next. destruct (current tz) as [c0|] eqn:Hc0.
  2:{ intros [= <- <-]. split; [reflexivity|]. split; [done|].
      intros _. by apply current_None. }
  pose proof (current_Some_remaining _ _ Hc0) as Hpos.
  destruct (takeWhile isWhitespace tz) as [ws tz1] eqn:Hws.
  destruct (takeWhile_eq _ _ _ _ Hws) as [Hin1 Hr1].
  destruct (current tz1) as [ch|] eqn:Hch.
  2:{ intros [= <- <-]. split; [exact Hin1|]. split; [done|].
      intros _. by apply current_None. }
  pose proof (current_Some_remaining _ _ Hch) as Hpos1.
  destruct (isDigit ch) eqn:Hd.
  { destruct (takeWhile isDigit tz1) as [digits tz2] eqn:Hdig.
    destruct (takeWhile_eq _ _ _ _ Hdig) as [Hin2 _].
    pose proof (takeWhile_eq_advances _ _ _ _ _ Hdig Hch Hd).
    intros [= <- <-]. split; [congruence|]. split; [lia | discriminate]. }
  case_bool_decide as Hq.
  { destruct (takeWhile _ (skip tz1)) as [str tz2] eqn:Hstr.
    destruct (takeWhile_eq _ _ _ _ Hstr) as [Hin2 Hr2].
    rewrite remaining_skip in Hr2.
    intros [= <- <-]. split; [cbn in *; congruence|]. split; [|discriminate].
    intros _. rewrite remaining_skip. lia. }
  destruct (isAlpha ch) eqn:Ha.
  { destruct (takeWhile isAlpha tz1) as [ident tz2] eqn:Hid.
    destruct (takeWhile_eq _ _ _ _ Hid) as [Hin2 _].
    pose proof (takeWhile_eq_advances _ _ _ _ _ Hid Hch Ha).
    destruct (keywords ident) as [kw|] eqn:Hkw; intros [= <- <-].
    - split; [congruence|]. split; [lia|].
      intros ->. by destruct (keywords_not_eof ident).
    - split; [congruence|]. split; [lia | discriminate]. }
  assert (Hs : input (skip tz1) = input tz ∧ remaining (skip tz1) < remaining tz).
  { split; [exact Hin1|]. rewrite remaining_skip. lia. }
  repeat case_bool_decide; intros [= <- <-] || intros [=];
    (split; [apply Hs|]; split; [intros _; apply Hs | discriminate]).
Qed.

(** Once the end of input was returned, it is returned again. *)
Lemma next_at_end tz : remaining tz = 0 → next tz = Got (eofToken, tz).
Proof. intros H. apply current_None in H. unfold next. by rewrite H. Qed.

Lemma tokenType_eof token : tokenType token = Some TokenType.eof ↔ token = eofToken.
Proof.
  split; [|by intros ->].
  destruct token; cbn; intros [=]. by subst.
Qed.

End TokenizerFacts.

Section TokenizerRuns.
Import Tokenizer.

Lemma tokenizeLoop_total fuel token tz tokens :
  remaining tz < fuel → tokenizeLoop fuel token tz tokens ≠ Unfinished.
Proof.
  revert token tz tokens. induction fuel as [|fuel IH]; intros token tz tokens Hf; [lia|].
  cbn [tokenizeLoop]. case_bool_decide as Ht; [|discriminate].
  destruct (next tz) as [[token' tz']| |] eqn:Hn; cbn [andThen]; [|discriminate|].
  - destruct (next_progress _ _ _ Hn) as (_ & Hlt & Heof).
    destruct (decide (token' = eofToken)) as [->|Hne].
    + destruct fuel; cbn; discriminate.
    + apply IH. specialize (Hlt Hne). lia.
  - unfold next in Hn. repeat case_match; discriminate.
Qed.

Lemma next_finishes tz : next tz ≠ Unfinished.
Proof. unfold next. repeat case_match; discriminate. Qed.

Lemma tokenizeLoop_mono fuel fuel' token tz tokens :
  fuel ≤ fuel' → tokenizeLoop fuel token tz tokens ≠ Unfinished →
  tokenizeLoop fuel' token tz tokens = tokenizeLoop fuel token tz tokens.
Proof.
  revert fuel' token tz tokens.
  induction fuel as [|fuel IH]; intros fuel' token tz tokens Hle.
  - cbn [tokenizeLoop]. destruct (bool_decide _) eqn:Ht; [intros H; by destruct H|].
    intros _. destruct fuel'; cbn [tokenizeLoop]; by rewrite Ht.
  - destruct fuel' as [|fuel']; [lia|]. cbn [tokenizeLoop].
    destruct (bool_decide _); [|done].
    destruct (next tz) as [[token' tz']| |]; cbn [andThen]; [|done..].
    apply IH. lia.
Qed.

Lemma tokenizeLoop_tokens fuel token tz tokens result :
  tokenizeLoop fuel token tz tokens = Got result →
  ∃ more, result = tokens ++ more
          ∧ Forall (λ t, t ≠ eofToken) more
          ∧ length more ≤ (if bool_decide (token = eofToken) then 0 else 1) + remaining tz.
Proof.
  revert token tz tokens.
  induction fuel as [|fuel IH]; intros token tz tokens; cbn [tokenizeLoop].
  - case_bool_decide as Ht; [discriminate|]. intros [= <-].
    exists []. rewrite app_nil_r. split; [done|]. split; [constructor | cbn; lia].
  - case_bool_decide as Ht.
    + destruct (next tz) as [[token' tz']| |] eqn:Hn; cbn [andThen]; [|discriminate..].
      intros H. apply IH in H as (more & -> & Hall & Hlen).
      destruct (next_progress _ _ _ Hn) as (_ & Hlt & Heof).
      exists (token :: more). split; [by rewrite <- app_assoc|]. split.
      * constructor; [|exact Hall]. intros ->. by apply Ht.
      * rewrite bool_decide_eq_false_2 by (intros ->; by apply Ht). cbn [length].
        case_bool_decide as He; [rewrite (Heof He) in Hlen | specialize (Hlt He)]; lia.
    + intros [= <-]. exists []. rewrite app_nil_r.
      split; [done|]. split; [constructor | cbn; lia].
Qed.

End TokenizerRuns.

(** ** What [next] reads *)

Section TokenizerReads.
Import Tokenizer.

Lemma collect_all pred ds rest :
  Forall (λ ch, pred ch = true) ds →
  (∀ ch, rest !! 0 = Some ch → pred ch = false) →
  collect pred (ds ++ rest) = ds.
Proof.
  intros Hall Hrest. induction Hall as [|d ds Hd _ IH]; cbn.
  - destruct rest as [|c rest]; [reflexivity|]. cbn. by rewrite (Hrest c).
  - by rewrite Hd, IH.
Qed.

Lemma collect_none pred ch rest : pred ch = false → collect pred (ch :: rest) = [].
Proof. intros H. cbn. by rewrite H. Qed.

Lemma takeWhile_none pred tz ch :
  current tz = Some ch → pred ch = false → takeWhile pred tz = ("", tz).
Proof.
  intros Hc Hp. unfold takeWhile. fold (unread tz).
  rewrite current_unread in Hc. destruct (unread tz) as [|c rest]; [discriminate|].
  injection Hc as ->. rewrite (collect_none _ _ _ Hp). cbn.
  rewrite Nat.add_0_r. by destruct tz.
Qed.

Lemma takeWhile_all pred tz ds rest :
  unread tz = ds ++ rest →
  Forall (λ ch, pred ch = true) ds →
  (∀ ch, rest !! 0 = Some ch → pred ch = false) →
  takeWhile pred tz = (String.string_of_list_ascii ds, mk (input tz) (idx tz + length ds)).
Proof.
  intros Hu Hall Hrest. unfold takeWhile. fold (unread tz).
  by rewrite Hu, (collect_all _ _ _ Hall Hrest).
Qed.

Lemma unread_at tz ds rest :
  unread tz = ds ++ rest →
  unread (mk (input tz) (idx tz + length ds)) = rest.
Proof.
  intros Hu. unfold unread in *. cbn [input idx].
  rewrite <- drop_drop, Hu. apply drop_app_length.
Qed.

Lemma isDigit_not_whitespace ch : isDigit ch = true → isWhitespace ch = false.
Proof.
  unfold isDigit, isWhitespace. set (n := nat_of_ascii ch).
  rewrite andb_true_iff, !Nat.leb_le. intros [??].
  rewrite !orb_false_iff, andb_false_iff, !Nat.leb_gt, !Nat.eqb_neq. lia.
Qed.

Lemma isAlpha_not_whitespace ch : isAlpha ch = true → isWhitespace ch = false.
Proof.
  unfold isAlpha, isWhitespace. set (n := nat_of_ascii ch).
  rewrite orb_true_iff, !andb_true_iff, !Nat.leb_le. intros H.
  rewrite !orb_false_iff, andb_false_iff, !Nat.leb_gt, !Nat.eqb_neq. lia.
Qed.

Lemma isAlpha_not_digit ch : isAlpha ch = true → isDigit ch = false.
Proof.
  unfold isAlpha, isDigit. set (n := nat_of_ascii ch).
  rewrite orb_true_iff, !andb_true_iff, !Nat.leb_le. intros H.
  rewrite andb_false_iff, !Nat.leb_gt. lia.
Qed.

Lemma isAlpha_not_quote ch : isAlpha ch = true → ch ≠ "'"%char.
Proof. intros H ->. discriminate. Qed.

(** A run of digits is read as one integer token. *)
Lemma next_digits tz d ds rest :
  unread tz = (d :: ds) ++ rest →
  Forall (λ ch, isDigit ch = true) (d :: ds) →
  (∀ ch, rest !! 0 = Some ch → isDigit ch = false) →
  next tz = Got (IntToken (parseInt (String.string_of_list_ascii (d :: ds))),
                 mk (input tz) (idx tz + length (d :: ds))).
Proof.
  intros Hu Hall Hrest.
  assert (Hc : current tz = Some d) by (by rewrite current_unread, Hu).
  assert (Hd : isDigit d = true) by (by inversion Hall).
  unfold next. rewrite Hc.
  rewrite (takeWhile_none _ _ _ Hc (isDigit_not_whitespace _ Hd)), Hc, Hd.
  by rewrite (takeWhile_all _ _ _ _ Hu Hall Hrest).
Qed.

(** A run of letters is read as one word: a keyword, a member of
    [Object.prototype] or an identifier. *)
Lemma next_letters tz c cs rest :
  unread tz = (c :: cs) ++ rest →
  Forall (λ ch, isAlpha ch = true) (c :: cs) →
  (∀ ch, rest !! 0 = Some ch → isAlpha ch = false) →
  next tz = Got (match keywords (String.string_of_list_ascii (c :: cs)) with
                 | Some keyword => keyword
                 | None => IdentToken (String.string_of_list_ascii (c :: cs))
                 end,
                 mk (input tz) (idx tz + length (c :: cs))).
Proof.
  intros Hu Hall Hrest.
  assert (Hc : current tz = Some c) by (by rewrite current_unread, Hu).
  assert (Ha : isAlpha c = true) by (by inversion Hall).
  unfold next. rewrite Hc.
  rewrite (takeWhile_none _ _ _ Hc (isAlpha_not_whitespace _ Ha)), Hc.
  rewrite (isAlpha_not_digit _ Ha).
  rewrite bool_decide_eq_false_2 by (by apply isAlpha_not_quote).
  rewrite Ha, (takeWhile_all _ _ _ _ Hu Hall Hrest).
  by destruct (keywords _).
Qed.

End TokenizerReads.

Section TokenizerTheorems.
Import Tokenizer.

Lemma remaining_new input : remaining (new input) = String.length input.
Proof. unfold remaining, new. cbn [Tokenizer.input idx]. rewrite chars_length. lia. Qed.

(** X1 [tokenize] terminates: when the bound on the iterations of its loop
    is at least the length of the input, it returns a list of tokens or
    throws, and the outcome does not depend on the bound; the list has at
    most one token per character of the input and holds no end-of-input
    token. *)
Theorem tokenize_terminates (input : string) (fuel : nat) :
  String.length input ≤ fuel →
  tokenize fuel (new input) ≠ Unfinished
  ∧ tokenize fuel (new input) = tokenize (String.length input) (new input)
  ∧ ∀ tokens, tokenize fuel (new input) = Got tokens →
      Forall (λ t, tokenType t ≠ Some TokenType.eof) tokens
      ∧ length tokens ≤ String.length input.
Proof.
  intros Hfuel. unfold tokenize.
  destruct (next (new input)) as [[token tz]| |] eqn:Hn; cbn [andThen].
  2:{ split; [discriminate|]. split; [reflexivity | discriminate]. }
  2:{ by destruct (next_finishes (new input)). }
  destruct (next_progress _ _ _ Hn) as (_ & Hlt & Heof).
  rewrite remaining_new in Hlt.
  assert (Hlen : ∀ f, String.length input ≤ f → tokenizeLoop f token tz [] ≠ Unfinished).
  { intros f Hf. destruct (decide (token = eofToken)) as [->|Hne].
    - destruct f; cbn; discriminate.
    - apply tokenizeLoop_total. specialize (Hlt Hne). lia. }
  split; [by apply Hlen|]. split.
  - apply tokenizeLoop_mono; [exact Hfuel | by apply Hlen].
  - intros tokens Ht. apply tokenizeLoop_tokens in Ht as (more & -> & Hall & Hle).
    cbn [app]. split.
    + eapply Forall_impl; [exact Hall|]. intros t Ht E. by apply tokenType_eof in E.
    + case_bool_decide as He; [rewrite (Heof He) in Hle | specialize (Hlt He)]; lia.
Qed.

Lemma tokenize_terminates_witness :
  tokenize 7 (new "x = 1") = tokenize 5 (new "x = 1").
Proof. apply (tokenize_terminates "x = 1" 7). cbn. lia. Defined.

End TokenizerTheorems.

Section Numbers.
Import Tokenizer.

Lemma chars_of_list l : chars (String.string_of_list_ascii l) = l.
Proof. apply String.list_ascii_of_string_of_list_ascii. Qed.

Lemma of_list_chars s : String.string_of_list_ascii (chars s) = s.
Proof. apply String.string_of_list_ascii_of_string. Qed.

Lemma chars_app s1 s2 : chars (s1 +:+ s2) = chars s1 ++ chars s2.
Proof. unfold chars. induction s1 as [|c s1 IH]; simpl; [reflexivity | by rewrite IH]. Qed.

Lemma pretty_N_char_digit d :
  (d < 10)%N →
  isDigit (pretty_N_char d) = true ∧ digitValue (pretty_N_char d) = Z.of_N d.
Proof.
  intros H.
  assert (d = 0 ∨ d = 1 ∨ d = 2 ∨ d = 3 ∨ d = 4 ∨ d = 5 ∨ d = 6 ∨ d = 7
          ∨ d = 8 ∨ d = 9)%N as Hd by lia.
  repeat destruct Hd as [->|Hd]; try subst d; by vm_compute.
Qed.

(** The digits that [pretty] writes in front of [s], most significant
    first, and the number they denote. *)
Lemma pretty_N_go_digits x s :
  ∃ ds, chars (pretty_N_go x s) = ds ++ chars s
        ∧ Forall (λ ch, isDigit ch = true) ds
        ∧ ((0 < x)%N → ds ≠ [])
        ∧ ∀ acc, fold_left (λ acc ch, acc * 10 + digitValue ch)%Z ds acc
                 = (acc * 10 ^ Z.of_nat (length ds) + Z.of_N x)%Z.
Proof.
  revert s. induction (N.lt_wf_0 x) as [x _ IH]; intros s.
  destruct (decide (x = 0%N)) as [->|Hx].
  - exists []. rewrite pretty_N_go_0. split; [reflexivity|]. split; [constructor|].
    split; [lia|]. intros acc. cbn. lia.
  - rewrite pretty_N_go_step by lia.
    destruct (IH (x `div` 10)%N) with (s := String (pretty_N_char (x `mod` 10)) s)
      as (ds & Hds & Hall & _ & Hfold).
    { apply N.div_lt; lia. }
    destruct (pretty_N_char_digit (x `mod` 10)%N) as [Hdig Hval].
    { apply N.mod_lt. lia. }
    exists (ds ++ [pretty_N_char (x `mod` 10)]). split; [|split; [|split]].
    + rewrite Hds. cbn. by rewrite <- app_assoc.
    + apply Forall_app. split; [exact Hall|]. by constructor.
    + intros _. by destruct ds.
    + intros acc. rewrite fold_left_app, Hfold. cbn [fold_left]. rewrite Hval.
      rewrite length_app. cbn [length].
      replace (Z.of_nat (length ds + 1)) with (Z.of_nat (length ds) + 1)%Z by lia.
      rewrite Z.pow_add_r by lia.
      pose proof (N.div_mod x 10 ltac:(lia)) as Hdm.
      assert (Z.of_N x = 10 * Z.of_N (x `div` 10) + Z.of_N (x `mod` 10))%Z by lia.
      lia.
Qed.

Lemma pretty_N_digits (n : N) :
  ∃ d ds, chars (pretty n) = d :: ds
          ∧ Forall (λ ch, isDigit ch = true) (d :: ds)
          ∧ parseInt (pretty n) = Z.of_N n.
Proof.
  unfold pretty, pretty_N. case_decide as Hn.
  - subst n. exists "0"%char, []. split; [reflexivity|]. split; [|reflexivity].
    by repeat constructor.
  - destruct (pretty_N_go_digits n "") as (ds & Hds & Hall & Hne & Hfold).
    change (chars "") with (@nil ascii) in Hds. rewrite app_nil_r in Hds.
    destruct ds as [|d ds]; [by destruct Hne; [lia|]|].
    exists d, ds. split; [exact Hds|]. split; [exact Hall|].
    unfold parseInt. rewrite Hds, Hfold. lia.
Qed.

Lemma unread_new input : unread (new input) = chars input.
Proof. reflexivity. Qed.

(** The decimal text of a natural number is read as that number, up to the
    next character that is not a digit. *)
Lemma next_pretty_N (n : N) pre rest input :
  chars input = pre ++ chars (pretty n) ++ rest →
  (∀ ch, rest !! 0 = Some ch → isDigit ch = false) →
  next (mk input (length pre))
  = Got (IntToken (Z.of_N n), mk input (length pre + String.length (pretty n))).
Proof.
  intros Hin Hrest.
  destruct (pretty_N_digits n) as (d & ds & Hds & Hall & Hval).
  assert (Hu : unread (mk input (length pre)) = (d :: ds) ++ rest).
  { unfold unread. cbn [Tokenizer.input idx]. by rewrite Hin, drop_app_length, Hds. }
  rewrite (next_digits _ _ _ _ Hu Hall Hrest). cbn [Tokenizer.input idx].
  rewrite <- Hds, of_list_chars, Hval, chars_length. reflexivity.
Qed.

End Numbers.

Section TokenTheorems.
Import Tokenizer.

Lemma next_minus tz rest :
  unread tz = "-"%char :: rest → next tz = Got (PlainToken TokenType.minus, skip tz).
Proof.
  intros Hu.
  assert (Hc : current tz = Some "-"%char) by (by rewrite current_unread, Hu).
  unfold next. rewrite Hc. by rewrite (takeWhile_none _ _ _ Hc eq_refl), Hc.
Qed.

Lemma pretty_nonneg (z : Z) : (0 ≤ z)%Z → pretty z = pretty (Z.to_N z).
Proof. destruct z; [reflexivity | reflexivity | lia]. Qed.

Lemma pretty_neg (z : Z) : (z < 0)%Z → pretty z = "-" +:+ pretty (Z.to_N (- z)).
Proof. destruct z; [lia | lia | reflexivity]. Qed.

Lemma tokenizeLoop_step fuel token tz tokens :
  token ≠ eofToken →
  tokenizeLoop (S fuel) token tz tokens
  = let* (token', tz') := next tz in tokenizeLoop fuel token' tz' (tokens ++ [token]).
Proof.
  intros Hne. cbn [tokenizeLoop].
  by rewrite bool_decide_eq_true_2 by (intros E; by apply tokenType_eof in E).
Qed.

Lemma tokenizeLoop_last fuel token tz tokens :
  token ≠ eofToken → remaining tz = 0 →
  tokenizeLoop (S fuel) token tz tokens = Got (tokens ++ [token]).
Proof.
  intros Hne Hr. cbn [tokenizeLoop].
  rewrite bool_decide_eq_true_2 by (intros E; by apply tokenType_eof in E).
  rewrite (next_at_end _ Hr). cbn [andThen]. by destruct fuel.
Qed.

Lemma remaining_at_end input n :
  String.length input ≤ n → remaining (mk input n) = 0.
Proof. unfold remaining. cbn [Tokenizer.input idx]. rewrite chars_length. lia. Qed.

(** X2 What the VM prints for a number is read back by the tokenizer as
    that number: the text of a number that is not negative is one integer
    token with that value, the text of a negative number is a minus token
    followed by the integer token of its absolute value.  This is stated
    for the integers of absolute value at most 2^53, which are doubles and
    are printed with all their digits. *)
Theorem tokenize_valueToString_number (z : Z) (fuel : nat) :
  (Z.abs z ≤ 2 ^ 53)%Z → 2 ≤ fuel →
  tokenize fuel (new (valueToString (VNumber z)))
  = Got (if bool_decide (0 ≤ z)%Z then [IntToken z]
         else [PlainToken TokenType.minus; IntToken (- z)]).
Proof.
  intros _ Hfuel. cbn [valueToString]. unfold tokenize.
  destruct fuel as [|[|fuel]]; [lia..|].
  case_bool_decide as Hz.
  - rewrite (pretty_nonneg z Hz). set (s := pretty (Z.to_N z)).
    change (new s) with (mk s (length (@nil ascii))).
    rewrite (next_pretty_N (Z.to_N z) [] [] s);
      [| by rewrite app_nil_r | by intros ch [=]].
    cbn [andThen length Nat.add]. rewrite Z2N.id by lia.
    rewrite tokenizeLoop_last; [reflexivity | discriminate | by apply remaining_at_end].
  - rewrite (pretty_neg z) by lia. set (n := Z.to_N (- z)).
    set (s := "-" +:+ pretty n).
    assert (Hs : chars s = "-"%char :: chars (pretty n)) by reflexivity.
    rewrite (next_minus (new s) (chars (pretty n))) by exact Hs.
    cbn [andThen]. rewrite tokenizeLoop_step by discriminate.
    change (skip (new s)) with (mk s (length ["-"%char])).
    rewrite (next_pretty_N n ["-"%char] [] s);
      [| by rewrite app_nil_r | by intros ch [=]].
    cbn [andThen length]. subst n. rewrite Z2N.id by lia.
    rewrite tokenizeLoop_last; [reflexivity | discriminate |].
    apply remaining_at_end. rewrite <- !chars_length, Hs. cbn [length]. lia.
Qed.

Lemma tokenize_valueToString_number_witness :
  tokenize 2 (new (valueToString (VNumber (-42)))) 
  = Got [PlainToken TokenType.minus; IntToken 42].
Proof. apply (tokenize_valueToString_number (-42) 2); [vm_compute; discriminate | lia]. Defined.

(** X3 A string literal is everything between a quote and the next quote,
    whatever the characters; if the input ends before a closing quote, the
    literal is the rest of the input and nothing is thrown. *)
Theorem next_string_literal (input : string) (pre ws body rest : list ascii) :
  chars input = pre ++ ws ++ "'"%char :: body ++ rest →
  Forall (λ ch, isWhitespace ch = true) ws →
  "'"%char ∉ body →
  (∀ ch, rest !! 0 = Some ch → ch = "'"%char) →
  next (mk input (length pre))
  = Got (StringToken (String.string_of_list_ascii body),
         mk input (length pre + length ws + length body + 2)).
Proof.
  intros Hin Hws Hbody Hrest.
  set (tz := mk input (length pre)).
  assert (Hu : unread tz = ws ++ "'"%char :: body ++ rest).
  { unfold unread, tz. cbn [Tokenizer.input idx]. by rewrite Hin, drop_app_length. }
  assert (Hc : ∃ c, current tz = Some c).
  { rewrite current_unread, Hu. destruct ws; cbn; eauto. }
  destruct Hc as [c Hc]. unfold next. rewrite Hc.
  rewrite (takeWhile_all _ _ _ _ Hu Hws) by (by intros ch [= <-]).
  cbn [Tokenizer.input idx]. set (tz1 := mk _ _).
  assert (Hu1 : unread tz1 = "'"%char :: body ++ rest) by apply (unread_at _ _ _ Hu).
  assert (Hc1 : current tz1 = Some "'"%char) by (by rewrite current_unread, Hu1).
  rewrite Hc1. cbn [isDigit]. 
  change (isDigit "'"%char) with false. cbv iota.
  rewrite bool_decide_eq_true_2 by reflexivity.
  assert (Hu2 : unread (skip tz1) = body ++ rest) by (by rewrite unread_skip, Hu1).
  rewrite (takeWhile_all _ _ _ _ Hu2).
  - unfold skip, tz1, tz. cbn [Tokenizer.input idx]. do 3 f_equal. lia.
  - apply Forall_forall. intros ch Hch. apply negb_true_iff, bool_decide_eq_false_2.
    intros ->. by apply Hbody.
  - intros ch Hch. rewrite (Hrest ch Hch). reflexivity.
Qed.

Lemma next_string_literal_witness :
  next (mk "print 'a b" 5) = Got (StringToken "a b", mk "print 'a b" 11).
Proof.
  apply (next_string_literal "print 'a b" (chars "print") (chars " ") (chars "a b") []).
  - reflexivity.
  - by repeat constructor.
  - by apply (bool_decide_unpack _).
  - intros ch [=].
Defined.

End TokenTheorems.

Section TokenShape.
Import Tokenizer.

Lemma takeWhile_chars pred tz s tz' :
  takeWhile pred tz = (s, tz') →
  chars s = collect pred (unread tz) ∧ Forall (λ ch, pred ch = true) (chars s).
Proof.
  unfold takeWhile. fold (unread tz). intros [= <- _]. rewrite chars_of_list.
  split; [reflexivity|]. by destruct (collect_split pred (unread tz)) as (? & _ & ? & _).
Qed.

Lemma digitValue_nonneg ch : isDigit ch = true → (0 ≤ digitValue ch ≤ 9)%Z.
Proof.
  unfold isDigit, digitValue. rewrite andb_true_iff, !Nat.leb_le. lia.
Qed.

Lemma parseInt_nonneg digits :
  Forall (λ ch, isDigit ch = true) (chars digits) → (0 ≤ parseInt digits)%Z.
Proof.
  unfold parseInt. intros Hall.
  assert (H : ∀ ds acc, (0 ≤ acc)%Z → Forall (λ ch, isDigit ch = true) ds →
              (0 ≤ fold_left (λ acc ch, acc * 10 + digitValue ch) ds acc)%Z).
  { induction ds as [|d ds IH]; intros acc Hacc Hds; cbn [fold_left]; [exact Hacc|].
    inversion Hds as [|?? Hd Hds']; subst.
    pose proof (digitValue_nonneg _ Hd). apply IH; [lia | exact Hds']. }
  by apply H.
Qed.

Lemma keywords_Some ident token :
  keywords ident = Some token →
  token = PlainToken TokenType.const ∨ token = PlainToken TokenType.def
  ∨ token = PlainToken TokenType.print
  ∨ (token = InheritedToken ident ∧ ident ∈ objectPrototypeKeys).
Proof.
  unfold keywords. repeat case_bool_decide; intros [= <-]; eauto.
Qed.

Lemma forallb_Forall {A} (f : A → bool) l :
  forallb f l = true ↔ Forall (λ x, f x = true) l.
Proof.
  induction l as [|x l IH]; cbn; [split; [constructor | done]|].
  rewrite andb_true_iff, IH, Forall_cons. tauto.
Qed.

Lemma isName_spec name :
  isName name = true ↔
  name ≠ "" ∧ Forall (λ ch, isAlpha ch = true) (chars name) ∧ keywords name = None.
Proof.
  unfold isName. rewrite !andb_true_iff, negb_true_iff, bool_decide_eq_false,
    bool_decide_eq_true, forallb_Forall. tauto.
Qed.

Lemma keywords_None name :
  keywords name = None ↔ (name ∉ ["const"; "def"; "print"]) ∧ name ∉ objectPrototypeKeys.
Proof.
  unfold keywords. rewrite !elem_of_cons, elem_of_nil.
  repeat case_bool_decide; split; (discriminate || tauto).
Qed.

(** A token that [next] returns is as [tokenOk] says. *)
Lemma next_tokenOk tz token tz' : next tz = Got (token, tz') → tokenOk token.
Proof.
  assert (Hplain : ∀ ty, ty ≠ TokenType.int → ty ≠ TokenType.string →
            ty ≠ TokenType.ident →
            ty ∉ [TokenType.int; TokenType.string; TokenType.ident]).
  { intros ty ???. rewrite !elem_of_cons, elem_of_nil. tauto. }
  unfold next. destruct (current tz) as [c0|]; [|intros [= <- <-]; by apply Hplain].
  destruct (takeWhile isWhitespace tz) as [ws tz1].
  destruct (current tz1) as [ch|] eqn:Hch; [|intros [= <- <-]; by apply Hplain].
  destruct (isDigit ch) eqn:Hd.
  { destruct (takeWhile isDigit tz1) as [digits tz2] eqn:Hdig.
    intros [= <- <-]. apply parseInt_nonneg.
    by destruct (takeWhile_chars _ _ _ _ Hdig). }
  case_bool_decide as Hq.
  { destruct (takeWhile _ (skip tz1)) as [str tz2] eqn:Hstr.
    intros [= <- <-]. destruct (takeWhile_chars _ _ _ _ Hstr) as [_ Hall].
    intros Hin. rewrite Forall_forall in Hall. specialize (Hall _ Hin).
    by rewrite bool_decide_eq_true_2 in Hall. }
  destruct (isAlpha ch) eqn:Ha.
  { destruct (takeWhile isAlpha tz1) as [ident tz2] eqn:Hid.
    destruct (takeWhile_chars _ _ _ _ Hid) as [Hchars Hall].
    assert (Hne : ident ≠ "").
    { intros ->. rewrite current_unread in Hch.
      pose proof (collect_nonempty isAlpha ch _ Hch Ha) as Hlen.
      rewrite <- Hchars in Hlen. cbn in Hlen. lia. }
    destruct (keywords ident) as [kw|] eqn:Hkw; intros [= <- <-].
    - apply keywords_Some in Hkw as [->|[->|[->|[-> Hin]]]];
        [by apply Hplain..|]. exact Hin.
    - by apply isName_spec. }
  repeat case_bool_decide; intros [= <- <-] || intros [=]; by apply Hplain.
Qed.

(** What [next] throws is as [errorOk] says. *)
Lemma next_Raise tz e : next tz = Raise e → errorOk e.
Proof.
  unfold next. destruct (current tz) as [c0|]; [|discriminate].
  destruct (takeWhile isWhitespace tz) as [ws tz1] eqn:Hws.
  destruct (current tz1) as [ch|] eqn:Hch; [|discriminate].
  destruct (isDigit ch) eqn:Hd; [by destruct (takeWhile isDigit tz1)|].
  case_bool_decide as Hq; [by destruct (takeWhile _ (skip tz1))|].
  destruct (isAlpha ch) eqn:Ha.
  { destruct (takeWhile isAlpha tz1) as [ident tz2]. by destruct (keywords ident). }
  repeat case_bool_decide; try discriminate. intros [= <-].
  split; [|split; [exact Hd|split; [exact Ha|]]].
  - destruct (takeWhile_spec isWhitespace tz) as (rest & _ & _ & Hu & Hrest).
    rewrite Hws in Hu. cbn [snd] in Hu. apply Hrest. by rewrite <- Hu, <- current_unread.
  - cbn. rewrite !elem_of_cons, elem_of_nil. tauto.
Qed.

(** X4 The tokens that [next] returns: the value of an integer token is
    not negative; a string token holds no quote; the name of an identifier
    token is a non-empty sequence of letters that is neither a keyword nor
    the name of a member of [Object.prototype] (a word such as
    [constructor] is returned as that member, a token without a type); a
    token without a payload is never of type [int], [string] or [ident]. *)
Theorem next_token_shape (tz tz' : t) (token : Token) :
  next tz = Got (token, tz') →
  match token with
  | IntToken value => (0 ≤ value)%Z
  | StringToken value => "'"%char ∉ chars value
  | IdentToken name =>
      name ≠ "" ∧ Forall (λ ch, isAlpha ch = true) (chars name)
      ∧ (name ∉ ["const"; "def"; "print"]) ∧ name ∉ objectPrototypeKeys
  | PlainToken type =>
      type ∉ [TokenType.int; TokenType.string; TokenType.ident]
  | InheritedToken key => key ∈ objectPrototypeKeys
  end.
Proof.
  intros H. apply next_tokenOk in H. destruct token; try exact H.
  cbn [tokenOk] in H. apply isName_spec in H as (? & ? & Hk).
  apply keywords_None in Hk as [??]. done.
Qed.

Lemma next_token_shape_witness : "constructor" ∈ objectPrototypeKeys.
Proof.
  apply (next_token_shape (mk "f(constructor)" 2) (mk "f(constructor)" 13)
           (InheritedToken "constructor")).
  reflexivity.
Defined.

End TokenShape.

(** ** The parser consumes its input *)

Section ParserProgress.
Import Parser.

Lemma andThen_Got {A B} (r : Parse A) (k : A → Parse B) b :
  andThen r k = Got b → ∃ a, r = Got a ∧ k a = Got b.
Proof. destruct r; cbn; [eauto | discriminate..]. Qed.

Lemma isAtEnd_eof p : isAtEnd p = true ↔ tokenType (token p) = Some TokenType.eof.
Proof. unfold isAtEnd. rewrite tokenType_eof. apply bool_decide_eq_true. Qed.

Lemma nextToken_pending p tok p' :
  nextToken p = Got (tok, p') →
  pending p' ≤ pending p ∧ (isAtEnd p = false → pending p' < pending p).
Proof.
  unfold nextToken. intros H. apply andThen_Got in H as ([peek tz] & Hn & [= <- <-]).
  destruct (next_progress _ _ _ Hn) as (_ & Hlt & Heof).
  unfold pending, isAtEnd. cbn [token peekToken tokenizer].
  destruct (decide (peek = eofToken)) as [He|Hne].
  - rewrite (Heof He). rewrite (bool_decide_eq_true_2 (peek = _)) by exact He.
    repeat case_bool_decide; split; (lia || discriminate || intros; lia).
  - specialize (Hlt Hne). rewrite (bool_decide_eq_false_2 (peek = _)) by exact Hne.
    repeat case_bool_decide; split; (lia || discriminate || intros; lia).
Qed.

Lemma expectToken_Got type p tok p' :
  expectToken type p = Got (tok, p') →
  tok = token p ∧ tokenType tok = Some type
  ∧ pending p' ≤ pending p
  ∧ (type ≠ TokenType.eof → pending p' < pending p).
Proof.
  unfold expectToken. case_bool_decide as Ht; [discriminate|].
  intros H. apply andThen_Got in H as ([t1 p1] & Hn & [= <- <-]).
  destruct (nextToken_pending _ _ _ Hn) as [Hle Hlt].
  split; [reflexivity|]. split; [exact Ht|]. split; [exact Hle|].
  intros Hne. apply Hlt. apply not_true_is_false. rewrite isAtEnd_eof.
  congruence.
Qed.

Lemma consumeToken_typed type p p' :
  consumeToken (Some type) p = Got p' →
  tokenType (token p) = Some type
  ∧ (type ≠ TokenType.eof → pending p' < pending p).
Proof.
  unfold consumeToken. intros H. apply andThen_Got in H as ([t1 p1] & Hn & [= <-]).
  destruct (expectToken_Got _ _ _ _ Hn) as (-> & Ht & _ & Hlt). by split.
Qed.

Lemma consumeToken_untyped p p' :
  consumeToken None p = Got p' →
  pending p' ≤ pending p ∧ (isAtEnd p = false → pending p' < pending p).
Proof.
  unfold consumeToken. intros H. apply andThen_Got in H as ([t1 p1] & Hn & [= <-]).
  by apply nextToken_pending in Hn.
Qed.

Lemma parseIntLit_Got p node p' :
  parseIntLit p = Got (node, p') →
  (∃ value, node = IntLit value) ∧ pending p' < pending p.
Proof.
  unfold parseIntLit. intros H. apply andThen_Got in H as ([tok p1] & He & H).
  destruct (expectToken_Got _ _ _ _ He) as (_ & _ & _ & Hlt).
  destruct tok; try discriminate. injection H as <- <-. split; [eauto|].
  by apply Hlt.
Qed.

Lemma parseStringLit_Got p node p' :
  parseStringLit p = Got (node, p') →
  (∃ value, node = StringLit value) ∧ pending p' < pending p.
Proof.
  unfold parseStringLit. intros H. apply andThen_Got in H as ([tok p1] & He & H).
  destruct (expectToken_Got _ _ _ _ He) as (_ & _ & _ & Hlt).
  destruct tok; try discriminate. injection H as <- <-. split; [eauto|].
  by apply Hlt.
Qed.

Lemma parseIdent_Got p name p' :
  parseIdent p = Got (name, p') → pending p' < pending p.
Proof.
  unfold parseIdent. intros H. apply andThen_Got in H as ([tok p1] & He & H).
  destruct (expectToken_Got _ _ _ _ He) as (_ & _ & _ & Hlt).
  destruct tok; try discriminate. injection H as <- <-. by apply Hlt.
Qed.

Lemma optional_comma_pending p p' :
  (if curTokenIs TokenType.comma p then consumeToken (Some TokenType.comma) p
   else Got p) = Got p' →
  pending p' ≤ pending p.
Proof.
  destruct (curTokenIs _ p).
  - intros H. apply consumeToken_typed in H as [_ H]. specialize (H ltac:(discriminate)). lia.
  - intros [= <-]. lia.
Qed.

Lemma paramsLoop_pending fuel params p params' p' :
  paramsLoop fuel params p = Got (params', p') → pending p' ≤ pending p.
Proof.
  revert params p. induction fuel as [|fuel IH]; intros params p; cbn [paramsLoop];
    destruct (curTokenIs TokenType.rparen p); cbn [negb];
    try discriminate; try (intros [= <- <-]; lia).
  intros H. apply andThen_Got in H as ([param p1] & H1 & H).
  apply andThen_Got in H as (p2 & H2 & H).
  apply parseIdent_Got in H1. apply optional_comma_pending in H2. apply IH in H. lia.
Qed.

(** The token on which [parsePrecedence] continues has an infix method and
    is not the end of input. *)
Lemma precedence_pos type prec :
  ¬ precedence type ≤ prec →
  type ≠ Some TokenType.eof ∧ ∃ fn, getInfixFn type = Some fn.
Proof.
  destruct type as [[]|]; cbn; intros H; try lia; split; try discriminate; eauto.
Qed.

Lemma parseUnary_Got parsePrecedence p node p' :
  parseUnary parsePrecedence p = Got (node, p') →
  ∃ op p1 expr,
    tokenType (token p) = Some op ∧ consumeToken None p = Got p1
    ∧ parsePrecedence (precedence (Some op)) p1 = Got (expr, p')
    ∧ node = Unary op expr.
Proof.
  unfold parseUnary. destruct (tokenType (token p)) as [op|]; [|discriminate].
  intros H. apply andThen_Got in H as (p1 & H1 & H).
  apply andThen_Got in H as ([expr p2] & H2 & [= <- <-]).
  by exists op, p1, expr.
Qed.

Lemma parseBinary_Got parsePrecedence left_ p node p' :
  parseBinary parsePrecedence left_ p = Got (node, p') →
  ∃ op p1 right_,
    tokenType (token p) = Some op ∧ consumeToken None p = Got p1
    ∧ parsePrecedence (precedence (Some op)) p1 = Got (right_, p')
    ∧ node = Binary op left_ right_.
Proof.
  unfold parseBinary. destruct (tokenType (token p)) as [op|]; [|discriminate].
  intros H. apply andThen_Got in H as (p1 & H1 & H).
  apply andThen_Got in H as ([expr p2] & H2 & [= <- <-]).
  by exists op, p1, expr.
Qed.

Lemma parseInvoke_Got argsLoop target p node p' :
  parseInvoke argsLoop target p = Got (node, p') →
  ∃ p1 args p2,
    consumeToken (Some TokenType.lparen) p = Got p1
    ∧ argsLoop [] p1 = Got (args, p2)
    ∧ consumeToken (Some TokenType.rparen) p2 = Got p'
    ∧ node = Invoke target args.
Proof.
  unfold parseInvoke. intros H. apply andThen_Got in H as (p1 & H1 & H).
  apply andThen_Got in H as ([args p2] & H2 & H).
  apply andThen_Got in H as (p3 & H3 & [= <- <-]).
  by exists p1, args, p2.
Qed.

(** An expression is read from at least one token; the loops do not give
    tokens back. *)
Lemma expression_pending fuel :
  (∀ prec p node p', parsePrecedence fuel prec p = Got (node, p') →
     pending p' < pending p)
  ∧ (∀ prec leftExpr p node p', infixLoop fuel prec leftExpr p = Got (node, p') →
       pending p' ≤ pending p)
  ∧ (∀ args p args' p', argsLoop fuel args p = Got (args', p') →
       pending p' ≤ pending p).
Proof.
  induction fuel as [|fuel (IHp & IHl & IHa)].
  { split; [discriminate|]. split.
    - intros prec leftExpr p node p'. cbn [infixLoop].
      repeat case_match; try discriminate; intros [= <- <-]; lia.
    - intros args p args' p'. cbn [argsLoop].
      repeat case_match; try discriminate; intros [= <- <-]; lia. }
  assert (Hloop : ∀ prec leftExpr p node p',
    infixLoop (S fuel) prec leftExpr p = Got (node, p') → pending p' ≤ pending p).
  { intros prec leftExpr p node p'. cbn [infixLoop].
    destruct (isAtEnd p) eqn:Hend; [intros [= <- <-]; lia|].
    case_bool_decide as Hprec; [intros [= <- <-]; lia|].
    destruct (getInfixFn _) as [[]|] eqn:Hfn.
    - intros H. apply andThen_Got in H as ([l1 p1] & H1 & H).
      apply parseBinary_Got in H1 as (op & p0 & r & _ & Hc & Hr & _).
      apply consumeToken_untyped in Hc as [Hc _]. apply IHp in Hr. apply IHl in H. lia.
    - intros H. apply andThen_Got in H as ([l1 p1] & H1 & H).
      apply parseInvoke_Got in H1 as (p0 & args & p2 & Hc & Hargs & Hc2 & _).
      apply consumeToken_typed in Hc as [_ Hc]. specialize (Hc ltac:(discriminate)).
      apply consumeToken_typed in Hc2 as [_ Hc2]. specialize (Hc2 ltac:(discriminate)).
      apply IHa in Hargs. apply IHl in H. lia.
    - intros H. by apply IHl in H. }
  split; [|split; [exact Hloop|]].
  - intros prec p node p'. cbn [parsePrecedence].
    destruct (getPrefixFn _) as [fn|]; [|discriminate].
    intros H. apply andThen_Got in H as ([l1 p1] & H1 & H). apply IHl in H.
    enough (pending p1 < pending p) by lia. clear H.
    destruct fn.
    + by apply parseIntLit_Got in H1 as [_ ?].
    + by apply parseStringLit_Got in H1 as [_ ?].
    + apply andThen_Got in H1 as ([name p0] & H1 & [= <- <-]).
      by apply parseIdent_Got in H1.
    + apply parseUnary_Got in H1 as (op & p0 & r & _ & Hc & Hr & _).
      apply consumeToken_untyped in Hc as [Hc _]. apply IHp in Hr. lia.
  - intros args p args' p'. cbn [argsLoop].
    destruct (curTokenIs TokenType.rparen p); cbn [negb]; [intros [= <- <-]; lia|].
    intros H. apply andThen_Got in H as ([arg p1] & H1 & H).
    apply andThen_Got in H as (p2 & H2 & H).
    apply IHp in H1. apply optional_comma_pending in H2. apply IHa in H. lia.
Qed.

End ParserProgress.

Section StatementProgress.
Import Parser.

Lemma parseVarDecl_Got parsePrecedence p node p' :
  parseVarDecl parsePrecedence p = Got (node, p') →
  ∃ p1 ident p2 tok p3 value,
    consumeToken (Some TokenType.const) p = Got p1
    ∧ parseIdent p1 = Got (ident, p2)
    ∧ expectToken TokenType.eq p2 = Got (tok, p3)
    ∧ parsePrecedence 0 p3 = Got (value, p')
    ∧ node = ValDecl ident value.
Proof.
  unfold parseVarDecl, parseExpression. intros H.
  apply andThen_Got in H as (p1 & H1 & H).
  apply andThen_Got in H as ([ident p2] & H2 & H).
  apply andThen_Got in H as ([tok p3] & H3 & H).
  apply andThen_Got in H as ([value p4] & H4 & [= <- <-]).
  by exists p1, ident, p2, tok, p3, value.
Qed.

Lemma parsePrint_Got parsePrecedence p node p' :
  parsePrint parsePrecedence p = Got (node, p') →
  ∃ p1 expr,
    consumeToken (Some TokenType.print) p = Got p1
    ∧ parsePrecedence 0 p1 = Got (expr, p')
    ∧ node = Print expr.
Proof.
  unfold parsePrint, parseExpression. intros H.
  apply andThen_Got in H as (p1 & H1 & H).
  apply andThen_Got in H as ([expr p2] & H2 & [= <- <-]).
  by exists p1, expr.
Qed.

Lemma parseFuncDecl_Got paramsLoop bodyLoop p node p' :
  parseFuncDecl paramsLoop bodyLoop p = Got (node, p') →
  ∃ p1 name p2 t3 p3 params p4 t5 p5 t6 p6 body p7 t8,
    consumeToken (Some TokenType.def) p = Got p1
    ∧ parseIdent p1 = Got (name, p2)
    ∧ expectToken TokenType.lparen p2 = Got (t3, p3)
    ∧ paramsLoop [] p3 = Got (params, p4)
    ∧ expectToken TokenType.rparen p4 = Got (t5, p5)
    ∧ expectToken TokenType.lbrace p5 = Got (t6, p6)
    ∧ bodyLoop [] p6 = Got (body, p7)
    ∧ expectToken TokenType.rbrace p7 = Got (t8, p')
    ∧ node = FuncDecl name params body.
Proof.
  unfold parseFuncDecl. intros H.
  apply andThen_Got in H as (p1 & H1 & H).
  apply andThen_Got in H as ([name p2] & H2 & H).
  apply andThen_Got in H as ([t3 p3] & H3 & H).
  apply andThen_Got in H as ([params p4] & H4 & H).
  apply andThen_Got in H as ([t5 p5] & H5 & H).
  apply andThen_Got in H as ([t6 p6] & H6 & H).
  apply andThen_Got in H as ([body p7] & H7 & H).
  apply andThen_Got in H as ([t8 p8] & H8 & [= <- <-]).
  by exists p1, name, p2, t3, p3, params, p4, t5, p5, t6, p6, body, p7, t8.
Qed.

Lemma parsePrecedence_pending fuel prec p node p' :
  parsePrecedence fuel prec p = Got (node, p') → pending p' < pending p.
Proof. apply expression_pending. Qed.

(** A statement is read from at least one token. *)
Lemma statement_pending fuel :
  (∀ p node p', parseStatement fuel p = Got (node, p') → pending p' < pending p)
  ∧ (∀ body p body' p', bodyLoop fuel body p = Got (body', p') →
       pending p' ≤ pending p).
Proof.
  induction fuel as [|fuel (IHs & IHb)].
  { split; [discriminate|]. intros body p body' p'. cbn [bodyLoop].
    repeat case_match; try discriminate; intros [= <- <-]; lia. }
  split.
  - intros p node p'. cbn [parseStatement].
    assert (Hexpr : parseExpression (parsePrecedence fuel) p = Got (node, p') →
                    pending p' < pending p) by apply parsePrecedence_pending.
    destruct (tokenType (token p)) as [[]|]; try exact Hexpr.
    + intros H. apply parseVarDecl_Got in H
        as (p1 & ident & p2 & tok & p3 & value & H1 & H2 & H3 & H4 & _).
      apply consumeToken_typed in H1 as [_ H1]. specialize (H1 ltac:(discriminate)).
      apply parseIdent_Got in H2. apply expectToken_Got in H3 as (_ & _ & H3 & _).
      apply parsePrecedence_pending in H4. lia.
    + intros H. apply parseFuncDecl_Got in H
        as (p1 & name & p2 & t3 & p3 & params & p4 & t5 & p5 & t6 & p6 & body & p7 & t8
            & H1 & H2 & H3 & H4 & H5 & H6 & H7 & H8 & _).
      apply consumeToken_typed in H1 as [_ H1]. specialize (H1 ltac:(discriminate)).
      apply parseIdent_Got in H2. apply expectToken_Got in H3 as (_ & _ & H3 & _).
      apply paramsLoop_pending in H4. apply expectToken_Got in H5 as (_ & _ & H5 & _).
      apply expectToken_Got in H6 as (_ & _ & H6 & _). apply IHb in H7.
      apply expectToken_Got in H8 as (_ & _ & H8 & _). lia.
    + intros H. apply parsePrint_Got in H as (p1 & expr & H1 & H2 & _).
      apply consumeToken_typed in H1 as [_ H1]. specialize (H1 ltac:(discriminate)).
      apply parsePrecedence_pending in H2. lia.
  - intros body p body' p'. cbn [bodyLoop].
    destruct (negb (isAtEnd p) && negb (curTokenIs TokenType.rbrace p));
      [|intros [= <- <-]; lia].
    intros H. apply andThen_Got in H as ([node p1] & H1 & H).
    apply IHs in H1. apply IHb in H. lia.
Qed.

End StatementProgress.

(** ** The parser terminates *)

Section ParserTotal.
Import Parser.

Lemma andThen_finished {A B} (r : Parse A) (k : A → Parse B) :
  r ≠ Unfinished → (∀ a, r = Got a → k a ≠ Unfinished) → andThen r k ≠ Unfinished.
Proof. destruct r; cbn; [eauto | discriminate | done]. Qed.

Lemma nextToken_finished p : nextToken p ≠ Unfinished.
Proof.
  unfold nextToken. apply andThen_finished; [apply next_finishes|].
  by intros [].
Qed.

Lemma expectToken_finished type p : expectToken type p ≠ Unfinished.
Proof.
  unfold expectToken. case_bool_decide; [discriminate|].
  apply andThen_finished; [apply nextToken_finished | by intros []].
Qed.

Lemma consumeToken_finished type p : consumeToken type p ≠ Unfinished.
Proof.
  destruct type; cbn [consumeToken]; (apply andThen_finished;
    [apply expectToken_finished || apply nextToken_finished | by intros []]).
Qed.

Lemma parseIntLit_finished p : parseIntLit p ≠ Unfinished.
Proof.
  unfold parseIntLit. apply andThen_finished; [apply expectToken_finished|].
  intros [[] ?] _; discriminate.
Qed.

Lemma parseStringLit_finished p : parseStringLit p ≠ Unfinished.
Proof.
  unfold parseStringLit. apply andThen_finished; [apply expectToken_finished|].
  intros [[] ?] _; discriminate.
Qed.

Lemma parseIdent_finished p : parseIdent p ≠ Unfinished.
Proof.
  unfold parseIdent. apply andThen_finished; [apply expectToken_finished|].
  intros [[] ?] _; discriminate.
Qed.

Lemma optional_comma_finished p :
  (if curTokenIs TokenType.comma p then consumeToken (Some TokenType.comma) p
   else Got p) ≠ Unfinished.
Proof. destruct (curTokenIs _ p); [apply consumeToken_finished | discriminate]. Qed.

Lemma paramsLoop_total fuel params p :
  pending p + 1 ≤ fuel → paramsLoop fuel params p ≠ Unfinished.
Proof.
  revert params p. induction fuel as [|fuel IH]; intros params p Hf; [lia|].
  cbn [paramsLoop]. destruct (curTokenIs TokenType.rparen p); cbn [negb]; [discriminate|].
  apply andThen_finished; [apply parseIdent_finished|]. intros [param p1] H1.
  apply andThen_finished; [apply optional_comma_finished|]. intros p2 H2.
  apply parseIdent_Got in H1. apply optional_comma_pending in H2. apply IH. lia.
Qed.

Lemma getPrefixFn_not_at_end p fn :
  getPrefixFn (tokenType (token p)) = Some fn → isAtEnd p = false.
Proof.
  intros H. apply not_true_is_false. rewrite isAtEnd_eof. intros E.
  rewrite E in H. discriminate.
Qed.

Lemma expression_total fuel :
  (∀ prec p, 2 * pending p + 1 ≤ fuel → parsePrecedence fuel prec p ≠ Unfinished)
  ∧ (∀ prec leftExpr p, 2 * pending p + 1 ≤ fuel →
       infixLoop fuel prec leftExpr p ≠ Unfinished)
  ∧ (∀ args p, 2 * pending p + 2 ≤ fuel → argsLoop fuel args p ≠ Unfinished).
Proof.
  induction fuel as [|fuel (IHp & IHl & IHa)].
  { split; [intros; lia|]. split; intros; lia. }
  split; [|split].
  - intros prec p Hf. cbn [parsePrecedence].
    destruct (getPrefixFn _) as [fn|] eqn:Hfn; [|discriminate].
    apply getPrefixFn_not_at_end in Hfn.
    apply andThen_finished.
    + destruct fn.
      * apply parseIntLit_finished.
      * apply parseStringLit_finished.
      * apply andThen_finished; [apply parseIdent_finished | by intros []].
      * unfold parseUnary. destruct (tokenType (token p)) as [op|] eqn:Hop; [|discriminate].
        apply andThen_finished; [apply consumeToken_finished|]. intros p1 H1.
        apply consumeToken_untyped in H1 as [_ H1]. specialize (H1 Hfn).
        apply andThen_finished; [apply IHp; lia | by intros []].
    + intros [l1 p1] H1. apply IHl.
      enough (pending p1 < pending p) by lia.
      destruct fn.
      * by apply parseIntLit_Got in H1 as [_ ?].
      * by apply parseStringLit_Got in H1 as [_ ?].
      * apply andThen_Got in H1 as ([name p0] & H1 & [= <- <-]).
        by apply parseIdent_Got in H1.
      * apply parseUnary_Got in H1 as (op & p0 & r & _ & Hc & Hr & _).
        apply consumeToken_untyped in Hc as [Hc _].
        apply parsePrecedence_pending in Hr. lia.
  - intros prec leftExpr p Hf. cbn [infixLoop].
    destruct (isAtEnd p) eqn:Hend; [discriminate|].
    case_bool_decide as Hprec; [discriminate|].
    destruct (precedence_pos _ _ Hprec) as [_ [fn Hfn]]. rewrite Hfn.
    destruct fn.
    + apply andThen_finished.
      * unfold parseBinary. destruct (tokenType (token p)) as [op|]; [|discriminate].
        apply andThen_finished; [apply consumeToken_finished|]. intros p1 H1.
        apply consumeToken_untyped in H1 as [_ H1]. specialize (H1 Hend).
        apply andThen_finished; [apply IHp; lia | by intros []].
      * intros [l1 p1] H1. apply IHl.
        apply parseBinary_Got in H1 as (op & p0 & r & _ & Hc & Hr & _).
        apply consumeToken_untyped in Hc as [_ Hc]. specialize (Hc Hend).
        apply parsePrecedence_pending in Hr. lia.
    + apply andThen_finished.
      * unfold parseInvoke.
        apply andThen_finished; [apply consumeToken_finished|]. intros p1 H1.
        apply consumeToken_typed in H1 as [_ H1]. specialize (H1 ltac:(discriminate)).
        apply andThen_finished; [apply IHa; lia|]. intros [args p2] H2.
        apply andThen_finished; [apply consumeToken_finished | done].
      * intros [l1 p1] H1. apply IHl.
        apply parseInvoke_Got in H1 as (p0 & args & p2 & Hc & Hargs & Hc2 & _).
        apply consumeToken_typed in Hc as [_ Hc]. specialize (Hc ltac:(discriminate)).
        apply consumeToken_typed in Hc2 as [_ Hc2]. specialize (Hc2 ltac:(discriminate)).
        apply expression_pending in Hargs. lia.
  - intros args p Hf. cbn [argsLoop].
    destruct (curTokenIs TokenType.rparen p); cbn [negb]; [discriminate|].
    apply andThen_finished; [apply IHp; lia|]. intros [arg p1] H1.
    apply andThen_finished; [apply optional_comma_finished|]. intros p2 H2.
    apply parsePrecedence_pending in H1. apply optional_comma_pending in H2.
    apply IHa. lia.
Qed.

Lemma statement_total fuel :
  (∀ p, 2 * pending p + 2 ≤ fuel → parseStatement fuel p ≠ Unfinished)
  ∧ (∀ body p, 2 * pending p + 3 ≤ fuel → bodyLoop fuel body p ≠ Unfinished).
Proof.
  induction fuel as [|fuel (IHs & IHb)].
  { split; intros; lia. }
  split.
  - intros p Hf. cbn [parseStatement].
    assert (Hexpr : parseExpression (parsePrecedence fuel) p ≠ Unfinished).
    { apply expression_total. lia. }
    destruct (tokenType (token p)) as [[]|]; try exact Hexpr.
    + unfold parseVarDecl.
      apply andThen_finished; [apply consumeToken_finished|]. intros p1 H1.
      apply andThen_finished; [apply parseIdent_finished|]. intros [ident p2] H2.
      apply andThen_finished; [apply expectToken_finished|]. intros [tok p3] H3.
      apply consumeToken_typed in H1 as [_ H1]. specialize (H1 ltac:(discriminate)).
      apply parseIdent_Got in H2. apply expectToken_Got in H3 as (_ & _ & H3 & _).
      apply andThen_finished; [apply expression_total; lia | by intros []].
    + unfold parseFuncDecl.
      apply andThen_finished; [apply consumeToken_finished|]. intros p1 H1.
      apply andThen_finished; [apply parseIdent_finished|]. intros [name p2] H2.
      apply andThen_finished; [apply expectToken_finished|]. intros [t3 p3] H3.
      apply consumeToken_typed in H1 as [_ H1]. specialize (H1 ltac:(discriminate)).
      apply parseIdent_Got in H2. apply expectToken_Got in H3 as (_ & _ & H3 & _).
      apply andThen_finished; [apply paramsLoop_total; lia|]. intros [params p4] H4.
      apply paramsLoop_pending in H4.
      apply andThen_finished; [apply expectToken_finished|]. intros [t5 p5] H5.
      apply andThen_finished; [apply expectToken_finished|]. intros [t6 p6] H6.
      apply expectToken_Got in H5 as (_ & _ & H5 & _).
      apply expectToken_Got in H6 as (_ & _ & H6 & _).
      apply andThen_finished; [apply IHb; lia|]. intros [body p7] H7.
      apply andThen_finished; [apply expectToken_finished | by intros []].
    + unfold parsePrint.
      apply andThen_finished; [apply consumeToken_finished|]. intros p1 H1.
      apply consumeToken_typed in H1 as [_ H1]. specialize (H1 ltac:(discriminate)).
      apply andThen_finished; [apply expression_total; lia | by intros []].
  - intros body p Hf. cbn [bodyLoop].
    destruct (negb (isAtEnd p) && negb (curTokenIs TokenType.rbrace p)); [|discriminate].
    apply andThen_finished; [apply IHs; lia|]. intros [node p1] H1.
    apply statement_pending in H1. apply IHb. lia.
Qed.

Lemma parseLoop_total fuel nodes p :
  2 * pending p + 3 ≤ fuel → parseLoop fuel nodes p ≠ Unfinished.
Proof.
  revert nodes p. induction fuel as [|fuel IH]; intros nodes p Hf; [lia|].
  cbn [parseLoop]. destruct (isAtEnd p); cbn [negb]; [discriminate|].
  apply andThen_finished; [apply statement_total; lia|]. intros [node p1] H1.
  apply statement_pending in H1. apply IH. lia.
Qed.

(** The parser of a program starts with no more than one pending token
    per character. *)
Lemma new_pending input p :
  new (Tokenizer.new input) = Got p → pending p ≤ String.length input.
Proof.
  unfold new. intros H. apply andThen_Got in H as ([t1 tz1] & H1 & H).
  apply andThen_Got in H as ([t2 tz2] & H2 & [= <-]).
  destruct (next_progress _ _ _ H1) as (_ & Hlt1 & Heof1).
  destruct (next_progress _ _ _ H2) as (_ & Hlt2 & Heof2).
  unfold remaining at 2 in Hlt1. cbn [Tokenizer.new Tokenizer.input Tokenizer.idx] in Hlt1.
  rewrite chars_length in Hlt1.
  unfold pending, isAtEnd. cbn [token peekToken tokenizer].
  repeat case_bool_decide;
    repeat match goal with
    | H : ?t = eofToken, H' : ?t = eofToken → _ |- _ => specialize (H' H)
    | H : ?t ≠ eofToken, H' : ?t ≠ eofToken → _ |- _ => specialize (H' H)
    end; lia.
Qed.

Lemma new_finished tz : new tz ≠ Unfinished.
Proof.
  unfold new. apply andThen_finished; [apply next_finishes|]. intros [t1 tz1] _.
  apply andThen_finished; [apply next_finishes | by intros []].
Qed.

End ParserTotal.

(** ** The outcome does not depend on the bound *)

Section ParserBound.
Import Parser.

Lemma finishes_refl {A} (r : Parse A) : finishes r r.
Proof. by right. Qed.

Lemma finishes_Unfinished {A} (r : Parse A) : finishes Unfinished r.
Proof. by left. Qed.

Lemma finishes_andThen {A B} (r r' : Parse A) (k k' : A → Parse B) :
  finishes r r' → (∀ a, finishes (k a) (k' a)) →
  finishes (andThen r k) (andThen r' k').
Proof.
  intros [->| ->] Hk; [by left|]. destruct r'; cbn; [apply Hk | by right | by left].
Qed.

Lemma finishes_eq {A} (r r' : Parse A) : finishes r r' → r ≠ Unfinished → r' = r.
Proof. by intros [->| ->]. Qed.

Lemma paramsLoop_mono fuel fuel' params p :
  fuel ≤ fuel' → finishes (paramsLoop fuel params p) (paramsLoop fuel' params p).
Proof.
  revert fuel' params p. induction fuel as [|fuel IH]; intros fuel' params p Hle.
  - destruct fuel'; cbn [paramsLoop]; destruct (negb _);
      (apply finishes_refl || apply finishes_Unfinished).
  - destruct fuel' as [|fuel']; [lia|]. cbn [paramsLoop].
    destruct (negb _); [|by right].
    apply finishes_andThen; [apply finishes_refl|]. intros [param p1].
    apply finishes_andThen; [apply finishes_refl|]. intros p2. apply IH. lia.
Qed.

Section Methods.
Variables pp pp' : nat → t → Parse (AstNode * t).
Variables al al' : list AstNode → t → Parse (list AstNode * t).
Variables pl pl' : list string → t → Parse (list string * t).
Variables bl bl' : list AstNode → t → Parse (list AstNode * t).
Hypothesis Hpp : ∀ prec p, finishes (pp prec p) (pp' prec p).
Hypothesis Hal : ∀ args p, finishes (al args p) (al' args p).
Hypothesis Hpl : ∀ params p, finishes (pl params p) (pl' params p).
Hypothesis Hbl : ∀ body p, finishes (bl body p) (bl' body p).

Lemma parseUnary_mono p : finishes (parseUnary pp p) (parseUnary pp' p).
Proof using Hpp.
  unfold parseUnary. destruct (tokenType (token p)); [|by right].
  apply finishes_andThen; [apply finishes_refl|]. intros p1.
  apply finishes_andThen; [apply Hpp|]. intros []. apply finishes_refl.
Qed.

Lemma parseBinary_mono left_ p :
  finishes (parseBinary pp left_ p) (parseBinary pp' left_ p).
Proof using Hpp.
  unfold parseBinary. destruct (tokenType (token p)); [|by right].
  apply finishes_andThen; [apply finishes_refl|]. intros p1.
  apply finishes_andThen; [apply Hpp|]. intros []. apply finishes_refl.
Qed.

Lemma parseInvoke_mono target p :
  finishes (parseInvoke al target p) (parseInvoke al' target p).
Proof using Hal.
  unfold parseInvoke.
  apply finishes_andThen; [apply finishes_refl|]. intros p1.
  apply finishes_andThen; [apply Hal|]. intros []. apply finishes_refl.
Qed.

Lemma parseVarDecl_mono p : finishes (parseVarDecl pp p) (parseVarDecl pp' p).
Proof using Hpp.
  unfold parseVarDecl, parseExpression.
  apply finishes_andThen; [apply finishes_refl|]. intros p1.
  apply finishes_andThen; [apply finishes_refl|]. intros [ident p2].
  apply finishes_andThen; [apply finishes_refl|]. intros [tok p3].
  apply finishes_andThen; [apply Hpp|]. intros []. apply finishes_refl.
Qed.

Lemma parsePrint_mono p : finishes (parsePrint pp p) (parsePrint pp' p).
Proof using Hpp.
  unfold parsePrint, parseExpression.
  apply finishes_andThen; [apply finishes_refl|]. intros p1.
  apply finishes_andThen; [apply Hpp|]. intros []. apply finishes_refl.
Qed.

Lemma parseFuncDecl_mono p :
  finishes (parseFuncDecl pl bl p) (parseFuncDecl pl' bl' p).
Proof using Hpl Hbl.
  unfold parseFuncDecl.
  apply finishes_andThen; [apply finishes_refl|]. intros p1.
  apply finishes_andThen; [apply finishes_refl|]. intros [name p2].
  apply finishes_andThen; [apply finishes_refl|]. intros [t3 p3].
  apply finishes_andThen; [apply Hpl|]. intros [params p4].
  apply finishes_andThen; [apply finishes_refl|]. intros [t5 p5].
  apply finishes_andThen; [apply finishes_refl|]. intros [t6 p6].
  apply finishes_andThen; [apply Hbl|]. intros [body p7]. apply finishes_refl.
Qed.

End Methods.

Lemma expression_mono fuel :
  ∀ fuel', fuel ≤ fuel' →
  (∀ prec p, finishes (parsePrecedence fuel prec p) (parsePrecedence fuel' prec p))
  ∧ (∀ prec leftExpr p,
       finishes (infixLoop fuel prec leftExpr p) (infixLoop fuel' prec leftExpr p))
  ∧ (∀ args p, finishes (argsLoop fuel args p) (argsLoop fuel' args p)).
Proof.
  induction fuel as [|fuel IH]; intros fuel' Hle.
  { split; [intros; apply finishes_Unfinished|]. split.
    - intros prec leftExpr p. cbn [infixLoop].
      destruct fuel'; cbn [infixLoop]; repeat case_match;
        (apply finishes_refl || apply finishes_Unfinished).
    - intros args p. cbn [argsLoop].
      destruct fuel'; cbn [argsLoop]; repeat case_match;
        (apply finishes_refl || apply finishes_Unfinished). }
  destruct fuel' as [|fuel']; [lia|].
  destruct (IH fuel' ltac:(lia)) as (IHp & IHl & IHa).
  split; [|split].
  - intros prec p. cbn [parsePrecedence].
    destruct (getPrefixFn _) as [fn|]; [|apply finishes_refl].
    apply finishes_andThen; [|intros []; apply IHl].
    destruct fn; try apply finishes_refl. by apply parseUnary_mono.
  - intros prec leftExpr p. cbn [infixLoop].
    destruct (isAtEnd p); [apply finishes_refl|].
    case_bool_decide; [apply finishes_refl|].
    destruct (getInfixFn _) as [[]|].
    + apply finishes_andThen; [by apply parseBinary_mono | intros []; apply IHl].
    + apply finishes_andThen; [by apply parseInvoke_mono | intros []; apply IHl].
    + apply IHl.
  - intros args p. cbn [argsLoop]. destruct (negb _); [|apply finishes_refl].
    apply finishes_andThen; [apply IHp|]. intros [arg p1].
    apply finishes_andThen; [apply finishes_refl|]. intros p2. apply IHa.
Qed.

Lemma statement_mono fuel :
  ∀ fuel', fuel ≤ fuel' →
  (∀ p, finishes (parseStatement fuel p) (parseStatement fuel' p))
  ∧ (∀ body p, finishes (bodyLoop fuel body p) (bodyLoop fuel' body p)).
Proof.
  induction fuel as [|fuel IH]; intros fuel' Hle.
  { split; [intros; apply finishes_Unfinished|].
    intros body p. cbn [bodyLoop].
    destruct fuel'; cbn [bodyLoop]; repeat case_match;
      (apply finishes_refl || apply finishes_Unfinished). }
  destruct fuel' as [|fuel']; [lia|].
  destruct (IH fuel' ltac:(lia)) as (IHs & IHb).
  assert (Hpp : ∀ prec p,
    finishes (parsePrecedence fuel prec p) (parsePrecedence fuel' prec p)).
  { apply expression_mono. lia. }
  split.
  - intros p. cbn [parseStatement].
    destruct (tokenType (token p)) as [[]|]; try apply Hpp.
    + by apply parseVarDecl_mono.
    + apply parseFuncDecl_mono; [|exact IHb]. intros. apply paramsLoop_mono. lia.
    + by apply parsePrint_mono.
  - intros body p. cbn [bodyLoop]. destruct (_ && _); [|apply finishes_refl].
    apply finishes_andThen; [apply IHs|]. intros []. apply IHb.
Qed.

Lemma parseLoop_mono fuel fuel' nodes p :
  fuel ≤ fuel' → finishes (parseLoop fuel nodes p) (parseLoop fuel' nodes p).
Proof.
  revert fuel' nodes p. induction fuel as [|fuel IH]; intros fuel' nodes p Hle.
  - cbn [parseLoop]. destruct fuel'; cbn [parseLoop]; destruct (negb _);
      (apply finishes_refl || apply finishes_Unfinished).
  - destruct fuel' as [|fuel']; [lia|]. cbn [parseLoop].
    destruct (negb _); [|apply finishes_refl].
    apply finishes_andThen; [apply statement_mono; lia|]. intros []. apply IH. lia.
Qed.

Lemma parseProgram_mono fuel fuel' input :
  fuel ≤ fuel' → finishes (parseProgram fuel input) (parseProgram fuel' input).
Proof.
  intros Hle. unfold parseProgram, parse.
  apply finishes_andThen; [apply finishes_refl|]. intros p. by apply parseLoop_mono.
Qed.

Lemma parseProgram_total fuel input :
  2 * String.length input + 3 ≤ fuel → parseProgram fuel input ≠ Unfinished.
Proof.
  intros Hf. unfold parseProgram, parse.
  apply andThen_finished; [apply new_finished|]. intros p Hp.
  apply new_pending in Hp. apply parseLoop_total. lia.
Qed.

(** X5 The parser terminates: when the bound on the depth of its calls and
    on the iterations of its loops is at least twice the length of the
    program plus three, parsing returns the nodes of the program or throws,
    and the outcome is the same for every such bound. *)
Theorem parseProgram_terminates (input : string) (fuel : nat) :
  2 * String.length input + 3 ≤ fuel →
  parseProgram fuel input ≠ Unfinished
  ∧ parseProgram fuel input = parseProgram (2 * String.length input + 3) input.
Proof.
  intros Hf. split; [by apply parseProgram_total|].
  apply finishes_eq; [by apply parseProgram_mono | by apply parseProgram_total].
Qed.

Lemma parseProgram_terminates_witness :
  parseProgram 20 "f(1)" = parseProgram 11 "f(1)".
Proof. apply (parseProgram_terminates "f(1)" 20). cbn. lia. Defined.

End ParserBound.

(** ** What the parser builds and what it throws *)

Section ParserSpec.
Import Parser.

Lemma ensures_andThen {A B} (P : A → Prop) (Q : B → Prop) (r : Parse A)
    (k : A → Parse B) :
  ensures P r → (∀ a, P a → ensures Q (k a)) → ensures Q (andThen r k).
Proof. destruct r; cbn; eauto. Qed.

Lemma ensures_impl {A} (P Q : A → Prop) (r : Parse A) :
  ensures P r → (∀ a, P a → Q a) → ensures Q r.
Proof. destruct r; cbn; eauto. Qed.

Lemma next_spec tz : ensures (λ '(token, _), tokenOk token) (Tokenizer.next tz).
Proof.
  destruct (Tokenizer.next tz) as [[token tz']| |] eqn:H; cbn; [|by eapply next_Raise|done].
  by eapply next_tokenOk.
Qed.

Lemma nextToken_spec p :
  lexed p → ensures (λ '(_, p'), lexed p') (nextToken p).
Proof.
  intros [_ Hpeek]. unfold nextToken.
  eapply ensures_andThen; [apply next_spec|]. intros [peek tz] Hok. cbn. by split.
Qed.

Lemma expectToken_spec type p :
  lexed p → tokenType (token p) = Some type ∨ mayFail type →
  ensures (λ '(tok, p'), tok = token p ∧ tokenType tok = Some type ∧ tokenOk tok
                         ∧ lexed p')
    (expectToken type p).
Proof.
  intros Hlex Htype. unfold expectToken. case_bool_decide as Ht.
  - cbn. split; [congruence|]. by destruct Htype.
  - eapply ensures_andThen; [by apply nextToken_spec|].
    intros [t1 p1] Hp1. cbn. split; [reflexivity|]. split; [exact Ht|].
    split; [apply Hlex | exact Hp1].
Qed.

Lemma consumeToken_typed_spec type p :
  lexed p → tokenType (token p) = Some type ∨ mayFail type →
  ensures lexed (consumeToken (Some type) p).
Proof.
  intros Hlex Htype. cbn [consumeToken].
  eapply ensures_andThen; [by apply expectToken_spec|]. by intros [t1 p1] (_ & _ & _ & ?).
Qed.

Lemma consumeToken_untyped_spec p : lexed p → ensures lexed (consumeToken None p).
Proof.
  intros Hlex. cbn [consumeToken].
  eapply ensures_andThen; [by apply nextToken_spec|]. by intros [t1 p1] ?.
Qed.

Lemma tokenOk_plain type :
  tokenOk (PlainToken type) →
  type ≠ TokenType.int ∧ type ≠ TokenType.string ∧ type ≠ TokenType.ident.
Proof. cbn. rewrite !elem_of_cons, elem_of_nil. tauto. Qed.

Lemma precedence_le type : precedence type ≤ 3.
Proof. destruct type as [[]|]; cbn; lia. Qed.

Lemma parseIntLit_spec p prec :
  lexed p → tokenType (token p) = Some TokenType.int → prec ≤ 3 →
  ensures (λ '(n, p'), loopPre prec n p') (parseIntLit p).
Proof.
  intros Hlex Ht Hprec. unfold parseIntLit.
  eapply ensures_andThen; [apply expectToken_spec; auto|].
  intros [tok p1] (-> & Hty & Hok & Hlex1).
  destruct (token p) as [value| | |type|]; try discriminate.
  - cbn. split; [exact Hlex1|]. split; [by apply bool_decide_eq_true_2|].
    cbn [rightLevel leftLevel].
    split; [lia|]. pose proof (precedence_le (tokenType (token p1))). lia.
  - injection Hty as ->. by apply tokenOk_plain in Hok as (? & _).
Qed.

Lemma parseStringLit_spec p prec :
  lexed p → tokenType (token p) = Some TokenType.string → prec ≤ 3 →
  ensures (λ '(n, p'), loopPre prec n p') (parseStringLit p).
Proof.
  intros Hlex Ht Hprec. unfold parseStringLit.
  eapply ensures_andThen; [apply expectToken_spec; auto|].
  intros [tok p1] (-> & Hty & Hok & Hlex1).
  destruct (token p) as [|value| |type|]; try discriminate.
  - cbn. split; [exact Hlex1|]. split; [by apply bool_decide_eq_true_2|].
    cbn [rightLevel leftLevel].
    split; [lia|]. pose proof (precedence_le (tokenType (token p1))). lia.
  - injection Hty as ->. by apply tokenOk_plain in Hok as (_ & ? & _).
Qed.

Lemma parseIdent_spec p :
  lexed p →
  ensures (λ '(name, p'), lexed p' ∧ isName name = true) (parseIdent p).
Proof.
  intros Hlex. unfold parseIdent.
  eapply ensures_andThen.
  { apply expectToken_spec; [exact Hlex|]. right. unfold mayFail.
    rewrite !elem_of_cons. tauto. }
  intros [tok p1] (-> & Hty & Hok & Hlex1).
  destruct (token p) as [| |name|type|]; try discriminate.
  - cbn. by split.
  - injection Hty as ->. by apply tokenOk_plain in Hok as (_ & _ & ?).
Qed.

Lemma optional_comma_spec p :
  lexed p →
  ensures lexed (if curTokenIs TokenType.comma p
                 then consumeToken (Some TokenType.comma) p else Got p).
Proof.
  intros Hlex. destruct (curTokenIs TokenType.comma p) eqn:Hc; [|exact Hlex].
  apply consumeToken_typed_spec; [exact Hlex|]. left.
  by apply bool_decide_eq_true in Hc.
Qed.

Lemma paramsLoop_spec fuel params p :
  lexed p → forallb isName params = true →
  ensures (λ '(params', p'), lexed p' ∧ forallb isName params' = true
                             ∧ curTokenIs TokenType.rparen p' = true)
    (paramsLoop fuel params p).
Proof.
  revert params p. induction fuel as [|fuel IH]; intros params p Hlex Hps;
    cbn [paramsLoop]; destruct (curTokenIs TokenType.rparen p) eqn:Hr; cbn [negb];
    try done.
  eapply ensures_andThen; [by apply parseIdent_spec|]. intros [param p1] [Hlex1 Hname].
  eapply ensures_andThen; [by apply optional_comma_spec|]. intros p2 Hlex2.
  apply IH; [exact Hlex2|]. rewrite forallb_app, Hps. cbn. by rewrite Hname.
Qed.

Lemma getPrefixFn_Some type fn :
  getPrefixFn type = Some fn →
  match fn with
  | PrefixIntLit => type = Some TokenType.int
  | PrefixStringLit => type = Some TokenType.string
  | PrefixIdent => type = Some TokenType.ident
  | PrefixUnary => type = Some TokenType.minus
  end.
Proof. destruct type as [[]|]; cbn; intros [= <-]; reflexivity. Qed.

Lemma getInfixFn_Some type fn :
  getInfixFn type = Some fn →
  match fn with
  | InfixBinary =>
      ∃ op, type = Some op
            ∧ op ∈ [TokenType.plus; TokenType.minus; TokenType.star; TokenType.slash]
  | InfixInvoke => type = Some TokenType.lparen
  end.
Proof.
  destruct type as [[]|]; cbn; intros [= <-]; try reflexivity;
    eexists; (split; [reflexivity|]); rewrite !elem_of_cons; tauto.
Qed.

Lemma expression_spec fuel :
  (∀ prec p, lexed p → prec ≤ 3 →
     ensures (exprPost prec) (parsePrecedence fuel prec p))
  ∧ (∀ prec leftExpr p, loopPre prec leftExpr p → prec ≤ 3 →
       ensures (exprPost prec) (infixLoop fuel prec leftExpr p))
  ∧ (∀ args p, lexed p → forallb parsedExpr args = true →
       ensures (λ '(args', p'), lexed p' ∧ forallb parsedExpr args' = true
                                ∧ curTokenIs TokenType.rparen p' = true)
         (argsLoop fuel args p)).
Proof.
  assert (Hexit : ∀ prec leftExpr p, loopPre prec leftExpr p →
    precedence (tokenType (token p)) ≤ prec → exprPost prec (leftExpr, p)).
  { intros prec leftExpr p (Hlex & Hl & Hr & Hll) Hp. unfold exprPost. cbn [fst snd].
    split; [exact Hlex|]. split; [exact Hl|]. split; [exact Hr|].
    split; [exact Hll | exact Hp]. }
  induction fuel as [|fuel (IHp & IHl & IHa)].
  { split; [done|]. split.
    - intros prec leftExpr p Hpre Hprec. cbn [infixLoop].
      destruct (isAtEnd p) eqn:Hend.
      + apply Hexit; [exact Hpre|]. apply isAtEnd_eof in Hend. rewrite Hend. cbn. lia.
      + case_bool_decide; [by apply Hexit | done].
    - intros args p Hlex Hargs. cbn [argsLoop].
      destruct (curTokenIs TokenType.rparen p) eqn:Hr; cbn [negb]; done. }
  split; [|split].
  - intros prec p Hlex Hprec. cbn [parsePrecedence].
    destruct (getPrefixFn _) as [fn|] eqn:Hfn; [|exact Hfn].
    apply getPrefixFn_Some in Hfn.
    eapply ensures_andThen with (P := λ '(n, p'), loopPre prec n p');
      [|intros [n p1] Hpre; by apply IHl].
    destruct fn.
    + by apply parseIntLit_spec.
    + by apply parseStringLit_spec.
    + eapply ensures_andThen; [by apply parseIdent_spec|].
      intros [name p1] [Hlex1 Hname]. cbn. split; [exact Hlex1|]. split; [exact Hname|].
      cbn [rightLevel leftLevel].
    split; [lia|]. pose proof (precedence_le (tokenType (token p1))). lia.
    + unfold parseUnary. rewrite Hfn.
      eapply ensures_andThen; [by apply consumeToken_untyped_spec|]. intros p1 Hlex1.
      eapply ensures_andThen; [apply IHp; [exact Hlex1 | cbn; lia]|].
      intros [expr p2] (Hlex2 & He & Hr & Hll & Hnext). cbn [fst snd precedence] in *.
      unfold loopPre. cbn [ensures parsedExpr rightLevel leftLevel precedence].
      split; [exact Hlex2|]. split; [|split; [lia | exact Hnext]].
      rewrite He, bool_decide_eq_true_2 by reflexivity. cbn [andb].
      by apply Nat.ltb_lt.
  - intros prec leftExpr p Hpre Hprec. cbn [infixLoop].
    destruct (isAtEnd p) eqn:Hend.
    { apply Hexit; [exact Hpre|]. apply isAtEnd_eof in Hend. rewrite Hend. cbn. lia. }
    case_bool_decide as Hnext; [by apply Hexit|].
    destruct Hpre as (Hlex & Hl & Hr & Hll).
    destruct (getInfixFn _) as [[]|] eqn:Hfn.
    + apply getInfixFn_Some in Hfn as (op & Hop & Hin).
      eapply ensures_andThen with (P := λ '(n, p'), loopPre prec n p');
        [|intros [n p1] Hpre; by apply IHl].
      unfold parseBinary. rewrite Hop in *.
      eapply ensures_andThen; [by apply consumeToken_untyped_spec|]. intros p1 Hlex1.
      eapply ensures_andThen; [apply IHp; [exact Hlex1 | apply precedence_le]|].
      intros [right_ p2] (Hlex2 & He & Hrr & Hrl & Hnext2). cbn [fst snd] in *.
      unfold loopPre. cbn [ensures parsedExpr rightLevel leftLevel].
      split; [exact Hlex2|]. split; [|split; [lia | exact Hnext2]].
      rewrite Hl, He, bool_decide_eq_true_2 by exact Hin. cbn [andb].
      apply andb_true_iff. split; [by apply Nat.leb_le | by apply Nat.ltb_lt].
    + apply getInfixFn_Some in Hfn. rewrite Hfn in *. cbn in Hll, Hnext.
      eapply ensures_andThen with (P := λ '(n, p'), loopPre prec n p');
        [|intros [n p1] Hpre; by apply IHl].
      unfold parseInvoke.
      eapply ensures_andThen; [apply consumeToken_typed_spec; auto|]. intros p1 Hlex1.
      eapply ensures_andThen; [by apply IHa|].
      intros [args p2] (Hlex2 & Hargs & Hrp).
      eapply ensures_andThen.
      { apply consumeToken_typed_spec; [exact Hlex2|]. left.
        by apply bool_decide_eq_true in Hrp. }
      intros p3 Hlex3. unfold loopPre. cbn [ensures parsedExpr rightLevel leftLevel].
      split; [exact Hlex3|]. split; [|split; [lia|]].
      * rewrite Hl, Hargs. cbn [andb]. rewrite andb_true_r. by apply Nat.leb_le.
      * pose proof (precedence_le (tokenType (token p3))). lia.
    + destruct (precedence_pos _ _ Hnext) as [_ [fn Hfn']]. congruence.
  - intros args p Hlex Hargs. cbn [argsLoop].
    destruct (curTokenIs TokenType.rparen p) eqn:Hr; cbn [negb]; [done|].
    eapply ensures_andThen; [apply IHp; [exact Hlex | lia]|].
    intros [arg p1] (Hlex1 & He & _). cbn [fst snd] in *.
    eapply ensures_andThen; [by apply optional_comma_spec|]. intros p2 Hlex2.
    apply IHa; [exact Hlex2|]. rewrite forallb_app, Hargs. cbn. by rewrite He.
Qed.

Lemma parsedExpr_stmt node : parsedExpr node = true → parsedStmt node = true.
Proof. by destruct node. Qed.

Lemma parseExpression_spec fuel p :
  lexed p →
  ensures (λ '(n, p'), lexed p' ∧ parsedExpr n = true)
    (parseExpression (parsePrecedence fuel) p).
Proof.
  intros Hlex. eapply ensures_impl; [apply expression_spec; [exact Hlex | lia]|].
  by intros [n p'] (? & ? & _).
Qed.

Lemma statement_spec fuel :
  (∀ p, lexed p →
     ensures (λ '(n, p'), lexed p' ∧ parsedStmt n = true) (parseStatement fuel p))
  ∧ (∀ body p, lexed p → forallb parsedStmt body = true →
       ensures (λ '(body', p'), lexed p' ∧ forallb parsedStmt body' = true)
         (bodyLoop fuel body p)).
Proof.
  induction fuel as [|fuel (IHs & IHb)].
  { split; [done|]. intros body p Hlex Hbody. cbn [bodyLoop]. by destruct (_ && _). }
  split.
  - intros p Hlex. cbn [parseStatement].
    assert (Hexpr : ensures (λ '(n, p'), lexed p' ∧ parsedStmt n = true)
                      (parseExpression (parsePrecedence fuel) p)).
    { eapply ensures_impl; [by apply parseExpression_spec|].
      intros [n p'] [? ?]. split; [done | by apply parsedExpr_stmt]. }
    destruct (tokenType (token p)) as [[]|] eqn:Ht; try exact Hexpr.
    + unfold parseVarDecl.
      eapply ensures_andThen; [apply consumeToken_typed_spec; auto|]. intros p1 Hlex1.
      eapply ensures_andThen; [by apply parseIdent_spec|]. intros [ident p2] [Hlex2 Hname].
      eapply ensures_andThen.
      { apply expectToken_spec; [exact Hlex2|]. right. unfold mayFail.
        rewrite !elem_of_cons. tauto. }
      intros [tok p3] (_ & _ & _ & Hlex3).
      eapply ensures_andThen; [by apply parseExpression_spec|].
      intros [value p4] [Hlex4 Hv]. cbn. by rewrite Hname, Hv.
    + unfold parseFuncDecl.
      eapply ensures_andThen; [apply consumeToken_typed_spec; auto|]. intros p1 Hlex1.
      eapply ensures_andThen; [by apply parseIdent_spec|]. intros [name p2] [Hlex2 Hname].
      eapply ensures_andThen.
      { apply expectToken_spec; [exact Hlex2|]. right. unfold mayFail.
        rewrite !elem_of_cons. tauto. }
      intros [t3 p3] (_ & _ & _ & Hlex3).
      eapply ensures_andThen; [by apply paramsLoop_spec|].
      intros [params p4] (Hlex4 & Hparams & Hrp).
      eapply ensures_andThen.
      { apply expectToken_spec; [exact Hlex4|]. left. by apply bool_decide_eq_true in Hrp. }
      intros [t5 p5] (_ & _ & _ & Hlex5).
      eapply ensures_andThen.
      { apply expectToken_spec; [exact Hlex5|]. right. unfold mayFail.
        rewrite !elem_of_cons. tauto. }
      intros [t6 p6] (_ & _ & _ & Hlex6).
      eapply ensures_andThen; [by apply IHb|]. intros [body p7] [Hlex7 Hbody].
      eapply ensures_andThen.
      { apply expectToken_spec; [exact Hlex7|]. right. unfold mayFail.
        rewrite !elem_of_cons. tauto. }
      intros [t8 p8] (_ & _ & _ & Hlex8). cbn. by rewrite Hname, Hparams, Hbody.
    + unfold parsePrint.
      eapply ensures_andThen; [apply consumeToken_typed_spec; auto|]. intros p1 Hlex1.
      eapply ensures_andThen; [by apply parseExpression_spec|].
      by intros [expr p2] [Hlex2 He].
  - intros body p Hlex Hbody. cbn [bodyLoop]. destruct (_ && _); [|done].
    eapply ensures_andThen; [by apply IHs|]. intros [node p1] [Hlex1 Hn].
    apply IHb; [exact Hlex1|]. rewrite forallb_app, Hbody. cbn. by rewrite Hn.
Qed.

Lemma parseLoop_spec fuel nodes p :
  lexed p → forallb parsedStmt nodes = true →
  ensures (λ nodes', forallb parsedStmt nodes' = true) (parseLoop fuel nodes p).
Proof.
  revert nodes p. induction fuel as [|fuel IH]; intros nodes p Hlex Hnodes;
    cbn [parseLoop]; destruct (negb _); try done.
  eapply ensures_andThen; [by apply statement_spec|]. intros [node p1] [Hlex1 Hn].
  apply IH; [exact Hlex1|]. rewrite forallb_app, Hnodes. cbn. by rewrite Hn.
Qed.

Lemma new_spec tz : ensures lexed (new tz).
Proof.
  unfold new. eapply ensures_andThen; [apply next_spec|]. intros [t1 tz1] H1.
  eapply ensures_andThen; [apply next_spec|]. intros [t2 tz2] H2. by split.
Qed.

Lemma parseProgram_spec fuel input :
  ensures (λ nodes, forallb parsedStmt nodes = true) (parseProgram fuel input).
Proof.
  unfold parseProgram, parse. eapply ensures_andThen; [apply new_spec|].
  intros p Hlex. by apply parseLoop_spec.
Qed.

End ParserSpec.

Section ParserTheorems.
Import Parser.

(** X6 The trees that the parser returns.  The operands of unary and binary
    nodes, the target and the arguments of an invocation, the value of a
    declaration and the operand of [print] are expressions; declarations
    and [print] only occur as statements of the program or of a function
    body.  A unary operator is [minus], a binary operator is [plus],
    [minus], [star] or [slash].  Binary operators associate to the left,
    [star] and [slash] bind more tightly than [plus] and [minus], a unary
    minus applies to the whole product that follows it, and the target of
    an invocation is a literal, an identifier or an invocation.  Integer
    literals are not negative, and names are non-empty words of letters
    other than the keywords. *)
Theorem parseProgram_shape (fuel : nat) (input : string) (nodes : list AstNode) :
  parseProgram fuel input = Got nodes → forallb parsedStmt nodes = true.
Proof.
  intros H. pose proof (parseProgram_spec fuel input) as Hspec.
  by rewrite H in Hspec.
Qed.

Lemma parseProgram_shape_witness :
  forallb parsedStmt
    [Binary TokenType.minus
       (Binary TokenType.minus (Ident "a") (Binary TokenType.star (Ident "b") (Ident "c")))
       (Unary TokenType.minus (Binary TokenType.star (Ident "d") (Invoke (Ident "f") [])))]
  = true.
Proof.
  apply (parseProgram_shape 30 "a - b * c - -d * f()"). reflexivity.
Defined.

(** X7 What the front end throws.  [Unknown token] names a character that
    is not white space, a digit, a letter, a quote or one of the ten
    punctuation characters.  [Expected token T got G] is only thrown for
    [T] among [ident], [eq], [lparen], [lbrace] and [rbrace], with [G]
    another type than [T].  [Unexpected token G] is thrown for a type [G]
    that starts no expression: not [int], [string], [ident] or [minus]. *)
Theorem parseProgram_throws (fuel : nat) (input : string) (e : SyntaxError) :
  parseProgram fuel input = Raise e →
  match e with
  | UnknownToken ch =>
      isWhitespace ch = false ∧ isDigit ch = false ∧ isAlpha ch = false
      ∧ ch ∉ chars "'=+-*/(){},"
  | ExpectedToken expected got =>
      got ≠ Some expected
      ∧ expected ∈ [TokenType.ident; TokenType.eq; TokenType.lparen;
                    TokenType.lbrace; TokenType.rbrace]
  | UnexpectedToken got =>
      got ∉ [Some TokenType.int; Some TokenType.string; Some TokenType.ident;
             Some TokenType.minus]
  end.
Proof.
  intros H. pose proof (parseProgram_spec fuel input) as Hspec.
  rewrite H in Hspec. cbn [ensures] in Hspec. destruct e; try exact Hspec.
  cbn [errorOk] in Hspec. rewrite !elem_of_cons, elem_of_nil.
  intros [->|[->|[->|[->|[]]]]]; discriminate.
Qed.

Lemma parseProgram_throws_witness :
  Some TokenType.eof ≠ Some TokenType.rbrace
  ∧ TokenType.rbrace ∈ [TokenType.ident; TokenType.eq; TokenType.lparen;
                        TokenType.lbrace; TokenType.rbrace].
Proof.
  apply (parseProgram_throws 30 "def f() { 1"
           (ExpectedToken TokenType.rbrace (Some TokenType.eof))).
  reflexivity.
Defined.

End ParserTheorems.

(** ** Compiled code is linked against the pool *)

Section LinkedCode.
Import Compiler.

Lemma Linked_app n c1 c2 : Linked n c1 → Linked n c2 → Linked n (c1 ++ c2).
Proof.
  induction 1 as [|op rest H0 Hr _ IH|op operand rest H1 Hk _ IH]; intros H2; cbn.
  - done.
  - by apply Linked_op0; [..|apply IH].
  - by apply Linked_op1; [..|apply IH].
Qed.

Lemma Linked_mono n n' c : n ≤ n' → Linked n c → Linked n' c.
Proof.
  intros Hle. induction 1 as [|op rest H0 Hr _ IH|op operand rest H1 Hk _ IH].
  - constructor.
  - by apply Linked_op0.
  - apply Linked_op1; [done| |done]. intros E. specialize (Hk E). lia.
Qed.

Lemma Linked_Instrs n c : Linked n c → Instrs c.
Proof.
  induction 1 as [|op rest H0 Hr _ IH|op operand rest H1 Hk _ IH].
  - constructor.
  - by apply Instrs_op0.
  - by apply Instrs_op1.
Qed.

Lemma Linked_one n op : opcodeArgs op = 0 → op ≠ Opcode.return_ → Linked n [byte op].
Proof. intros H0 Hr. apply Linked_op0; [exact H0 | exact Hr | constructor]. Qed.

Lemma Linked_two n op operand :
  opcodeArgs op = 1 → op ≠ Opcode.constant → Linked n [byte op; operand].
Proof. intros H1 Hc. apply Linked_op1; [exact H1 | by intros ? | constructor]. Qed.

Lemma Linked_constant n i : i < n → Linked n [byte Opcode.constant; Z.of_nat i].
Proof. intros. apply Linked_op1; [done| |constructor]. intros _. lia. Qed.

Lemma Linked_replicate_pop n k : Linked n (replicate k (byte Opcode.pop)).
Proof.
  induction k as [|k IH]; cbn [replicate]; [apply Linked_nil|].
  by apply (Linked_op0 n Opcode.pop).
Qed.

Lemma linkedValue_mono n n' v : n ≤ n' → linkedValue n v → linkedValue n' v.
Proof.
  intros Hle. destruct v; try done. intros (c & -> & Hc). exists c.
  split; [done | by eapply Linked_mono].
Qed.

Lemma scanConstants_lt value cs i j :
  scanConstants value cs i = Some j → j < i + length cs.
Proof.
  revert i. induction cs as [|c cs IH]; intros i; cbn [scanConstants length]; [discriminate|].
  destruct (Lodash.eq value c); [intros [= <-]; lia|].
  intros H. apply IH in H. lia.
Qed.

(** [addConstant] returns an index of the pool it leaves, in which the
    functions are linked if the added one is. *)
Lemma addConstant_linked o st :
  poolLinked st → linkedValue (S (length (constants st))) (val o) →
  (addConstant o st).1 < length (constants (addConstant o st).2)
  ∧ poolLinked (addConstant o st).2
  ∧ length (constants st) ≤ length (constants (addConstant o st).2).
Proof.
  intros Hp Ho. unfold addConstant.
  destruct (scanConstants o (constants st) 0) as [j|] eqn:Hs; cbn [fst snd constants].
  - apply scanConstants_lt in Hs. split; [lia|]. split; [exact Hp | lia].
  - rewrite length_app. cbn [length]. split; [lia|]. split; [|lia].
    unfold poolLinked. cbn [constants]. rewrite length_app. cbn [length].
    replace (length (constants st) + 1) with (S (length (constants st))) by lia.
    apply Forall_app. split; [|by constructor].
    eapply Forall_impl; [exact Hp|]. intros c Hc.
    eapply linkedValue_mono; [|exact Hc]. lia.
Qed.

Lemma poolLinked_same st st' :
  constants st' = constants st → poolLinked st → poolLinked st'.
Proof. unfold poolLinked. by intros ->. Qed.

Lemma alloc_fields v st :
  val (alloc v st).1 = v
  ∧ constants (alloc v st).2 = constants st
  ∧ code (alloc v st).2 = code st.
Proof. done. Qed.

(** A literal that goes through the pool. *)
Lemma literal_Linked v st :
  poolLinked st → linkedValue (S (length (constants st))) v →
  let st' := emit [byte Opcode.constant;
                   Z.of_nat (addConstant (alloc v st).1 (alloc v st).2).1]
               (addConstant (alloc v st).1 (alloc v st).2).2 in
  poolLinked st' ∧ length (constants st) ≤ length (constants st')
  ∧ ∃ c, emits st st' c ∧ Linked (length (constants st')) c.
Proof.
  intros Hp Hv st'.
  destruct (addConstant_linked (alloc v st).1 (alloc v st).2) as (Hi & Hp' & Hle).
  { by eapply poolLinked_same. }
  { exact Hv. }
  split; [exact Hp'|]. split; [exact Hle|].
  eexists. split; [|by apply Linked_constant].
  unfold emits, st'. cbn [emit withCode code]. by rewrite addConstant_code.
Qed.

End LinkedCode.

Section LinkedVisit.
Import Compiler.

Lemma links_emit bytes st :
  poolLinked st → Linked (length (constants st)) bytes → links st (emit bytes st).
Proof. intros Hp Hb. split; [exact Hp|]. split; [done|]. exists bytes. by split. Qed.

Lemma links_refl st : poolLinked st → links st st.
Proof.
  intros Hp. split; [exact Hp|]. split; [done|]. exists [].
  split; [unfold emits; by rewrite app_nil_r | constructor].
Qed.

Lemma links_trans st1 st2 st3 : links st1 st2 → links st2 st3 → links st1 st3.
Proof.
  intros (Hp2 & Hle2 & c1 & Hc1 & Hl1) (Hp3 & Hle3 & c2 & Hc2 & Hl2).
  split; [exact Hp3|]. split; [lia|]. exists (c1 ++ c2). split.
  - by eapply emits_trans.
  - apply Linked_app; [|exact Hl2]. by eapply Linked_mono.
Qed.

Lemma links_pool st st' : links st st' → poolLinked st'.
Proof. by intros (? & _). Qed.

Lemma links_pushLocal name st st' : links st st' → links st (pushLocal name st').
Proof. done. Qed.

Lemma popLocals_code n st :
  code (popLocals n st) = code st ++ replicate n (byte Opcode.pop)
  ∧ constants (popLocals n st) = constants st
  ∧ nextAddr (popLocals n st) = nextAddr st.
Proof.
  revert st. induction n as [|n IH]; intros st; cbn [popLocals replicate].
  - by rewrite app_nil_r.
  - destruct (IH (emit [byte Opcode.pop] (withLocals (removelast (locals st)) st)))
      as (Hc & Hk & Hn).
    rewrite Hc, Hk, Hn. cbn. by rewrite <- app_assoc.
Qed.

Lemma visitIntLit_links value st st' :
  poolLinked st → visitIntLit value st = Ok st' → links st st'.
Proof.
  intros Hp. unfold visitIntLit. case_bool_decide as Hv.
  - subst value. intros [= <-]. apply links_emit; [exact Hp|].
    by apply (Linked_one _ Opcode.const0).
  - pose proof (literal_Linked (VNumber value) st Hp I) as H.
    destruct (alloc (VNumber value) st) as [o s] eqn:Ea. cbn [fst snd] in H.
    destruct (addConstant o s) as [i s'] eqn:Eb. cbn [fst snd] in H.
    by intros [= <-].
Qed.

Lemma visitStringLit_links value st st' :
  poolLinked st → visitStringLit value st = Ok st' → links st st'.
Proof.
  intros Hp. unfold visitStringLit.
  pose proof (literal_Linked (VString value) st Hp I) as H.
  destruct (alloc (VString value) st) as [o s] eqn:Ea. cbn [fst snd] in H.
  destruct (addConstant o s) as [i s'] eqn:Eb. cbn [fst snd] in H.
  by intros [= <-].
Qed.

Lemma afterNode_links node isLast st : poolLinked st → links st (afterNode node isLast st).
Proof.
  intros Hp. unfold afterNode.
  destruct (isExpr node), isLast; cbn [andb negb].
  - by apply links_refl.
  - apply links_emit; [exact Hp | by apply (Linked_one _ Opcode.pop)].
  - apply links_emit; [exact Hp | by apply (Linked_one _ Opcode.nil)].
  - by apply links_refl.
Qed.

Lemma finishFunc_links name origCode origDepth s1 :
  poolLinked s1 → Linked (length (constants s1)) (code s1) →
  let st' := finishFunc name origCode origDepth s1 in
  poolLinked st' ∧ length (constants s1) ≤ length (constants st')
  ∧ ∃ idx, code st' = origCode ++ [byte Opcode.constant; Z.of_nat idx]
           ∧ idx < length (constants st').
Proof.
  intros Hp Hc. unfold finishFunc.
  set (k := length (localsAtDepth (emit [byte Opcode.store; 0%Z] s1)) - 1).
  destruct (popLocals_code k (emit [byte Opcode.store; 0%Z] s1)) as (Hc2 & Hk2 & _).
  cbn [emit withCode code constants] in Hc2, Hk2.
  set (s2 := popLocals k (emit [byte Opcode.store; 0%Z] s1)) in *. clearbody s2 k.
  set (s3 := emit [byte Opcode.return_] (withLocals (removelast (locals s2)) s2)).
  set (sA := pushLocal name (withDepth origDepth (withCode origCode s3))).
  assert (HkA : constants sA = constants s1) by exact Hk2.
  assert (HcA : code sA = origCode) by reflexivity.
  assert (Hfn : code s3 = (code s1 ++ [byte Opcode.store; 0%Z]
                           ++ replicate k (byte Opcode.pop)) ++ [byte Opcode.return_]).
  { unfold s3. cbn [emit withCode withLocals code]. rewrite Hc2.
    by rewrite <- !app_assoc. }
  clearbody sA s3.
  destruct (addConstant_linked (alloc (VFunction name (code s3)) sA).1
              (alloc (VFunction name (code s3)) sA).2) as (Hi & Hp' & Hle).
  { eapply poolLinked_same; [|exact Hp]. exact HkA. }
  { cbn [alloc fst snd val constants]. rewrite HkA. eexists. split; [exact Hfn|].
    apply Linked_app; [eapply Linked_mono; [|exact Hc]; lia|].
    apply Linked_app; [by apply Linked_two | apply Linked_replicate_pop]. }
  pose proof (addConstant_code (alloc (VFunction name (code s3)) sA).1
                (alloc (VFunction name (code s3)) sA).2) as Hcode.
  assert (HkB : constants (alloc (VFunction name (code s3)) sA).2 = constants s1)
    by exact HkA.
  assert (HcB : code (alloc (VFunction name (code s3)) sA).2 = origCode) by exact HcA.
  destruct (alloc (VFunction name (code s3)) sA) as [o sB].
  cbn [fst snd] in *.
  destruct (addConstant o sB) as [i sC]. cbn [fst snd] in *.
  cbn [emit withCode code constants]. split; [exact Hp'|]. split; [by rewrite <- HkB|].
  exists i. split; [by rewrite Hcode, HcB | exact Hi].
Qed.

Lemma compileBlock_links body :
  Forall (λ node, ∀ st st', poolLinked st → visit node st = Ok st' → links st st') body →
  ∀ st st', poolLinked st → compileBlock body st = Ok st' → links st st'.
Proof.
  induction 1 as [|node rest Hn _ IH]; intros st st' Hp; cbn [compileBlock].
  - intros [= <-]. by apply links_refl.
  - intros H. apply bind_Ok in H as (s1 & Hv & Hb).
    pose proof (Hn _ _ Hp Hv) as H1.
    pose proof (afterNode_links node (bool_decide (rest = [])) s1 (links_pool _ _ H1)) as H2.
    pose proof (IH _ _ (links_pool _ _ H2) Hb) as H3.
    eapply links_trans; [|exact H3]. by eapply links_trans.
Qed.

Lemma visitAll_links args :
  Forall (λ node, ∀ st st', poolLinked st → visit node st = Ok st' → links st st') args →
  ∀ st st', poolLinked st → visitAll args st = Ok st' → links st st'.
Proof.
  induction 1 as [|node rest Hn _ IH]; intros st st' Hp; cbn [visitAll].
  - intros [= <-]. by apply links_refl.
  - intros H. apply bind_Ok in H as (s1 & Hv & Hb).
    pose proof (Hn _ _ Hp Hv) as H1.
    eapply links_trans; [exact H1|]. apply IH; [by eapply links_pool | exact Hb].
Qed.

Lemma enterFunc_fields params st :
  code (enterFunc params st) = [] ∧ constants (enterFunc params st) = constants st.
Proof. by destruct (enterFunc_scope params st) as (_ & _ & ? & ? & _). Qed.

(** Compiling a node keeps the functions of the pool linked and appends
    linked code. *)
Lemma visit_links node :
  ∀ st st', poolLinked st → visit node st = Ok st' → links st st'.
Proof.
  induction node as
    [value|value|name|op expr IH|op l r IHl IHr|target args IHt IHa
    |name value IH|name params body IH|expr IH] using AstNode_ind;
    intros st st' Hp.
  - cbn [visit]. by apply visitIntLit_links.
  - cbn [visit]. by apply visitStringLit_links.
  - cbn [visit]. unfold visitIdent. destruct (scanLocals _ _ _) as [i|]; [|discriminate].
    intros [= <-]. apply links_emit; [exact Hp|]. by apply (Linked_two _ Opcode.load).
  - rewrite visit_Unary. unfold visitUnary. intros H.
    apply bind_Ok in H as (s1 & Hv & Hb). pose proof (IH _ _ Hp Hv) as H1.
    destruct op; try discriminate. injection Hb as <-.
    eapply links_trans; [exact H1|]. apply links_emit; [by eapply links_pool|].
    by apply (Linked_one _ Opcode.neg).
  - rewrite visit_Binary. unfold visitBinary. intros H.
    apply bind_Ok in H as (s1 & Hv1 & H). apply bind_Ok in H as (s2 & Hv2 & Hb).
    pose proof (IHl _ _ Hp Hv1) as H1.
    pose proof (IHr _ _ (links_pool _ _ H1) Hv2) as H2.
    destruct op; try discriminate; injection Hb as <-;
      (eapply links_trans; [eapply links_trans; [exact H1 | exact H2]|]);
      (apply links_emit; [by eapply links_pool|]).
    + by apply (Linked_one _ Opcode.add).
    + by apply (Linked_one _ Opcode.sub).
  - rewrite visit_Invoke. unfold visitInvoke. intros H.
    apply bind_Ok in H as (s1 & Hv1 & H). apply bind_Ok in H as (s2 & Hv2 & Hb).
    injection Hb as <-.
    assert (H0 : links st (emit [byte Opcode.nil] st)).
    { apply links_emit; [exact Hp|]. by apply (Linked_one _ Opcode.nil). }
    pose proof (visitAll_links args IHa _ _ (links_pool _ _ H0) Hv1) as H1.
    pose proof (IHt _ _ (links_pool _ _ H1) Hv2) as H2.
    eapply links_trans; [exact H0|]. eapply links_trans; [exact H1|].
    eapply links_trans; [exact H2|]. apply links_emit; [by eapply links_pool|].
    by apply (Linked_two _ Opcode.invoke).
  - rewrite visit_ValDecl. unfold visitValDecl.
    destruct (alreadyExists name st); [discriminate|]. intros H.
    apply bind_Ok in H as (s1 & Hv & Hb). injection Hb as <-.
    apply links_pushLocal. by apply IH.
  - rewrite visit_FuncDecl. unfold visitFuncDecl.
    destruct (alreadyExists name st); [discriminate|]. intros H.
    apply bind_Ok in H as (s1 & Hv & Hb). injection Hb as <-.
    destruct (enterFunc_fields params st) as [Hc0 Hk0].
    apply compileBlock_links in Hv; [|exact IH|by eapply poolLinked_same].
    destruct Hv as (Hp1 & Hle1 & c & Hc & Hl). unfold emits in Hc.
    rewrite Hc0 in Hc. cbn [app] in Hc. rewrite Hk0 in Hle1.
    destruct (finishFunc_links name (code st) (depth st) s1 Hp1) as (Hp' & Hle' & i & Hcode & Hi).
    { by rewrite Hc. }
    split; [exact Hp'|]. split; [lia|]. eexists. split; [exact Hcode|].
    by apply Linked_constant.
  - rewrite visit_Print. unfold visitPrint. intros H.
    apply bind_Ok in H as (s1 & Hv & Hb). injection Hb as <-.
    pose proof (IH _ _ Hp Hv) as H1.
    eapply links_trans; [exact H1|]. apply links_emit; [by eapply links_pool|].
    by apply (Linked_one _ Opcode.print).
Qed.

Lemma poolLinked_init : poolLinked init.
Proof. constructor. Qed.

(** The module of a compiled program is linked. *)
Lemma compile_linked nodes m : compile nodes = Ok m → linkedModule m.
Proof.
  unfold compile. intros H. apply bind_Ok in H as (st & Hb & [= <-]).
  apply compileBlock_links in Hb; [|apply Forall_forall; intros n _; apply visit_links
                                   |apply poolLinked_init].
  destruct Hb as (Hp & _ & c & Hc & Hl). unfold emits in Hc. cbn [init code app] in Hc.
  unfold linkedModule, moduleConstants, moduleCode.
  cbn. rewrite length_map. split.
  - exists c. by rewrite Hc.
  - apply Forall_map. exact Hp.
Qed.

End LinkedVisit.

(** ** Running linked code *)

Section Safety.
Import VM.

Lemma linkedFrame_next n f c1 instr c2 :
  code f = c1 ++ (instr ++ c2) ++ [byte Opcode.return_] →
  Linked n c1 → Linked n instr → Linked n c2 → ip f = length c1 →
  linkedFrame n (mkFrame (length instr + ip f) (code f) (stackOffset f)).
Proof.
  intros Hc H1 Hi H2 Hip. exists (c1 ++ instr), c2. cbn [code ip].
  split; [by rewrite Hc, <- !app_assoc|]. split; [by apply Linked_app|].
  split; [exact H2|]. rewrite length_app. lia.
Qed.

Lemma linkedFrame_byte (f : CallFrame) c1 b c2 :
  code f = c1 ++ (b :: c2) ++ [byte Opcode.return_] → ip f = length c1 →
  code f !! (ip f + 0) = Some b.
Proof.
  intros Hc Hip. rewrite Hc, Hip, Nat.add_0_r. by apply list_lookup_middle.
Qed.

Lemma linkedFrame_operand (f : CallFrame) c1 b operand c2 :
  code f = c1 ++ (b :: operand :: c2) ++ [byte Opcode.return_] → ip f = length c1 →
  code f !! (ip f + 1) = Some operand.
Proof.
  intros Hc Hip. rewrite Hc, Hip.
  change (c1 ++ (b :: operand :: c2) ++ [byte Opcode.return_])
    with (c1 ++ [b] ++ operand :: (c2 ++ [byte Opcode.return_])).
  rewrite app_assoc. apply list_lookup_middle. rewrite length_app. cbn. lia.
Qed.

Lemma Forall_snoc_inv {A} (P : A → Prop) l x : Forall P (l ++ [x]) → Forall P l ∧ P x.
Proof. rewrite Forall_app, Forall_singleton. tauto. Qed.

Lemma constantAt_linked m n constIdx c :
  Forall (linkedValue n) (moduleConstants m) → constantAt m constIdx = Some c →
  linkedValue n c.
Proof.
  intros Hall. unfold constantAt. destruct constIdx as [i|]; [|discriminate].
  case_bool_decide; [|discriminate]. intros Hc.
  rewrite Forall_forall in Hall. apply Hall. by eapply list_elem_of_lookup_2.
Qed.

Lemma constantAt_range m i :
  (0 ≤ i < Z.of_nat (length (moduleConstants m)))%Z → ∃ c, constantAt m (Some i) = Some c.
Proof.
  intros Hi. unfold constantAt. rewrite bool_decide_eq_true_2 by lia.
  apply lookup_lt_is_Some. unfold moduleConstants in Hi. lia.
Qed.

Lemma propGet_linked n k ps v :
  Forall (λ kv, linkedValue n kv.2) ps → propGet k ps = Some v → linkedValue n v.
Proof.
  induction 1 as [|[k' v'] ps Hkv _ IH]; cbn [propGet]; [discriminate|].
  destruct (decide (k' = k)); [by intros [= <-] | exact IH].
Qed.

Lemma propSet_linked n k v ps :
  Forall (λ kv, linkedValue n kv.2) ps → linkedValue n v →
  Forall (λ kv, linkedValue n kv.2) (propSet k v ps).
Proof.
  intros Hall Hv. induction Hall as [|[k' v'] ps Hkv Hps IH]; cbn [propSet].
  - by repeat constructor.
  - destruct (decide (k' = k)); by constructor.
Qed.

Lemma arrGet_linked n k a v :
  Forall (linkedValue n) (elems a) → Forall (λ kv, linkedValue n kv.2) (props a) →
  arrGet k a = Some v → linkedValue n v.
Proof.
  intros Hel Hpr. unfold arrGet. destruct k as [z|]; [|by apply propGet_linked].
  case_bool_decide; [|by apply propGet_linked].
  intros Hv. rewrite Forall_forall in Hel. apply Hel. by eapply list_elem_of_lookup_2.
Qed.

Lemma arrSet_linked n k v a :
  Forall (linkedValue n) (elems a) → Forall (λ kv, linkedValue n kv.2) (props a) →
  linkedValue n v →
  Forall (linkedValue n) (elems (arrSet k v a))
  ∧ Forall (λ kv, linkedValue n kv.2) (props (arrSet k v a)).
Proof.
  intros Hel Hpr Hv. unfold arrSet. destruct k as [z|].
  - case_bool_decide; [case_bool_decide|]; cbn [elems props].
    + split; [|exact Hpr]. by apply Forall_insert.
    + split; [|exact Hpr]. apply Forall_app. split; [exact Hel | by constructor].
    + split; [exact Hel | by apply propSet_linked].
  - cbn [elems props]. split; [exact Hel | by apply propSet_linked].
Qed.

End Safety.

Section SafeSteps.
Import VM.

Lemma safe_mk m f cs s h o :
  Forall (linkedValue (length (moduleConstants m))) (moduleConstants m) →
  Forall (linkedValue (length (moduleConstants m))) (elems s) →
  Forall (λ kv, linkedValue (length (moduleConstants m)) kv.2) (props s) →
  linkedFrame (length (moduleConstants m)) f →
  Forall (linkedFrame (length (moduleConstants m))) cs →
  safe (mk m f cs s h o).
Proof. intros. unfold safe. cbn. tauto. Qed.

Lemma byteAt_operand vm pre b operand post :
  code (currentFrame vm) = pre ++ b :: operand :: post →
  ip (currentFrame vm) = length pre →
  byteAt vm 1 = Some operand.
Proof.
  intros Hc Hi. unfold byteAt. rewrite Hc, Hi.
  change (pre ++ b :: operand :: post) with (pre ++ [b] ++ operand :: post).
  rewrite app_assoc. apply list_lookup_middle. rewrite length_app. cbn. lia.
Qed.

(** One instruction of a safe state: it does not fail on the index of a
    constant, and it halts the VM or leaves a safe state. *)
Lemma step_safe vm :
  safe vm →
  (∃ op, byteAt vm 0 = Some (byte op)
         ∧ (opcodeArgs op = 1 → ∃ operand, byteAt vm 1 = Some operand))
  ∧ match handleInstr vm with
    | Done vm' => halted vm' = true ∨ safe vm'
    | Fail e _ => ∀ constIdx, e ≠ ConstantIndexOutOfRange constIdx
    end.
Proof.
  intros (Hpool & Hel & Hpr & (c1 & c2 & Hcode & Hl1 & Hl2 & Hip) & Hcs).
  set (n := length (moduleConstants (module vm))) in *.
  inversion Hl2 as [E|op rest H0 Hr Hrest E|op operand rest H1 Hk Hrest E]; subst c2.
  - (* the [return] at the end of the code *)
    assert (Hb : byteAt vm 0 = Some (byte Opcode.return_))
      by (by apply (byteAt_middle vm c1 _ [])).
    split; [exists Opcode.return_; by split|].
    unfold handleInstr. rewrite readByte_byteAt, Hb, decode_byte.
    destruct (callers vm) as [|f r] eqn:Ec; cbn [callers advance withFrame]; rewrite Ec.
    + by left.
    + right. inversion Hcs; subst. by apply safe_mk.
  - (* an instruction without operand *)
    assert (Hb : byteAt vm 0 = Some (byte op))
      by (by apply (byteAt_middle vm c1 _ (rest ++ [byte Opcode.return_]))).
    split; [exists op; split; [exact Hb | intros; congruence]|].
    assert (Hf : linkedFrame n (currentFrame (advance 1 vm))).
    { apply (linkedFrame_next n (currentFrame vm) c1 [byte op] rest); try done.
      by apply Linked_one. }
    assert (Hsafe : ∀ l ps o,
      Forall (linkedValue n) l → Forall (λ kv, linkedValue n kv.2) ps →
      safe (mk (module vm) (currentFrame (advance 1 vm)) (callers vm) (mkArr l ps)
              (halted vm) o)).
    { intros l ps o Hl Hps. by apply safe_mk. }
    unfold handleInstr. rewrite readByte_byteAt, Hb, decode_byte.
    destruct op; try discriminate; try done.
    + right. apply Hsafe; [|exact Hpr]. apply Forall_app. split; [exact Hel | by constructor].
    + right. apply Hsafe; [|exact Hpr]. apply Forall_app. split; [exact Hel | by constructor].
    + right. apply Hsafe; [|exact Hpr]. apply Forall_app. split; [exact Hel | by constructor].
    + (* neg *)
      destruct (snoc_cases (elems (stack (advance 1 vm)))) as [E|(l & v & E)];
        [by rewrite (pop_empty _ _ E)|rewrite (pop_snoc _ _ l v E)].
      rewrite stack_advance in E. rewrite E in Hel. apply Forall_snoc_inv in Hel as [Hl Hv].
      destruct v; try done. right. apply Hsafe; [|exact Hpr].
      apply Forall_app. split; [exact Hl | by constructor].
    + (* add *)
      destruct (snoc_cases (elems (stack (advance 1 vm)))) as [E|(l & r & E)];
        [by rewrite (pop_empty _ _ E)|rewrite (pop_snoc _ _ l r E)].
      rewrite stack_advance in E. rewrite E in Hel. apply Forall_snoc_inv in Hel as [Hl Hv].
      destruct (snoc_cases l) as [E'|(l' & v & E')];
        [by rewrite (pop_empty (setElems l (advance 1 vm)) _ E')
        |rewrite (pop_snoc (setElems l (advance 1 vm)) _ l' v E')].
      subst l. apply Forall_snoc_inv in Hl as [Hl' Hv'].
      destruct (isString v || isString r).
      * right. apply Hsafe; [|exact Hpr]. apply Forall_app. split; [exact Hl' | by constructor].
      * destruct v, r; try done; right; (apply Hsafe; [|exact Hpr]);
          apply Forall_app; (split; [exact Hl' | by constructor]).
    + (* sub *)
      destruct (snoc_cases (elems (stack (advance 1 vm)))) as [E|(l & r & E)];
        [by rewrite (pop_empty _ _ E)|rewrite (pop_snoc _ _ l r E)].
      rewrite stack_advance in E. rewrite E in Hel. apply Forall_snoc_inv in Hel as [Hl Hv].
      destruct (snoc_cases l) as [E'|(l' & v & E')];
        [by rewrite (pop_empty (setElems l (advance 1 vm)) _ E')
        |rewrite (pop_snoc (setElems l (advance 1 vm)) _ l' v E')].
      subst l. apply Forall_snoc_inv in Hl as [Hl' Hv'].
      destruct v, r; try done; right; (apply Hsafe; [|exact Hpr]);
        apply Forall_app; (split; [exact Hl' | by constructor]).
    + (* print *)
      destruct (snoc_cases (elems (stack (advance 1 vm)))) as [E|(l & v & E)];
        [by rewrite (pop_empty _ _ E)|rewrite (pop_snoc _ _ l v E)].
      rewrite stack_advance in E. rewrite E in Hel. apply Forall_snoc_inv in Hel as [Hl Hv].
      right. by apply Hsafe.
    + (* pop *)
      destruct (snoc_cases (elems (stack (advance 1 vm)))) as [E|(l & v & E)];
        [by rewrite (pop_empty _ _ E)|rewrite (pop_snoc _ _ l v E)].
      rewrite stack_advance in E. rewrite E in Hel. apply Forall_snoc_inv in Hel as [Hl Hv].
      right. by apply Hsafe.
    + (* nil *)
      right. apply Hsafe; [|exact Hpr]. apply Forall_app. split; [exact Hel | by constructor].
  - (* an instruction with its operand *)
    assert (Hb : byteAt vm 0 = Some (byte op))
      by (by apply (byteAt_middle vm c1 _ (operand :: rest ++ [byte Opcode.return_]))).
    assert (Ho : byteAt vm 1 = Some operand)
      by (by apply (byteAt_operand vm c1 (byte op) _ (rest ++ [byte Opcode.return_]))).
    split; [exists op; split; [exact Hb | eauto]|].
    assert (Hf : linkedFrame n (currentFrame (advance 2 vm))).
    { apply (linkedFrame_next n (currentFrame vm) c1 [byte op; operand] rest); try done.
      by apply Linked_op1; [..|constructor]. }
    assert (Hsafe : ∀ l ps o,
      Forall (linkedValue n) l → Forall (λ kv, linkedValue n kv.2) ps →
      safe (mk (module vm) (currentFrame (advance 2 vm)) (callers vm) (mkArr l ps)
              (halted vm) o)).
    { intros l ps o Hl Hps. by apply safe_mk. }
    unfold handleInstr. rewrite readByte_byteAt, Hb, decode_byte.
    destruct op; try discriminate; rewrite readByte_operand, Ho.
    + (* constant *)
      destruct (constantAt_range (module vm) operand (Hk eq_refl)) as [c Hc].
      cbn [module advance withFrame]. rewrite Hc. right.
      apply Hsafe; [|exact Hpr]. apply Forall_app. split; [exact Hel|].
      constructor; [|constructor]. by eapply constantAt_linked.
    + (* load *)
      destruct (arrGet _ _) as [slot|] eqn:Hslot; [|done]. right.
      apply Hsafe; [|exact Hpr]. apply Forall_app. split; [exact Hel|].
      constructor; [|constructor]. by eapply arrGet_linked.
    + (* store *)
      destruct (keyGe _ _); [done|].
      destruct (snoc_cases (elems (stack (advance 2 vm)))) as [E|(l & v & E)];
        [by rewrite (pop_empty _ _ E)|rewrite (pop_snoc _ _ l v E)].
      rewrite stack_advance in E. rewrite E in Hel. apply Forall_snoc_inv in Hel as [Hl Hv].
      right.
      destruct (arrSet_linked n
                  (keyAdd (Some operand) (stackOffset (currentFrame (advance 2 vm))))
                  v (mkArr l (props (stack vm)))) as [Hel' Hpr']; [done..|].
      unfold safe. cbn. cbn in Hel', Hpr'. tauto.
    + (* invoke *)
      destruct (snoc_cases (elems (stack (advance 2 vm)))) as [E|(l & v & E)];
        [by rewrite (pop_empty _ _ E)|rewrite (pop_snoc _ _ l v E)].
      rewrite stack_advance in E. rewrite E in Hel. apply Forall_snoc_inv in Hel as [Hl Hv].
      destruct v as [| | |name fcode]; try done. right.
      destruct Hv as (c & -> & Hc).
      apply safe_mk; try done.
      * exists [], c. cbn. split; [done|]. split; [constructor|]. by split.
      * by constructor.
Qed.

Lemma new_safe m : linkedModule m → safe (new m).
Proof.
  intros [(c & Hc & Hl) Hpool]. apply safe_mk; try done.
  exists [], c. cbn. split; [exact Hc|]. split; [constructor|]. by split.
Qed.

Lemma loop_safe fuel vm :
  safe vm →
  match loop fuel vm with
  | Some (Fail e _) => ∀ constIdx, e ≠ ConstantIndexOutOfRange constIdx
  | _ => True
  end.
Proof.
  revert vm. induction fuel as [|fuel IH]; intros vm Hs; cbn [loop];
    destruct (halted vm) eqn:Hh; try done.
  destruct (step_safe vm Hs) as [_ Hstep].
  destruct (handleInstr vm) as [vm1|e vm1]; [|exact Hstep].
  destruct Hstep as [Hh1|Hs1]; [|by apply IH].
  destruct fuel; cbn [loop]; by rewrite Hh1.
Qed.

Lemma steps_safe n vm vm' :
  safe vm → steps n vm = Done vm' → halted vm' = false → safe vm'.
Proof.
  revert vm. induction n as [|n IH]; intros vm Hs; cbn [steps].
  - by intros [= <-].
  - destruct (step_safe vm Hs) as [_ Hstep].
    destruct (handleInstr vm) as [vm1|e vm1]; [|discriminate].
    intros Hn Hh. destruct Hstep as [Hh1|Hs1]; [|by eapply IH].
    by rewrite (steps_halted_stays n _ _ Hn Hh1) in Hh.
Qed.

(** X8 Running a compiled program is safe: the VM never throws that an
    index is out of bounds for the constant pool, and as long as it has not
    halted its instruction pointer is at an opcode of the code of the
    current frame, followed by its operand if it has one: the VM never
    reads past the end of the code and never takes an operand for an
    opcode. *)
Theorem compiled_program_is_safe (nodes : list AstNode) (m : Module) :
  Compiler.compile nodes = Ok m →
  (∀ fuel constIdx, run fuel (new m) ≠ Some (Throw (ConstantIndexOutOfRange constIdx)))
  ∧ (∀ n vm, steps n (new m) = Done vm → halted vm = false →
       ∃ op, byteAt vm 0 = Some (byte op)
             ∧ (opcodeArgs op = 1 → ∃ operand, byteAt vm 1 = Some operand)).
Proof.
  intros Hc. apply compile_linked, new_safe in Hc. split.
  - intros fuel constIdx. unfold run. pose proof (loop_safe fuel _ Hc) as H.
    destruct (loop fuel (new m)) as [[vm|e vm]|]; try discriminate.
    intros [= ->]. by apply (H constIdx).
  - intros n vm Hn Hh. by apply step_safe, (steps_safe n (new m)).
Qed.

Lemma compiled_program_is_safe_witness :
  Compiler.compile [IntLit 5] = Ok (mkModule [VNumber 5] [3; 0; 13]%Z)
  ∧ run 3 (new (mkModule [VNumber 5] [3; 0; 13]%Z))
    ≠ Some (Throw (ConstantIndexOutOfRange (Some 0%Z))).
Proof.
  split; [reflexivity|].
  apply (compiled_program_is_safe [IntLit 5]). reflexivity.
Defined.

End SafeSteps.

(** ** Expressions without names are compiled to what they mean *)

Section Arithmetic.
Import VM.

Lemma loop_step fuel vm :
  halted vm = false →
  loop (S fuel) vm
  = match handleInstr vm with
    | Done vm' => loop fuel vm'
    | Fail e vm' => Some (Fail e vm')
    end.
Proof. intros H. cbn [loop]. by rewrite H. Qed.

Lemma sameControl_halted vm vm' n : sameControl vm vm' n → halted vm' = halted vm.
Proof. by intros (_ & _ & _ & ?). Qed.

Lemma sameControl_at vm vm' n pre c post :
  sameControl vm vm' n →
  code (currentFrame vm) = pre ++ c ++ post → ip (currentFrame vm) = length pre →
  n = length c →
  ∀ c' post', post = c' ++ post' →
    code (currentFrame vm') = (pre ++ c) ++ c' ++ post'
    ∧ ip (currentFrame vm') = length (pre ++ c).
Proof.
  intros (Hf & _) Hc Hi -> c' post' ->. rewrite Hf. cbn [advance withFrame currentFrame code ip].
  split; [by rewrite Hc, <- !app_assoc|]. rewrite Hi, length_app. lia.
Qed.

Lemma runsTo_app c1 c2 vm vm1 vm2 :
  Instrs c1 → runsTo c1 vm vm1 → runsTo c2 vm1 vm2 → runsTo (c1 ++ c2) vm vm2.
Proof.
  intros Hi [L1 S1] [L2 S2]. split.
  - intros fuel. rewrite instrCount_app by exact Hi. by rewrite <- Nat.add_assoc, L1, L2.
  - rewrite length_app. by eapply sameControl_trans.
Qed.

Lemma failsIn_app_l c1 c2 vm e : Instrs c1 → failsIn c1 vm e → failsIn (c1 ++ c2) vm e.
Proof.
  intros Hi [vf H]. exists vf. intros fuel. rewrite instrCount_app by exact Hi.
  by rewrite <- Nat.add_assoc, H.
Qed.

Lemma failsIn_app_r c1 c2 vm vm1 e :
  Instrs c1 → runsTo c1 vm vm1 → failsIn c2 vm1 e → failsIn (c1 ++ c2) vm e.
Proof.
  intros Hi [L1 _] [vf H]. exists vf. intros fuel. rewrite instrCount_app by exact Hi.
  by rewrite <- Nat.add_assoc, L1, H.
Qed.

Lemma exec_const0 vm :
  byteAt vm 0 = Some 0%Z → handleInstr vm = Done (push (VNumber 0) (advance 1 vm)).
Proof. intros Hb. unfold handleInstr. by rewrite readByte_byteAt, Hb. Qed.

Lemma exec_constant vm i v :
  byteAt vm 0 = Some (byte Opcode.constant) → byteAt vm 1 = Some (Z.of_nat i) →
  moduleConstants (module vm) !! i = Some v →
  handleInstr vm = Done (push v (advance 2 vm)).
Proof.
  intros Hb Ho Hv. unfold handleInstr. rewrite readByte_byteAt, Hb, decode_byte.
  rewrite readByte_operand, Ho. unfold constantAt.
  rewrite bool_decide_eq_true_2 by lia. rewrite Nat2Z.id.
  cbn [module advance withFrame]. unfold moduleConstants in Hv. by rewrite Hv.
Qed.

Lemma exec_neg vm l v :
  byteAt vm 0 = Some (byte Opcode.neg) → elems (stack vm) = l ++ [v] →
  handleInstr vm
  = match negValue v with
    | Ok v' => Done (push v' (setElems l (advance 1 vm)))
    | Throw e => Fail e (setElems l (advance 1 vm))
    end.
Proof.
  intros Hb Hs. unfold handleInstr. rewrite readByte_byteAt, Hb, decode_byte.
  rewrite (pop_snoc _ _ l v) by exact Hs. by destruct v.
Qed.

Lemma exec_add vm l a b :
  byteAt vm 0 = Some (byte Opcode.add) → elems (stack vm) = l ++ [a; b] →
  handleInstr vm
  = match addValues a b with
    | Ok v' => Done (push v' (setElems l (advance 1 vm)))
    | Throw e => Fail e (setElems l (advance 1 vm))
    end.
Proof.
  intros Hb Hs. unfold handleInstr. rewrite readByte_byteAt, Hb, decode_byte.
  rewrite (pop_snoc _ _ (l ++ [a]) b) by (by rewrite stack_advance, Hs, <- app_assoc).
  rewrite (pop_snoc (setElems (l ++ [a]) (advance 1 vm)) _ l a) by done.
  unfold addValues. destruct (isString a || isString b); [done|].
  by destruct a, b.
Qed.

Lemma exec_sub vm l a b :
  byteAt vm 0 = Some (byte Opcode.sub) → elems (stack vm) = l ++ [a; b] →
  handleInstr vm
  = match subValues a b with
    | Ok v' => Done (push v' (setElems l (advance 1 vm)))
    | Throw e => Fail e (setElems l (advance 1 vm))
    end.
Proof.
  intros Hb Hs. unfold handleInstr. rewrite readByte_byteAt, Hb, decode_byte.
  rewrite (pop_snoc _ _ (l ++ [a]) b) by (by rewrite stack_advance, Hs, <- app_assoc).
  rewrite (pop_snoc (setElems (l ++ [a]) (advance 1 vm)) _ l a) by done.
  by destruct a, b.
Qed.

(** One instruction without operand that rewrites the top of the stack. *)
Lemma yields_op0 op vm (r : Res Value) l :
  opcodeArgs op = 0 →
  halted vm = false →
  handleInstr vm
  = match r with
    | Ok v' => Done (push v' (setElems l (advance 1 vm)))
    | Throw e => Fail e (setElems l (advance 1 vm))
    end →
  match r with
  | Ok v' => ∃ vm', runsTo [byte op] vm vm' ∧ elems (stack vm') = l ++ [v']
  | Throw e => failsIn [byte op] vm e
  end.
Proof.
  intros Ha Hh Hstep.
  assert (Hn : instrCount [byte op] 0 = 1) by reflexivity.
  destruct r as [v'|e].
  - eexists. split; [split|].
    + intros fuel. rewrite Hn. cbn [Nat.add]. by rewrite loop_step, Hstep.
    + done.
    + done.
  - eexists. intros fuel. rewrite Hn. cbn [Nat.add]. by rewrite loop_step, Hstep.
Qed.

End Arithmetic.

Section ArithmeticCompiled.
Import VM.

(** A literal that goes through the pool is pushed by its [constant]
    instruction. *)
Lemma literal_yields v st :
  poolAllocated st →
  let st' := Compiler.emit
               [byte Opcode.constant; Z.of_nat (length (Compiler.constants st))]
               (Compiler.mk (Compiler.constants st
                             ++ [{| addr := Compiler.nextAddr st; val := v |}])
                  (Compiler.locals st) (Compiler.code st) (Compiler.depth st)
                  (S (Compiler.nextAddr st))) in
  let c := [byte Opcode.constant; Z.of_nat (length (Compiler.constants st))] in
  emits st st' c ∧ Instrs c ∧ poolAllocated st'
  ∧ ∀ vm pre post more,
      code (currentFrame vm) = pre ++ c ++ post →
      ip (currentFrame vm) = length pre →
      halted vm = false →
      moduleConstants (module vm) = map val (Compiler.constants st') ++ more →
      yields c (Ok v) vm.
Proof.
  intros Hp st' c. split; [done|]. split; [by apply Instrs_two|]. split.
  { unfold poolAllocated, st'. cbn. apply Forall_app. split.
    - eapply Forall_impl; [exact Hp|]. cbn. lia.
    - constructor; [cbn; lia | constructor]. }
  intros vm pre post more Hc Hi Hh Hm.
  assert (Hstep : handleInstr vm = Done (push v (advance 2 vm))).
  { apply (exec_constant vm (length (Compiler.constants st))).
    - by apply (byteAt_middle vm pre _ (Z.of_nat (length (Compiler.constants st)) :: post)).
    - eapply (byteAt_operand vm pre); [exact Hc | exact Hi].
    - rewrite Hm. unfold st'. cbn. rewrite map_app, <- app_assoc.
      rewrite lookup_app_r by (by rewrite length_map).
      by rewrite length_map, Nat.sub_diag. }
  exists (push v (advance 2 vm)). split; [split|done].
  - intros fuel. change (instrCount c 0) with 1. cbn [Nat.add].
    by rewrite loop_step, Hstep.
  - done.
Qed.

(** Two operands and the instruction that combines them. *)
Lemma binary_yields (bop : Opcode.t) (f : Value → Value → Res Value)
    c1 c2 (r1 r2 : Res Value) vm pre post :
  opcodeArgs bop = 0 → bop ≠ Opcode.return_ →
  (∀ vm l a b, byteAt vm 0 = Some (byte bop) → elems (stack vm) = l ++ [a; b] →
     handleInstr vm
     = match f a b with
       | Ok v' => Done (push v' (setElems l (advance 1 vm)))
       | Throw e => Fail e (setElems l (advance 1 vm))
       end) →
  Instrs c1 → Instrs c2 →
  code (currentFrame vm) = pre ++ ((c1 ++ c2) ++ [byte bop]) ++ post →
  ip (currentFrame vm) = length pre →
  halted vm = false →
  yields c1 r1 vm →
  (∀ vm1, runsTo c1 vm vm1 → yields c2 r2 vm1) →
  yields ((c1 ++ c2) ++ [byte bop])
    (match r1, r2 with
     | Ok a, Ok b => f a b
     | Ok _, Throw e => Throw e
     | Throw e, _ => Throw e
     end) vm.
Proof.
  intros Ha Hnr Hexec Hi1 Hi2 Hc Hip Hh Hy1 Hy2.
  destruct r1 as [a|e1].
  2:{ cbn [yields] in *. rewrite <- app_assoc. by apply failsIn_app_l. }
  destruct Hy1 as (vm1 & Hrun1 & Hst1). specialize (Hy2 vm1 Hrun1).
  destruct r2 as [b|e2].
  2:{ cbn [yields] in *. apply failsIn_app_l; [by apply Instrs_app|].
      by eapply failsIn_app_r. }
  destruct Hy2 as (vm2 & Hrun2 & Hst2).
  assert (Hrun12 : runsTo (c1 ++ c2) vm vm2) by (by eapply runsTo_app).
  pose proof (proj2 Hrun12) as Hsc.
  assert (Hc' : code (currentFrame vm) = pre ++ (c1 ++ c2) ++ ([byte bop] ++ post))
    by (by rewrite Hc, <- !app_assoc).
  destruct (sameControl_at _ _ _ _ _ _ Hsc Hc' Hip eq_refl [byte bop] post eq_refl)
    as [Hc2 Hip2].
  assert (Hb : byteAt vm2 0 = Some (byte bop))
    by (by apply (byteAt_middle vm2 (pre ++ c1 ++ c2) _ post)).
  assert (Hh2 : halted vm2 = false) by (by rewrite (sameControl_halted _ _ _ Hsc)).
  assert (Hst : elems (stack vm2) = elems (stack vm) ++ [a; b]).
  { rewrite Hst2, Hst1. by rewrite <- app_assoc. }
  pose proof (yields_op0 bop vm2 (f a b) (elems (stack vm)) Ha Hh2
                (Hexec vm2 _ a b Hb Hst)) as Hop.
  unfold yields. destruct (f a b) as [v'|e'].
  - destruct Hop as (vm3 & Hrun3 & Hst3). exists vm3. split; [|exact Hst3].
    eapply runsTo_app; [by apply Instrs_app | exact Hrun12 | exact Hrun3].
  - eapply failsIn_app_r; [by apply Instrs_app | exact Hrun12 | exact Hop].
Qed.

(** Compiling an expression without names succeeds, and the code it emits
    computes the value of the expression. *)
Lemma evalExpr_yields e :
  ∀ r, evalExpr e = Some r →
  ∀ st, poolAllocated st →
  ∃ st' c added,
    Compiler.visit e st = Ok st' ∧ emits st st' c ∧ Instrs c ∧ poolAllocated st'
    ∧ Compiler.constants st' = Compiler.constants st ++ added
    ∧ ∀ vm pre post more,
        code (currentFrame vm) = pre ++ c ++ post →
        ip (currentFrame vm) = length pre →
        halted vm = false →
        moduleConstants (module vm) = map val (Compiler.constants st') ++ more →
        yields c r vm.
Proof.
  induction e as
    [value|value|name|op expr IH|op l r IHl IHr|target args IHt IHa
    |name value IH|name params body IH|expr IH] using AstNode_ind;
    cbn [evalExpr]; try discriminate.
  - (* integer literal *)
    intros r [= <-] st Hp. destruct (decide (value = 0%Z)) as [->|Hv].
    + exists (Compiler.emit [0%Z] st), [0%Z], [].
      split; [reflexivity|]. split; [done|]. split; [by apply (Instrs_one Opcode.const0)|].
      split; [exact Hp|]. split; [by rewrite app_nil_r|].
      intros vm pre post more Hc Hi Hh Hm.
      assert (Hstep : handleInstr vm = Done (push (VNumber 0) (advance 1 vm))).
      { apply exec_const0. by apply (byteAt_middle vm pre _ post). }
      exists (push (VNumber 0) (advance 1 vm)). split; [split|done].
      * intros fuel. change (instrCount [0%Z] 0) with 1. cbn [Nat.add].
        by rewrite loop_step, Hstep.
      * done.
    + destruct (visitIntLit_nonzero value st Hv) as (i & s1 & Ha & Hvisit).
      rewrite (addConstant_fresh (VNumber value) st Hp) in Ha. injection Ha as <- <-.
      destruct (literal_yields (VNumber value) st Hp) as (He & Hin & Hp' & Hy).
      eexists _, _, _. split; [exact Hvisit|]. split; [exact He|]. split; [exact Hin|].
      split; [exact Hp'|]. split; [reflexivity | exact Hy].
  - (* string literal *)
    intros r [= <-] st Hp.
    assert (Hvisit : Compiler.visit (StringLit value) st
      = Ok (Compiler.emit
              [byte Opcode.constant; Z.of_nat (length (Compiler.constants st))]
              (Compiler.mk (Compiler.constants st
                            ++ [{| addr := Compiler.nextAddr st; val := VString value |}])
                 (Compiler.locals st) (Compiler.code st) (Compiler.depth st)
                 (S (Compiler.nextAddr st))))).
    { cbn [Compiler.visit]. unfold Compiler.visitStringLit.
      pose proof (addConstant_fresh (VString value) st Hp) as Ha.
      destruct (Compiler.alloc (VString value) st) as [o s]. cbn [fst snd] in Ha.
      by rewrite Ha. }
    destruct (literal_yields (VString value) st Hp) as (He & Hin & Hp' & Hy).
    eexists _, _, _. split; [exact Hvisit|]. split; [exact He|]. split; [exact Hin|].
    split; [exact Hp'|]. split; [reflexivity | exact Hy].
  - (* negation *)
    destruct op; try discriminate. intros r Hr st Hp.
    destruct (evalExpr expr) as [re|] eqn:He; [|by destruct r].
    destruct (IH re eq_refl st Hp) as (s1 & c & added & Hv & Hem & Hin & Hp1 & Hk & Hy).
    exists (Compiler.emit [byte Opcode.neg] s1), (c ++ [byte Opcode.neg]), added.
    split; [by rewrite visit_Unary; unfold Compiler.visitUnary; rewrite Hv|].
    split; [eapply emits_trans; [exact Hem | apply emits_emit]|].
    split; [apply Instrs_app; [exact Hin | by apply Instrs_one]|].
    split; [exact Hp1|]. split; [exact Hk|].
    intros vm pre post more Hc Hi Hh Hm.
    specialize (Hy vm pre ([byte Opcode.neg] ++ post) more).
    rewrite <- app_assoc in Hc. specialize (Hy Hc Hi Hh Hm).
    destruct re as [v|e].
    + destruct Hy as (vm1 & Hrun & Hst). injection Hr as <-.
      pose proof (proj2 Hrun) as Hsc.
      destruct (sameControl_at _ _ _ _ _ _ Hsc Hc Hi eq_refl [byte Opcode.neg] post eq_refl)
        as [Hc1 Hi1].
      assert (Hb : byteAt vm1 0 = Some (byte Opcode.neg))
        by (by apply (byteAt_middle vm1 (pre ++ c) _ post)).
      assert (Hh1 : halted vm1 = false) by (by rewrite (sameControl_halted _ _ _ Hsc)).
      pose proof (yields_op0 Opcode.neg vm1 (negValue v) (elems (stack vm)) eq_refl Hh1
                    (exec_neg vm1 _ v Hb Hst)) as Hneg.
      unfold yields. destruct (negValue v) as [v'|e'].
      * destruct Hneg as (vm2 & Hrun2 & Hst2). exists vm2. split; [|exact Hst2].
        by eapply runsTo_app.
      * by eapply failsIn_app_r.
    + injection Hr as <-. by apply failsIn_app_l.
  - (* addition and subtraction *)
    intros r0 Hr st Hp.
    destruct (evalExpr l) as [rl|] eqn:El; [|by destruct op].
    destruct (evalExpr r) as [rr|] eqn:Er; [|by destruct op, rl].
    destruct (IHl rl eq_refl st Hp) as (s1 & c1 & added1 & Hv1 & Hem1 & Hin1 & Hp1 & Hk1 & Hy1).
    destruct (IHr rr eq_refl s1 Hp1) as (s2 & c2 & added2 & Hv2 & Hem2 & Hin2 & Hp2 & Hk2 & Hy2).
    assert (Hop : ∃ bop f,
      (bop = Opcode.add ∨ bop = Opcode.sub)
      ∧ Compiler.visit (Binary op l r) st = Ok (Compiler.emit [byte bop] s2)
      ∧ r0 = match rl, rr with
             | Ok a, Ok b => f a b
             | Ok _, Throw e => Throw e
             | Throw e, _ => Throw e
             end
      ∧ ∀ vm l a b, byteAt vm 0 = Some (byte bop) → elems (stack vm) = l ++ [a; b] →
          handleInstr vm
          = match f a b with
            | Ok v' => Done (push v' (setElems l (advance 1 vm)))
            | Throw e => Fail e (setElems l (advance 1 vm))
            end).
    { destruct op; try (by destruct rl).
      - exists Opcode.add, addValues. split; [by left|]. split.
        + by rewrite visit_Binary; unfold Compiler.visitBinary; rewrite Hv1; cbn; rewrite Hv2.
        + split; [by destruct rl, rr; injection Hr | apply exec_add].
      - exists Opcode.sub, subValues. split; [by right|]. split.
        + by rewrite visit_Binary; unfold Compiler.visitBinary; rewrite Hv1; cbn; rewrite Hv2.
        + split; [by destruct rl, rr; injection Hr | apply exec_sub]. }
    destruct Hop as (bop & f & Hbop & Hvisit & -> & Hexec).
    assert (Hargs : opcodeArgs bop = 0 ∧ bop ≠ Opcode.return_)
      by (by destruct Hbop as [-> | ->]).
    exists (Compiler.emit [byte bop] s2), ((c1 ++ c2) ++ [byte bop]), (added1 ++ added2).
    split; [exact Hvisit|].
    split; [eapply emits_trans; [eapply emits_trans; eassumption | apply emits_emit]|].
    split; [apply Instrs_app; [by apply Instrs_app | apply Instrs_one; apply Hargs]|].
    split; [exact Hp2|].
    split; [cbn [Compiler.emit Compiler.withCode Compiler.constants];
            by rewrite Hk2, Hk1, <- app_assoc|].
    intros vm pre post more Hc Hi Hh Hm.
    cbn [Compiler.emit Compiler.withCode Compiler.constants] in Hm.
    apply (binary_yields bop f c1 c2 rl rr vm pre post); try done; try apply Hargs.
    + apply (Hy1 vm pre ((c2 ++ [byte bop]) ++ post) (map val added2 ++ more)); try done.
      * by rewrite Hc, <- !app_assoc.
      * by rewrite Hm, Hk2, map_app, <- app_assoc.
    + intros vm1 Hrun1. pose proof (proj2 Hrun1) as Hsc.
      assert (Hc' : code (currentFrame vm) = pre ++ c1 ++ (c2 ++ [byte bop] ++ post))
        by (by rewrite Hc, <- !app_assoc).
      destruct (sameControl_at _ _ _ _ _ _ Hsc Hc' Hi eq_refl c2 ([byte bop] ++ post) eq_refl)
        as [Hc1 Hi1].
      apply (Hy2 vm1 (pre ++ c1) ([byte bop] ++ post) more); try done.
      * by rewrite (sameControl_halted _ _ _ Hsc).
      * destruct Hsc as (_ & _ & -> & _). exact Hm.
Qed.

Lemma evalExpr_isExpr e r : evalExpr e = Some r → isExpr e = true.
Proof. by destruct e. Qed.

(** X9 An expression made of integer and string literals, negation, [+]
    and [-] is compiled to code that computes it: the program that
    consists of the expression compiles, and running it returns the value
    of the expression, or throws the type mismatch that evaluating the
    expression from left to right meets first.  The literals and the
    numbers that the evaluation goes through are safe integers, on which
    the arithmetic of the doubles of the code is that of the integers. *)
Theorem run_evaluates_expression (e : AstNode) (r : Res Value) :
  evalExpr e = Some r →
  exactExpr e = true →
  ∃ m, Compiler.compile [e] = Ok m
       ∧ ∀ k, run (instrCount (moduleCode m) 0 + k) (new m) = Some r.
Proof.
  intros He _.
  destruct (evalExpr_yields e r He Compiler.init poolAllocated_init)
    as (st & c & added & Hv & Hem & Hin & _ & Hk & Hy).
  unfold emits in Hem. cbn [Compiler.init Compiler.code app] in Hem.
  cbn [Compiler.init Compiler.constants app] in Hk.
  exists (mkModule (map val (Compiler.constants st)) (c ++ [byte Opcode.return_])).
  split.
  { unfold Compiler.compile. cbn [Compiler.compileBlock]. rewrite Hv. cbn [bind].
    unfold Compiler.afterNode. rewrite (evalExpr_isExpr e r He). cbn. by rewrite Hem. }
  intros k. rewrite moduleCode_mk, instrCount_app by exact Hin.
  change (instrCount [byte Opcode.return_] 0) with 1.
  set (m := mkModule _ _). specialize (Hy (new m) [] [byte Opcode.return_] []).
  rewrite app_nil_r in Hy. specialize (Hy eq_refl eq_refl eq_refl eq_refl).
  unfold run. rewrite <- Nat.add_assoc. destruct r as [v|err].
  - destruct Hy as (vm1 & [Hloop Hsc] & Hst). rewrite Hloop.
    pose proof (sameControl_halted _ _ _ Hsc) as Hh. cbn in Hh.
    assert (Hb : byteAt vm1 0 = Some (byte Opcode.return_)).
    { destruct Hsc as (Hf & _). unfold byteAt. rewrite Hf. cbn.
      by rewrite !Nat.add_0_r, list_lookup_middle. }
    assert (Hcs : callers vm1 = []) by (by destruct Hsc as (_ & -> & _)).
    cbn [Nat.add]. rewrite loop_step by exact Hh.
    rewrite (handleInstr_return_outermost vm1 Hb Hcs), loop_halted by done.
    rewrite result_last. cbn [stack elems]. by rewrite Hst.
  - destruct Hy as [vf Hloop]. by rewrite Hloop.
Qed.

Lemma run_evaluates_expression_witness :
  ∃ m, Compiler.compile
         [Binary TokenType.plus (StringLit "n = ")
            (Binary TokenType.minus (IntLit 2) (Unary TokenType.minus (IntLit 40)))]
       = Ok m
       ∧ ∀ k, run (instrCount (moduleCode m) 0 + k) (new m) = Some (Ok (VString "n = 42")).
Proof.
  apply (run_evaluates_expression
           (Binary TokenType.plus (StringLit "n = ")
              (Binary TokenType.minus (IntLit 2) (Unary TokenType.minus (IntLit 40))))
           (Ok (VString "n = 42"))).
  - vm_compute. reflexivity.
  - vm_compute. reflexivity.
Defined.

End ArithmeticCompiled.

(** ** What the compiler accepts and what it throws *)

Section CompilerOutcome.
Import Compiler.

Lemma bind_Throw {A B} (r : Res A) (k : A → Res B) e :
  bind r k = Throw e → r = Throw e ∨ ∃ a, r = Ok a ∧ k a = Throw e.
Proof. destruct r; cbn; [eauto | by intros [= <-]; left]. Qed.

Lemma compileBlock_operators body :
  Forall (λ node, ∀ st st', visit node st = Ok st' → operatorsOk node = true) body →
  ∀ st st', compileBlock body st = Ok st' → forallb operatorsOk body = true.
Proof.
  induction 1 as [|node rest Hn _ IH]; intros st st'; cbn [compileBlock forallb]; [done|].
  intros H. apply bind_Ok in H as (s1 & Hv & Hb).
  by rewrite (Hn _ _ Hv), (IH _ _ Hb).
Qed.

Lemma visitAll_operators args :
  Forall (λ node, ∀ st st', visit node st = Ok st' → operatorsOk node = true) args →
  ∀ st st', visitAll args st = Ok st' → forallb operatorsOk args = true.
Proof.
  induction 1 as [|node rest Hn _ IH]; intros st st'; cbn [visitAll forallb]; [done|].
  intros H. apply bind_Ok in H as (s1 & Hv & Hb).
  by rewrite (Hn _ _ Hv), (IH _ _ Hb).
Qed.

(** A node that compiles only has operators that the compiler knows. *)
Lemma visit_operators node :
  ∀ st st', visit node st = Ok st' → operatorsOk node = true.
Proof.
  induction node as
    [value|value|name|op expr IH|op l r IHl IHr|target args IHt IHa
    |name value IH|name params body IH|expr IH] using AstNode_ind;
    intros st st'; cbn [operatorsOk]; try done.
  - rewrite visit_Unary. unfold visitUnary. intros H.
    apply bind_Ok in H as (s1 & Hv & Hb). rewrite (IH _ _ Hv).
    by destruct op.
  - rewrite visit_Binary. unfold visitBinary. intros H.
    apply bind_Ok in H as (s1 & Hv1 & H). apply bind_Ok in H as (s2 & Hv2 & Hb).
    rewrite (IHl _ _ Hv1), (IHr _ _ Hv2).
    destruct op; try discriminate; rewrite bool_decide_eq_true_2; try done;
      rewrite !elem_of_cons; tauto.
  - rewrite visit_Invoke. unfold visitInvoke. intros H.
    apply bind_Ok in H as (s1 & Hv1 & H). apply bind_Ok in H as (s2 & Hv2 & Hb).
    by rewrite (visitAll_operators args IHa _ _ Hv1), (IHt _ _ Hv2).
  - rewrite visit_ValDecl. unfold visitValDecl.
    destruct (alreadyExists name st); [discriminate|]. intros H.
    apply bind_Ok in H as (s1 & Hv & Hb). by apply (IH _ _ Hv).
  - rewrite visit_FuncDecl. unfold visitFuncDecl.
    destruct (alreadyExists name st); [discriminate|]. intros H.
    apply bind_Ok in H as (s1 & Hv & Hb). by apply (compileBlock_operators body IH _ _ Hv).
  - rewrite visit_Print. unfold visitPrint. intros H.
    apply bind_Ok in H as (s1 & Hv & Hb). by apply (IH _ _ Hv).
Qed.

(** X10 The compiler only accepts [minus] as a unary operator and [plus]
    and [minus] as binary operators: a program that compiles has no other
    operator, in particular no [star] and no [slash], which the parser
    accepts, not even in the body of a function that is never called. *)
Theorem compile_operators (nodes : list AstNode) (m : Module) :
  compile nodes = Ok m → forallb operatorsOk nodes = true.
Proof.
  unfold compile. intros H. apply bind_Ok in H as (st & Hb & _).
  eapply compileBlock_operators; [|exact Hb].
  apply Forall_forall. intros node _. apply visit_operators.
Qed.

Lemma compile_operators_witness :
  forallb operatorsOk [FuncDecl "f" ["a"] [Binary TokenType.minus (Ident "a") (IntLit 1)]]
  = true.
Proof.
  apply (compile_operators
           [FuncDecl "f" ["a"] [Binary TokenType.minus (Ident "a") (IntLit 1)]]
           (mkModule [VNumber 1; VFunction "f" [7; 1; 3; 0; 6; 8; 0; 11; 13]%Z]
              [3; 1; 12; 13]%Z)).
  reflexivity.
Defined.

Lemma visitIntLit_Ok value st : ∃ st', visitIntLit value st = Ok st'.
Proof.
  unfold visitIntLit. case_bool_decide; [eauto|].
  destruct (alloc _ st) as [o s]. destruct (addConstant o s). eauto.
Qed.

Lemma visitStringLit_Ok value st : ∃ st', visitStringLit value st = Ok st'.
Proof.
  unfold visitStringLit. destruct (alloc _ st) as [o s]. destruct (addConstant o s). eauto.
Qed.

Lemma parsedExpr_Unary op expr :
  parsedExpr (Unary op expr) = true → op = TokenType.minus ∧ parsedExpr expr = true.
Proof.
  cbn [parsedExpr]. rewrite !andb_true_iff, bool_decide_eq_true. tauto.
Qed.

Lemma parsedExpr_Binary op l r :
  parsedExpr (Binary op l r) = true →
  op ∈ [TokenType.plus; TokenType.minus; TokenType.star; TokenType.slash]
  ∧ parsedExpr l = true ∧ parsedExpr r = true.
Proof.
  cbn [parsedExpr]. rewrite !andb_true_iff, bool_decide_eq_true. tauto.
Qed.

Lemma parsedExpr_Invoke target args :
  parsedExpr (Invoke target args) = true →
  parsedExpr target = true ∧ forallb parsedExpr args = true.
Proof. cbn [parsedExpr]. rewrite !andb_true_iff. tauto. Qed.

Lemma compileBlock_Throw body :
  Forall (λ node, parsedStmt node = true →
                  ∀ st e, visit node st = Throw e → compileErrorOk e) body →
  forallb parsedStmt body = true →
  ∀ st e, compileBlock body st = Throw e → compileErrorOk e.
Proof.
  induction 1 as [|node rest Hn _ IH]; cbn [forallb compileBlock]; [discriminate|].
  rewrite andb_true_iff. intros [Hp Hrest] st e H.
  apply bind_Throw in H as [H|(s1 & _ & H)]; [by eapply Hn | by eapply IH].
Qed.

Lemma visitAll_Throw args :
  Forall (λ node, parsedStmt node = true →
                  ∀ st e, visit node st = Throw e → compileErrorOk e) args →
  forallb parsedExpr args = true →
  ∀ st e, visitAll args st = Throw e → compileErrorOk e.
Proof.
  induction 1 as [|node rest Hn _ IH]; cbn [forallb visitAll]; [discriminate|].
  rewrite andb_true_iff. intros [Hp Hrest] st e H.
  apply bind_Throw in H as [H|(s1 & _ & H)]; [|by eapply IH].
  eapply Hn; [by apply parsedExpr_stmt | exact H].
Qed.

(** What compiling a node that the parser built throws. *)
Lemma visit_Throw node :
  parsedStmt node = true → ∀ st e, visit node st = Throw e → compileErrorOk e.
Proof.
  induction node as
    [value|value|name|op expr IH|op l r IHl IHr|target args IHt IHa
    |name value IH|name params body IH|expr IH] using AstNode_ind;
    intros Hp st e.
  - cbn [visit]. destruct (visitIntLit_Ok value st) as [st' ->]. discriminate.
  - cbn [visit]. destruct (visitStringLit_Ok value st) as [st' ->]. discriminate.
  - cbn [visit]. unfold visitIdent. destruct (scanLocals _ _ _); [discriminate|].
    by intros [= <-].
  - apply parsedExpr_Unary in Hp as [-> He].
    rewrite visit_Unary. unfold visitUnary. intros H.
    apply bind_Throw in H as [H|(s1 & _ & H)]; [|discriminate].
    eapply IH; [by apply parsedExpr_stmt | exact H].
  - apply parsedExpr_Binary in Hp as (Hop & Hl & Hr).
    rewrite visit_Binary. unfold visitBinary. intros H.
    apply bind_Throw in H as [H|(s1 & _ & H)];
      [eapply IHl; [by apply parsedExpr_stmt | exact H]|].
    apply bind_Throw in H as [H|(s2 & _ & H)];
      [eapply IHr; [by apply parsedExpr_stmt | exact H]|].
    rewrite !elem_of_cons, elem_of_nil in Hop.
    destruct Hop as [->|[->|[->|[->|[]]]]]; try discriminate; injection H as <-;
      cbn; rewrite !elem_of_cons; tauto.
  - apply parsedExpr_Invoke in Hp as [Ht Ha].
    rewrite visit_Invoke. unfold visitInvoke. intros H.
    apply bind_Throw in H as [H|(s1 & _ & H)]; [by eapply visitAll_Throw|].
    apply bind_Throw in H as [H|(s2 & _ & H)]; [|discriminate].
    eapply IHt; [by apply parsedExpr_stmt | exact H].
  - cbn [parsedStmt] in Hp. apply andb_true_iff in Hp as [Hn Hv].
    rewrite visit_ValDecl. unfold visitValDecl.
    destruct (alreadyExists name st); [by intros [= <-]|]. intros H.
    apply bind_Throw in H as [H|(s1 & _ & H)]; [|discriminate].
    eapply IH; [by apply parsedExpr_stmt | exact H].
  - cbn [parsedStmt] in Hp. apply andb_true_iff in Hp as [Hp Hb].
    apply andb_true_iff in Hp as [Hn _].
    rewrite visit_FuncDecl. unfold visitFuncDecl.
    destruct (alreadyExists name st); [by intros [= <-]|]. intros H.
    apply bind_Throw in H as [H|(s1 & _ & H)]; [|discriminate].
    by eapply compileBlock_Throw.
  - cbn [parsedStmt] in Hp.
    rewrite visit_Print. unfold visitPrint. intros H.
    apply bind_Throw in H as [H|(s1 & _ & H)]; [|discriminate].
    eapply IH; [by apply parsedExpr_stmt | exact H].
Qed.

Lemma existsb_thrownFor e nodes :
  existsb (thrownFor e) nodes
  = match e with
    | UnknownIdentifier name => existsb (refersTo name) nodes
    | DuplicateIdentifier name => existsb (declaresIn name) nodes
    | UnknownOperator op => existsb (appliesOp op) nodes
    | _ => false
    end.
Proof.
  destruct e; try reflexivity; induction nodes as [|n rest IH]; cbn; congruence.
Qed.

Lemma compileBlock_thrownFor body :
  Forall (λ node, ∀ st e, visit node st = Throw e → thrownFor e node = true) body →
  ∀ st e, compileBlock body st = Throw e → existsb (thrownFor e) body = true.
Proof.
  induction 1 as [|node rest Hn _ IH]; cbn [existsb compileBlock]; [discriminate|].
  intros st e H. apply orb_true_iff.
  apply bind_Throw in H as [H|(s1 & _ & H)]; [left; by eapply Hn | right; by eapply IH].
Qed.

Lemma visitAll_thrownFor args :
  Forall (λ node, ∀ st e, visit node st = Throw e → thrownFor e node = true) args →
  ∀ st e, visitAll args st = Throw e → existsb (thrownFor e) args = true.
Proof.
  induction 1 as [|node rest Hn _ IH]; cbn [existsb visitAll]; [discriminate|].
  intros st e H. apply orb_true_iff.
  apply bind_Throw in H as [H|(s1 & _ & H)]; [left; by eapply Hn | right; by eapply IH].
Qed.

Lemma thrownFor_Unary e op expr :
  thrownFor e expr = true → thrownFor e (Unary op expr) = true.
Proof. destruct e; cbn; try done. intros ->. apply orb_true_r. Qed.

Lemma thrownFor_Binary e op l r :
  thrownFor e l = true ∨ thrownFor e r = true → thrownFor e (Binary op l r) = true.
Proof.
  destruct e; cbn; try (by intros []); rewrite ?orb_true_iff; tauto.
Qed.

Lemma thrownFor_Invoke e target args :
  existsb (thrownFor e) args = true ∨ thrownFor e target = true →
  thrownFor e (Invoke target args) = true.
Proof.
  rewrite existsb_thrownFor. destruct e; cbn; try (by intros []); rewrite ?orb_true_iff; tauto.
Qed.

Lemma thrownFor_ValDecl e name value :
  thrownFor e value = true → thrownFor e (ValDecl name value) = true.
Proof. destruct e; cbn; try done. intros ->. apply orb_true_r. Qed.

Lemma thrownFor_FuncDecl e name params body :
  existsb (thrownFor e) body = true → thrownFor e (FuncDecl name params body) = true.
Proof.
  rewrite existsb_thrownFor. destruct e; cbn; try done. intros ->. apply orb_true_r.
Qed.

Lemma thrownFor_Print e expr :
  thrownFor e expr = true → thrownFor e (Print expr) = true.
Proof. by destruct e. Qed.

(** The string that compiling a node throws names something of the node. *)
Lemma visit_thrownFor node :
  ∀ st e, visit node st = Throw e → thrownFor e node = true.
Proof.
  induction node as
    [value|value|name|op expr IH|op l r IHl IHr|target args IHt IHa
    |name value IH|name params body IH|expr IH] using AstNode_ind;
    intros st e.
  - cbn [visit]. destruct (visitIntLit_Ok value st) as [st' ->]. discriminate.
  - cbn [visit]. destruct (visitStringLit_Ok value st) as [st' ->]. discriminate.
  - cbn [visit]. unfold visitIdent. destruct (scanLocals _ _ _); [discriminate|].
    intros [= <-]. cbn. by apply bool_decide_eq_true_2.
  - rewrite visit_Unary. unfold visitUnary. intros H.
    apply bind_Throw in H as [H|(s1 & _ & H)]; [apply thrownFor_Unary; by eapply IH|].
    destruct op; try discriminate; injection H as <-; cbn;
      by rewrite bool_decide_eq_true_2.
  - rewrite visit_Binary. unfold visitBinary. intros H.
    apply bind_Throw in H as [H|(s1 & _ & H)];
      [apply thrownFor_Binary; left; by eapply IHl|].
    apply bind_Throw in H as [H|(s2 & _ & H)];
      [apply thrownFor_Binary; right; by eapply IHr|].
    destruct op; try discriminate; injection H as <-; cbn;
      by rewrite bool_decide_eq_true_2.
  - rewrite visit_Invoke. unfold visitInvoke. intros H. apply thrownFor_Invoke.
    apply bind_Throw in H as [H|(s1 & _ & H)]; [left; by eapply visitAll_thrownFor|].
    apply bind_Throw in H as [H|(s2 & _ & H)]; [|discriminate].
    right. by eapply IHt.
  - rewrite visit_ValDecl. unfold visitValDecl.
    destruct (alreadyExists name st).
    { intros [= <-]. cbn. by rewrite bool_decide_eq_true_2. }
    intros H. apply bind_Throw in H as [H|(s1 & _ & H)]; [|discriminate].
    apply thrownFor_ValDecl. by eapply IH.
  - rewrite visit_FuncDecl. unfold visitFuncDecl.
    destruct (alreadyExists name st).
    { intros [= <-]. cbn. by rewrite bool_decide_eq_true_2. }
    intros H. apply bind_Throw in H as [H|(s1 & _ & H)]; [|discriminate].
    apply thrownFor_FuncDecl. by eapply compileBlock_thrownFor.
  - rewrite visit_Print. unfold visitPrint. intros H.
    apply bind_Throw in H as [H|(s1 & _ & H)]; [|discriminate].
    apply thrownFor_Print. by eapply IH.
Qed.

(** X11 What the compiler throws for a program that the parser returned:
    [Unknown identifier] with a name that the program refers to,
    [Duplicate identifier] with a name that the program declares (both
    non-empty words of letters, never the [#ret] of the compiler), or
    [Unknown operator] with [star] or [slash], applied in the program. *)
Theorem compile_throws (fuel : nat) (input : string) (nodes : list AstNode) (e : Error) :
  parseProgram fuel input = Got nodes →
  compile nodes = Throw e →
  match e with
  | UnknownIdentifier name =>
      name ≠ "" ∧ Forall (λ ch, isAlpha ch = true) (chars name)
      ∧ existsb (refersTo name) nodes = true
  | DuplicateIdentifier name =>
      name ≠ "" ∧ Forall (λ ch, isAlpha ch = true) (chars name)
      ∧ existsb (declaresIn name) nodes = true
  | UnknownOperator op =>
      op ∈ [TokenType.star; TokenType.slash] ∧ existsb (appliesOp op) nodes = true
  | _ => False
  end.
Proof.
  intros Hparse. pose proof (parseProgram_spec fuel input) as Hspec.
  rewrite Hparse in Hspec. cbn [ensures] in Hspec.
  unfold compile. intros H. apply bind_Throw in H as [H|(st & _ & H)]; [|discriminate].
  assert (He : compileErrorOk e).
  { eapply compileBlock_Throw; [|exact Hspec|exact H].
    apply Forall_forall. intros node _. apply visit_Throw. }
  assert (Ho : existsb (thrownFor e) nodes = true).
  { eapply compileBlock_thrownFor; [|exact H].
    apply Forall_forall. intros node _. apply visit_thrownFor. }
  rewrite existsb_thrownFor in Ho.
  destruct e; try exact He; try (by split);
    apply isName_spec in He as (? & ? & _); by repeat split.
Qed.

Lemma compile_throws_witness :
  "y" ≠ "" ∧ Forall (λ ch, isAlpha ch = true) (chars "y")
  ∧ existsb (refersTo "y") [ValDecl "x" (IntLit 1); Binary TokenType.plus (Ident "x") (Ident "y")]
    = true.
Proof.
  apply (compile_throws 20 "const x = 1 x + y"
           [ValDecl "x" (IntLit 1); Binary TokenType.plus (Ident "x") (Ident "y")]
           (UnknownIdentifier "y"));
    reflexivity.
Defined.

End CompilerOutcome.

(** ** The JavaScript back end *)

Section JsBackEnd.
Import CompilerJs.

Lemma visit_Invoke_js target args st :
  visit (Invoke target args) st
  = js st <- visit target st ;
    js st <- visitArgs args (emit (Text "(") st) ;
    JsOk (emit (Text ")") st).
Proof.
  cbn [visit]. destruct (visit target st) as [s1|]; cbn [jsBind]; [|reflexivity].
  generalize (emit (Text "(") s1). intros s.
  assert (H : ∀ nodes s,
    (fix visitArgs (args : list AstNode) (st : State) : JsRes State :=
       match args with
       | [] => JsOk st
       | arg :: rest =>
           js st <- visit arg st ;
           visitArgs rest (if bool_decide (rest ≠ []) then emit (Text ", ") st else st)
       end) nodes s = visitArgs nodes s).
  { induction nodes as [|n rest IH]; intros s0; [reflexivity|].
    cbn [visitArgs]. destruct (visit n s0); cbn [jsBind]; [apply IH | reflexivity]. }
  by rewrite H.
Qed.

Lemma visit_FuncDecl_js name params body st :
  visit (FuncDecl name params body) st
  = let st := emit (Text ("function " +:+ name +:+ "(")) st in
    let st := visitParams params st in
    let st := emit (Text (") {" +:+ String "010"%char "")) st in
    let st := withIndent (S (indentLevel st)) st in
    js st <- visitBody body st ;
    JsOk (emit (Text "}") (withIndent (indentLevel st - 1) st)).
Proof.
  cbn [visit].
  assert (H : ∀ nodes s,
    (fix visitBody (body : list AstNode) (st : State) : JsRes State :=
       match body with
       | [] => JsOk st
       | bodyNode :: rest =>
           let st := indent st in
           js st <- (if isExpr bodyNode && bool_decide (rest = []) then
                       js st <- visit bodyNode (emit (Text "return ") st) ;
                       JsOk (emit (Text ";") st)
                     else visit bodyNode st) ;
           visitBody rest (emit (Text (String "010"%char "")) st)
       end) nodes s = visitBody nodes s).
  { induction nodes as [|n rest IH]; intros s0; [reflexivity|].
    cbn [visitBody]. cbv zeta.
    destruct (isExpr n && bool_decide (rest = [])).
    - destruct (visit n _); cbn [jsBind]; [apply IH | reflexivity].
    - destruct (visit n _); cbn [jsBind]; [apply IH | reflexivity]. }
  cbv zeta. by rewrite H.
Qed.

Lemma jsBind_Ok {A B} (r : JsRes A) (k : A → JsRes B) b :
  jsBind r k = JsOk b → ∃ a, r = JsOk a ∧ k a = JsOk b.
Proof. destruct r; cbn; [eauto | discriminate]. Qed.

(** A node that the back end accepts has known operators only. *)
Lemma visit_js_operators node :
  ∀ st st', visit node st = JsOk st' → operatorsOk node = true.
Proof.
  induction node as
    [value|value|name|op expr IH|op l r IHl IHr|target args IHt IHa
    |name value IH|name params body IH|expr IH] using AstNode_ind;
    intros st st'; cbn [operatorsOk]; try done.
  - cbn [visit]. destruct op; try discriminate. intros H. by rewrite (IH _ _ H).
  - cbn [visit]. intros H. apply jsBind_Ok in H as (s1 & Hl & H).
    rewrite (IHl _ _ Hl).
    destruct op; try discriminate; rewrite (IHr _ _ H), bool_decide_eq_true_2; try done;
      rewrite !elem_of_cons; tauto.
  - rewrite visit_Invoke_js. intros H. apply jsBind_Ok in H as (s1 & Ht & H).
    apply jsBind_Ok in H as (s2 & Ha & _). rewrite (IHt _ _ Ht), andb_true_r.
    clear Ht. revert Ha. generalize (emit (Text "(") s1). clear s1.
    induction IHa as [|a rest Ha _ IHrest]; intros s; cbn [visitArgs forallb]; [done|].
    intros H. apply jsBind_Ok in H as (s1 & H1 & H).
    by rewrite (Ha _ _ H1), (IHrest _ H).
  - cbn [visit]. intros H. apply jsBind_Ok in H as (s1 & Hv & _). by apply (IH _ _ Hv).
  - rewrite visit_FuncDecl_js. cbv zeta. intros H. apply jsBind_Ok in H as (s1 & Hb & _).
    revert Hb. generalize (withIndent (S (indentLevel (emit (Text (") {" +:+ String "010"%char ""))
      (visitParams params (emit (Text ("function " +:+ name +:+ "(")) st)))))
      (emit (Text (") {" +:+ String "010"%char ""))
         (visitParams params (emit (Text ("function " +:+ name +:+ "(")) st)))).
    induction IH as [|n rest Hn _ IHrest]; intros s; cbn [visitBody forallb]; [done|].
    cbv zeta. intros H. apply jsBind_Ok in H as (s2 & H1 & H).
    rewrite (IHrest _ H), andb_true_r.
    destruct (isExpr n && bool_decide (rest = [])).
    + apply jsBind_Ok in H1 as (s3 & H1 & _). by apply (Hn _ _ H1).
    + by apply (Hn _ _ H1).
  - cbn [visit]. intros H. apply jsBind_Ok in H as (s1 & Hv & _). by apply (IH _ _ Hv).
Qed.

(** A node with known operators only is accepted by the back end. *)
Lemma visit_js_accepts node :
  operatorsOk node = true → ∀ st, ∃ st', visit node st = JsOk st'.
Proof.
  induction node as
    [value|value|name|op expr IH|op l r IHl IHr|target args IHt IHa
    |name value IH|name params body IH|expr IH] using AstNode_ind;
    cbn [operatorsOk]; intros Hok st.
  - cbn [visit]. eauto.
  - cbn [visit]. eauto.
  - cbn [visit]. eauto.
  - apply andb_true_iff in Hok as [Hop He]. apply bool_decide_eq_true in Hop as ->.
    cbn [visit]. by apply IH.
  - apply andb_true_iff in Hok as [Hok Hr]. apply andb_true_iff in Hok as [Hop Hl].
    apply bool_decide_eq_true in Hop. cbn [visit].
    destruct (IHl Hl st) as [s1 ->]. cbn [jsBind].
    rewrite !elem_of_cons, elem_of_nil in Hop. destruct Hop as [->|[->|[]]]; by apply IHr.
  - apply andb_true_iff in Hok as [Ha Ht]. rewrite visit_Invoke_js.
    destruct (IHt Ht st) as [s1 ->]. cbn [jsBind].
    assert (G : ∀ s, ∃ s', visitArgs args s = JsOk s').
    { clear Ht. induction IHa as [|a rest Hn _ IHrest]; intros s; cbn [visitArgs]; [eauto|].
      cbn [forallb] in Ha. apply andb_true_iff in Ha as [Ha1 Ha2].
      destruct (Hn Ha1 s) as [s2 ->]. cbn [jsBind]. by apply IHrest. }
    destruct (G (emit (Text "(") s1)) as [s2 ->]. cbn [jsBind]. eauto.
  - cbn [visit]. destruct (IH Hok (emit (Text ("const " +:+ name +:+ " = ")) st)) as [s1 ->].
    cbn [jsBind]. eauto.
  - rewrite visit_FuncDecl_js. cbv zeta.
    assert (G : ∀ s, ∃ s', visitBody body s = JsOk s').
    { induction IH as [|n rest Hn _ IHrest]; intros s; cbn [visitBody]; [eauto|].
      cbn [forallb] in Hok. apply andb_true_iff in Hok as [Hb1 Hb2]. cbv zeta.
      destruct (isExpr n && bool_decide (rest = [])).
      - destruct (Hn Hb1 (emit (Text "return ") (indent s))) as [s2 ->]. cbn [jsBind].
        by apply IHrest.
      - destruct (Hn Hb1 (indent s)) as [s2 ->]. cbn [jsBind]. by apply IHrest. }
    match goal with |- ∃ st', jsBind (visitBody body ?s) _ = _ =>
      destruct (G s) as [s2 ->] end.
    cbn [jsBind]. eauto.
  - cbn [visit]. destruct (IH Hok (emit (Text "console.log(") st)) as [s1 ->].
    cbn [jsBind]. eauto.
Qed.

Lemma compileLoop_operators nodes :
  ∀ st, (∃ st', compileLoop nodes st = JsOk st') ↔ forallb operatorsOk nodes = true.
Proof.
  induction nodes as [|n rest IH]; intros st; cbn [compileLoop forallb].
  - split; [done | eauto].
  - rewrite andb_true_iff. split.
    + intros [st' H]. apply jsBind_Ok in H as (s1 & H1 & H). split.
      * by apply (visit_js_operators n _ _ H1).
      * apply (IH (emit (Text (String "010"%char ""))
                     (if isExpr n then emit (Text ";") s1 else s1))). eauto.
    + intros [Hn Hrest]. destruct (visit_js_accepts n Hn st) as [s1 ->]. cbn [jsBind].
      by apply IH.
Qed.

(** X12 The JavaScript back end accepts exactly the programs whose unary
    operators are [minus] and whose binary operators are [plus] and
    [minus]; in particular it accepts every program that the bytecode
    compiler accepts (it does not look at the names). *)
Theorem compile_js_accepts (nodes : list AstNode) :
  ((∃ text, compile nodes = JsOk text) ↔ forallb operatorsOk nodes = true)
  ∧ ∀ m, Compiler.compile nodes = Ok m → ∃ text, compile nodes = JsOk text.
Proof.
  assert (H : (∃ text, compile nodes = JsOk text) ↔ forallb operatorsOk nodes = true).
  { rewrite <- (compileLoop_operators nodes init). unfold compile. split.
    - intros [text Hc]. apply jsBind_Ok in Hc as (st & Hc & _). eauto.
    - intros [st ->]. cbn [jsBind]. eauto. }
  split; [exact H|]. intros m Hm. apply H. unfold Compiler.compile in Hm.
  apply bind_Ok in Hm as (st & Hb & _).
  eapply compileBlock_operators; [|exact Hb].
  apply Forall_forall. intros node _. apply visit_operators.
Qed.

End JsBackEnd.

(** ** The disassembler *)

Section Disassembler.

Lemma formatLines_Instrs indent c :
  Instrs c →
  ∃ lines, formatLines indent (c ++ [byte Opcode.return_]) = Some lines
           ∧ length lines = S (instrCount c 0).
Proof.
  induction 1 as [|op rest H0 Hr _ (lines & IH & Hlen)|op operand rest H1 _ (lines & IH & Hlen)];
    cbn [app formatLines instrCount].
  - eexists. split; [reflexivity | done].
  - rewrite decode_byte, H0, IH. eexists. split; [reflexivity|]. cbn [length]. by rewrite Hlen.
  - rewrite decode_byte, H1, IH. eexists. split; [reflexivity|]. cbn [length]. by rewrite Hlen.
Qed.

Lemma formatBytecode_linked n name code indent :
  linkedCode n code → ∃ text, formatBytecode name code indent = Some text.
Proof.
  intros (c & -> & Hc). unfold formatBytecode.
  destruct (formatLines_Instrs indent c (Linked_Instrs _ _ Hc)) as (lines & -> & _). eauto.
Qed.

Lemma disFunctions_linked n constants res :
  Forall (linkedValue n) constants → ∃ res', disFunctions constants res = Some res'.
Proof.
  intros Hall. revert res. induction Hall as [|v rest Hv _ IH]; intros res;
    cbn [disFunctions]; [eauto|].
  destruct v as [| | |name code]; try apply IH.
  destruct (formatBytecode_linked n name code true Hv) as [text ->]. apply IH.
Qed.

(** X13 The [dis] command does not fail on a compiled program: every byte
    that the disassembler takes for an opcode is one, in the code of the
    program and in the code of each of its functions; and the listing of
    the program has one line per instruction. *)
Theorem dis_compiled (nodes : list AstNode) (m : Module) (showConstants : bool) :
  Compiler.compile nodes = Ok m →
  (∃ text, dis showConstants m = Some text)
  ∧ ∃ lines, formatLines false (moduleCode m) = Some lines
             ∧ length lines = instrCount (moduleCode m) 0.
Proof.
  intros Hc. destruct (compile_linked nodes m Hc) as [Hcode Hpool]. split.
  - unfold dis. destruct (disFunctions_linked _ _ "" Hpool) as [res ->].
    destruct (formatBytecode_linked _ "$main" _ (negb (bool_decide (res = ""))) Hcode)
      as [text ->].
    eauto.
  - destruct Hcode as (c & -> & Hl). apply Linked_Instrs in Hl.
    destruct (formatLines_Instrs false c Hl) as (lines & -> & Hlen).
    exists lines. split; [reflexivity|]. rewrite instrCount_app by exact Hl.
    rewrite Hlen. cbn. lia.
Qed.

Lemma dis_compiled_witness :
  ∃ text, dis true (mkModule [VNumber 5] [3; 0; 13]%Z) = Some text.
Proof. apply (dis_compiled [IntLit 5]). reflexivity. Defined.

End Disassembler.

(** ** The [run] command *)

Section RunCommand.

Lemma new_number (n : N) :
  Parser.new (Tokenizer.new (pretty n))
  = Got (Parser.mk (Tokenizer.mk (pretty n) (String.length (pretty n)))
           (IntToken (Z.of_N n)) eofToken).
Proof.
  unfold Parser.new. change (Tokenizer.new (pretty n)) with (Tokenizer.mk (pretty n) (length (@nil ascii))).
  rewrite (next_pretty_N n [] [] (pretty n)); [| by rewrite app_nil_r | by intros ch [=]].
  cbn [andThen length Nat.add].
  rewrite next_at_end by (by apply remaining_at_end). done.
Qed.

Lemma expectToken_at_end type tz token :
  Tokenizer.next tz = Got (eofToken, tz) → tokenType token = Some type →
  ∀ peek, Parser.expectToken type (Parser.mk tz token peek)
          = Got (token, Parser.mk tz peek eofToken).
Proof.
  intros Hn Ht peek. unfold Parser.expectToken, Parser.nextToken.
  cbn [Parser.token Parser.tokenizer Parser.peekToken].
  rewrite bool_decide_eq_false_2 by (intros H; by apply H).
  by rewrite Hn.
Qed.

Lemma infixLoop_at_end fuel prec leftExpr tz peek :
  Parser.infixLoop fuel prec leftExpr (Parser.mk tz eofToken peek)
  = Got (leftExpr, Parser.mk tz eofToken peek).
Proof. by destruct fuel. Qed.

Lemma parsePrecedence_int fuel prec tz value :
  Tokenizer.next tz = Got (eofToken, tz) →
  Parser.parsePrecedence (S fuel) prec (Parser.mk tz (IntToken value) eofToken)
  = Got (IntLit value, Parser.mk tz eofToken eofToken).
Proof.
  intros Hn. cbn [Parser.parsePrecedence Parser.token tokenType Parser.getPrefixFn].
  unfold Parser.parseIntLit.
  rewrite (expectToken_at_end TokenType.int tz (IntToken value) Hn eq_refl).
  cbn [andThen]. apply infixLoop_at_end.
Qed.

Lemma parseLoop_at_end fuel nodes tz peek :
  Parser.parseLoop fuel nodes (Parser.mk tz eofToken peek) = Got nodes.
Proof. by destruct fuel. Qed.

Lemma isAtEnd_false tz token peek :
  token ≠ eofToken → Parser.isAtEnd (Parser.mk tz token peek) = false.
Proof. intros H. unfold Parser.isAtEnd. by rewrite bool_decide_eq_false_2. Qed.

Lemma parseLoop_step fuel nodes p :
  Parser.isAtEnd p = false →
  Parser.parseLoop (S fuel) nodes p
  = let* (node, p) := Parser.parseStatement fuel p in
    Parser.parseLoop fuel (nodes ++ [node]) p.
Proof. intros H. cbn [Parser.parseLoop]. by rewrite H. Qed.

Lemma parse_number (n : N) fuel :
  parseProgram (S (S (S fuel))) (pretty n) = Got [IntLit (Z.of_N n)].
Proof.
  unfold parseProgram. rewrite new_number. cbn [andThen].
  set (tz := Tokenizer.mk _ _).
  assert (Hn : Tokenizer.next tz = Got (eofToken, tz))
    by (apply next_at_end; by apply remaining_at_end).
  unfold Parser.parse. rewrite parseLoop_step by (by apply isAtEnd_false).
  change (Parser.parseStatement (S (S fuel)) (Parser.mk tz (IntToken (Z.of_N n)) eofToken))
    with (Parser.parsePrecedence (S fuel) 0 (Parser.mk tz (IntToken (Z.of_N n)) eofToken)).
  rewrite (parsePrecedence_int _ _ _ _ Hn).
  cbn [andThen app]. apply parseLoop_at_end.
Qed.

Lemma new_negative (n : N) :
  Parser.new (Tokenizer.new ("-" +:+ pretty n))
  = Got (Parser.mk (Tokenizer.mk ("-" +:+ pretty n) (1 + String.length (pretty n)))
           (PlainToken TokenType.minus) (IntToken (Z.of_N n))).
Proof.
  unfold Parser.new. set (s := "-" +:+ pretty n).
  assert (Hs : chars s = "-"%char :: chars (pretty n)) by reflexivity.
  rewrite (next_minus (Tokenizer.new s) (chars (pretty n))) by exact Hs.
  cbn [andThen]. change (Tokenizer.skip (Tokenizer.new s)) with (Tokenizer.mk s (length ["-"%char])).
  rewrite (next_pretty_N n ["-"%char] [] s); [| by rewrite app_nil_r | by intros ch [=]].
  reflexivity.
Qed.

Lemma parsePrecedence_minus fuel prec tz peek :
  Parser.parsePrecedence (S fuel) prec (Parser.mk tz (PlainToken TokenType.minus) peek)
  = let* (leftExpr, p) :=
      Parser.parseUnary (Parser.parsePrecedence fuel)
        (Parser.mk tz (PlainToken TokenType.minus) peek) in
    Parser.infixLoop fuel prec leftExpr p.
Proof. reflexivity. Qed.

Lemma parse_negative (n : N) fuel :
  parseProgram (S (S (S (S fuel)))) ("-" +:+ pretty n)
  = Got [Unary TokenType.minus (IntLit (Z.of_N n))].
Proof.
  unfold parseProgram. rewrite new_negative. cbn [andThen].
  set (tz := Tokenizer.mk _ _).
  assert (Hn : Tokenizer.next tz = Got (eofToken, tz)).
  { apply next_at_end, remaining_at_end. rewrite <- !chars_length.
    change (chars ("-" +:+ pretty n)) with ("-"%char :: chars (pretty n)). cbn [length]. lia. }
  unfold Parser.parse. rewrite parseLoop_step by (by apply isAtEnd_false).
  change (Parser.parseStatement (S (S (S fuel))) ?p)
    with (Parser.parsePrecedence (S (S fuel)) 0
            (Parser.mk tz (PlainToken TokenType.minus) (IntToken (Z.of_N n)))).
  rewrite parsePrecedence_minus.
  unfold Parser.parseUnary. cbn [Parser.token tokenType Parser.consumeToken precedence].
  unfold Parser.nextToken. cbn [Parser.tokenizer Parser.peekToken]. rewrite Hn. cbn [andThen].
  rewrite (parsePrecedence_int _ _ _ _ Hn). cbn [andThen].
  rewrite infixLoop_at_end. cbn [andThen app]. apply parseLoop_at_end.
Qed.

Lemma compile_IntLit (z : Z) :
  z ≠ 0%Z → Compiler.compile [IntLit z] = Ok (mkModule [VNumber z] [3; 0; 13]%Z).
Proof.
  intros Hz. unfold Compiler.compile. cbn [Compiler.compileBlock Compiler.visit].
  unfold Compiler.visitIntLit. rewrite bool_decide_eq_false_2 by exact Hz. reflexivity.
Qed.

Lemma compile_negated (z : Z) :
  z ≠ 0%Z →
  Compiler.compile [Unary TokenType.minus (IntLit z)]
  = Ok (mkModule [VNumber z] [3; 0; 4; 13]%Z).
Proof.
  intros Hz. unfold Compiler.compile. cbn [Compiler.compileBlock Compiler.visit].
  unfold Compiler.visitIntLit. rewrite bool_decide_eq_false_2 by exact Hz. reflexivity.
Qed.

Lemma loop_number (z : Z) fuel :
  VM.loop (S (S (S fuel))) (VM.new (mkModule [VNumber z] [3; 0; 13]%Z))
  = Some (VM.Done (VM.mk (mkModule [VNumber z] [3; 0; 13]%Z)
                     (VM.mkFrame 3 [3; 0; 13]%Z (KInt 0)) []
                     (VM.mkArr [VNumber z] []) true [])).
Proof. cbn. by destruct fuel. Qed.

Lemma loop_negated (z : Z) fuel :
  VM.loop (S (S (S (S fuel)))) (VM.new (mkModule [VNumber z] [3; 0; 4; 13]%Z))
  = Some (VM.Done (VM.mk (mkModule [VNumber z] [3; 0; 4; 13]%Z)
                     (VM.mkFrame 4 [3; 0; 4; 13]%Z (KInt 0)) []
                     (VM.mkArr [VNumber (- z)] []) true [])).
Proof. cbn. by destruct fuel. Qed.

(** X14 The [run] command on the text of a number prints that number: the
    text that the VM prints for a number (a minus sign and decimal digits)
    is a program that the tokenizer, the parser, the compiler and the VM
    take back to the number.  This is stated for the integers of absolute
    value at most 2^53, which are doubles and are printed with all their
    digits. *)
Theorem runCommand_number (z : Z) (fuel : nat) :
  (Z.abs z ≤ 2 ^ 53)%Z → 4 ≤ fuel →
  runCommand fuel (valueToString (VNumber z)) = Printed [valueToString (VNumber z)].
Proof.
  intros _ Hfuel. destruct fuel as [|[|[|[|fuel]]]]; try lia.
  cbn [valueToString]. unfold runCommand.
  destruct (Z.lt_trichotomy z 0) as [Hz|[->|Hz]].
  - rewrite (pretty_neg z Hz), parse_negative, Z2N.id by lia.
    rewrite compile_negated by lia. rewrite loop_negated.
    cbn [VM.result VM.arrPop VM.stack VM.elems last VM.output fst app].
    rewrite Z.opp_involutive. cbn [valueToString]. by rewrite (pretty_neg z Hz).
  - reflexivity.
  - rewrite (pretty_nonneg z) by lia. rewrite parse_number, Z2N.id by lia.
    rewrite compile_IntLit by lia. rewrite loop_number.
    cbn [VM.result VM.arrPop VM.stack VM.elems last VM.output fst app valueToString].
    by rewrite (pretty_nonneg z) by lia.
Qed.

Lemma runCommand_number_witness : runCommand 4 "-7" = Printed ["-7"].
Proof. apply (runCommand_number (-7) 4); [vm_compute; discriminate | lia]. Defined.

End RunCommand.

(** * The compiled program against the meaning of the program *)

Unset Default Proof Using.

(** ** What the compiler does to the pool and to the code of a function *)

Section CompiledFunctions.
Import Compiler.

Lemma visitIntLit_extends value st st' :
  poolAllocated st → visitIntLit value st = Ok st' →
  ∃ added, constants st' = constants st ++ added.
Proof.
  intros Hp. unfold visitIntLit. case_bool_decide.
  - intros [= <-]. exists []. by rewrite app_nil_r.
  - pose proof (addConstant_fresh (VNumber value) st Hp) as Ha.
    destruct (alloc (VNumber value) st) as [o s]. cbn [fst snd] in Ha. rewrite Ha.
    intros [= <-]. by eexists.
Qed.

Lemma visitStringLit_extends value st st' :
  poolAllocated st → visitStringLit value st = Ok st' →
  ∃ added, constants st' = constants st ++ added.
Proof.
  intros Hp. unfold visitStringLit.
  pose proof (addConstant_fresh (VString value) st Hp) as Ha.
  destruct (alloc (VString value) st) as [o s]. cbn [fst snd] in Ha. rewrite Ha.
  intros [= <-]. by eexists.
Qed.

(** The constant and the code that the declaration of a function ends
    with. *)
Lemma finishFunc_spec name origCode origDepth s1 :
  poolAllocated s1 →
  constants (finishFunc name origCode origDepth s1)
  = constants s1 ++ [{| addr := nextAddr s1; val := VFunction name (functionCode s1) |}]
  ∧ code (finishFunc name origCode origDepth s1)
    = origCode ++ [byte Opcode.constant; Z.of_nat (length (constants s1))].
Proof.
  intros Hp. unfold finishFunc.
  set (k := length (localsAtDepth (emit [byte Opcode.store; 0%Z] s1)) - 1).
  assert (Hk : k = length (localsAtDepth s1) - 1) by reflexivity.
  destruct (popLocals_code k (emit [byte Opcode.store; 0%Z] s1)) as (Hc2 & Hk2 & Hn2).
  cbn [emit withCode code constants nextAddr] in Hc2, Hk2, Hn2.
  set (s2 := popLocals k (emit [byte Opcode.store; 0%Z] s1)) in *. clearbody s2 k.
  set (s3 := emit [byte Opcode.return_] (withLocals (removelast (locals s2)) s2)).
  set (sA := pushLocal name (withDepth origDepth (withCode origCode s3))).
  assert (HkA : constants sA = constants s1) by exact Hk2.
  assert (HnA : nextAddr sA = nextAddr s1) by exact Hn2.
  assert (HcA : code sA = origCode) by reflexivity.
  assert (Hfn : code s3 = functionCode s1).
  { unfold s3, functionCode. cbn [emit withCode withLocals code]. rewrite Hc2, Hk.
    by rewrite <- !app_assoc. }
  clearbody sA s3.
  assert (HpA : poolAllocated sA) by (unfold poolAllocated; by rewrite HkA, HnA).
  pose proof (addConstant_fresh (VFunction name (code s3)) sA HpA) as Ha.
  destruct (alloc (VFunction name (code s3)) sA) as [o s]. cbn [fst snd] in Ha.
  rewrite Ha. cbn [emit withCode code constants]. by rewrite HkA, HnA, HcA, Hfn.
Qed.

Lemma afterNode_constants node isLast st :
  constants (afterNode node isLast st) = constants st
  ∧ nextAddr (afterNode node isLast st) = nextAddr st
  ∧ locals (afterNode node isLast st) = locals st
  ∧ depth (afterNode node isLast st) = depth st.
Proof. unfold afterNode. by destruct (isExpr node), isLast. Qed.

Lemma poolAllocated_afterNode node isLast st :
  poolAllocated st → poolAllocated (afterNode node isLast st).
Proof.
  unfold poolAllocated. destruct (afterNode_constants node isLast st) as (-> & -> & _). done.
Qed.

Lemma compileBlock_extends_of body :
  Forall (λ node, ∀ st st', poolAllocated st → visit node st = Ok st' →
                  ∃ added, constants st' = constants st ++ added) body →
  ∀ st st', poolAllocated st → compileBlock body st = Ok st' →
  poolAllocated st' ∧ ∃ added, constants st' = constants st ++ added.
Proof.
  induction 1 as [|node rest Hn _ IH]; intros st st' Hp; cbn [compileBlock].
  - intros [= <-]. split; [done|]. exists []. by rewrite app_nil_r.
  - intros H. apply bind_Ok in H as (s1 & Hv & Hb).
    destruct (Hn _ _ Hp Hv) as [a1 H1].
    pose proof (proj1 (visit_poolGrows node _ _ Hp Hv)) as Hp1.
    pose proof (poolAllocated_afterNode node (bool_decide (rest = [])) s1 Hp1) as Hp2.
    destruct (IH _ _ Hp2 Hb) as [Hp' [a2 H2]]. split; [done|].
    exists (a1 ++ a2). rewrite H2. destruct (afterNode_constants node (bool_decide (rest = [])) s1)
      as (-> & _). by rewrite H1, app_assoc.
Qed.

(** Compiling a node only appends to the pool. *)
Lemma visit_extends node :
  ∀ st st', poolAllocated st → visit node st = Ok st' →
  ∃ added, constants st' = constants st ++ added.
Proof.
  induction node as
    [value|value|name|op expr IH|op l r IHl IHr|target args IHt IHa
    |name value IH|name params body IH|expr IH] using AstNode_ind;
    intros st st' Hp.
  - cbn [visit]. by apply visitIntLit_extends.
  - cbn [visit]. by apply visitStringLit_extends.
  - cbn [visit]. unfold visitIdent. destruct (scanLocals _ _ _); [|discriminate].
    intros [= <-]. exists []. by rewrite app_nil_r.
  - rewrite visit_Unary. unfold visitUnary. intros H.
    apply bind_Ok in H as (s1 & Hv & Hb). destruct op; try discriminate.
    injection Hb as <-. exact (IH _ _ Hp Hv).
  - rewrite visit_Binary. unfold visitBinary. intros H.
    apply bind_Ok in H as (s1 & Hv1 & H). apply bind_Ok in H as (s2 & Hv2 & Hb).
    destruct (IHl _ _ Hp Hv1) as [a1 H1].
    destruct (IHr _ _ (proj1 (visit_poolGrows l _ _ Hp Hv1)) Hv2) as [a2 H2].
    exists (a1 ++ a2).
    destruct op; try discriminate; injection Hb as <-; cbn; by rewrite H2, H1, app_assoc.
  - rewrite visit_Invoke. unfold visitInvoke. intros H.
    apply bind_Ok in H as (s1 & Hv1 & H). apply bind_Ok in H as (s2 & Hv2 & Hb).
    injection Hb as <-.
    assert (G : ∀ s s', poolAllocated s → visitAll args s = Ok s' →
      poolAllocated s' ∧ ∃ added, constants s' = constants s ++ added).
    { clear Hv1 Hv2. induction IHa as [|a rest Ha _ IHrest]; intros s s' Hps;
        cbn [visitAll].
      - intros [= <-]. split; [done|]. exists []. by rewrite app_nil_r.
      - intros H. apply bind_Ok in H as (s0 & Hv & Hb).
        destruct (Ha _ _ Hps Hv) as [a1 H1].
        destruct (IHrest _ _ (proj1 (visit_poolGrows a _ _ Hps Hv)) Hb) as [Hp' [a2 H2]].
        split; [done|]. exists (a1 ++ a2). by rewrite H2, H1, app_assoc. }
    destruct (G (emit [byte Opcode.nil] st) s1 Hp Hv1) as [Hp1 [a1 H1]].
    destruct (IHt _ _ Hp1 Hv2) as [a2 H2].
    exists (a1 ++ a2). cbn. rewrite H2, H1. cbn. by rewrite app_assoc.
  - rewrite visit_ValDecl. unfold visitValDecl.
    destruct (alreadyExists name st); [discriminate|]. intros H.
    apply bind_Ok in H as (s1 & Hv & Hb). injection Hb as <-. exact (IH _ _ Hp Hv).
  - rewrite visit_FuncDecl. unfold visitFuncDecl.
    destruct (alreadyExists name st); [discriminate|]. intros H.
    apply bind_Ok in H as (s1 & Hv & Hb). injection Hb as <-.
    destruct (compileBlock_extends_of body IH _ _ (poolAllocated_enterFunc params st Hp) Hv)
      as [Hp1 [a1 H1]].
    destruct (finishFunc_spec name (code st) (depth st) s1 Hp1) as [-> _].
    destruct (enterFunc_scope params st) as (_ & _ & _ & Hk & _). rewrite Hk in H1.
    eexists. by rewrite H1, <- app_assoc.
  - rewrite visit_Print. unfold visitPrint. intros H.
    apply bind_Ok in H as (s1 & Hv & Hb). injection Hb as <-. exact (IH _ _ Hp Hv).
Qed.

Lemma visit_pool node st st' :
  poolAllocated st → visit node st = Ok st' →
  poolAllocated st' ∧ ∃ added, constants st' = constants st ++ added.
Proof.
  intros Hp Hv. split; [exact (proj1 (visit_poolGrows node _ _ Hp Hv))|].
  by apply (visit_extends node).
Qed.

Lemma visitAll_pool args :
  ∀ st st', poolAllocated st → visitAll args st = Ok st' →
  poolAllocated st' ∧ ∃ added, constants st' = constants st ++ added.
Proof.
  induction args as [|a rest IH]; intros st st' Hp; cbn [visitAll].
  - intros [= <-]. split; [done|]. exists []. by rewrite app_nil_r.
  - intros H. apply bind_Ok in H as (s0 & Hv & Hb).
    destruct (visit_pool a _ _ Hp Hv) as [Hp0 [a1 H1]].
    destruct (IH _ _ Hp0 Hb) as [Hp' [a2 H2]].
    split; [done|]. exists (a1 ++ a2). by rewrite H2, H1, app_assoc.
Qed.

Lemma compileBlock_pool body st st' :
  poolAllocated st → compileBlock body st = Ok st' →
  poolAllocated st' ∧ ∃ added, constants st' = constants st ++ added.
Proof.
  apply compileBlock_extends_of. apply Forall_forall. intros node _. apply visit_extends.
Qed.

(** The declaration of a function, taken apart. *)
Lemma visitFuncDecl_spec name params body st st' :
  poolAllocated st → localsOk st →
  visit (FuncDecl name params body) st = Ok st' →
  ∃ s1,
    compileBlock body (enterFunc params st) = Ok s1
    ∧ constants st'
      = constants s1 ++ [{| addr := nextAddr s1; val := VFunction name (functionCode s1) |}]
    ∧ emits st st' [byte Opcode.constant; Z.of_nat (length (constants s1))]
    ∧ locals st' = locals st ++ [Local.mk name (depth st)]
    ∧ depth st' = depth st.
Proof.
  intros Hp Hok Hv. destruct (visitFuncDecl_scope _ _ _ _ _ Hok Hv) as [Hl Hd].
  revert Hv. rewrite visit_FuncDecl. unfold visitFuncDecl.
  destruct (alreadyExists name st); [discriminate|]. intros H.
  apply bind_Ok in H as (s1 & Hv & Hb). injection Hb as <-.
  destruct (compileBlock_pool body _ _ (poolAllocated_enterFunc params st Hp) Hv) as [Hp1 _].
  destruct (finishFunc_spec name (code st) (depth st) s1 Hp1) as [Hk Hc].
  exists s1. by repeat split.
Qed.

End CompiledFunctions.

(** ** Running the code of an expression *)

Section Simulation.
Import VM.

Lemma after_Some {A B} (r : Meaning A) (k : A → Meaning B) out res :
  after r k = Some (out, res) →
  ∃ out1 r1, r = Some (out1, r1)
    ∧ match r1 with
      | Throw e => out = out1 ∧ res = Throw e
      | Ok a => ∃ out2, k a = Some (out2, res) ∧ out = out1 ++ out2
      end.
Proof.
  unfold after. destruct r as [[out1 [a|e]]|]; [| |discriminate].
  - destruct (k a) as [[out2 r2]|] eqn:Ek; [|discriminate].
    intros [= <- <-]. exists out1, (Ok a). split; [done|]. by exists out2.
  - intros [= <- <-]. by exists out1, (Throw e).
Qed.

Lemma steps_trans n1 n2 vm vm1 vm2 :
  steps n1 vm = Done vm1 → steps n2 vm1 = Done vm2 → steps (n1 + n2) vm = Done vm2.
Proof. intros H1 H2. by rewrite steps_add, H1. Qed.

Lemma steps_trans_fail n1 n2 vm vm1 e vf :
  steps n1 vm = Done vm1 → steps n2 vm1 = Fail e vf → steps (n1 + n2) vm = Fail e vf.
Proof. intros H1 H2. by rewrite steps_add, H1. Qed.

Lemma failsAs_later out1 out2 e n vm vm1 :
  steps n vm = Done vm1 → halted vm1 = halted vm → output vm1 = output vm ++ out1 →
  failsAs out2 e vm1 → failsAs (out1 ++ out2) e vm.
Proof.
  intros Hs Hh Ho (n2 & vf & Hf & Hhf & Hof). exists (n + n2), vf.
  split; [by eapply steps_trans_fail|]. split; [congruence|].
  by rewrite Hof, Ho, app_assoc.
Qed.

Lemma failsAs_step e vm vf :
  handleInstr vm = Fail e vf → halted vf = halted vm → output vf = output vm →
  failsAs [] e vm.
Proof.
  intros H Hh Ho. exists 1, vf. rewrite steps_one. split; [done|]. split; [done|].
  by rewrite app_nil_r.
Qed.

Lemma stands_app_l vm pre c1 c2 post :
  stands vm pre (c1 ++ c2) post → stands vm pre c1 (c2 ++ post).
Proof. intros [Hc Hi]. split; [by rewrite Hc, <- app_assoc|done]. Qed.

Lemma stands_join vm pre c1 c2 post :
  stands vm pre c1 (c2 ++ post) → stands vm pre (c1 ++ c2) post.
Proof. intros [Hc Hi]. split; [by rewrite Hc, <- app_assoc|done]. Qed.

Lemma stands_next vm vm1 pre c1 c2 post :
  stands vm pre (c1 ++ c2) post → sameControl vm vm1 (length c1) →
  stands vm1 (pre ++ c1) c2 post.
Proof.
  intros [Hc Hi] (Hf & _). unfold stands. rewrite Hf.
  cbn [advance withFrame currentFrame code ip]. split.
  - by rewrite Hc, <- !app_assoc.
  - rewrite Hi, length_app. lia.
Qed.

Lemma stands_byte vm pre b c post : stands vm pre (b :: c) post → byteAt vm 0 = Some b.
Proof. intros [Hc Hi]. by apply (byteAt_middle vm pre b (c ++ post)). Qed.

Lemma stands_operand vm pre b o c post :
  stands vm pre (b :: o :: c) post → byteAt vm 1 = Some o.
Proof. intros [Hc Hi]. by apply (byteAt_operand vm pre b o (c ++ post)). Qed.

Lemma holds_push m env base temps vm vm' n v :
  holds m env base temps vm → sameControl vm vm' n →
  elems (stack vm') = elems (stack vm) ++ [v] →
  holds m env base (temps ++ [v]) vm'.
Proof.
  intros (Hm & Ho & slots & Hs & Hr) (Hf & _ & Hm' & _) Hst. split; [congruence|].
  split; [by rewrite Hf|]. exists slots. split; [|done].
  by rewrite Hst, Hs, <- !app_assoc.
Qed.

Lemma holds_pushes m env base temps vm vm' n vs :
  holds m env base temps vm → sameControl vm vm' n →
  elems (stack vm') = elems (stack vm) ++ vs →
  holds m env base (temps ++ vs) vm'.
Proof.
  intros (Hm & Ho & slots & Hs & Hr) (Hf & _ & Hm' & _) Hst. split; [congruence|].
  split; [by rewrite Hf|]. exists slots. split; [|done].
  by rewrite Hst, Hs, <- !app_assoc.
Qed.

Lemma represents_show m sv v :
  represents m sv v →
  valueToString v = showS sv ∧ typeOf v = typeOfS sv ∧ isString v = isStringS sv.
Proof. destruct sv, v; cbn; try done; intros H; subst; try done. by destruct H as [-> _]. Qed.

Section Arith.
Variable admissible : Z → bool.

Lemma number_Some z out r :
  number admissible z = Some (out, r) → out = [] ∧ r = Ok (SNumber z).
Proof. unfold number. destruct (admissible z); [|discriminate]. by intros [= <- <-]. Qed.

Lemma negS_sim m a va out r :
  represents m a va → negS admissible a = Some (out, r) →
  out = []
  ∧ match r with
    | Ok sv => ∃ v, negValue va = Ok v ∧ represents m sv v
    | Throw e => negValue va = Throw e
    end.
Proof.
  intros Hr. destruct (represents_show m a va Hr) as (_ & Ht & _).
  destruct a, va; cbn in Hr; try done; cbn [negS negValue typeOf typeOfS];
    try (intros [= <- <-]; split; [done|]; done).
  intros H. apply number_Some in H as [-> ->]. split; [done|]. subst. by eexists.
Qed.

Lemma addS_sim m a b va vb out r :
  represents m a va → represents m b vb → addS admissible a b = Some (out, r) →
  out = []
  ∧ match r with
    | Ok sv => ∃ v, addValues va vb = Ok v ∧ represents m sv v
    | Throw e => addValues va vb = Throw e
    end.
Proof.
  intros Ha Hb. destruct (represents_show m a va Ha) as (Sa & Ta & Ia).
  destruct (represents_show m b vb Hb) as (Sb & Tb & Ib).
  unfold addS, addValues. rewrite Ia, Ib, Sa, Sb, Ta, Tb.
  destruct (isStringS a || isStringS b).
  - intros [= <- <-]. split; [done|]. by eexists.
  - destruct a, va; cbn in Ha; try done; destruct b, vb; cbn in Hb; try done;
      try (intros [= <- <-]; split; [done|]; done).
    intros H. apply number_Some in H as [-> ->]. split; [done|]. subst. by eexists.
Qed.

Lemma subS_sim m a b va vb out r :
  represents m a va → represents m b vb → subS admissible a b = Some (out, r) →
  out = []
  ∧ match r with
    | Ok sv => ∃ v, subValues va vb = Ok v ∧ represents m sv v
    | Throw e => subValues va vb = Throw e
    end.
Proof.
  intros Ha Hb. destruct (represents_show m a va Ha) as (Sa & Ta & Ia).
  destruct (represents_show m b vb Hb) as (Sb & Tb & Ib).
  unfold subS, subValues.
  destruct a, va; cbn in Ha; try done; destruct b, vb; cbn in Hb; try done;
    cbn [typeOf typeOfS]; try (intros [= <- <-]; split; [done|]; done).
  intros H. apply number_Some in H as [-> ->]. split; [done|]. subst. by eexists.
Qed.

End Arith.

(** The value of a name is in the slot that the compiler resolves it to. *)
Lemma lookupLast_Some name (env : list (string * SValue)) sv :
  lookupLast name env = Some sv →
  ∃ i, env !! i = Some (name, sv)
       ∧ ∀ j p, i < j → env !! j = Some p → p.1 ≠ name.
Proof.
  induction env as [|[n v] rest IH]; cbn [lookupLast]; [discriminate|].
  destruct (lookupLast name rest) as [w|] eqn:E.
  - intros [= ->]. destruct (IH eq_refl) as (i & Hi & Hlast).
    exists (S i). split; [done|]. intros [|j] p Hj; [lia|]. cbn. apply Hlast. lia.
  - case_bool_decide as Hn; [|discriminate]. intros [= ->]. subst n.
    exists 0. split; [done|]. intros [|j] p Hj; [lia|]. cbn. intros Hp Hname.
    assert (G : ∀ (e : list (string * SValue)) j p,
              lookupLast name e = None → e !! j = Some p → p.1 ≠ name).
    { clear. induction e as [|[n v] e IH]; intros j p; cbn [lookupLast]; [done|].
      destruct (lookupLast name e) eqn:E; [discriminate|].
      case_bool_decide as Hn; [discriminate|]. intros _.
      destruct j as [|j]; cbn; [by intros [= <-]|]. by apply IH. }
    by apply (G rest j p E Hp).
Qed.

Lemma resolve_slot name ls (env : list (string * SValue)) i sv :
  map Local.name ls = map fst env →
  Compiler.scanLocals name ls (length ls) = Some i →
  lookupLast name env = Some sv →
  env !! i = Some (name, sv).
Proof.
  intros Hn Hs Hl. destruct (lookupLast_Some _ _ _ Hl) as (k & Hk & Hlast).
  change (Local.name <$> ls = fst <$> env) in Hn.
  assert (Hm : lastMatch name ls k).
  { split.
    - assert (H : (Local.name <$> ls) !! k = Some name).
      { rewrite Hn, list_lookup_fmap, Hk. done. }
      rewrite list_lookup_fmap in H. destruct (ls !! k) as [l|]; [|done].
      exists l. split; [done|]. by injection H.
    - intros j l Hj Hjl Hname.
      assert (H : (Local.name <$> ls) !! j = Some name).
      { rewrite list_lookup_fmap, Hjl. cbn. by rewrite Hname. }
      rewrite Hn, list_lookup_fmap in H.
      destruct (env !! j) as [p|] eqn:Ep; [|done]. injection H as H.
      by apply (Hlast j p). }
  rewrite (scanLocals_lastMatch _ _ _ Hm) in Hs. by injection Hs as <-.
Qed.

End Simulation.

Section Expressions.
Import VM.
Variable admissible : Z → bool.
Variable call : list string → list AstNode → list SValue → Meaning SValue.
Hypothesis Hcall : callSpec call.

Lemma evaluate_Invoke env target args :
  evaluate admissible call env (Invoke target args)
  = after (evaluateAll admissible call env args) (λ vs,
    after (evaluate admissible call env target) (λ f,
      callValue call f (length args) vs)).
Proof.
  cbn [evaluate].
  assert (H : ∀ nodes,
    (fix evaluateAll (nodes : list AstNode) : Meaning (list SValue) :=
       match nodes with
       | [] => yield []
       | arg :: rest =>
           after (evaluate admissible call env arg) (λ v,
           after (evaluateAll rest) (λ vs, yield (v :: vs)))
       end) nodes = evaluateAll admissible call env nodes).
  { induction nodes as [|n rest IH]; [reflexivity|]. cbn [evaluateAll]. by rewrite IH. }
  by rewrite H.
Qed.

(** One instruction that pushes a value. *)
Lemma computes_push m c vm vm' sv v :
  handleInstr vm = Done vm' → sameControl vm vm' (length c) →
  elems (stack vm') = elems (stack vm) ++ [v] → output vm' = output vm →
  represents m sv v →
  computes m c ([], Ok sv) vm.
Proof.
  intros Hs Hc He Ho Hr. exists 1, vm', v. rewrite steps_one.
  split; [done|]. split; [done|]. split; [done|]. split; [done|].
  by rewrite app_nil_r.
Qed.

Lemma emits_inj st st' c c' : emits st st' c → emits st st' c' → c = c'.
Proof. unfold emits. intros -> H. by apply app_inv_head in H. Qed.

(** The instruction of an operator, after the code of its operands. *)
Lemma computes_op m c1 op (res : Res Value) (r : Res SValue) out n vm vm1 :
  steps n vm = Done vm1 → sameControl vm vm1 (length c1) →
  output vm1 = output vm ++ out →
  handleInstr vm1
  = match res with
    | Ok v' => Done (push v' (setElems (elems (stack vm)) (advance 1 vm1)))
    | Throw e => Fail e (setElems (elems (stack vm)) (advance 1 vm1))
    end →
  match r with
  | Ok sv => ∃ v, res = Ok v ∧ represents m sv v
  | Throw e => res = Throw e
  end →
  computes m (c1 ++ [byte op]) (out, r) vm.
Proof.
  intros Hs Hc Ho Hstep Hr. destruct r as [sv|e].
  - destruct Hr as (v & -> & Hv).
    exists (n + 1), (push v (setElems (elems (stack vm)) (advance 1 vm1))), v.
    split; [eapply steps_trans; [exact Hs | by rewrite steps_one]|].
    split; [rewrite length_app; eapply sameControl_trans; [exact Hc | done]|].
    split; [done|]. split; [done|]. exact Ho.
  - subst res. rewrite <- (app_nil_r out).
    eapply failsAs_later; [exact Hs | by destruct Hc as (_ & _ & _ & ?) | exact Ho |].
    eapply failsAs_step; [exact Hstep | done | done].
Qed.

Lemma holds_slot m env base temps vm i name sv :
  holds m env base temps vm → env !! i = Some (name, sv) →
  ∃ v, elems (stack vm) !! Z.to_nat (Z.of_nat i + Z.of_nat (length base)) = Some v
       ∧ represents m sv v.
Proof.
  intros (_ & _ & slots & Hs & Hr) Hi.
  assert (Hsv : map snd env !! i = Some sv).
  { change ((snd <$> env) !! i = Some sv). by rewrite list_lookup_fmap, Hi. }
  destruct (Forall2_lookup_l _ _ _ _ _ Hr Hsv) as (v & Hv & Hrep).
  exists v. split; [|done]. rewrite Hs.
  replace (Z.to_nat (Z.of_nat i + Z.of_nat (length base))) with (length base + i) by lia.
  rewrite lookup_app_r by lia. rewrite Nat.add_comm, Nat.add_sub.
  by apply lookup_app_l_Some.
Qed.

Lemma visitAll_emits args :
  ∀ st st', Compiler.visitAll args st = Ok st' → ∃ c, emits st st' c.
Proof.
  induction args as [|a rest IH]; intros st st'; cbn [Compiler.visitAll].
  - intros [= <-]. exists []. apply emits_nil.
  - intros H. apply bind_Ok in H as (s0 & Hv & Hb).
    destruct (visit_Instrs a _ _ Hv) as (c1 & Hc1 & _). destruct (IH _ _ Hb) as (c2 & Hc2).
    exists (c1 ++ c2). by eapply emits_trans.
Qed.

(** The code of the arguments of a call computes their values. *)
Lemma evaluateAll_sim args :
  Forall (simulates admissible call) args →
  ∀ env r, evaluateAll admissible call env args = Some r →
  ∀ st st', poolAllocated st → Compiler.visitAll args st = Ok st' →
    map Local.name (Compiler.localsAtDepth st) = map fst env →
    (∀ svs, r.2 = Ok svs →
       Compiler.locals st' = Compiler.locals st ∧ Compiler.depth st' = Compiler.depth st
       ∧ length svs = length args)
    ∧ ∀ c m vm pre post more base temps,
        emits st st' c →
        stands vm pre c post →
        moduleConstants m = map val (Compiler.constants st') ++ more →
        holds m env base temps vm →
        computesAll m c r vm.
Proof.
  induction 1 as [|a rest Ha _ IH]; intros env r He st st' Hp Hv Hn;
    cbn [evaluateAll Compiler.visitAll] in He, Hv.
  - injection He as <-. injection Hv as <-. split; [by intros svs [= <-]|].
    intros c m vm pre post more base temps Hc Hst Hm Hh.
    pose proof (emits_inj _ _ _ _ Hc (emits_nil _)) as ->.
    exists 0, vm, []. split; [done|]. split; [apply sameControl_refl|].
    split; [by rewrite app_nil_r|]. split; [constructor|]. by rewrite app_nil_r.
  - destruct r as [out r].
    apply after_Some in He as (out1 & r1 & He1 & Hk).
    apply bind_Ok in Hv as (s0 & Hv1 & Hv2).
    destruct (Ha _ _ He1 _ _ Hp Hv1 Hn) as (Hscope1 & Hrun1).
    destruct (visit_pool a _ _ Hp Hv1) as [Hp0 _].
    destruct (visitAll_pool rest _ _ Hp0 Hv2) as [_ [added2 Hk2]].
    destruct (visit_Instrs a _ _ Hv1) as (c1 & Hc1 & _).
    destruct (visitAll_emits rest _ _ Hv2) as (c2 & Hc2).
    pose proof (emits_trans _ _ _ _ _ Hc1 Hc2) as Hcc.
    destruct r1 as [sv|e].
    2:{ destruct Hk as [-> ->]. split; [done|].
        intros c m vm pre post more base temps Hc Hst Hm Hh.
        pose proof (emits_inj _ _ _ _ Hc Hcc) as ->.
        apply (Hrun1 c1 m vm pre (c2 ++ post) (map val added2 ++ more) base temps);
          [done | by apply stands_app_l | | done].
        by rewrite Hm, Hk2, map_app, <- app_assoc. }
    destruct Hk as (out2 & Hk & ->). apply after_Some in Hk as (o2 & r2 & He2 & Hk).
    destruct (Hscope1 sv eq_refl) as [Hl1 Hd1].
    assert (Hn0 : map Local.name (Compiler.localsAtDepth s0) = map fst env).
    { unfold Compiler.localsAtDepth. by rewrite Hl1, Hd1. }
    destruct (IH _ _ He2 _ _ Hp0 Hv2 Hn0) as (Hscope2 & Hrun2).
    split.
    { intros svs E. cbn in E. destruct r2 as [vs|e]; [|by destruct Hk as [_ ->]].
      destruct Hk as (o3 & [= <- <-] & _). injection E as <-.
      destruct (Hscope2 vs eq_refl) as (Hl2 & Hd2 & Hlen). cbn.
      split; [congruence|]. split; [congruence|]. by rewrite Hlen. }
    intros c m vm pre post more base temps Hc Hst Hm Hh.
    pose proof (emits_inj _ _ _ _ Hc Hcc) as ->.
    assert (Hrun1' : computes m c1 (out1, Ok sv) vm).
    { apply (Hrun1 c1 m vm pre (c2 ++ post) (map val added2 ++ more) base temps);
        [done | by apply stands_app_l | | done].
      by rewrite Hm, Hk2, map_app, <- app_assoc. }
    destruct Hrun1' as (n1 & vm1 & va & Hs1 & Hsc1 & Hel1 & Hrep1 & Ho1).
    assert (Hrun2' : computesAll m c2 (o2, r2) vm1).
    { apply (Hrun2 c2 m vm1 (pre ++ c1) post more base (temps ++ [va])); try done.
      - by apply (stands_next vm).
      - by apply (holds_push m env base temps vm vm1 (length c1) va). }
    destruct r2 as [vs|e].
    2:{ destruct Hk as [-> ->].
        eapply failsAs_later; [exact Hs1 | by destruct Hsc1 as (_ & _ & _ & ?) | exact Ho1 |].
        exact Hrun2'. }
    destruct Hk as (o3 & [= <- <-] & ->). rewrite app_nil_r.
    destruct Hrun2' as (n2 & vm2 & vbs & Hs2 & Hsc2 & Hel2 & Hrep2 & Ho2).
    exists (n1 + n2), vm2, (va :: vbs).
    split; [by eapply steps_trans|].
    split; [rewrite length_app; by eapply sameControl_trans|].
    split; [by rewrite Hel2, Hel1, <- app_assoc|].
    split; [by constructor|]. by rewrite Ho2, Ho1, app_assoc.
Qed.

(** The code of an expression computes its value. *)
Lemma evaluate_sim node : simulates admissible call node.
Proof.
  induction node as
    [value|value|name|op expr IH|op l r IHl IHr|target args IHt IHa
    |name value IH|name params body IH|expr IH] using AstNode_ind;
    intros env r0 He st st' Hp Hv Hn; try discriminate;
    [cbn [evaluate] in He..|rewrite evaluate_Invoke in He].
  - (* integer literal *)
    destruct r0 as [out r0]. apply number_Some in He as [-> ->].
    split; [intros _ _; by apply (visitIntLit_scope value)|].
    intros c m vm pre post more base temps Hc Hst Hm Hh.
    destruct (decide (value = 0%Z)) as [->|Hz].
    + cbn [Compiler.visit] in Hv. unfold Compiler.visitIntLit in Hv.
      rewrite bool_decide_eq_true_2 in Hv by done. injection Hv as <-.
      pose proof (emits_inj _ _ _ _ Hc (emits_emit _ _)) as ->.
      eapply computes_push;
        [apply exec_const0; exact (stands_byte _ _ _ _ _ Hst) |done|done|done|done].
    + destruct (visitIntLit_nonzero value st Hz) as (i & s1 & Ha & Hvisit).
      rewrite (addConstant_fresh (VNumber value) st Hp) in Ha. injection Ha as <- <-.
      rewrite Hvisit in Hv. injection Hv as <-.
      pose proof (emits_inj _ _ _ _ Hc (emits_emit _ _)) as ->.
      eapply (computes_push m _ vm (push (VNumber value) (advance 2 vm)) (SNumber value)
                (VNumber value)); [|done|done|done|done].
      apply (exec_constant vm (length (Compiler.constants st))).
      * exact (stands_byte _ _ _ _ _ Hst).
      * exact (stands_operand _ _ _ _ _ _ Hst).
      * destruct Hh as (-> & _). rewrite Hm. cbn. rewrite map_app, <- app_assoc.
        rewrite lookup_app_r by (by rewrite length_map).
        by rewrite length_map, Nat.sub_diag.
  - (* string literal *)
    injection He as <-.
    split; [intros _ _; by apply (visitStringLit_scope value)|].
    intros c m vm pre post more base temps Hc Hst Hm Hh.
    cbn [Compiler.visit] in Hv. unfold Compiler.visitStringLit in Hv.
    pose proof (addConstant_fresh (VString value) st Hp) as Ha.
    destruct (Compiler.alloc (VString value) st) as [o s]. cbn [fst snd] in Ha.
    rewrite Ha in Hv. injection Hv as <-.
    pose proof (emits_inj _ _ _ _ Hc (emits_emit _ _)) as ->.
    eapply (computes_push m _ vm (push (VString value) (advance 2 vm)) (SString value)
              (VString value)); [|done|done|done|done].
    apply (exec_constant vm (length (Compiler.constants st))).
    + exact (stands_byte _ _ _ _ _ Hst).
    + exact (stands_operand _ _ _ _ _ _ Hst).
    + destruct Hh as (-> & _). rewrite Hm. cbn. rewrite map_app, <- app_assoc.
      rewrite lookup_app_r by (by rewrite length_map).
      by rewrite length_map, Nat.sub_diag.
  - (* identifier *)
    destruct (lookupLast name env) as [sv|] eqn:El; [|discriminate]. injection He as <-.
    split; [intros _ _; by apply (visitIdent_scope name)|].
    intros c m vm pre post more base temps Hc Hst Hm Hh.
    cbn [Compiler.visit] in Hv. unfold Compiler.visitIdent in Hv.
    destruct (Compiler.scanLocals _ _ _) as [i|] eqn:Es; [|discriminate].
    injection Hv as <-.
    pose proof (emits_inj _ _ _ _ Hc (emits_emit _ _)) as ->.
    pose proof (resolve_slot _ _ _ _ _ Hn Es El) as Hi.
    destruct (holds_slot _ _ _ _ _ _ _ _ Hh Hi) as (v & Hlk & Hrep).
    eapply (computes_push m _ vm (setElems (elems (stack vm) ++ [v]) (advance 2 vm)) sv v);
      [|done|done|done|done].
    rewrite (handleInstr_load vm (Z.of_nat i) (Z.of_nat (length base)));
      [by rewrite Hlk
      |exact (stands_byte _ _ _ _ _ Hst)
      |exact (stands_operand _ _ _ _ _ _ Hst)
      |by destruct Hh as (_ & ? & _)
      |lia].
  - (* negation *)
    destruct op; try discriminate. destruct r0 as [out r0].
    apply after_Some in He as (out1 & r1 & He1 & Hk).
    rewrite visit_Unary in Hv. unfold Compiler.visitUnary in Hv.
    apply bind_Ok in Hv as (s1 & Hv1 & Hb). injection Hb as <-.
    destruct (IH _ _ He1 _ _ Hp Hv1 Hn) as (Hscope & Hrun).
    split.
    { intros sv E. cbn in E. destruct r1 as [a|e]; [|by destruct Hk as [_ ->]].
      by apply (Hscope a). }
    intros c0 m vm pre post more base temps Hc0 Hst Hm Hh.
    destruct (visit_Instrs expr _ _ Hv1) as (c & Hc & _).
    pose proof (emits_inj _ _ _ _ Hc0 (emits_trans _ _ _ _ _ Hc (emits_emit _ _))) as ->.
    specialize (Hrun c m vm pre ([byte Opcode.neg] ++ post) more base temps Hc
                  (stands_app_l _ _ _ _ _ Hst) Hm Hh).
    destruct r1 as [a|e].
    + destruct Hk as (out2 & Hk & ->).
      destruct Hrun as (n & vm1 & va & Hs & Hsc & Hel & Hrep & Ho).
      destruct (negS_sim admissible m a va out2 r0 Hrep Hk) as [-> Hres].
      rewrite app_nil_r.
      apply (computes_op m c Opcode.neg (negValue va) r0 out1 n vm vm1); try done.
      apply exec_neg; [|done].
      by apply (stands_byte vm1 (pre ++ c) _ [] post), (stands_next vm).
    + destruct Hk as [-> ->]. exact Hrun.
  - (* addition and subtraction *)
    destruct r0 as [out r0].
    assert (Hop : ∃ bop f g,
      (bop = Opcode.add ∨ bop = Opcode.sub)
      ∧ (∀ s, match op with
              | TokenType.plus => Ok (Compiler.emit [byte Opcode.add] s)
              | TokenType.minus => Ok (Compiler.emit [byte Opcode.sub] s)
              | _ => Throw (UnknownOperator op)
              end = Ok (Compiler.emit [byte bop] s))
      ∧ after (evaluate admissible call env l)
          (λ a, after (evaluate admissible call env r) (λ b, g a b)) = Some (out, r0)
      ∧ (∀ m a b va vb o r, represents m a va → represents m b vb → g a b = Some (o, r) →
           o = [] ∧ match r with
                    | Ok sv => ∃ v, f va vb = Ok v ∧ represents m sv v
                    | Throw e => f va vb = Throw e
                    end)
      ∧ ∀ vm l a b, byteAt vm 0 = Some (byte bop) → elems (stack vm) = l ++ [a; b] →
          handleInstr vm
          = match f a b with
            | Ok v' => Done (push v' (setElems l (advance 1 vm)))
            | Throw e => Fail e (setElems l (advance 1 vm))
            end).
    { destruct op; try discriminate.
      - exists Opcode.add, addValues, (addS admissible). split; [by left|].
        split; [done|]. split; [done|]. split; [apply addS_sim | apply exec_add].
      - exists Opcode.sub, subValues, (subS admissible). split; [by right|].
        split; [done|]. split; [done|]. split; [apply subS_sim | apply exec_sub]. }
    destruct Hop as (bop & f & g & Hbop & Hemit & He' & Hsim & Hexec). clear He.
    apply after_Some in He' as (out1 & r1 & He1 & Hk).
    rewrite visit_Binary in Hv. unfold Compiler.visitBinary in Hv.
    apply bind_Ok in Hv as (s1 & Hv1 & Hv). apply bind_Ok in Hv as (s2 & Hv2 & Hb).
    rewrite Hemit in Hb. injection Hb as <-.
    destruct (IHl _ _ He1 _ _ Hp Hv1 Hn) as (Hscope1 & Hrun1).
    destruct (visit_pool l _ _ Hp Hv1) as [Hp1 _].
    destruct (visit_pool r _ _ Hp1 Hv2) as [_ [added2 Hk2]].
    destruct (visit_Instrs l _ _ Hv1) as (c1 & Hc1 & _).
    destruct (visit_Instrs r _ _ Hv2) as (c2 & Hc2 & _).
    assert (Hcc : emits st (Compiler.emit [byte bop] s2) ((c1 ++ c2) ++ [byte bop])).
    { eapply emits_trans; [eapply emits_trans; eassumption | apply emits_emit]. }
    destruct r1 as [a|e].
    2:{ destruct Hk as [-> ->]. split; [done|].
        intros c0 m vm pre post more base temps Hc0 Hst Hm Hh.
        pose proof (emits_inj _ _ _ _ Hc0 Hcc) as ->.
        apply (Hrun1 c1 m vm pre ((c2 ++ [byte bop]) ++ post) (map val added2 ++ more)
                 base temps); try done.
        - destruct Hst as [Hcode Hip]. split; [|done]. by rewrite Hcode, <- !app_assoc.
        - rewrite Hm. cbn. by rewrite Hk2, map_app, <- app_assoc. }
    destruct Hk as (out2 & Hk & ->). apply after_Some in Hk as (o2 & r2 & He2 & Hk).
    destruct (Hscope1 a eq_refl) as [Hl1 Hd1].
    assert (Hn1 : map Local.name (Compiler.localsAtDepth s1) = map fst env).
    { unfold Compiler.localsAtDepth. by rewrite Hl1, Hd1. }
    destruct (IHr _ _ He2 _ _ Hp1 Hv2 Hn1) as (Hscope2 & Hrun2).
    split.
    { intros sv E. cbn in E. destruct r2 as [b|e]; [|by destruct Hk as [_ ->]].
      destruct (Hscope2 b eq_refl) as [Hl2 Hd2]. cbn. split; congruence. }
    intros c0 m vm pre post more base temps Hc0 Hst Hm Hh.
    pose proof (emits_inj _ _ _ _ Hc0 Hcc) as ->.
    assert (Hst1 : stands vm pre c1 ((c2 ++ [byte bop]) ++ post)).
    { destruct Hst as [Hcode Hip]. split; [|done]. by rewrite Hcode, <- !app_assoc. }
    assert (Hrun1' : computes m c1 (out1, Ok a) vm).
    { apply (Hrun1 c1 m vm pre ((c2 ++ [byte bop]) ++ post) (map val added2 ++ more)
               base temps); try done.
      rewrite Hm. cbn. by rewrite Hk2, map_app, <- app_assoc. }
    destruct Hrun1' as (n1 & vm1 & va & Hs1 & Hsc1 & Hel1 & Hrep1 & Ho1).
    assert (Hst2 : stands vm1 (pre ++ c1) c2 ([byte bop] ++ post)).
    { apply (stands_next vm); [|done].
      destruct Hst as [Hcode Hip]. split; [|done]. by rewrite Hcode, <- !app_assoc. }
    assert (Hrun2' : computes m c2 (o2, r2) vm1).
    { apply (Hrun2 c2 m vm1 (pre ++ c1) ([byte bop] ++ post) more base (temps ++ [va]));
        try done. by apply (holds_push m env base temps vm vm1 (length c1) va). }
    destruct r2 as [b|e].
    2:{ destruct Hk as [-> ->].
        eapply failsAs_later; [exact Hs1 | by destruct Hsc1 as (_ & _ & _ & ?) | exact Ho1 |].
        exact Hrun2'. }
    destruct Hk as (o3 & Hk & ->).
    destruct Hrun2' as (n2 & vm2 & vb & Hs2 & Hsc2 & Hel2 & Hrep2 & Ho2).
    destruct (Hsim m a b va vb o3 r0 Hrep1 Hrep2 Hk) as [-> Hres].
    rewrite app_nil_r.
    apply (computes_op m (c1 ++ c2) bop (f va vb) r0 (out1 ++ o2) (n1 + n2) vm vm2).
    + by eapply steps_trans.
    + rewrite length_app. by eapply sameControl_trans.
    + by rewrite Ho2, Ho1, app_assoc.
    + apply Hexec.
      * apply (stands_byte vm2 (pre ++ c1 ++ c2) _ [] post).
        rewrite app_assoc. apply (stands_next vm1 vm2 (pre ++ c1) c2 [byte bop] post);
          [|done]. by apply stands_join.
      * by rewrite Hel2, Hel1, <- app_assoc.
    + exact Hres.
  - (* invocation *)
    destruct r0 as [out r0].
    apply after_Some in He as (out1 & r1 & He1 & Hk).
    rewrite visit_Invoke in Hv. unfold Compiler.visitInvoke in Hv.
    apply bind_Ok in Hv as (s1 & Hv1 & Hv). apply bind_Ok in Hv as (s2 & Hv2 & Hb).
    injection Hb as <-.
    set (st0 := Compiler.emit [byte Opcode.nil] st) in *.
    assert (Hp0 : poolAllocated st0) by exact Hp.
    assert (Hn0 : map Local.name (Compiler.localsAtDepth st0) = map fst env) by exact Hn.
    destruct (evaluateAll_sim args IHa _ _ He1 _ _ Hp0 Hv1 Hn0) as (Hscope1 & Hrun1).
    destruct (visitAll_pool args _ _ Hp0 Hv1) as [Hp1 _].
    destruct (visit_pool target _ _ Hp1 Hv2) as [_ [added2 Hk2]].
    destruct (visitAll_emits args _ _ Hv1) as (c1 & Hc1).
    destruct (visit_Instrs target _ _ Hv2) as (c2 & Hc2 & _).
    set (argc := Z.of_nat (length args)) in *.
    assert (Hcc : emits st (Compiler.emit [byte Opcode.invoke; argc] s2)
                    ((([byte Opcode.nil] ++ c1) ++ c2) ++ [byte Opcode.invoke; argc])).
    { eapply emits_trans; [|apply emits_emit]. eapply emits_trans; [|exact Hc2].
      eapply emits_trans; [apply emits_emit|exact Hc1]. }
    (* the run up to the arguments *)
    assert (Hargs : ∀ m vm pre post more base temps,
      stands vm pre ((([byte Opcode.nil] ++ c1) ++ c2) ++ [byte Opcode.invoke; argc]) post →
      moduleConstants m = map val (Compiler.constants s2) ++ more →
      holds m env base temps vm →
      ∃ vm0, steps 1 vm = Done vm0 ∧ sameControl vm vm0 1
        ∧ elems (stack vm0) = elems (stack vm) ++ [VNil]
        ∧ output vm0 = output vm
        ∧ stands vm0 (pre ++ [byte Opcode.nil]) c1 (c2 ++ [byte Opcode.invoke; argc] ++ post)
        ∧ computesAll m c1 (out1, r1) vm0).
    { intros m vm pre post more base temps Hst Hm Hh.
      assert (Hst' : stands vm pre ([byte Opcode.nil] ++ c1)
                       (c2 ++ [byte Opcode.invoke; argc] ++ post)).
      { destruct Hst as [Hcode Hip]. split; [|done]. by rewrite Hcode, <- !app_assoc. }
      assert (Hstep : handleInstr vm = Done (push VNil (advance 1 vm))).
      { apply handleInstr_nil. exact (stands_byte _ _ _ _ _ Hst'). }
      exists (push VNil (advance 1 vm)). rewrite steps_one.
      split; [done|]. split; [done|]. split; [done|]. split; [done|].
      assert (Hst0 : stands (push VNil (advance 1 vm)) (pre ++ [byte Opcode.nil]) c1
                       (c2 ++ [byte Opcode.invoke; argc] ++ post)).
      { by apply (stands_next vm). }
      split; [done|].
      apply (Hrun1 c1 m _ (pre ++ [byte Opcode.nil])
               (c2 ++ [byte Opcode.invoke; argc] ++ post) (map val added2 ++ more)
               base (temps ++ [VNil])); [done|done| |].
      - by rewrite Hm, Hk2, map_app, <- app_assoc.
      - by apply (holds_push m env base temps vm _ 1 VNil). }
    destruct r1 as [svs|e].
    2:{ destruct Hk as [-> ->]. split; [done|].
        intros c m vm pre post more base temps Hc Hst Hm Hh.
        pose proof (emits_inj _ _ _ _ Hc Hcc) as ->.
        destruct (Hargs m vm pre post more base temps Hst Hm Hh)
          as (vm0 & Hs0 & Hsc0 & Hel0 & Ho0 & Hst0 & Hrun0).
        change out1 with ([] ++ out1).
        eapply failsAs_later; [exact Hs0 | by destruct Hsc0 as (_ & _ & _ & ?) | |exact Hrun0].
        by rewrite app_nil_r. }
    destruct Hk as (out2 & Hk & ->). apply after_Some in Hk as (o2 & r2 & He2 & Hk).
    destruct (Hscope1 svs eq_refl) as (Hl1 & Hd1 & Hlen).
    assert (Hn1 : map Local.name (Compiler.localsAtDepth s1) = map fst env).
    { unfold Compiler.localsAtDepth. by rewrite Hl1, Hd1. }
    destruct (IHt _ _ He2 _ _ Hp1 Hv2 Hn1) as (Hscope2 & Hrun2).
    (* the run up to the function *)
    assert (Htarget : ∀ m vm pre post more base temps,
      stands vm pre ((([byte Opcode.nil] ++ c1) ++ c2) ++ [byte Opcode.invoke; argc]) post →
      moduleConstants m = map val (Compiler.constants s2) ++ more →
      holds m env base temps vm →
      ∃ n vm1 vs, steps n vm = Done vm1
        ∧ sameControl vm vm1 (length ([byte Opcode.nil] ++ c1))
        ∧ elems (stack vm1) = elems (stack vm) ++ VNil :: vs
        ∧ Forall2 (represents m) svs vs
        ∧ output vm1 = output vm ++ out1
        ∧ stands vm1 (pre ++ [byte Opcode.nil] ++ c1) c2 ([byte Opcode.invoke; argc] ++ post)
        ∧ computes m c2 (o2, r2) vm1).
    { intros m vm pre post more base temps Hst Hm Hh.
      destruct (Hargs m vm pre post more base temps Hst Hm Hh)
        as (vm0 & Hs0 & Hsc0 & Hel0 & Ho0 & Hst0 & Hrun0).
      destruct Hrun0 as (n1 & vm1 & vs & Hs1 & Hsc1 & Hel1 & Hrep1 & Ho1).
      exists (1 + n1), vm1, vs.
      split; [by eapply steps_trans|].
      split; [rewrite length_app; by eapply sameControl_trans|].
      split; [by rewrite Hel1, Hel0, <- app_assoc|]. split; [done|].
      split; [by rewrite Ho1, Ho0|].
      assert (Hst1 : stands vm1 (pre ++ [byte Opcode.nil] ++ c1) c2
                       ([byte Opcode.invoke; argc] ++ post)).
      { rewrite app_assoc. apply (stands_next vm0); [|done]. by apply stands_join. }
      split; [done|].
      apply (Hrun2 c2 m vm1 (pre ++ [byte Opcode.nil] ++ c1)
               ([byte Opcode.invoke; argc] ++ post) more base ((temps ++ [VNil]) ++ vs));
        [done|done|done|].
      apply (holds_pushes m env base (temps ++ [VNil]) vm0 vm1 (length c1) vs);
        [|done|done].
      by apply (holds_push m env base temps vm vm0 1 VNil). }
    destruct r2 as [f|e].
    2:{ destruct Hk as [-> ->]. split; [done|].
        intros c m vm pre post more base temps Hc Hst Hm Hh.
        pose proof (emits_inj _ _ _ _ Hc Hcc) as ->.
        destruct (Htarget m vm pre post more base temps Hst Hm Hh)
          as (n & vm1 & vs & Hs1 & Hsc1 & Hel1 & Hrep1 & Ho1 & Hst1 & Hrun1').
        eapply failsAs_later; [exact Hs1 | by destruct Hsc1 as (_ & _ & _ & ?) | exact Ho1 |].
        exact Hrun1'. }
    destruct Hk as (o3 & Hk & ->).
    split.
    { intros sv E. destruct (Hscope2 f eq_refl) as [Hl2 Hd2]. cbn.
      by rewrite Hl2, Hl1, Hd2, Hd1. }
    intros c m vm pre post more base temps Hc Hst Hm Hh.
    pose proof (emits_inj _ _ _ _ Hc Hcc) as ->.
    destruct (Htarget m vm pre post more base temps Hst Hm Hh)
      as (n1 & vm1 & vs & Hs1 & Hsc1 & Hel1 & Hrep1 & Ho1 & Hst1 & Hrun1').
    destruct Hrun1' as (n2 & vm2 & vf & Hs2 & Hsc2 & Hel2 & Hrepf & Ho2).
    assert (Hst2 : stands vm2 ((pre ++ [byte Opcode.nil] ++ c1) ++ c2)
                     [byte Opcode.invoke; argc] post).
    { apply (stands_next vm1 vm2 (pre ++ [byte Opcode.nil] ++ c1) c2
               [byte Opcode.invoke; argc] post); [by apply stands_join | done]. }
    assert (Hs12 : steps (n1 + n2) vm = Done vm2) by (by eapply steps_trans).
    assert (Hsc12 : sameControl vm vm2 (length (([byte Opcode.nil] ++ c1) ++ c2))).
    { rewrite (length_app (_ ++ _) c2). by eapply sameControl_trans. }
    assert (Ho12 : output vm2 = output vm ++ out1 ++ o2) by (by rewrite Ho2, Ho1, app_assoc).
    assert (Hh12 : halted vm2 = halted vm) by (by destruct Hsc12 as (_ & _ & _ & ?)).
    assert (Hm2 : module vm2 = m).
    { destruct Hsc12 as (_ & _ & -> & _). by destruct Hh as (? & _). }
    assert (Hel12 : elems (stack vm2) = (elems (stack vm) ++ VNil :: vs) ++ [vf])
      by (by rewrite Hel2, Hel1).
    pose proof (handleInstr_invoke_eq vm2 argc _ vf
                  (stands_byte _ _ _ _ _ Hst2) (stands_operand _ _ _ _ _ _ Hst2) Hel12)
      as Hinv.
    rewrite app_assoc.
    destruct f as [z|str| |fname params body].
    1,2,3: destruct vf; cbn in Hrepf; try done; injection Hk as <- <-;
      (eapply failsAs_later; [exact Hs12 | exact Hh12 | exact Ho12 |]);
      (eapply failsAs_step; [exact Hinv | done | done]).
    destruct vf as [| | |fname' fcode]; cbn in Hrepf; try done.
    destruct Hrepf as [-> Hfn]. cbn [callValue] in Hk.
    case_bool_decide as Hlen'; [|discriminate].
    set (vm3 := mk (module vm2)
                  (mkFrame 0 fcode
                     (KInt (Z.of_nat (length (elems (stack vm) ++ VNil :: vs)) - 1 - argc)))
                  (currentFrame (advance 2 vm2) :: callers vm2)
                  (mkArr (elems (stack vm) ++ VNil :: vs) (props (stack vm2)))
                  (halted vm2) (output vm2)) in *.
    assert (Hvs : length vs = length args).
    { rewrite <- Hlen. symmetry. by eapply Forall2_length. }
    assert (Hent : entered m fcode (elems (stack vm)) vs (currentFrame (advance 2 vm2))
                     (callers vm2) vm3).
    { split; [exact Hm2|].
      split; [|done]. unfold vm3. cbn [currentFrame]. do 2 f_equal.
      rewrite length_app. cbn [length]. unfold argc. lia. }
    pose proof (Hcall params body svs (o3, r0) Hk m fcode (elems (stack vm)) vs
                  (currentFrame (advance 2 vm2)) (callers vm2) vm3 Hfn
                  (eq_trans Hlen' (eq_sym Hlen)) Hrep1 Hent) as Hret.
    assert (Hs3 : steps (n1 + n2 + 1) vm = Done vm3).
    { eapply steps_trans; [exact Hs12|]. by rewrite steps_one. }
    destruct r0 as [sv|e].
    + destruct Hret as (n3 & vm' & v & Hs' & Hm' & Hf' & Hcs' & Hh' & Hel' & Hrep' & Ho').
      exists (n1 + n2 + 1 + n3), vm', v.
      split; [by eapply steps_trans|].
      split.
      { rewrite length_app. eapply sameControl_trans; [exact Hsc12|].
        split; [done|]. split; [done|]. split; [|done]. by rewrite Hm', Hm2. }
      split; [done|]. split; [done|]. rewrite Ho'. unfold vm3. cbn [output].
      by rewrite Ho12, <- !app_assoc.
    + eapply failsAs_later; [exact Hs3 | exact Hh12 | exact Ho12 | exact Hret].
Qed.

End Expressions.

Section Epilogue.
Import VM.

Lemma exec_print vm l v :
  byteAt vm 0 = Some (byte Opcode.print) → elems (stack vm) = l ++ [v] →
  handleInstr vm
  = Done (mk (module vm) (currentFrame (advance 1 vm)) (callers vm)
            (mkArr l (props (stack vm))) (halted vm) (output vm ++ [valueToString v])).
Proof.
  intros Hb Hs. unfold handleInstr. rewrite readByte_byteAt, Hb, decode_byte.
  by rewrite (pop_snoc _ _ l v) by exact Hs.
Qed.

Lemma exec_pop vm l v :
  byteAt vm 0 = Some (byte Opcode.pop) → elems (stack vm) = l ++ [v] →
  handleInstr vm = Done (setElems l (advance 1 vm)).
Proof.
  intros Hb Hs. unfold handleInstr. rewrite readByte_byteAt, Hb, decode_byte.
  by rewrite (pop_snoc _ _ l v) by exact Hs.
Qed.

Lemma exec_return vm caller cs :
  byteAt vm 0 = Some (byte Opcode.return_) → callers vm = caller :: cs →
  handleInstr vm = Done (mk (module vm) caller cs (stack vm) (halted vm) (output vm)).
Proof.
  intros Hb Hc. unfold handleInstr. rewrite readByte_byteAt, Hb, decode_byte.
  cbn [callers advance withFrame]. by rewrite Hc.
Qed.

(** The [pop]s that end a function remove the slots of its locals. *)
Lemma run_pops tl :
  ∀ vm pre post l,
    stands vm pre (replicate (length tl) (byte Opcode.pop)) post →
    elems (stack vm) = l ++ tl →
    ∃ vm', steps (length tl) vm = Done vm' ∧ sameControl vm vm' (length tl)
           ∧ elems (stack vm') = l ∧ output vm' = output vm.
Proof.
  induction tl as [|x tl IH] using rev_ind; intros vm pre post l Hst Hel.
  - exists vm. split; [done|]. split; [apply sameControl_refl|].
    split; [by rewrite Hel, app_nil_r | done].
  - rewrite length_app in *. cbn [length] in *. rewrite Nat.add_1_r in *.
    cbn [replicate] in Hst.
    change (byte Opcode.pop :: replicate (length tl) (byte Opcode.pop))
      with ([byte Opcode.pop] ++ replicate (length tl) (byte Opcode.pop)) in Hst.
    assert (Hstep : handleInstr vm = Done (setElems (l ++ tl) (advance 1 vm))).
    { apply (exec_pop vm (l ++ tl) x); [|by rewrite Hel, app_assoc].
      apply (stands_byte vm pre _ [] (replicate (length tl) (byte Opcode.pop) ++ post)).
      by apply stands_app_l. }
    destruct (IH (setElems (l ++ tl) (advance 1 vm)) (pre ++ [byte Opcode.pop]) post l)
      as (vm' & Hs & Hsc & Hel' & Ho).
    + by apply (stands_next vm).
    + done.
    + exists vm'. split; [cbn [steps]; by rewrite Hstep|].
      split; [|done].
      change (S (length tl)) with (1 + length tl). eapply sameControl_trans; [|exact Hsc].
      done.
Qed.

End Epilogue.

Section Blocks.
Import VM.
Variable admissible : Z → bool.
Variable call : list string → list AstNode → list SValue → Meaning SValue.
Hypothesis Hcall : callSpec call.

Lemma perform_expr env node :
  isExpr node = true →
  perform admissible call env node
  = after (evaluate admissible call env node) (λ v, yield (v, env)).
Proof. by destruct node. Qed.

Lemma holds_declare m env base vm vm' n name sv v :
  holds m env base [] vm → sameControl vm vm' n →
  elems (stack vm') = elems (stack vm) ++ [v] → represents m sv v →
  holds m (env ++ [(name, sv)]) base [] vm'.
Proof.
  intros (Hm & Ho & slots & Hs & Hr) (Hf & _ & Hm' & _) Hst Hv. split; [congruence|].
  split; [by rewrite Hf|]. exists (slots ++ [v]). split.
  - rewrite Hst, Hs. by rewrite !app_nil_r, <- app_assoc.
  - rewrite map_app. apply Forall2_app; [done|]. by constructor.
Qed.

Lemma names_pushLocal name st env (sv : SValue) :
  map Local.name (Compiler.localsAtDepth st) = map fst env →
  map Local.name (Compiler.localsAtDepth (Compiler.pushLocal name st))
  = map fst (env ++ [(name, sv)]).
Proof. intros H. by rewrite localsAtDepth_pushLocal, !map_app, H. Qed.

(** The code of a statement does what the statement does. *)
Lemma perform_sim node :
  ∀ env r, perform admissible call env node = Some r →
  ∀ st s1, poolAllocated st → localsOk st → Compiler.visit node st = Ok s1 →
    map Local.name (Compiler.localsAtDepth st) = map fst env →
    (∀ sv env', r.2 = Ok (sv, env') →
       map Local.name (Compiler.localsAtDepth s1) = map fst env'
       ∧ length env' = length env + (if isDecl node then 1 else 0))
    ∧ ∀ c m vm pre post more base,
        emits st s1 c →
        stands vm pre c post →
        moduleConstants m = map val (Compiler.constants s1) ++ more →
        holds m env base [] vm →
        performed m c node base r vm.
Proof.
  intros env [out r] Hperf st s1 Hp Hok Hv Hn.
  destruct (isExpr node) eqn:Hexpr.
  - (* an expression *)
    rewrite perform_expr in Hperf by done.
    apply after_Some in Hperf as (out1 & r1 & He & Hk).
    destruct (evaluate_sim admissible call Hcall node _ _ He _ _ Hp Hv Hn) as (Hscope & Hrun).
    destruct r1 as [sv|e].
    + destruct Hk as (o2 & [= <- <-] & ->). rewrite app_nil_r.
      destruct (Hscope sv eq_refl) as [Hl Hd]. split.
      { intros sv' env' [= <- <-]. split.
        - unfold Compiler.localsAtDepth. by rewrite Hl, Hd.
        - destruct node; try discriminate; cbn; lia. }
      intros c m vm pre post more base Hc Hst Hm Hh.
      destruct (Hrun c m vm pre post more base [] Hc Hst Hm Hh)
        as (n & vm1 & v & Hs & Hsc & Hel & Hrep & Ho).
      exists n, vm1. split; [done|]. split; [done|]. split; [done|].
      unfold performed. rewrite Hexpr. exists v. split; [|done].
      by apply (holds_push m env base [] vm vm1 (length c) v).
    + destruct Hk as [-> ->]. split; [done|].
      intros c m vm pre post more base Hc Hst Hm Hh.
      exact (Hrun c m vm pre post more base [] Hc Hst Hm Hh).
  - destruct node as [| | | | | |name value|name params body|expr]; try discriminate.
    + (* the declaration of a value *)
      cbn [perform] in Hperf.
      apply after_Some in Hperf as (out1 & r1 & He & Hk).
      rewrite visit_ValDecl in Hv. unfold Compiler.visitValDecl in Hv.
      destruct (Compiler.alreadyExists name st); [discriminate|].
      apply bind_Ok in Hv as (s0 & Hv0 & Hb). injection Hb as <-.
      destruct (evaluate_sim admissible call Hcall value _ _ He _ _ Hp Hv0 Hn)
        as (Hscope & Hrun).
      destruct r1 as [sv|e].
      * destruct Hk as (o2 & [= <- <-] & ->). rewrite app_nil_r.
        destruct (Hscope sv eq_refl) as [Hl Hd].
        assert (Hn0 : map Local.name (Compiler.localsAtDepth s0) = map fst env).
        { unfold Compiler.localsAtDepth. by rewrite Hl, Hd. }
        split.
        { intros sv' env' [= <- <-]. split; [by apply names_pushLocal|].
          rewrite length_app. cbn. lia. }
        intros c m vm pre post more base Hc Hst Hm Hh.
        destruct (Hrun c m vm pre post more base [] Hc Hst Hm Hh)
          as (n & vm1 & v & Hs & Hsc & Hel & Hrep & Ho).
        exists n, vm1. split; [done|]. split; [done|]. split; [done|].
        cbn [isExpr]. split; [|done].
        by apply (holds_declare m env base vm vm1 (length c) name sv v).
      * destruct Hk as [-> ->]. split; [done|].
        intros c m vm pre post more base Hc Hst Hm Hh.
        exact (Hrun c m vm pre post more base [] Hc Hst Hm Hh).
    + (* the declaration of a function *)
      cbn [perform] in Hperf. injection Hperf as <- <-.
      destruct (visitFuncDecl_spec name params body st s1 Hp Hok Hv)
        as (sb & Hcb & Hk & Hem & Hl & Hd).
      split.
      { intros sv' env' [= <- <-]. split.
        - unfold Compiler.localsAtDepth. rewrite Hl, Hd, filter_app.
          rewrite filter_cons_True, filter_nil by done.
          rewrite !map_app. f_equal. exact Hn.
        - rewrite length_app. cbn. lia. }
      intros c m vm pre post more base Hc Hst Hm Hh.
      pose proof (emits_inj _ _ _ _ Hc Hem) as ->.
      set (fv := VFunction name (functionCode sb)).
      assert (Hstep : handleInstr vm = Done (push fv (advance 2 vm))).
      { apply (exec_constant vm (length (Compiler.constants sb))).
        - exact (stands_byte _ _ _ _ _ Hst).
        - exact (stands_operand _ _ _ _ _ _ Hst).
        - destruct Hh as (-> & _). rewrite Hm, Hk, map_app, <- app_assoc.
          rewrite lookup_app_r by (by rewrite length_map).
          by rewrite length_map, Nat.sub_diag. }
      exists 1, (push fv (advance 2 vm)). rewrite steps_one.
      split; [done|]. split; [done|]. split; [by rewrite app_nil_r|].
      cbn [isExpr]. split; [|done].
      apply (holds_declare m env base vm _ 2 name _ fv); [done|done|done|].
      split; [done|]. exists st, sb, ([fv] ++ more).
      split; [done|]. split; [done|]. split; [done|]. split; [done|].
      by rewrite Hm, Hk, map_app, <- app_assoc.
    + (* print *)
      cbn [perform] in Hperf.
      apply after_Some in Hperf as (out1 & r1 & He & Hk).
      rewrite visit_Print in Hv. unfold Compiler.visitPrint in Hv.
      apply bind_Ok in Hv as (s0 & Hv0 & Hb). injection Hb as <-.
      destruct (evaluate_sim admissible call Hcall expr _ _ He _ _ Hp Hv0 Hn)
        as (Hscope & Hrun).
      destruct (visit_Instrs expr _ _ Hv0) as (c1 & Hc1 & _).
      destruct r1 as [sv|e].
      * destruct Hk as (o2 & [= <- <-] & ->).
        destruct (Hscope sv eq_refl) as [Hl Hd].
        split.
        { intros sv' env' [= <- <-]. split; [|cbn; lia].
          unfold Compiler.localsAtDepth. cbn. by rewrite Hl, Hd. }
        intros c m vm pre post more base Hc Hst Hm Hh.
        pose proof (emits_inj _ _ _ _ Hc (emits_trans _ _ _ _ _ Hc1 (emits_emit _ _))) as ->.
        destruct (Hrun c1 m vm pre ([byte Opcode.print] ++ post) more base [] Hc1
                    (stands_app_l _ _ _ _ _ Hst) Hm Hh)
          as (n & vm1 & v & Hs & Hsc & Hel & Hrep & Ho).
        pose proof (exec_print vm1 (elems (stack vm)) v
                      (stands_byte _ _ _ _ _ (stands_next _ _ _ _ _ _ Hst Hsc)) Hel) as Hstep.
        eexists (n + 1), _. split; [eapply steps_trans; [exact Hs|by rewrite steps_one]|].
        split; [rewrite length_app; eapply sameControl_trans; [exact Hsc|done]|].
        split.
        { cbn [output]. rewrite Ho. destruct (represents_show m sv v Hrep) as (-> & _).
          by rewrite <- !app_assoc. }
        cbn [isExpr]. split; [|done].
        destruct Hh as (Hm0 & Hoff & slots & Hst0 & Hrs).
        destruct Hsc as (Hf & _ & Hm1 & _).
        split; [cbn; congruence|]. split; [cbn; by rewrite Hf|].
        exists slots. split; [done|done].
      * destruct Hk as [-> ->]. split; [done|].
        intros c m vm pre post more base Hc Hst Hm Hh.
        pose proof (emits_inj _ _ _ _ Hc (emits_trans _ _ _ _ _ Hc1 (emits_emit _ _))) as ->.
        exact (Hrun c1 m vm pre ([byte Opcode.print] ++ post) more base [] Hc1
                 (stands_app_l _ _ _ _ _ Hst) Hm Hh).
Qed.

Lemma holds_drop m env base vm vm' n v :
  holds m env base [v] vm → sameControl vm vm' n →
  elems (stack vm) = elems (stack vm') ++ [v] →
  holds m env base [] vm'.
Proof.
  intros (Hm & Ho & slots & Hs & Hr) (Hf & _ & Hm' & _) Hst. split; [congruence|].
  split; [by rewrite Hf|]. exists slots. split; [|done].
  rewrite Hs, app_assoc in Hst. apply app_inj_tail in Hst as [<- _]. by rewrite app_nil_r.
Qed.

(** The code of a block does what the block does. *)
Lemma execute_sim nodes :
  ∀ env r, execute admissible call env nodes = Some r →
  ∀ st st', poolAllocated st → localsOk st → Compiler.compileBlock nodes st = Ok st' →
    map Local.name (Compiler.localsAtDepth st) = map fst env →
    (∀ sv env', r.2 = Ok (sv, env') →
       map Local.name (Compiler.localsAtDepth st') = map fst env'
       ∧ length env' = length env + declCount nodes)
    ∧ ∀ c m vm pre post more base,
        emits st st' c →
        stands vm pre c post →
        moduleConstants m = map val (Compiler.constants st') ++ more →
        holds m env base [] vm →
        performs m c env base r vm.
Proof.
  induction nodes as [|node rest IH]; intros env [out r] He st st' Hp Hok Hcb Hn;
    cbn [execute Compiler.compileBlock] in He, Hcb; [discriminate|].
  apply after_Some in He as (out1 & r1 & Hperf & Hk).
  apply bind_Ok in Hcb as (s1 & Hv & Hcb).
  set (isLast := bool_decide (rest = [])) in *.
  set (s1' := Compiler.afterNode node isLast s1) in *.
  destruct (perform_sim node _ _ Hperf _ _ Hp Hok Hv Hn) as (Hscope1 & Hrun1).
  destruct (visit_pool node _ _ Hp Hv) as [Hp1 _].
  pose proof (poolAllocated_afterNode node isLast s1 Hp1) as Hp1'. fold s1' in Hp1'.
  pose proof (scopeGrows_localsOk _ _ Hok (visit_scope node _ _ Hok Hv)) as Hok1.
  pose proof (scopeGrows_localsOk _ _ Hok1 (scopeGrows_afterNode node isLast s1)) as Hok1'.
  fold s1' in Hok1'.
  destruct (afterNode_constants node isLast s1) as (Hk1 & _ & Hl1 & Hd1).
  fold s1' in Hk1, Hl1, Hd1.
  destruct (compileBlock_pool rest _ _ Hp1' Hcb) as [_ [added3 Hk3]].
  destruct (visit_Instrs node _ _ Hv) as (c1 & Hc1 & _).
  pose proof (afterNode_emits node isLast s1) as Hca. fold s1' in Hca.
  set (ca := (if isExpr node && negb isLast then [byte Opcode.pop] else [])
             ++ (if negb (isExpr node) && isLast then [byte Opcode.nil] else [])) in *.
  destruct (compileBlock_Instrs rest _ _ Hcb) as (c3 & Hc3 & _).
  assert (Hcc : emits st st' ((c1 ++ ca) ++ c3)).
  { eapply emits_trans; [eapply emits_trans; eassumption | exact Hc3]. }
  destruct r1 as [[sv env1]|e].
  2:{ destruct Hk as [-> ->]. split; [done|].
      intros c m vm pre post more base Hc Hst Hm Hh.
      pose proof (emits_inj _ _ _ _ Hc Hcc) as ->.
      apply (Hrun1 c1 m vm pre ((ca ++ c3) ++ post) (map val added3 ++ more) base);
        [done| | |done].
      - destruct Hst as [Hcode Hip]. split; [|done]. by rewrite Hcode, <- !app_assoc.
      - by rewrite Hm, Hk3, Hk1, map_app, <- app_assoc. }
  destruct Hk as (out2 & Hk & ->).
  destruct (Hscope1 sv env1 eq_refl) as [Hn1 Hlen1].
  assert (Hn1' : map Local.name (Compiler.localsAtDepth s1') = map fst env1).
  { unfold Compiler.localsAtDepth. rewrite Hl1, Hd1. exact Hn1. }
  (* the statement and what the block emits after it *)
  assert (Hhead : ∀ m vm pre post more base,
    stands vm pre ((c1 ++ ca) ++ c3) post →
    moduleConstants m = map val (Compiler.constants st') ++ more →
    holds m env base [] vm →
    ∃ n vm2, steps n vm = Done vm2 ∧ sameControl vm vm2 (length (c1 ++ ca))
      ∧ output vm2 = output vm ++ out1
      ∧ if isLast then ∃ v, holds m env1 base [v] vm2 ∧ represents m sv v
        else holds m env1 base [] vm2).
  { intros m vm pre post more base Hst Hm Hh.
    assert (Hst1 : stands vm pre c1 ((ca ++ c3) ++ post)).
    { destruct Hst as [Hcode Hip]. split; [|done]. by rewrite Hcode, <- !app_assoc. }
    assert (Hr1 : performed m c1 node base (out1, Ok (sv, env1)) vm).
    { apply (Hrun1 c1 m vm pre ((ca ++ c3) ++ post) (map val added3 ++ more) base);
        [done|done| |done].
      by rewrite Hm, Hk3, Hk1, map_app, <- app_assoc. }
    destruct Hr1 as (n & vm1 & Hs & Hsc & Ho & Hshape).
    assert (Hsta : stands vm1 (pre ++ c1) ca (c3 ++ post)).
    { apply (stands_next vm); [|done].
      destruct Hst as [Hcode Hip]. split; [|done]. by rewrite Hcode, <- !app_assoc. }
    unfold ca in *. destruct (isExpr node) eqn:Hexpr, isLast eqn:Hlast;
      cbn [andb negb app] in *.
    - (* an expression, the last statement *)
      exists n, vm1. rewrite app_nil_r. done.
    - (* an expression, dropped *)
      destruct Hshape as (v & Hh1 & Hrep).
      pose proof Hh1 as (_ & _ & slots & Hel1 & _).
      assert (Hstep : handleInstr vm1 = Done (setElems (base ++ slots) (advance 1 vm1))).
      { apply (exec_pop vm1 _ v); [exact (stands_byte _ _ _ _ _ Hsta)|].
        by rewrite Hel1, app_assoc. }
      exists (n + 1), (setElems (base ++ slots) (advance 1 vm1)).
      split; [eapply steps_trans; [exact Hs|by rewrite steps_one]|].
      split; [rewrite length_app; eapply sameControl_trans; [exact Hsc|done]|].
      split; [done|].
      apply (holds_drop m env1 base vm1 _ 1 v); [done|done|].
      cbn. by rewrite Hel1, app_assoc.
    - (* a declaration or a print, the last statement *)
      destruct Hshape as [Hh1 ->].
      assert (Hstep : handleInstr vm1 = Done (push VNil (advance 1 vm1))).
      { apply handleInstr_nil. exact (stands_byte _ _ _ _ _ Hsta). }
      exists (n + 1), (push VNil (advance 1 vm1)).
      split; [eapply steps_trans; [exact Hs|by rewrite steps_one]|].
      split; [rewrite length_app; eapply sameControl_trans; [exact Hsc|done]|].
      split; [done|]. exists VNil. split; [|done].
      by apply (holds_push m env1 base [] vm1 _ 1 VNil).
    - (* a declaration or a print, followed by other statements *)
      destruct Hshape as [Hh1 ->]. exists n, vm1. rewrite app_nil_r. done. }
  destruct isLast eqn:Hlast.
  - (* the last statement *)
    injection Hk as <- <-. rewrite app_nil_r.
    apply bool_decide_eq_true in Hlast. subst rest.
    cbn [Compiler.compileBlock] in Hcb. injection Hcb as <-.
    pose proof (emits_inj _ _ _ _ Hc3 (emits_nil _)) as ->.
    split.
    { intros sv' env' [= <- <-]. split; [done|]. rewrite declCount_cons.
      change (declCount []) with 0. lia. }
    intros c m vm pre post more base Hc Hst Hm Hh.
    pose proof (emits_inj _ _ _ _ Hc Hcc) as ->.
    destruct (Hhead m vm pre post more base Hst Hm Hh)
      as (n & vm2 & Hs & Hsc & Ho & v & Hh2 & Hrep).
    exists n, vm2, v. rewrite app_nil_r. split; [done|]. split; [done|].
    split; [done|]. split; [done|]. split; [lia|done].
  - (* the statements that follow *)
    cbn [snd] in Hk.
    destruct (IH _ _ Hk _ _ Hp1' Hok1' Hcb Hn1') as (Hscope3 & Hrun3).
    split.
    { intros sv' env' E. destruct (Hscope3 sv' env' E) as [Hn3 Hlen3].
      split; [done|]. rewrite declCount_cons. lia. }
    intros c m vm pre post more base Hc Hst Hm Hh.
    pose proof (emits_inj _ _ _ _ Hc Hcc) as ->.
    destruct (Hhead m vm pre post more base Hst Hm Hh)
      as (n & vm2 & Hs & Hsc & Ho & Hh2).
    assert (Hr3 : performs m c3 env1 base (out2, r) vm2).
    { apply (Hrun3 c3 m vm2 (pre ++ c1 ++ ca) post more base); [done| |done|done].
      by apply (stands_next vm). }
    destruct r as [[sv' env']|e].
    + destruct Hr3 as (n3 & vm3 & v & Hs3 & Hsc3 & Hh3 & Hrep3 & Hlen3 & Ho3).
      exists (n + n3), vm3, v.
      split; [by eapply steps_trans|].
      split; [rewrite (length_app (c1 ++ ca)); by eapply sameControl_trans|].
      split; [done|]. split; [done|]. split; [lia|].
      by rewrite Ho3, Ho, app_assoc.
    + eapply failsAs_later; [exact Hs | by destruct Hsc as (_ & _ & _ & ?) | exact Ho |].
      exact Hr3.
Qed.

Lemma localsAtDepth_enterFunc params st :
  localsOk st →
  Compiler.localsAtDepth (Compiler.enterFunc params st)
  = Local.mk "#ret" (S (Compiler.depth st))
    :: map (λ p, Local.mk p (S (Compiler.depth st))) params.
Proof.
  intros Hok. destruct (enterFunc_scope params st) as (Hl & Hd & _).
  apply (localsAtDepth_split _ (Compiler.locals st)); [done| |].
  - rewrite Hd. eapply Forall_impl; [exact Hok|]. cbn. lia.
  - rewrite Hd. constructor; [done|]. apply Forall_forall. intros l Hin.
    apply list_elem_of_fmap in Hin as (p & -> & _). done.
Qed.

Lemma names_enterFunc params st (args : list SValue) :
  localsOk st → length params = length args →
  map Local.name (Compiler.localsAtDepth (Compiler.enterFunc params st))
  = map fst (enter params args).
Proof.
  intros Hok Hlen. rewrite localsAtDepth_enterFunc by done. unfold enter. cbn [map fst].
  f_equal. rewrite map_map. cbn.
  change (map fst (zip params args)) with ((zip params args).*1).
  rewrite fst_zip by lia. by rewrite map_id.
Qed.

(** The code of a function does what the call of the function does. *)
Lemma callBody_sim : callSpec (callBody admissible call).
Proof.
  intros params body args [out r] Hr m fcode base argvals caller cs vm
    (st & st' & more & Hp & Hok & Hcb & -> & Hm) Hlen Hrep (Hmod & Hfr & Hcs & Hel).
  pose proof (poolAllocated_enterFunc params st Hp) as Hp0.
  pose proof (localsOk_enterFunc params st Hok) as Hok0.
  destruct (enterFunc_scope params st) as (_ & _ & Hcode0 & _).
  unfold callBody in Hr. destruct body as [|node rest].
  - (* no body, no parameter *)
    destruct params; [|discriminate]. injection Hr as <- <-.
    cbn [Compiler.compileBlock] in Hcb. injection Hcb as <-.
    destruct args; [|discriminate]. apply Forall2_nil_inv_l in Hrep as ->.
    assert (Hfc : functionCode (Compiler.enterFunc [] st)
                  = [byte Opcode.store; 0%Z; byte Opcode.return_]).
    { unfold functionCode. by rewrite Hcode0, localsAtDepth_enterFunc. }
    rewrite Hfc in Hfr.
    assert (Hb0 : byteAt vm 0 = Some (byte Opcode.store)) by (unfold byteAt; by rewrite Hfr).
    assert (Hb1 : byteAt vm 1 = Some 0%Z) by (unfold byteAt; by rewrite Hfr).
    assert (Hoff : stackOffset (currentFrame vm) = KInt (Z.of_nat (length base)))
      by (by rewrite Hfr).
    pose proof (handleInstr_store_within vm 0 (Z.of_nat (length base)) base VNil
                  Hb0 Hb1 Hoff Hel ltac:(lia)) as Hstore.
    rewrite bool_decide_eq_false_2 in Hstore by lia.
    set (vm1 := setElems (base ++ [VNil]) (advance 2 vm)) in *.
    assert (Hb2 : byteAt vm1 0 = Some (byte Opcode.return_)).
    { unfold byteAt, vm1. cbn. by rewrite Hfr. }
    pose proof (exec_return vm1 caller cs Hb2 Hcs) as Hret.
    eexists 2, _, VNil. split; [cbn [steps]; by rewrite Hstore, Hret|].
    repeat split; try done. cbn. by rewrite app_nil_r.
  - (* the body *)
    set (body := node :: rest) in *.
    assert (Hr' : after (execute admissible call (enter params args) body)
                    (λ r, yield r.1) = Some (out, r)) by (by destruct params).
    clear Hr. apply after_Some in Hr' as (out1 & r1 & He & Hk).
    pose proof (names_enterFunc params st args Hok Hlen) as Hn.
    destruct (execute_sim body _ _ He _ _ Hp0 Hok0 Hcb Hn) as (Hscope & Hrun).
    assert (Hem : emits (Compiler.enterFunc params st) st' (Compiler.code st')).
    { unfold emits. by rewrite Hcode0. }
    set (k := length (Compiler.localsAtDepth st') - 1) in *.
    assert (Hst : stands vm [] (Compiler.code st')
                    ([byte Opcode.store; 0%Z]
                     ++ replicate k (byte Opcode.pop) ++ [byte Opcode.return_])).
    { split; by rewrite Hfr. }
    assert (Hh : holds m (enter params args) base [] vm).
    { split; [done|]. split; [by rewrite Hfr|]. exists (VNil :: argvals).
      split; [by rewrite Hel, app_nil_r|]. unfold enter. cbn [map snd].
      constructor; [done|].
      change (map snd (zip params args)) with ((zip params args).*2).
      rewrite snd_zip by lia. exact Hrep. }
    pose proof (Hrun _ m vm _ _ more base Hem Hst Hm Hh) as Hperf.
    destruct r1 as [[sv env']|e].
    2:{ destruct Hk as [-> ->]. exact Hperf. }
    destruct Hk as (o2 & [= <- <-] & ->). rewrite app_nil_r.
    destruct (Hscope sv env' eq_refl) as [Hn' Hlen'].
    destruct Hperf as (n & vm1 & v & Hs & Hsc & Hh1 & Hrep1 & _ & Ho).
    destruct Hh1 as (Hm1 & Hoff1 & slots & Hel1 & Hrs).
    assert (Hslots : length slots = S k).
    { rewrite <- (Forall2_length _ _ _ Hrs), length_map.
      assert (E : length (Compiler.localsAtDepth st') = length env').
      { rewrite <- (length_map Local.name), Hn'. by rewrite length_map. }
      unfold k. rewrite E. unfold enter in Hlen'. cbn [length] in Hlen'. lia. }
    destruct slots as [|s0 tl]; [discriminate|]. injection Hslots as Htl.
    (* the store of the result *)
    assert (Hst1 : stands vm1 ([] ++ Compiler.code st') [byte Opcode.store; 0%Z]
                     (replicate k (byte Opcode.pop) ++ [byte Opcode.return_])).
    { apply (stands_next vm); [|done]. by apply stands_join. }
    assert (Hel1' : elems (stack vm1) = (base ++ s0 :: tl) ++ [v]) by (by rewrite Hel1, app_assoc).
    pose proof (handleInstr_store_within vm1 0 (Z.of_nat (length base)) _ v
                  (stands_byte _ _ _ _ _ Hst1) (stands_operand _ _ _ _ _ _ Hst1)
                  Hoff1 Hel1') as Hstore.
    rewrite length_app in Hstore. cbn [length] in Hstore.
    specialize (Hstore ltac:(lia)).
    rewrite bool_decide_eq_true_2 in Hstore by lia.
    replace (Z.to_nat (0 + Z.of_nat (length base))) with (length base + 0) in Hstore by lia.
    rewrite insert_app_r in Hstore. cbn [insert list_insert] in Hstore.
    set (vm2 := setElems (base ++ v :: tl) (advance 2 vm1)) in *.
    assert (Hsc2 : sameControl vm1 vm2 (length [byte Opcode.store; 0%Z])) by done.
    (* the slots of the locals are dropped *)
    assert (Hst2 : stands vm2 (([] ++ Compiler.code st') ++ [byte Opcode.store; 0%Z])
                     (replicate (length tl) (byte Opcode.pop)) [byte Opcode.return_]).
    { apply (stands_next vm1); [|done]. apply stands_join. by rewrite Htl. }
    destruct (run_pops tl vm2 _ _ (base ++ [v]) Hst2) as (vm3 & Hs3 & Hsc3 & Hel3 & Ho3).
    { unfold vm2. cbn. by rewrite <- app_assoc. }
    (* return *)
    assert (Hst3 : stands vm3 ((([] ++ Compiler.code st') ++ [byte Opcode.store; 0%Z])
                               ++ replicate (length tl) (byte Opcode.pop))
                     [byte Opcode.return_] []).
    { apply (stands_next vm2); [|by rewrite length_replicate]. apply stands_join. exact Hst2. }
    assert (Hcs3 : callers vm3 = caller :: cs).
    { destruct Hsc3 as (_ & -> & _). cbn. by destruct Hsc as (_ & -> & _). }
    pose proof (exec_return vm3 caller cs (stands_byte _ _ _ _ _ Hst3) Hcs3) as Hret.
    eexists (n + (1 + (length tl + 1))), _, v.
    split.
    { eapply steps_trans; [exact Hs|]. eapply steps_trans; [by rewrite steps_one|].
      eapply steps_trans; [exact Hs3 | by rewrite steps_one]. }
    cbn [module currentFrame callers halted stack output elems].
    destruct Hsc as (_ & _ & HmA & HhA). destruct Hsc3 as (_ & _ & HmB & HhB).
    split; [by rewrite HmB|]. split; [done|]. split; [done|].
    split; [rewrite HhB; cbn; exact HhA|]. split; [done|]. split; [done|].
    rewrite Ho3. exact Ho.
Qed.

End Blocks.

(** A call of the evaluation, whatever the bound on nested calls. *)
Lemma invokeFunction_sim admissible fuel : callSpec (invokeFunction admissible fuel).
Proof.
  induction fuel as [|fuel IH]; cbn [invokeFunction].
  - intros params body args r Hr. discriminate.
  - by apply callBody_sim.
Qed.

Section Programs.
Import VM.

Lemma handleInstr_Fail_halted vm e vf : handleInstr vm = Fail e vf → halted vf = halted vm.
Proof.
  unfold handleInstr, readByte, pop, arrPop.
  cbn [currentFrame withFrame withStack stack module callers halted].
  repeat (first
    [ progress cbn [currentFrame withFrame withStack stack module callers halted push elems]
    | match goal with
      | |- Done _ = Fail _ _ → _ => discriminate
      | |- Fail _ _ = Fail _ _ → _ => by intros [= <- <-]
      | |- context [match ?x with _ => _ end] => destruct x
      | |- context [if ?x then _ else _] => destruct x
      end ]).
Qed.

Lemma steps_Fail_halted n vm e vf :
  steps n vm = Fail e vf → halted vm = true → halted vf = true.
Proof.
  revert vm. induction n as [|n IH]; intros vm; cbn [steps]; [discriminate|].
  destruct (handleInstr vm) as [vm1|e1 v1] eqn:E.
  - intros H Hh. apply (IH vm1 H). by apply (halted_stays vm).
  - intros [= <- <-] Hh. by rewrite (handleInstr_Fail_halted _ _ _ E).
Qed.

(** A failure after [n] instructions ends the loop of [run]. *)
Lemma loop_steps_fail n vm e vf fuel :
  steps n vm = Fail e vf → halted vf = false → loop (n + fuel) vm = Some (Fail e vf).
Proof.
  revert vm. induction n as [|n IH]; intros vm; cbn [steps Nat.add]; [discriminate|].
  intros H Hh. assert (Hv : halted vm = false).
  { destruct (halted vm) eqn:E; [|done].
    by rewrite (steps_Fail_halted (S n) _ _ _ H E) in Hh. }
  cbn [loop]. rewrite Hv. destruct (handleInstr vm) as [vm1|e1 v1]; [by apply IH|].
  by injection H as <- <-.
Qed.

(** The VM runs a compiled program as the program is evaluated: it halts
    with the value of the program on top of the stack, having printed the
    same lines, or fails with the same failure. *)
Lemma meaning_sim admissible fuel nodes m out r :
  Compiler.compile nodes = Ok m →
  meaning admissible fuel nodes = Some (out, r) →
  match r with
  | Ok sv =>
      ∃ n vm', (∀ k, loop (n + k) (new m) = Some (Done vm'))
               ∧ output vm' = out ∧ represents m sv (result vm')
  | Throw e =>
      ∃ n vf, (∀ k, loop (n + k) (new m) = Some (Fail e vf)) ∧ output vf = out
  end.
Proof.
  intros Hc Hr. apply compile_code in Hc as (st & c & Hb & -> & Hcode & _).
  set (m := mkModule _ _). set (vm0 := new m).
  destruct nodes as [|node rest].
  - injection Hr as <- <-. cbn in Hb. injection Hb as <-. cbn in Hcode. subst c.
    assert (Hb0 : byteAt vm0 0 = Some (byte Opcode.return_)) by done.
    pose proof (handleInstr_return_outermost vm0 Hb0 eq_refl) as Hret.
    eexists 1, _. split.
    + intros k. cbn [Nat.add loop].
      change (halted vm0) with false. cbn match. rewrite Hret. by apply loop_halted.
    + done.
  - set (nodes := node :: rest) in *.
    assert (Hr' : after (execute admissible (invokeFunction admissible fuel) [] nodes)
                    (λ r, yield r.1) = Some (out, r)) by done.
    clear Hr. apply after_Some in Hr' as (out1 & r1 & He & Hk).
    destruct (execute_sim admissible _ (invokeFunction_sim admissible fuel) nodes _ _ He
                _ _ poolAllocated_init localsOk_init Hb eq_refl) as (_ & Hrun).
    assert (Hem : emits Compiler.init st c) by (unfold emits; by rewrite Hcode).
    assert (Hst : stands vm0 [] c [byte Opcode.return_]) by done.
    assert (Hh : holds m [] [] [] vm0).
    { split; [done|]. split; [done|]. exists []. split; [done|constructor]. }
    pose proof (Hrun c m vm0 [] [byte Opcode.return_] [] []
                  Hem Hst ltac:(by rewrite app_nil_r) Hh) as Hperf.
    destruct r1 as [[sv env']|e].
    + destruct Hk as (o2 & [= <- <-] & ->). rewrite app_nil_r.
      destruct Hperf as (n & vm1 & v & Hs & Hsc & Hh1 & Hrep & _ & Ho).
      destruct Hh1 as (_ & _ & slots & Hel & _).
      pose proof Hsc as (Hf & Hcs & _ & Hhalt).
      assert (Hb1 : byteAt vm1 0 = Some (byte Opcode.return_)).
      { unfold byteAt. rewrite Hf. cbn. by rewrite !Nat.add_0_r, list_lookup_middle. }
      pose proof (handleInstr_return_outermost vm1 Hb1 Hcs) as Hret.
      eexists (n + 1), _. split; [|split].
      * intros k. rewrite <- Nat.add_assoc, (loop_steps _ vm0 vm1 (1 + k) Hs Hhalt).
        cbn [Nat.add loop]. rewrite Hhalt. change (halted vm0) with false. cbn match.
        rewrite Hret. by apply loop_halted.
      * cbn [output]. by rewrite Ho.
      * rewrite result_last. cbn [stack]. rewrite Hel. cbn [app].
        by rewrite last_snoc.
    + destruct Hk as [-> ->]. destruct Hperf as (n & vf & Hs & Hhalt & Ho).
      exists n, vf. split; [|by rewrite Ho].
      intros k. by apply loop_steps_fail.
Qed.

End Programs.

Section ValueLaw.
Variable admissible : Z → bool.
Variable call : list string → list AstNode → list SValue → Meaning SValue.

Lemma after_yield {A} (r : Meaning A) : after r yield = r.
Proof. destruct r as [[out [a|e]]|]; cbn; by rewrite ?app_nil_r. Qed.

Lemma after_after {A B C} (r : Meaning A) (k : A → Meaning B) (h : B → Meaning C) :
  after (after r k) h = after r (λ a, after (k a) h).
Proof.
  destruct r as [[out [a|e]]|]; cbn; try done.
  destruct (k a) as [[out1 [b|e]]|]; cbn; try done.
  destruct (h b) as [[out2 rc]|]; cbn; [|done]. by rewrite app_assoc.
Qed.

Lemma after_ext {A B} (r : Meaning A) (k k' : A → Meaning B) :
  (∀ a, k a = k' a) → after r k = after r k'.
Proof. intros H. destruct r as [[out [a|e]]|]; cbn; try done. by rewrite H. Qed.

(** A block has the value of its last statement, performed in the scope
    that the statements before it left. *)
Lemma execute_last front :
  ∀ env node,
    execute admissible call env (front ++ [node])
    = after (declare admissible call env front) (λ env', perform admissible call env' node).
Proof.
  induction front as [|n front IH]; intros env node.
  - cbn. destruct (perform admissible call env node) as [[out [a|e]]|]; cbn; try done.
    by rewrite !app_nil_r.
  - cbn [app execute declare]. rewrite after_after. apply after_ext. intros r.
    rewrite bool_decide_eq_false_2 by (by destruct front). apply IH.
Qed.

Lemma perform_isExpr env node :
  after (perform admissible call env node) (λ r, yield r.1)
  = if isExpr node then evaluate admissible call env node
    else after (perform admissible call env node) (λ _, yield SNil).
Proof.
  destruct node; cbn [isExpr perform];
    try (rewrite after_after; cbn [after yield fst]; apply after_yield).
  - rewrite !after_after. apply after_ext. intros v. done.
  - done.
  - rewrite !after_after. apply after_ext. intros v. rewrite !after_after.
    apply after_ext. by intros [].
Qed.

End ValueLaw.

(** The value of a program is the value of its last statement, in the
    scope of the statements before it: the value of the expression when
    the statement is an expression, nil otherwise. *)
Lemma meaning_last admissible fuel front node :
  meaning admissible fuel (front ++ [node])
  = after (declare admissible (invokeFunction admissible fuel) [] front) (λ env,
      if isExpr node then evaluate admissible (invokeFunction admissible fuel) env node
      else after (perform admissible (invokeFunction admissible fuel) env node)
             (λ _, yield SNil)).
Proof.
  unfold meaning. destruct (front ++ [node]) as [|n l] eqn:E; [by destruct front|].
  rewrite <- E, execute_last, after_after. apply after_ext. intros env.
  apply perform_isExpr.
Qed.

Section BlockDepthCalls.
Import VM.

(** C4, as amended: after the code of a non-empty block of statements has
    run, the stack holds one value more than before for the block, and one
    more for each value or function declaration of the block, whose value
    stays on the stack as the slot of the local.  This holds for a block
    without invocation, whenever no instruction fails; and for a block with
    invocations that is run in a frame holding its scope, when the block
    has a value: its calls end, every call is given as many arguments as
    the function has parameters, and no function with parameters and an
    empty body is called.  The code then runs to its end in the frame.  The
    depth does not depend on the numbers that are computed, so the
    evaluation is not restricted in its numbers. *)
Theorem compileBlock_net_depth
    (nodes : list AstNode) (st st' : Compiler.State) (vm : State)
    (pre post : list Z) :
  nodes ≠ [] →
  Compiler.compileBlock nodes st = Ok st' →
  code (currentFrame vm)
  = pre ++ drop (length (Compiler.code st)) (Compiler.code st') ++ post →
  ip (currentFrame vm) = length pre →
  Compiler.code st'
  = Compiler.code st ++ drop (length (Compiler.code st)) (Compiler.code st')
  ∧ (forallb simpleStmt nodes = true →
     ∀ vm',
       steps (instrCount (drop (length (Compiler.code st)) (Compiler.code st')) 0) vm
       = Done vm' →
       sameControl vm vm' (length (drop (length (Compiler.code st)) (Compiler.code st')))
       ∧ length (elems (stack vm')) = length (elems (stack vm)) + 1 + declCount nodes)
  ∧ (∀ fuel env base more out sv env',
       poolAllocated st → localsOk st →
       map Local.name (Compiler.localsAtDepth st) = map fst env →
       moduleConstants (module vm) = map val (Compiler.constants st') ++ more →
       holds (module vm) env base [] vm →
       execute (λ _, true) (invokeFunction (λ _, true) fuel) env nodes
       = Some (out, Ok (sv, env')) →
       ∃ n vm',
         steps n vm = Done vm'
         ∧ sameControl vm vm' (length (drop (length (Compiler.code st)) (Compiler.code st')))
         ∧ length (elems (stack vm')) = length (elems (stack vm)) + 1 + declCount nodes).
Proof.
  intros Hne Hc.
  destruct (compileBlock_Instrs nodes _ _ Hc) as (c & Hem & _).
  pose proof Hem as Hem'. unfold emits in Hem'. rewrite Hem', drop_app_length.
  intros Hcode Hip. split; [done|]. split.
  - intros Hs vm' Hsteps.
    destruct (compileBlock_Exec nodes Hs _ _ Hc) as (c' & Hem2 & _ & He).
    pose proof (emits_inj _ _ _ _ Hem2 Hem) as ->.
    destruct (He vm vm' pre post Hcode Hip Hsteps) as [C L].
    split; [done|]. destruct nodes; [done|]. unfold blockNet in L. lia.
  - intros fuel env base more out sv env' Hp Hok Hn Hm Hh He.
    destruct (execute_sim _ _ (invokeFunction_sim (λ _, true) fuel) nodes _ _ He
                _ _ Hp Hok Hc Hn) as (Hscope & Hrun).
    destruct (Hscope sv env' eq_refl) as [_ Hlen].
    destruct (Hrun c (module vm) vm pre post more base Hem (conj Hcode Hip) Hm Hh)
      as (n & vm' & v & Hs & Hsc & Hh' & Hrep & _ & Ho).
    exists n, vm'. split; [done|]. split; [done|].
    destruct Hh as (_ & _ & slots & Hel & Hf).
    destruct Hh' as (_ & _ & slots' & Hel' & Hf').
    apply Forall2_length in Hf, Hf'. rewrite length_map in Hf, Hf'.
    rewrite Hel, Hel', !length_app. cbn [length]. lia.
Qed.

Lemma compileBlock_net_depth_witness :
  let nodes := [FuncDecl "id" ["a"] [Ident "a"]; Invoke (Ident "id") [IntLit 7]] in
  ∃ st' n vm',
    Compiler.compileBlock nodes Compiler.init = Ok st'
    ∧ steps n (new (mkModule (map val (Compiler.constants st'))
                      (Compiler.code st' ++ [byte Opcode.return_]))) = Done vm'
    ∧ length (elems (stack vm')) = 0 + 1 + declCount nodes.
Proof.
  intros nodes.
  set (fcode := [byte Opcode.load; 1; byte Opcode.store; 0; byte Opcode.pop;
                 byte Opcode.return_]%Z).
  set (c := [byte Opcode.constant; 0; byte Opcode.nil; byte Opcode.constant; 1;
             byte Opcode.load; 0; byte Opcode.invoke; 1]%Z).
  set (st' := Compiler.mk [{| addr := 0; val := VFunction "id" fcode |};
                           {| addr := 1; val := VNumber 7 |}]
                [Local.mk "id" 0] c 0 2).
  set (vm := new (mkModule [VFunction "id" fcode; VNumber 7] (c ++ [byte Opcode.return_]))).
  destruct (compileBlock_net_depth nodes Compiler.init st' vm [] [byte Opcode.return_])
    as (_ & _ & H); [discriminate|reflexivity|reflexivity|reflexivity|].
  destruct (H 1 [] [] [] [] (SNumber 7) [("id", SFunction "id" ["a"] [Ident "a"])])
    as (n & vm' & Hs & _ & Hl).
  - constructor.
  - constructor.
  - reflexivity.
  - reflexivity.
  - split; [reflexivity|]. split; [reflexivity|]. exists []. split; [reflexivity|constructor].
  - vm_compute. reflexivity.
  - exists st', n, vm'. split; [reflexivity|]. split; [exact Hs|exact Hl].
Defined.

(** Why C4 as amended asks that calls match the functions: a call changes
    the depth by one plus the number of arguments minus the number of
    parameters, and by nothing when the function has parameters and an
    empty body.  Here [f] takes its argument and leaves no value. *)
Example invoke_empty_body_depth :
  ∃ m vm',
    Compiler.compile [FuncDecl "f" ["a"] []; Invoke (Ident "f") [IntLit 1]] = Ok m
    ∧ loop 20 (new m) = Some (Done vm')
    ∧ elems (stack vm')
      = [VFunction "f" [byte Opcode.store; 0; byte Opcode.pop; byte Opcode.return_]%Z]
    ∧ run 20 (new m)
      = Some (Ok (VFunction "f" [byte Opcode.store; 0; byte Opcode.pop;
                                 byte Opcode.return_]%Z)).
Proof.
  eexists _, _. split; [vm_compute; reflexivity|].
  split; [vm_compute; reflexivity|]. split; vm_compute; reflexivity.
Qed.

End BlockDepthCalls.

Section RunCompiledValue.
Import VM.

(** C5, as amended: a compiled program may run without end or end with a
    failure.  When the program has a meaning (its calls end, each is given
    as many arguments as the function has parameters, no function with
    parameters has an empty body, and the numbers stay within the safe
    integers), [run] does what the meaning says: it returns the value of
    the program, having printed the same lines, or throws the same failure;
    the value of the program is the value of its last statement when that
    is an expression, nil when it is a declaration or a [print].  Whenever
    [run] returns, the VM had reached the [return] that ends the code of
    the module, no call pending, and the value returned is the one on top
    of the stack at that point, nil if the stack is empty.  It is nil when
    the last statement is a declaration or a [print], and for the empty
    program.  A program without invocation whose instructions do not fail
    is run to completion by as many calls of [handleInstr] as it has
    instructions.  The VM halts exactly when [return] is executed with a
    single frame on the call stack. *)
Theorem run_compiled_program (nodes : list AstNode) (m : Module) :
  Compiler.compile nodes = Ok m →
  (∀ fuel out r, meaning safe53 fuel nodes = Some (out, r) →
     match r with
     | Ok sv =>
         ∃ n vm',
           (∀ k, loop (n + k) (new m) = Some (Done vm')
                 ∧ run (n + k) (new m) = Some (Ok (result vm')))
           ∧ represents m sv (result vm') ∧ output vm' = out
     | Throw e =>
         ∃ n vf,
           (∀ k, loop (n + k) (new m) = Some (Fail e vf)
                 ∧ run (n + k) (new m) = Some (Throw e))
           ∧ output vf = out
     end)
  ∧ (∀ fuel front node, nodes = front ++ [node] →
       meaning safe53 fuel nodes
       = after (declare safe53 (invokeFunction safe53 fuel) [] front) (λ env,
           if isExpr node then evaluate safe53 (invokeFunction safe53 fuel) env node
           else after (perform safe53 (invokeFunction safe53 fuel) env node)
                  (λ _, yield SNil)))
  ∧ (∀ fuel v, run fuel (new m) = Some (Ok v) →
     ∃ n vm1,
       steps n (new m) = Done vm1
       ∧ halted vm1 = false ∧ callers vm1 = []
       ∧ code (currentFrame vm1) = moduleCode m
       ∧ S (ip (currentFrame vm1)) = length (moduleCode m)
       ∧ byteAt vm1 0 = Some (byte Opcode.return_)
       ∧ v = match last (elems (stack vm1)) with Some x => x | None => VNil end)
  ∧ (∀ node fuel v, last nodes = Some node → isExpr node = false →
       run fuel (new m) = Some (Ok v) → v = VNil)
  ∧ (nodes = [] → ∀ fuel, run (S fuel) (new m) = Some (Ok VNil))
  ∧ (forallb simpleStmt nodes = true →
       (∃ e vf, steps (instrCount (moduleCode m) 0) (new m) = Fail e vf)
       ∨ (∃ v, ∀ k, run (instrCount (moduleCode m) 0 + k) (new m) = Some (Ok v)))
  ∧ (∀ vm vm', halted vm = false → handleInstr vm = Done vm' →
       (halted vm' = true
        ↔ callers vm = [] ∧ byteAt vm 0 = Some (byte Opcode.return_))).
Proof.
  intros Hc. pose proof Hc as Hc0.
  split.
  { intros fuel out r Hr. pose proof (meaning_sim safe53 fuel nodes m out r Hc Hr) as H.
    destruct r as [sv|e].
    - destruct H as (n & vm' & Hl & Ho & Hrep). exists n, vm'.
      split; [|done]. intros k. split; [done|]. unfold run. by rewrite Hl.
    - destruct H as (n & vf & Hl & Ho). exists n, vf.
      split; [|done]. intros k. split; [done|]. unfold run. by rewrite Hl. }
  split.
  { intros fuel front node ->. apply meaning_last. }
  apply compile_code in Hc as (st & c & Hb & -> & Hcode & Hi).
  rewrite moduleCode_mk.
  assert (A : ∀ fuel v,
    run fuel (new (mkModule (map val (Compiler.constants st)) (c ++ [byte Opcode.return_])))
    = Some (Ok v) →
    ∃ n vm1,
      steps n (new (mkModule (map val (Compiler.constants st)) (c ++ [byte Opcode.return_])))
      = Done vm1
      ∧ halted vm1 = false ∧ callers vm1 = []
      ∧ code (currentFrame vm1) = c ++ [byte Opcode.return_]
      ∧ ip (currentFrame vm1) = length c
      ∧ v = result vm1).
  { intros fuel v. by apply run_Ok_inv. }
  split; [|split; [|split; [|split]]].
  - intros fuel v Hr. destruct (A fuel v Hr) as (n & vm1 & S1 & Hh & Hcs & Hco & Hip & ->).
    exists n, vm1. repeat split; try done.
    + rewrite length_app. cbn. lia.
    + unfold byteAt. by rewrite Hco, Hip, Nat.add_0_r, list_lookup_middle.
    + apply result_last.
  - intros node fuel v Hlast Hexpr Hr.
    destruct (compileBlock_ends_with_nil nodes _ _ node Hb Hlast Hexpr) as (c0 & Hem & I0).
    unfold emits in Hem. cbn in Hem. rewrite Hcode in Hem. clear Hcode. subst c.
    destruct (A fuel v Hr) as (n & vm1 & S1 & Hh & Hcs & Hco & Hip & ->).
    assert (N : nilOnTop c0 vm1).
    { apply (nilOnTop_steps c0 n (new (mkModule (map val (Compiler.constants st))
               ((c0 ++ [byte Opcode.nil]) ++ [byte Opcode.return_]))));
        [done|by apply onTrack_new|apply nilOnTop_new|done|done]. }
    destruct N as [_ Hl].
    { rewrite (bottomFrame_nil vm1 Hcs), Hip, length_app. cbn. lia. }
    by rewrite result_last, Hl.
  - intros -> fuel. cbn in Hb. injection Hb as <-. cbn in Hcode. subst c.
    unfold run. cbn [loop halted new]. rewrite handleInstr_return_outermost by done.
    by rewrite loop_halted.
  - intros Hs. destruct (run_straight_line nodes _ Hc0 Hs) as [F|R].
    + left. by rewrite moduleCode_mk in F.
    + right. by rewrite moduleCode_mk in R.
  - intros vm vm' Hh Hstep. by apply halts_at_outermost_return.
Qed.

Lemma run_compiled_program_witness :
  let nodes := [FuncDecl "add" ["a"; "b"] [Binary TokenType.plus (Ident "a") (Ident "b")];
                Invoke (Ident "add") [IntLit 2; IntLit 3]] in
  meaning safe53 1 nodes = Some ([], Ok (SNumber 5))
  ∧ ∃ m n, Compiler.compile nodes = Ok m
           ∧ ∀ k, run (n + k) (new m) = Some (Ok (VNumber 5)).
Proof.
  intros nodes. split; [vm_compute; reflexivity|].
  set (fcode := [byte Opcode.load; 1; byte Opcode.load; 2; byte Opcode.add;
                 byte Opcode.store; 0; byte Opcode.pop; byte Opcode.pop;
                 byte Opcode.return_]%Z).
  set (m := mkModule [VFunction "add" fcode; VNumber 2; VNumber 3]
              [byte Opcode.constant; 0; byte Opcode.nil; byte Opcode.constant; 1;
               byte Opcode.constant; 2; byte Opcode.load; 0; byte Opcode.invoke; 2;
               byte Opcode.return_]%Z).
  destruct (run_compiled_program nodes m) as [H _]; [reflexivity|].
  destruct (H 1 [] (Ok (SNumber 5))) as (n & vm' & Hl & Hrep & _); [vm_compute; reflexivity|].
  exists m, n. split; [reflexivity|]. intros k. destruct (Hl k) as [_ Hr].
  destruct (result vm'); cbn in Hrep; try contradiction. by rewrite Hr, Hrep.
Defined.

(** The meaning of some programs: the two end-to-end scenarios print 5 and
    have the value nil; a function passed to a function; the negation of a
    string fails; a call with more arguments than parameters has no
    meaning. *)
Example meaning_examples :
  meaning safe53 0
    [ValDecl "x" (IntLit 2); Print (Binary TokenType.plus (Ident "x") (IntLit 3))]
  = Some (["5"], Ok SNil)
  ∧ meaning safe53 1
      [FuncDecl "add" ["a"; "b"] [Binary TokenType.plus (Ident "a") (Ident "b")];
       Print (Invoke (Ident "add") [IntLit 2; IntLit 3])]
    = Some (["5"], Ok SNil)
  ∧ meaning safe53 2
      [FuncDecl "twice" ["f"; "x"] [Invoke (Ident "f") [Invoke (Ident "f") [Ident "x"]]];
       FuncDecl "inc" ["n"] [Binary TokenType.plus (Ident "n") (IntLit 1)];
       Invoke (Ident "twice") [Ident "inc"; IntLit 5]]
    = Some ([], Ok (SNumber 7))
  ∧ meaning safe53 0 [Unary TokenType.minus (StringLit "a")]
    = Some ([], Throw (NegTypeMismatch TString))
  ∧ meaning safe53 5 [FuncDecl "f" [] [IntLit 1]; Invoke (Ident "f") [IntLit 5; IntLit 6]]
    = None.
Proof. repeat split; vm_compute; reflexivity. Qed.

End RunCompiledValue.
